(** * Bimap: a bidirectional map over two treaps sharing their nodes

    Shallow embedding of [treap.h] (namespace [bimap_details]) and
    [include/bimap.h].

    Memory is explicit.  Every [treap_base_node] lives at an address of a
    finite map; a pointer is [option nat] with [None] for [nullptr].  A
    [bimap_details::node<L,R>] is one allocation with two base sub-objects
    (a [treap_node<L,Left_Tag>] and a [treap_node<R,Right_Tag>]); the two
    sub-objects of the allocation [a] are kept at the same address [a] of
    two maps, one per side, so that the [static_cast]s of [flip] keep the
    address and change the map that is read.  The two [head_node]s embedded
    in a [bimap] object at address [c] are kept the same way at [c].

    Dereferencing [nullptr] or a freed address is undefined behaviour and
    yields [Undefined]; loops and recursions carry fuel and yield
    [OutOfFuel] when it is exhausted. *)

From stdpp Require Import gmap list sorting.
From Stdlib Require Import ZArith Lia.

Set Default Proof Using "Type".

(** ** Results and the state monad of the embedding *)

Inductive result (A : Type) : Type :=
| Ok (x : A)
| Undefined
| OutOfFuel.
Arguments Ok {A} x.
Arguments Undefined {A}.
Arguments OutOfFuel {A}.

Definition M (S A : Type) : Type := S → result (A * S).

Definition ret {S A : Type} (x : A) : M S A := λ s, Ok (x, s).

Definition bind {S A B : Type} (e : M S A) (k : A → M S B) : M S B :=
  λ s, match e s with
       | Ok (x, s') => k x s'
       | Undefined => Undefined
       | OutOfFuel => OutOfFuel
       end.

Definition undefined {S A : Type} : M S A := λ _, Undefined.
Definition timeout {S A : Type} : M S A := λ _, OutOfFuel.

Notation "'let*' x ':=' e 'in' k" := (bind e (λ x, k))
  (at level 10, x pattern, e at level 100, k at level 200).
Notation "e ';;' k" := (bind e (λ _, k))
  (at level 100, k at level 200, right associativity).

(** [if (p) body] for a pointer [p]. *)
Definition when_ptr {S : Type} (p : option nat) (body : M S unit) : M S unit :=
  match p with Some _ => body | None => ret tt end.

(** ** Nodes *)

Abbreviation ptr := (option nat).

(** [treap_base_node] with the [key] of [treap_node<T,Tag>]; a
    [treap_head_node] has no key member, which is [key = None]. *)
Record treap_node (K : Type) : Type := TreapNode {
  random_key : N;
  left : ptr;
  right : ptr;
  parent : ptr;
  key : option K
}.
Arguments TreapNode {K}.
Arguments random_key {K}.
Arguments left {K}.
Arguments right {K}.
Arguments parent {K}.
Arguments key {K}.

Definition with_left {K} (v : ptr) (n : treap_node K) : treap_node K :=
  TreapNode (random_key n) v (right n) (parent n) (key n).
Definition with_right {K} (v : ptr) (n : treap_node K) : treap_node K :=
  TreapNode (random_key n) (left n) v (parent n) (key n).
Definition with_parent {K} (v : ptr) (n : treap_node K) : treap_node K :=
  TreapNode (random_key n) (left n) (right n) v (key n).

(** ** The treap engine ([struct treap<Key, Comparator, Tag>]) *)

Module treap.
Section treap.
Context {K : Type}.
(** The comparator object of the treap; a stateless predicate such as
    [std::less<Key>]. *)
Variable comparator : K → K → bool.

Abbreviation heap := (gmap nat (treap_node K)).

(** *** Memory accesses *)

Definition load (p : ptr) : M heap (treap_node K) :=
  λ m, match p with
       | Some a => match m !! a with
                   | Some n => Ok (n, m)
                   | None => Undefined
                   end
       | None => Undefined
       end.

Definition update (p : ptr) (f : treap_node K → treap_node K) : M heap unit :=
  λ m, match p with
       | Some a => match m !! a with
                   | Some n => Ok (tt, <[a := f n]> m)
                   | None => Undefined
                   end
       | None => Undefined
       end.

Definition get_left (p : ptr) : M heap ptr := let* n := load p in ret (left n).
Definition get_right (p : ptr) : M heap ptr := let* n := load p in ret (right n).
Definition get_parent (p : ptr) : M heap ptr := let* n := load p in ret (parent n).
Definition get_random_key (p : ptr) : M heap N :=
  let* n := load p in ret (random_key n).
(** [static_cast<node_t*>(p)->key]; reading the key of a head node is
    undefined. *)
Definition get_key (p : ptr) : M heap K :=
  let* n := load p in
  match key n with Some k => ret k | None => undefined end.

Definition set_left (p v : ptr) : M heap unit := update p (with_left v).
Definition set_right (p v : ptr) : M heap unit := update p (with_right v).
Definition set_parent (p v : ptr) : M heap unit := update p (with_parent v).

(** *** [split] *)

Fixpoint split (fuel : nat) (root : ptr) (k : K) : M heap (ptr * ptr) :=
  match fuel with
  | O => timeout
  | S fuel =>
    match root with
    | None => ret (None, None)
    | Some _ =>
      let* rk := get_key root in
      if comparator rk k then
        let* rr := get_right root in
        let* (l, r) := split fuel rr k in
        set_right root l ;;
        when_ptr l (set_parent l root) ;;
        when_ptr r (set_parent r None) ;;
        ret (root, r)
      else
        let* rl := get_left root in
        let* (l, r) := split fuel rl k in
        set_left root r ;;
        when_ptr r (set_parent r root) ;;
        when_ptr l (set_parent l None) ;;
        ret (l, root)
    end
  end.

(** *** [merge] *)

Fixpoint merge (fuel : nat) (t1 t2 : ptr) : M heap ptr :=
  match fuel with
  | O => timeout
  | S fuel =>
    match t1, t2 with
    | None, _ => when_ptr t2 (set_parent t2 None) ;; ret t2
    | Some _, None => when_ptr t1 (set_parent t1 None) ;; ret t1
    | Some _, Some _ =>
      let* p1 := get_random_key t1 in
      let* p2 := get_random_key t2 in
      if (p2 <? p1)%N then
        let* r1 := get_right t1 in
        let* t := merge fuel r1 t2 in
        set_right t1 t ;;
        when_ptr t (set_parent t t1) ;;
        ret t1
      else
        let* l2 := get_left t2 in
        let* t := merge fuel t1 l2 in
        set_left t2 t ;;
        when_ptr t (set_parent t t2) ;;
        ret t2
    end
  end.

(** *** Descents shared by the operations *)

(** [while (p->left) p = p->left;] *)
Fixpoint leftmost (fuel : nat) (p : ptr) : M heap ptr :=
  match fuel with
  | O => timeout
  | S fuel =>
    let* l := get_left p in
    match l with
    | Some _ => leftmost fuel l
    | None => ret p
    end
  end.

(** [while (p && p->left) p = p->left;] *)
Fixpoint leftmost_checked (fuel : nat) (p : ptr) : M heap ptr :=
  match fuel with
  | O => timeout
  | S fuel =>
    match p with
    | None => ret p
    | Some _ =>
      let* l := get_left p in
      match l with
      | Some _ => leftmost_checked fuel l
      | None => ret p
      end
    end
  end.

(** *** Iterators: [m_ptr] and [operator++] *)

Abbreviation iterator := ptr.

(** [while (temp && m_ptr == temp->right) { m_ptr = temp; temp = temp->parent; }] *)
Fixpoint climb (fuel : nat) (m_ptr temp : ptr) : M heap (ptr * ptr) :=
  match fuel with
  | O => timeout
  | S fuel =>
    match temp with
    | None => ret (m_ptr, temp)
    | Some _ =>
      let* tr := get_right temp in
      if decide (m_ptr = tr) then
        let* tp := get_parent temp in
        climb fuel temp tp
      else ret (m_ptr, temp)
    end
  end.

Definition incr (fuel : nat) (m_ptr : iterator) : M heap iterator :=
  let* par := get_parent m_ptr in
  match par with
  | None => ret m_ptr
  | Some _ =>
    let* r := get_right m_ptr in
    match r with
    | Some _ => leftmost fuel r
    | None =>
      let* (m_ptr, temp) := climb fuel m_ptr par in
      let* r := get_right m_ptr in
      if decide (r ≠ temp) then ret temp else ret m_ptr
    end
  end.

(** *** [operator--] *)

(** [while (p->right) p = p->right;] *)
Fixpoint rightmost (fuel : nat) (p : ptr) : M heap ptr :=
  match fuel with
  | O => timeout
  | S fuel =>
    let* r := get_right p in
    match r with
    | Some _ => rightmost fuel r
    | None => ret p
    end
  end.

(** [while (temp && m_ptr == temp->left) { m_ptr = temp; temp = temp->parent; }] *)
Fixpoint climb_left (fuel : nat) (m_ptr temp : ptr) : M heap (ptr * ptr) :=
  match fuel with
  | O => timeout
  | S fuel =>
    match temp with
    | None => ret (m_ptr, temp)
    | Some _ =>
      let* tl := get_left temp in
      if decide (m_ptr = tl) then
        let* tp := get_parent temp in
        climb_left fuel temp tp
      else ret (m_ptr, temp)
    end
  end.

Definition decr (fuel : nat) (m_ptr : iterator) : M heap iterator :=
  let* l := get_left m_ptr in
  match l with
  | Some _ => rightmost fuel l
  | None =>
    let* par := get_parent m_ptr in
    match par with
    | None => ret None
    | Some _ =>
      let* (m_ptr, temp) := climb_left fuel m_ptr par in
      let* l := get_left m_ptr in
      if decide (l ≠ temp) then ret temp else ret m_ptr
    end
  end.

(** [operator*] *)
Definition deref (it : iterator) : M heap K := get_key it.

(** *** The operations of the treap whose head node is at [this] *)

Variable this : nat.
Abbreviation head_node := (Some this).

Definition insert (fuel : nat) (node : ptr) : M heap iterator :=
  let* root := get_left head_node in
  let* k := get_key node in
  let* (l, r) := split fuel root k in
  let* new_left := merge fuel l node in
  let* t := merge fuel new_left r in
  set_left head_node t ;;
  set_parent t head_node ;;
  ret node.

Definition remove (fuel : nat) (k : K) : M heap iterator :=
  let* root := get_left head_node in
  let* (t1, t2) := split fuel root k in
  let* removed_node := leftmost fuel t2 in
  let* rk := get_key removed_node in
  if comparator rk k || comparator k rk then ret head_node
  else
    let* (t2, next) :=
      if decide (removed_node = t2) then
        let* rr := get_right removed_node in
        ret (rr, rr)
      else
        let* rp := get_parent removed_node in
        let* rr := get_right removed_node in
        set_left rp rr ;;
        let* rp := get_parent removed_node in
        ret (t2, rp) in
    let* rr := get_right removed_node in
    let* next :=
      match rr with
      | Some _ =>
        let* rp := get_parent removed_node in
        set_parent rr rp ;;
        get_right removed_node
      | None => ret next
      end in
    let* t := merge fuel t1 t2 in
    set_left head_node t ;;
    when_ptr t (set_parent t head_node) ;;
    match next with
    | None => ret head_node
    | Some _ => ret next
    end.

Fixpoint exist_loop (fuel : nat) (buffer : ptr) (k : K) : M heap iterator :=
  match fuel with
  | O => timeout
  | S fuel =>
    match buffer with
    | None => ret head_node
    | Some _ =>
      let* bk := get_key buffer in
      if comparator bk k then
        let* r := get_right buffer in exist_loop fuel r k
      else if comparator k bk then
        let* l := get_left buffer in exist_loop fuel l k
      else ret buffer
    end
  end.

Definition exist (fuel : nat) (k : K) : M heap iterator :=
  let* root := get_left head_node in
  exist_loop fuel root k.

Definition lower_bound (fuel : nat) (k : K) : M heap iterator :=
  let* root := get_left head_node in
  let* (t1, t2) := split fuel root k in
  let* lower_b := leftmost_checked fuel t2 in
  let* t := merge fuel t1 t2 in
  set_left head_node t ;;
  when_ptr t (set_parent t head_node) ;;
  match lower_b with
  | None => ret head_node
  | Some _ => ret lower_b
  end.

Definition upper_bound (fuel : nat) (k : K) : M heap iterator :=
  let* root := get_left head_node in
  let* (t1, t2) := split fuel root k in
  match t2 with
  | None =>
    let* t := merge fuel t1 t2 in
    set_left head_node t ;;
    when_ptr t (set_parent t head_node) ;;
    ret head_node
  | Some _ =>
    let* upper_b := leftmost_checked fuel t2 in
    let* uk := get_key upper_b in
    let* upper_b :=
      if negb (comparator uk k) && negb (comparator k uk) then
        let* up := get_parent upper_b in
        match up with
        | Some _ => ret up
        | None =>
          let* ur := get_right upper_b in
          match ur with
          | Some _ => ret ur
          | None => ret upper_b
          end
        end
      else ret upper_b in
    let* t := merge fuel t1 t2 in
    set_left head_node t ;;
    when_ptr t (set_parent t head_node) ;;
    match upper_b with
    | None => ret head_node
    | Some _ => ret upper_b
    end
  end.

Definition begin (fuel : nat) : M heap iterator :=
  let* root := get_left head_node in
  match root with
  | None => ret head_node
  | Some _ => leftmost fuel root
  end.

Definition end_ : iterator := head_node.

End treap.
End treap.

(** ** The facade ([struct bimap<Left, Right, CompareLeft, CompareRight>]) *)

Module bimap.
Section bimap.
Context {L R : Type}.
(** The comparator objects handed to the two treaps. *)
Variable compare_left : L → L → bool.
Variable compare_right : R → R → bool.
(** [operator==] of the key types, used by [operator==] of the bimap. *)
Variable eq_left : L → L → bool.
Variable eq_right : R → R → bool.
(** The value-initialised keys [left_t{}] and [right_t{}]. *)
Variable default_left : L.
Variable default_right : R.
(** The sequence of values returned by the successive calls of [rand()]. *)
Variable rand : nat → N.
(** Whether [operator new] throws [std::bad_alloc], by the number of
    addresses the allocator has handed out so far. *)
Variable bad_alloc : nat → bool.

(** The memory: the [Left_Tag] and [Right_Tag] base sub-objects, the
    [_size] members of the bimap objects, the allocator (addresses are
    handed out increasingly and never reused) and the number of calls of
    [rand()] made so far. *)
Record store : Type := Store {
  left_nodes : gmap nat (treap_node L);
  right_nodes : gmap nat (treap_node R);
  sizes : gmap nat Z;
  next_addr : nat;
  rand_calls : nat
}.

Definition on_left {A : Type} (e : M (gmap nat (treap_node L)) A) : M store A :=
  λ s, match e (left_nodes s) with
       | Ok (x, m) =>
         Ok (x, Store m (right_nodes s) (sizes s) (next_addr s) (rand_calls s))
       | Undefined => Undefined
       | OutOfFuel => OutOfFuel
       end.

Definition on_right {A : Type} (e : M (gmap nat (treap_node R)) A) : M store A :=
  λ s, match e (right_nodes s) with
       | Ok (x, m) =>
         Ok (x, Store (left_nodes s) m (sizes s) (next_addr s) (rand_calls s))
       | Undefined => Undefined
       | OutOfFuel => OutOfFuel
       end.

Definition call_rand : M store N :=
  λ s, Ok (rand (rand_calls s),
           Store (left_nodes s) (right_nodes s) (sizes s) (next_addr s)
                 (S (rand_calls s))).

Definition alloc : M store nat :=
  λ s, Ok (next_addr s,
           Store (left_nodes s) (right_nodes s) (sizes s) (S (next_addr s))
                 (rand_calls s)).

Definition put_left (a : nat) (n : treap_node L) : M store unit :=
  λ s, Ok (tt, Store (<[a := n]> (left_nodes s)) (right_nodes s) (sizes s)
                     (next_addr s) (rand_calls s)).

Definition put_right (a : nat) (n : treap_node R) : M store unit :=
  λ s, Ok (tt, Store (left_nodes s) (<[a := n]> (right_nodes s)) (sizes s)
                     (next_addr s) (rand_calls s)).

Definition put_size (a : nat) (n : Z) : M store unit :=
  λ s, Ok (tt, Store (left_nodes s) (right_nodes s) (<[a := n]> (sizes s))
                     (next_addr s) (rand_calls s)).

Definition size_t_max : Z := 2 ^ 64.

(** [size()] *)
Definition size (this : nat) : M store Z :=
  λ s, match sizes s !! this with
       | Some n => Ok (n, s)
       | None => Undefined
       end.

Definition set_size (this : nat) (n : Z) : M store unit :=
  λ s, match sizes s !! this with
       | Some _ =>
         Ok (tt, Store (left_nodes s) (right_nodes s) (<[this := n]> (sizes s))
                       (next_addr s) (rand_calls s))
       | None => Undefined
       end.

(** [empty()] *)
Definition empty (this : nat) : M store bool :=
  let* n := size this in ret (n =? 0)%Z.

(** [new node_t(left, right)]: the [Left_Tag] base is constructed first,
    each base draws its [random_key]. *)
Definition new_node (l : L) (r : R) : M store nat :=
  let* a := alloc in
  let* pl := call_rand in
  put_left a (TreapNode pl None None None (Some l)) ;;
  let* pr := call_rand in
  put_right a (TreapNode pr None None None (Some r)) ;;
  ret a.

(** [delete static_cast<node_t*>(p)] *)
Definition delete_node (p : ptr) : M store unit :=
  λ s, match p with
       | Some a =>
         match left_nodes s !! a, right_nodes s !! a with
         | Some _, Some _ =>
           Ok (tt, Store (delete a (left_nodes s)) (delete a (right_nodes s))
                         (sizes s) (next_addr s) (rand_calls s))
         | _, _ => Undefined
         end
       | None => Ok (tt, s)
       end.

(** *** Iterators *)

Inductive left_iterator : Type := LeftIt (it : ptr).
Inductive right_iterator : Type := RightIt (it : ptr).

Definition left_ptr (i : left_iterator) : ptr := let (p) := i in p.
Definition right_ptr (i : right_iterator) : ptr := let (p) := i in p.

#[export] Instance left_iterator_eq_dec : EqDecision left_iterator.
Proof. solve_decision. Defined.
#[export] Instance right_iterator_eq_dec : EqDecision right_iterator.
Proof. solve_decision. Defined.

(** [flip]: the two casts go from one base sub-object of the allocation
    to the other one. *)
Definition flip_left (i : left_iterator) : right_iterator := RightIt (left_ptr i).
Definition flip_right (i : right_iterator) : left_iterator := LeftIt (right_ptr i).

Definition deref_left (i : left_iterator) : M store L :=
  on_left (treap.deref (left_ptr i)).
Definition deref_right (i : right_iterator) : M store R :=
  on_right (treap.deref (right_ptr i)).

Definition incr_left (fuel : nat) (i : left_iterator) : M store left_iterator :=
  let* p := on_left (treap.incr fuel (left_ptr i)) in ret (LeftIt p).
Definition incr_right (fuel : nat) (i : right_iterator) : M store right_iterator :=
  let* p := on_right (treap.incr fuel (right_ptr i)) in ret (RightIt p).

Definition decr_left (fuel : nat) (i : left_iterator) : M store left_iterator :=
  let* p := on_left (treap.decr fuel (left_ptr i)) in ret (LeftIt p).
Definition decr_right (fuel : nat) (i : right_iterator) : M store right_iterator :=
  let* p := on_right (treap.decr fuel (right_ptr i)) in ret (RightIt p).

(** *** Constructor *)

(** [bimap(compare_left, compare_right)]; the object is placed at a fresh
    address, which is returned. *)
Definition construct : M store nat :=
  let* c := alloc in
  let* pl := call_rand in
  put_left c (TreapNode pl None None None None) ;;
  let* pr := call_rand in
  put_right c (TreapNode pr None None None None) ;;
  put_size c 0 ;;
  ret c.

(** *** The operations of the bimap object at [this] *)

Section methods.
Variable this : nat.

Definition begin_left (fuel : nat) : M store left_iterator :=
  let* p := on_left (treap.begin this fuel) in ret (LeftIt p).
Definition end_left : left_iterator := LeftIt (treap.end_ this).
Definition begin_right (fuel : nat) : M store right_iterator :=
  let* p := on_right (treap.begin this fuel) in ret (RightIt p).
Definition end_right : right_iterator := RightIt (treap.end_ this).

Definition find_left (fuel : nat) (l : L) : M store left_iterator :=
  let* p := on_left (treap.exist compare_left this fuel l) in ret (LeftIt p).
Definition find_right (fuel : nat) (r : R) : M store right_iterator :=
  let* p := on_right (treap.exist compare_right this fuel r) in ret (RightIt p).

Definition insert (fuel : nat) (l : L) (r : R) : M store left_iterator :=
  let* e := empty this in
  let* taken :=
    if negb e then
      let* li := find_left fuel l in
      if decide (li ≠ end_left) then ret true
      else
        let* ri := find_right fuel r in
        ret (bool_decide (ri ≠ end_right))
    else ret false in
  if taken then ret end_left
  else
    let* p := new_node l r in
    let* l_it := on_left (treap.insert compare_left this fuel (Some p)) in
    on_right (treap.insert compare_right this fuel (Some p)) ;;
    let* n := size this in
    set_size this ((n + 1) mod size_t_max) ;;
    ret (LeftIt l_it).

(** [erase_left(left_iterator it)] *)
Definition erase_left (fuel : nat) (it : left_iterator) : M store left_iterator :=
  let current_it := it in
  let* it := incr_left fuel it in
  let* l := deref_left current_it in
  on_left (treap.remove compare_left this fuel l) ;;
  let* r := deref_right (flip_left current_it) in
  on_right (treap.remove compare_right this fuel r) ;;
  delete_node (left_ptr current_it) ;;
  let* n := size this in
  set_size this ((n - 1) mod size_t_max) ;;
  ret it.

(** [erase_left(left_t const& left)] *)
Definition erase_left_key (fuel : nat) (l : L) : M store bool :=
  let* it := find_left fuel l in
  if decide (it = end_left) then ret false
  else erase_left fuel it ;; ret true.

(** [erase_right(right_iterator it)] *)
Definition erase_right (fuel : nat) (it : right_iterator) : M store right_iterator :=
  let current_it := it in
  let* it := incr_right fuel it in
  let* r := deref_right current_it in
  on_right (treap.remove compare_right this fuel r) ;;
  let* l := deref_left (flip_right current_it) in
  on_left (treap.remove compare_left this fuel l) ;;
  delete_node (right_ptr current_it) ;;
  let* n := size this in
  set_size this ((n - 1) mod size_t_max) ;;
  ret it.

(** [erase_right(right_t const& right)] *)
Definition erase_right_key (fuel : nat) (r : R) : M store bool :=
  let* it := find_right fuel r in
  if decide (it = end_right) then ret false
  else erase_right fuel it ;; ret true.

(** [erase_left(first, last)]; [count] bounds the iterations of the loop. *)
Fixpoint erase_left_range (count fuel : nat) (first last : left_iterator)
  : M store left_iterator :=
  match count with
  | O => timeout
  | S count =>
    if decide (first ≠ last) then
      let* first := erase_left fuel first in
      erase_left_range count fuel first last
    else ret last
  end.

Fixpoint erase_right_range (count fuel : nat) (first last : right_iterator)
  : M store right_iterator :=
  match count with
  | O => timeout
  | S count =>
    if decide (first ≠ last) then
      let* first := erase_right fuel first in
      erase_right_range count fuel first last
    else ret last
  end.

(** [at_left] and [at_right]; [None] stands for the [std::out_of_range]
    that is thrown. *)
Definition at_left (fuel : nat) (k : L) : M store (option R) :=
  let* it := find_left fuel k in
  if decide (it = end_left) then ret None
  else let* r := deref_right (flip_left it) in ret (Some r).

Definition at_right (fuel : nat) (k : R) : M store (option L) :=
  let* it := find_right fuel k in
  if decide (it = end_right) then ret None
  else let* l := deref_left (flip_right it) in ret (Some l).

Definition at_left_or_default (fuel : nat) (k : L) : M store R :=
  let* it := find_left fuel k in
  if decide (it ≠ end_left) then deref_right (flip_left it)
  else
    let dflt := default_right in
    let* it := find_right fuel dflt in
    (if decide (it ≠ end_right) then erase_right fuel it ;; ret tt else ret tt) ;;
    let* i := insert fuel k dflt in
    deref_right (flip_left i).

Definition at_right_or_default (fuel : nat) (k : R) : M store L :=
  let* it := find_right fuel k in
  if decide (it ≠ end_right) then deref_left (flip_right it)
  else
    let dflt := default_left in
    let* it := find_left fuel dflt in
    (if decide (it ≠ end_left) then erase_left fuel it ;; ret tt else ret tt) ;;
    let* i := insert fuel dflt k in
    deref_left i.

Definition lower_bound_left (fuel : nat) (l : L) : M store left_iterator :=
  let* p := on_left (treap.lower_bound compare_left this fuel l) in ret (LeftIt p).
Definition upper_bound_left (fuel : nat) (l : L) : M store left_iterator :=
  let* p := on_left (treap.upper_bound compare_left this fuel l) in ret (LeftIt p).
Definition lower_bound_right (fuel : nat) (r : R) : M store right_iterator :=
  let* p := on_right (treap.lower_bound compare_right this fuel r) in ret (RightIt p).
Definition upper_bound_right (fuel : nat) (r : R) : M store right_iterator :=
  let* p := on_right (treap.upper_bound compare_right this fuel r) in ret (RightIt p).

(** [clear()] *)
Definition clear (count fuel : nat) : M store unit :=
  let* b := begin_left fuel in
  erase_left_range count fuel b end_left ;;
  ret tt.

End methods.

(** *** Copy, move, swap and comparison *)

(** [new node_t(left, right)] inside a [try] block: [None] is the
    exception [std::bad_alloc], thrown before anything is allocated. *)
Definition try_new_node (l : L) (r : R) : M store (option nat) :=
  λ s, if bad_alloc (next_addr s) then Ok (None, s)
       else (let* p := new_node l r in ret (Some p)) s.

(** [insert(left, right)] as the [try] blocks of the copy constructor
    and of the copy assignment call it: [None] is the exception that
    [new node_t] throws, which leaves [insert] before the treaps and
    [_size] are touched.  The comparators and the copies of the keys do
    not throw. *)
Definition insert_or_throw (this : nat) (fuel : nat) (l : L) (r : R)
  : M store (option left_iterator) :=
  let* e := empty this in
  let* taken :=
    if negb e then
      let* li := find_left this fuel l in
      if decide (li ≠ end_left this) then ret true
      else
        let* ri := find_right this fuel r in
        ret (bool_decide (ri ≠ end_right this))
    else ret false in
  if taken then ret (Some (end_left this))
  else
    let* p := try_new_node l r in
    match p with
    | None => ret None
    | Some p =>
      let* l_it := on_left (treap.insert compare_left this fuel (Some p)) in
      on_right (treap.insert compare_right this fuel (Some p)) ;;
      let* n := size this in
      set_size this ((n + 1) mod size_t_max) ;;
      ret (Some (LeftIt l_it))
    end.

(** The loop of the copy constructor and of the copy assignment:
    [for (it = other.begin_left(); it != other.end_left(); ++it)
       try { insert( *it, *it.flip()); } catch (...) { clear(); break; }].
    [steps] bounds the iterations of this loop, [count] those of the
    loop of [clear]. *)
Fixpoint copy_loop (steps count fuel : nat) (this other : nat) (it : left_iterator)
  : M store unit :=
  match steps with
  | O => timeout
  | S steps =>
    if decide (it ≠ end_left other) then
      let* l := deref_left it in
      let* r := deref_right (flip_left it) in
      let* inserted := insert_or_throw this fuel l r in
      match inserted with
      | None => clear this count fuel
      | Some _ =>
        let* it := incr_left fuel it in
        copy_loop steps count fuel this other it
      end
    else ret tt
  end.

(** [bimap(bimap const& other)]: both treaps are copy-constructed with an
    empty head node, [_size] is [0]. *)
Definition copy_construct (count fuel : nat) (other : nat) : M store nat :=
  let* this := construct in
  let* it := begin_left other fuel in
  copy_loop count count fuel this other it ;;
  ret this.

(** [operator=(bimap const& other)]; [treap::operator=(const treap&)]
    assigns the comparator only. *)
Definition copy_assign (count fuel : nat) (this other : nat) : M store unit :=
  let* same := if decide (this = other) then ret true else empty other in
  if same then ret tt
  else
    clear this count fuel ;;
    let* it := begin_left other fuel in
    copy_loop count count fuel this other it.

(** [treap(treap&& other)]: [head_node(other.head_node)] copies the head
    node, then [other.head_node.left = nullptr]. *)
Definition treap_move_construct {K : Type} (this other : nat)
  : M (gmap nat (treap_node K)) unit :=
  let* h := treap.load (Some other) in
  (λ m, Ok (tt, <[this := h]> m)) ;;
  treap.set_left (Some other) None.

(** [treap::operator=(treap&& other)] *)
Definition treap_move_assign {K : Type} (this other : nat)
  : M (gmap nat (treap_node K)) unit :=
  let* root := treap.get_left (Some other) in
  treap.set_left (Some this) root ;;
  treap.set_left (Some other) None.

(** [treap::swap] *)
Definition treap_swap {K : Type} (this other : nat)
  : M (gmap nat (treap_node K)) unit :=
  let* root := treap.get_left (Some this) in
  let* oroot := treap.get_left (Some other) in
  treap.set_left (Some this) oroot ;;
  let* l := treap.get_left (Some this) in
  when_ptr l (treap.set_parent l (Some this)) ;;
  treap.set_left (Some other) root ;;
  let* l := treap.get_left (Some other) in
  when_ptr l (treap.set_parent l (Some other)).

(** [bimap(bimap&& other)] *)
Definition move_construct (other : nat) : M store nat :=
  let* this := alloc in
  let* n := size other in
  put_size this n ;;
  on_left (treap_move_construct this other) ;;
  on_right (treap_move_construct this other) ;;
  ret this.

(** [operator=(bimap&& other)] *)
Definition move_assign (count fuel : nat) (this other : nat) : M store unit :=
  let* same := if decide (this = other) then ret true else empty other in
  if same then ret tt
  else
    clear this count fuel ;;
    let* n := size other in
    set_size this n ;;
    on_left (treap_move_assign this other) ;;
    on_right (treap_move_assign this other).

(** [swap(bimap& other)] *)
Definition swap (this other : nat) : M store unit :=
  on_left (treap_swap this other) ;;
  on_right (treap_swap this other).

(** The loop of [operator==]. *)
Fixpoint equal_loop (count fuel : nat) (left right : nat)
    (buffer_left buffer_right : left_iterator) : M store bool :=
  match count with
  | O => timeout
  | S count =>
    if bool_decide (buffer_left ≠ end_left left)
       && bool_decide (buffer_right ≠ end_left right) then
      let* l1 := deref_left buffer_left in
      let* l2 := deref_left buffer_right in
      let* same :=
        if eq_left l1 l2 then
          let* r1 := deref_right (flip_left buffer_left) in
          let* r2 := deref_right (flip_left buffer_right) in
          ret (eq_right r1 r2)
        else ret false in
      if same then
        let* buffer_left := incr_left fuel buffer_left in
        let* buffer_right := incr_left fuel buffer_right in
        equal_loop count fuel left right buffer_left buffer_right
      else ret false
    else ret true
  end.

(** [operator==(bimap const& left, bimap const& right)] *)
Definition equal (count fuel : nat) (left right : nat) : M store bool :=
  let* n1 := size left in
  let* n2 := size right in
  if negb (n1 =? n2)%Z then ret false
  else
    let* buffer_left := begin_left left fuel in
    let* buffer_right := begin_left right fuel in
    equal_loop count fuel left right buffer_left buffer_right.

(** [operator!=(bimap const& left, bimap const& right)] *)
Definition not_equal (count fuel : nat) (left right : nat) : M store bool :=
  let* b := equal count fuel left right in ret (negb b).

End bimap.
End bimap.

(** ** Abstract shape of a treap

    The tree of nodes reachable from a root pointer, each node with its
    address, its priority and its key. *)

Module shape.
Section shape.
Context {K : Type}.
Variable comparator : K → K → bool.

Record item : Type := Item { addr : nat; prio : N; ikey : K }.

Inductive tree : Type :=
| Leaf
| Bin (l : tree) (x : item) (r : tree).

Definition root (t : tree) : ptr :=
  match t with Leaf => None | Bin _ x _ => Some (addr x) end.

(** In-order sequence of the nodes. *)
Fixpoint items (t : tree) : list item :=
  match t with
  | Leaf => []
  | Bin l x r => items l ++ x :: items r
  end.

Definition addrs (t : tree) : list nat := addr <$> items t.

Fixpoint height (t : tree) : nat :=
  match t with
  | Leaf => 0
  | Bin l _ r => S (height l `max` height r)
  end.

(** [is_tree m q t]: the memory [m] holds the tree [t], whose root has
    the parent pointer [q]. *)
Fixpoint is_tree (m : gmap nat (treap_node K)) (q : ptr) (t : tree) : Prop :=
  match t with
  | Leaf => True
  | Bin l x r =>
    m !! addr x = Some (TreapNode (prio x) (root l) (root r) q (Some (ikey x)))
    ∧ is_tree m (Some (addr x)) l
    ∧ is_tree m (Some (addr x)) r
  end.

(** The treap whose head node is at [c] holds the tree [t]. *)
Definition is_treap (m : gmap nat (treap_node K)) (c : nat) (t : tree) : Prop :=
  (∃ p, m !! c = Some (TreapNode p (root t) None None None))
  ∧ is_tree m (Some c) t
  ∧ NoDup (addrs t).

(** Keys in strictly increasing order of the comparator. *)
Definition lt (x y : K) : Prop := comparator x y = true.
Definition equiv_key (x y : K) : Prop :=
  comparator x y = false ∧ comparator y x = false.
Definition item_lt (x y : item) : Prop := lt (ikey x) (ikey y).
Definition bst (t : tree) : Prop := StronglySorted item_lt (items t).

(** Max-heap on the priorities. *)
Fixpoint heap_ordered (t : tree) : Prop :=
  match t with
  | Leaf => True
  | Bin l x r =>
    Forall (λ y, (prio y <= prio x)%N) (items l)
    ∧ Forall (λ y, (prio y <= prio x)%N) (items r)
    ∧ heap_ordered l ∧ heap_ordered r
  end.

(** The memories [m] and [m'] agree outside the addresses [A]. *)
Definition same_outside (A : list nat) (m m' : gmap nat (treap_node K)) : Prop :=
  ∀ a, a ∉ A → m' !! a = m !! a.

(** The operation [e] frees no cell. *)
Definition keeps {A : Type} (e : M (gmap nat (treap_node K)) A) : Prop :=
  ∀ m x m', e m = Ok (x, m') → ∀ b, is_Some (m !! b) → is_Some (m' !! b).

(** The iterator that designates the first node of a sequence, the end
    iterator [c] when there is none. *)
Definition first_ptr (c : nat) (xs : list item) : ptr :=
  match xs with
  | [] => Some c
  | x :: _ => Some (addr x)
  end.

(** *** The operations on shapes *)

Fixpoint tsplit (t : tree) (k : K) : tree * tree :=
  match t with
  | Leaf => (Leaf, Leaf)
  | Bin l x r =>
    if comparator (ikey x) k then
      let (rl, rr) := tsplit r k in (Bin l x rl, rr)
    else
      let (ll, lr) := tsplit l k in (ll, Bin lr x r)
  end.

Fixpoint tmerge (t1 : tree) : tree → tree :=
  fix go (t2 : tree) : tree :=
    match t1, t2 with
    | Leaf, _ => t2
    | _, Leaf => t1
    | Bin l1 x1 r1, Bin l2 x2 r2 =>
      if (prio x2 <? prio x1)%N then Bin l1 x1 (tmerge r1 t2)
      else Bin (go l2) x2 r2
    end.

Definition tinsert (t : tree) (x : item) : tree :=
  let (l, r) := tsplit t (ikey x) in
  tmerge (tmerge l (Bin Leaf x Leaf)) r.

(** The leftmost node and the tree without it. *)
Fixpoint tmin (t : tree) : option item :=
  match t with
  | Leaf => None
  | Bin Leaf x _ => Some x
  | Bin l _ _ => tmin l
  end.

Fixpoint tdrop_min (t : tree) : tree :=
  match t with
  | Leaf => Leaf
  | Bin Leaf _ r => r
  | Bin l x r => Bin (tdrop_min l) x r
  end.

Definition tremove (t : tree) (k : K) : tree :=
  let (l, r) := tsplit t k in tmerge l (tdrop_min r).

Fixpoint tfind (t : tree) (k : K) : option item :=
  match t with
  | Leaf => None
  | Bin l x r =>
    if comparator (ikey x) k then tfind r k
    else if comparator k (ikey x) then tfind l k
    else Some x
  end.

End shape.
End shape.

(** ** The pairs held by a bimap *)

Module contents.
Import shape bimap.
Section contents.
Context {L R : Type}.
Variable compare_left : L → L → bool.
Variable compare_right : R → R → bool.

(** One [node<L,R>]: its address, the priorities of its two bases and
    the pair it stores. *)
Record entry : Type := Entry {
  e_addr : nat;
  e_lprio : N;
  e_rprio : N;
  e_left : L;
  e_right : R
}.

Definition left_item (e : entry) : item := Item (e_addr e) (e_lprio e) (e_left e).
Definition right_item (e : entry) : item := Item (e_addr e) (e_rprio e) (e_right e).
Definition pair_of (e : entry) : L * R := (e_left e, e_right e).

(** [holds s c es]: in the memory [s], the bimap object at [c] stores
    the nodes [es], listed in the order of the left treap; both treaps
    are search trees over these nodes and [_size] is their number. *)
Definition holds (s : store) (c : nat) (es : list entry) : Prop :=
  ∃ tl tr,
    is_treap (left_nodes s) c tl
    ∧ is_treap (right_nodes s) c tr
    ∧ items tl = left_item <$> es
    ∧ items tr ≡ₚ right_item <$> es
    ∧ bst compare_left tl
    ∧ bst compare_right tr
    ∧ sizes s !! c = Some (Z.of_nat (length es))
    ∧ (Z.of_nat (length es) < size_t_max)%Z.

(** Every allocated address is below the next address of the allocator. *)
Definition allocated_below (s : store (L:=L) (R:=R)) : Prop :=
  ∀ a, is_Some (left_nodes s !! a) ∨ is_Some (right_nodes s !! a)
       ∨ is_Some (sizes s !! a) → a < next_addr s.

(** What an operation on the bimap at [c] leaves alone: the cells
    outside [c] and [touched], and the sizes of the other bimaps. *)
Definition frame (c : nat) (touched : list nat) (s s' : store (L:=L) (R:=R)) : Prop :=
  same_outside (c :: touched) (left_nodes s) (left_nodes s')
  ∧ same_outside (c :: touched) (right_nodes s) (right_nodes s')
  ∧ (∀ c', c' ≠ c → sizes s' !! c' = sizes s !! c').

(** What is allocated below the next address and is neither the bimap
    [c] nor one of its nodes [es] is the same in [s] and [s']. *)
Definition others_kept (c : nat) (es : list entry) (s s' : store (L:=L) (R:=R)) : Prop :=
  ∀ a, a ≠ c → a ∉ e_addr <$> es → a < next_addr s →
       left_nodes s' !! a = left_nodes s !! a
       ∧ right_nodes s' !! a = right_nodes s !! a
       ∧ sizes s' !! a = sizes s !! a.

Definition equiv_left (x y : L) : Prop := equiv_key compare_left x y.
Definition equiv_right (x y : R) : Prop := equiv_key compare_right x y.

End contents.
End contents.

(** ** Building a bimap from a list of pairs *)

Module building.
Import bimap contents.
Section building.
Context {L R : Type}.
Variable compare_left : L → L → bool.
Variable compare_right : R → R → bool.
Variable eq_left : L → L → bool.
Variable eq_right : R → R → bool.
Variable rand : nat → N.

(** The client loop [for (auto [l, r] : ps) b.insert(l, r);]. *)
Fixpoint insert_all (c fuel : nat) (ps : list (L * R)) : M (store (L:=L) (R:=R)) unit :=
  match ps with
  | [] => ret tt
  | (l, r) :: ps =>
    insert compare_left compare_right rand c fuel l r ;;
    insert_all c fuel ps
  end.

(** No two pairs of the list have equivalent left keys or equivalent
    right keys. *)
Definition clash (p q : L * R) : Prop :=
  equiv_left compare_left p.1 q.1 ∨ equiv_right compare_right p.2 q.2.

Fixpoint distinct_keys (ps : list (L * R)) : Prop :=
  match ps with
  | [] => True
  | p :: ps => Forall (λ q, ¬ clash p q) ps ∧ distinct_keys ps
  end.

(** What the loop of [operator==] computes on two sequences of nodes. *)
Fixpoint same_pairs (es1 es2 : list (entry (L:=L) (R:=R))) : bool :=
  match es1, es2 with
  | e1 :: es1, e2 :: es2 =>
    if eq_left (e_left e1) (e_left e2) then
      if eq_right (e_right e1) (e_right e2) then same_pairs es1 es2
      else false
    else false
  | _, _ => true
  end.

End building.
End building.

(** ** A bimap of natural numbers *)

Module example.
Import shape bimap contents building.

(** The result of a run without the final memory. *)
Definition outcome {S A : Type} (r : result (A * S)) : result A :=
  match r with
  | Ok (x, _) => Ok x
  | Undefined => Undefined
  | OutOfFuel => OutOfFuel
  end.

Definition final {S A : Type} (d : S) (r : result (A * S)) : S :=
  match r with
  | Ok (_, s) => s
  | _ => d
  end.

(** A sequence of values of [rand()]: decreasing, so that of two nodes
    the one allocated first has the higher priority. *)
Definition rnd (i : nat) : N := N.of_nat (100 - i).

Definition empty_store : store (L:=nat) (R:=nat) := Store ∅ ∅ ∅ 0 0.

Definition insert := bimap.insert Nat.ltb Nat.ltb rnd.

(** The memory after [bimap b;]. *)
Definition no_pair : store (L:=nat) (R:=nat) :=
  Eval vm_compute in final empty_store (construct rnd empty_store).

(** The memory after [bimap b; b.insert(1, 10);] and after
    [bimap b; b.insert(5, 0);]. *)
Definition one_pair : store (L:=nat) (R:=nat) :=
  Eval vm_compute in
    final empty_store ((let* b := construct rnd in insert b 10 1 10) empty_store).

Definition default_pair : store (L:=nat) (R:=nat) :=
  Eval vm_compute in
    final empty_store ((let* b := construct rnd in insert b 10 5 0) empty_store).

(** The memory after [bimap a; a.insert(1, 10); bimap b;]: [a] is at
    [0], [b] at [2]. *)
Definition two_objects : store (L:=nat) (R:=nat) :=
  Eval vm_compute in
    final empty_store
      ((let* a := construct rnd in
        insert a 10 1 10 ;;
        construct rnd) empty_store).

(** The treap with the keys [1] (root) and [3] (its right child) whose
    head node is at [0]. *)
Definition treap_1_3 : gmap nat (treap_node nat) :=
  <[2 := TreapNode 5 None None (Some 1) (Some 3)]>
    (<[1 := TreapNode 10 None (Some 2) (Some 0) (Some 1)]>
       (<[0 := TreapNode 0 (Some 1) None None None]> ∅)).

Definition tree_1_3 : tree (K:=nat) :=
  Bin Leaf (Item 1 10 1) (Bin Leaf (Item 2 5 3) Leaf).

(** The same treap with a node of key [2] at [3] that is not linked
    yet, and with a second one of key [7] at [4]. *)
Definition treap_1_3_and_nodes : gmap nat (treap_node nat) :=
  <[4 := TreapNode 8 None None None (Some 7)]>
    (<[3 := TreapNode 7 None None None (Some 2)]> treap_1_3).

(** The memory after [bimap b; b.insert(1, 20); b.insert(2, 10);] and
    the two nodes of [b]. *)
Definition two_pairs : store (L:=nat) (R:=nat) :=
  Eval vm_compute in
    final empty_store
      ((let* b := construct rnd in insert b 10 1 20 ;; insert b 10 2 10)
         empty_store).

Definition node_1_20 : entry (L:=nat) (R:=nat) := Entry 1 98 97 1 20.
Definition node_2_10 : entry (L:=nat) (R:=nat) := Entry 2 96 95 2 10.
Definition node_1_10 : entry (L:=nat) (R:=nat) := Entry 1 98 97 1 10.

(** The memory after [bimap a; a.insert(1, 10); bimap b; b.insert(5, 50);]:
    [a] is at [0] and [b] at [2], each with one node. *)
Definition two_bimaps : store (L:=nat) (R:=nat) :=
  Eval vm_compute in
    final empty_store
      ((let* a := construct rnd in
        insert a 10 1 10 ;;
        let* b := construct rnd in
        insert b 10 5 50) empty_store).

Definition node_5_50 : entry (L:=nat) (R:=nat) := Entry 3 94 93 5 50.

(** An allocator that never fails, and one that fails when [n]
    addresses have been handed out. *)
Definition enough_memory (i : nat) : bool := false.
Definition memory_for (n i : nat) : bool := i =? n.

End example.

(** * Proofs *)

(** ** The monad *)

Lemma bind_ok {S A B : Type} (e : M S A) (k : A → M S B) s x s' :
  e s = Ok (x, s') → bind e k s = k x s'.
Proof. intros H. unfold bind. by rewrite H. Qed.

Lemma bind_inv {S A B : Type} (e : M S A) (k : A → M S B) s y s'' :
  bind e k s = Ok (y, s'') → ∃ x s', e s = Ok (x, s') ∧ k x s' = Ok (y, s'').
Proof.
  unfold bind. destruct (e s) as [[x s']| |]; [|done..]. eauto.
Qed.

Lemma bind_assoc {S A B C : Type} (e : M S A) (k1 : A → M S B) (k2 : B → M S C) s :
  bind (bind e k1) k2 s = bind e (λ x, bind (k1 x) k2) s.
Proof. unfold bind. by destruct (e s) as [[x s']| |]. Qed.

(** ** The treap engine on shapes *)

Module treap_facts.
Import treap shape.
Section treap_facts.
Context {K : Type}.
Variable comparator : K → K → bool.

Implicit Types (m : gmap nat (treap_node K)) (t l r : tree (K:=K)) (q : ptr).

(** *** Memory accesses *)

Section access.
Variables (m : gmap nat (treap_node K)) (a : nat) (n : treap_node K).
Hypothesis Hn : m !! a = Some n.

Lemma get_left_ok : get_left (Some a) m = Ok (left n, m).
Proof using Hn. unfold get_left, bind, load. by rewrite Hn. Qed.
Lemma get_right_ok : get_right (Some a) m = Ok (right n, m).
Proof using Hn. unfold get_right, bind, load. by rewrite Hn. Qed.
Lemma get_parent_ok : get_parent (Some a) m = Ok (parent n, m).
Proof using Hn. unfold get_parent, bind, load. by rewrite Hn. Qed.
Lemma get_random_key_ok : get_random_key (Some a) m = Ok (random_key n, m).
Proof using Hn. unfold get_random_key, bind, load. by rewrite Hn. Qed.
Lemma get_key_ok k : key n = Some k → get_key (Some a) m = Ok (k, m).
Proof using Hn. intros Hk. unfold get_key, bind, load. by rewrite Hn, Hk. Qed.
Lemma set_left_ok v :
  set_left (Some a) v m = Ok (tt, <[a := with_left v n]> m).
Proof using Hn. unfold set_left, update. by rewrite Hn. Qed.
Lemma set_right_ok v :
  set_right (Some a) v m = Ok (tt, <[a := with_right v n]> m).
Proof using Hn. unfold set_right, update. by rewrite Hn. Qed.
Lemma set_parent_ok v :
  set_parent (Some a) v m = Ok (tt, <[a := with_parent v n]> m).
Proof using Hn. unfold set_parent, update. by rewrite Hn. Qed.
End access.

(** *** Shapes *)

Lemma addrs_bin l x r : addrs (Bin l x r) = addrs l ++ addr x :: addrs r.
Proof. unfold addrs. simpl. by rewrite fmap_app. Qed.

Lemma root_in_addrs t a : root t = Some a → a ∈ addrs t.
Proof.
  destruct t as [|l x r]; [done|]. simpl. intros [= <-].
  rewrite addrs_bin. set_solver.
Qed.

Lemma NoDup_bin l x r :
  NoDup (addrs (Bin l x r)) ↔
  NoDup (addrs l) ∧ NoDup (addrs r) ∧ addr x ∉ addrs l ∧ addr x ∉ addrs r
  ∧ (∀ a, a ∈ addrs l → a ∉ addrs r).
Proof.
  rewrite addrs_bin, NoDup_app, NoDup_cons. set_solver.
Qed.

Lemma is_tree_frame m m' q t :
  (∀ a, a ∈ addrs t → m' !! a = m !! a) → is_tree m q t → is_tree m' q t.
Proof.
  revert q. induction t as [|l IHl x r IHr]; intros q Hf; [done|].
  simpl. intros (Hx & Hl & Hr). setoid_rewrite addrs_bin in Hf.
  split_and!.
  - rewrite Hf; [done|set_solver].
  - apply IHl; [|done]. intros; apply Hf; set_solver.
  - apply IHr; [|done]. intros; apply Hf; set_solver.
Qed.

(** [if (t) t->parent = q'] on the root of a tree. *)
Lemma reparent_spec m q q' t :
  is_tree m q t → NoDup (addrs t) →
  ∃ m', when_ptr (root t) (set_parent (root t) q') m = Ok (tt, m')
        ∧ is_tree m' q' t
        ∧ (∀ a, root t ≠ Some a → m' !! a = m !! a).
Proof.
  destruct t as [|l x r]; simpl.
  - intros _ _. exists m. done.
  - intros (Hx & Hl & Hr) (Hdl & Hdr & Hxl & Hxr & Hlr)%NoDup_bin.
    eexists. split; [by apply set_parent_ok|]. split_and!.
    + by rewrite lookup_insert_eq.
    + eapply is_tree_frame; [|done]. intros a Ha.
      rewrite lookup_insert_ne; [done|]. intros <-. done.
    + eapply is_tree_frame; [|done]. intros a Ha.
      rewrite lookup_insert_ne; [done|]. intros <-. done.
    + intros a Ha. rewrite lookup_insert_ne; [done|]. congruence.
Qed.

Lemma tsplit_items t k :
  items (tsplit comparator t k).1 ++ items (tsplit comparator t k).2 = items t.
Proof.
  induction t as [|l IHl x r IHr]; [done|]. simpl.
  destruct (comparator (ikey x) k).
  - destruct (tsplit comparator r k) as [rl rr]. simpl in *.
    by rewrite <- IHr, <- app_assoc.
  - destruct (tsplit comparator l k) as [ll lr]. simpl in *.
    by rewrite <- IHl, <- app_assoc.
Qed.

Lemma tsplit_addrs t k :
  addrs (tsplit comparator t k).1 ++ addrs (tsplit comparator t k).2 = addrs t.
Proof. unfold addrs. by rewrite <- fmap_app, tsplit_items. Qed.

Lemma tsplit_elem t k a :
  a ∈ addrs t ↔
  a ∈ addrs (tsplit comparator t k).1 ∨ a ∈ addrs (tsplit comparator t k).2.
Proof. by rewrite <- (tsplit_addrs t k), elem_of_app. Qed.

Lemma tsplit_NoDup t k :
  NoDup (addrs t) →
  NoDup (addrs (tsplit comparator t k).1)
  ∧ NoDup (addrs (tsplit comparator t k).2)
  ∧ (∀ a, a ∈ addrs (tsplit comparator t k).1 →
          a ∉ addrs (tsplit comparator t k).2).
Proof. rewrite <- (tsplit_addrs t k), NoDup_app. tauto. Qed.

Lemma split_spec k t : ∀ fuel m q,
  is_tree m q t → NoDup (addrs t) → height t < fuel →
  ∃ m' q1 q2,
    split comparator fuel (root t) k m
    = Ok ((root (tsplit comparator t k).1, root (tsplit comparator t k).2), m')
    ∧ is_tree m' q1 (tsplit comparator t k).1
    ∧ is_tree m' q2 (tsplit comparator t k).2
    ∧ same_outside (addrs t) m m'.
Proof.
  induction t as [|l IHl x r IHr]; intros fuel m q Ht Hnd Hfuel;
    (destruct fuel as [|fuel]; [simpl in Hfuel; lia|]).
  - exists m, None, None. simpl. done.
  - simpl in Ht, Hfuel. destruct Ht as (Hx & Hl & Hr).
    pose proof Hnd as (Hdl & Hdr & Hxl & Hxr & Hlr)%NoDup_bin.
    pose proof (tsplit_elem l k) as Hal.
    pose proof (tsplit_elem r k) as Har.
    pose proof (tsplit_NoDup l k Hdl) as (Hdll & Hdlr & Hllr).
    pose proof (tsplit_NoDup r k Hdr) as (Hdrl & Hdrr & Hrlr).
    cbn [split tsplit root].
    erewrite bind_ok by (eapply get_key_ok; [exact Hx|done]).
    destruct (comparator (ikey x) k) eqn:Hc.
    + destruct (IHr fuel m (Some (addr x)) Hr Hdr ltac:(lia))
        as (m1 & q1 & q2 & Hrun & Hrl & Hrr & Hf1).
      clear IHl IHr.
      destruct (tsplit comparator r k) as [rl rr]. simpl in *.
      erewrite bind_ok by (eapply get_right_ok; exact Hx). simpl.
      erewrite bind_ok by exact Hrun. cbv beta iota.
      assert (m1 !! addr x = m !! addr x) as Hx1 by (apply Hf1; done).
      rewrite Hx in Hx1.
      erewrite bind_ok by (eapply set_right_ok; exact Hx1).
      set (m2 := <[addr x := _]> m1).
      assert (is_tree m2 q1 rl) as Hrl2.
      { eapply is_tree_frame; [|done]. intros a Ha. unfold m2.
        rewrite lookup_insert_ne; [done|]. intros <-. set_solver. }
      destruct (reparent_spec m2 q1 (Some (addr x)) rl Hrl2 Hdrl)
        as (m3 & Hrun3 & Hrl3 & Hf3).
      erewrite bind_ok by exact Hrun3.
      assert (is_tree m3 q2 rr) as Hrr3.
      { eapply is_tree_frame; [|done]. intros a Ha.
        rewrite Hf3.
        - unfold m2. rewrite lookup_insert_ne; [done|]. intros <-. set_solver.
        - intros Hroot%root_in_addrs. set_solver. }
      destruct (reparent_spec m3 q2 None rr Hrr3 Hdrr)
        as (m4 & Hrun4 & Hrr4 & Hf4).
      erewrite bind_ok by exact Hrun4.
      exists m4, q, None. split; [done|].
      assert (∀ a, a ∉ addrs r → a ≠ addr x → m4 !! a = m !! a) as Hout.
      { intros a Ha Hax. rewrite Hf4, Hf3.
        - unfold m2. rewrite lookup_insert_ne by done. by apply Hf1.
        - intros Hroot%root_in_addrs. set_solver.
        - intros Hroot%root_in_addrs. set_solver. }
      split_and!.
      * rewrite Hf4, Hf3.
        -- unfold m2. by rewrite lookup_insert_eq.
        -- intros Hroot%root_in_addrs. set_solver.
        -- intros Hroot%root_in_addrs. set_solver.
      * eapply is_tree_frame; [|exact Hl]. intros a Ha. apply Hout.
        -- by apply Hlr.
        -- intros ->. done.
      * eapply is_tree_frame; [|exact Hrl3]. intros a Ha. apply Hf4.
        intros Hroot%root_in_addrs. specialize (Hrlr a). set_solver.
      * done.
      * intros a Ha. rewrite addrs_bin in Ha. apply Hout; set_solver.
    + destruct (IHl fuel m (Some (addr x)) Hl Hdl ltac:(lia))
        as (m1 & q1 & q2 & Hrun & Hll & Hlr' & Hf1).
      clear IHl IHr.
      destruct (tsplit comparator l k) as [ll lr]. simpl in *.
      erewrite bind_ok by (eapply get_left_ok; exact Hx). simpl.
      erewrite bind_ok by exact Hrun. cbv beta iota.
      assert (m1 !! addr x = m !! addr x) as Hx1 by (apply Hf1; done).
      rewrite Hx in Hx1.
      erewrite bind_ok by (eapply set_left_ok; exact Hx1).
      set (m2 := <[addr x := _]> m1).
      assert (is_tree m2 q2 lr) as Hlr2.
      { eapply is_tree_frame; [|done]. intros a Ha. unfold m2.
        rewrite lookup_insert_ne; [done|]. intros <-. set_solver. }
      destruct (reparent_spec m2 q2 (Some (addr x)) lr Hlr2 Hdlr)
        as (m3 & Hrun3 & Hlr3 & Hf3).
      erewrite bind_ok by exact Hrun3.
      assert (is_tree m3 q1 ll) as Hll3.
      { eapply is_tree_frame; [|done]. intros a Ha.
        rewrite Hf3.
        - unfold m2. rewrite lookup_insert_ne; [done|]. intros <-. set_solver.
        - intros Hroot%root_in_addrs. specialize (Hllr a). set_solver. }
      destruct (reparent_spec m3 q1 None ll Hll3 Hdll)
        as (m4 & Hrun4 & Hll4 & Hf4).
      erewrite bind_ok by exact Hrun4.
      exists m4, None, q. split; [done|].
      assert (∀ a, a ∉ addrs l → a ≠ addr x → m4 !! a = m !! a) as Hout.
      { intros a Ha Hax. rewrite Hf4, Hf3.
        - unfold m2. rewrite lookup_insert_ne by done. by apply Hf1.
        - intros Hroot%root_in_addrs. set_solver.
        - intros Hroot%root_in_addrs. set_solver. }
      split_and!.
      * done.
      * rewrite Hf4, Hf3.
        -- unfold m2. by rewrite lookup_insert_eq.
        -- intros Hroot%root_in_addrs. set_solver.
        -- intros Hroot%root_in_addrs. set_solver.
      * eapply is_tree_frame; [|exact Hlr3]. intros a Ha. apply Hf4.
        intros Hroot%root_in_addrs. specialize (Hllr a). set_solver.
      * eapply is_tree_frame; [|exact Hr]. intros a Ha. apply Hout.
        -- intros ?. by eapply Hlr.
        -- intros ->. done.
      * intros a Ha. rewrite addrs_bin in Ha. apply Hout; set_solver.
Qed.

Lemma tsplit_height t k :
  height (tsplit comparator t k).1 ≤ height t
  ∧ height (tsplit comparator t k).2 ≤ height t.
Proof.
  induction t as [|l IHl x r IHr]; [done|]. simpl.
  destruct (comparator (ikey x) k).
  - destruct (tsplit comparator r k) as [rl rr]. simpl in *. lia.
  - destruct (tsplit comparator l k) as [ll lr]. simpl in *. lia.
Qed.

(** *** [merge] *)

Lemma tmerge_leaf_l t : tmerge Leaf t = t.
Proof. by destruct t. Qed.

Lemma tmerge_leaf_r t : tmerge t Leaf = t.
Proof. by destruct t. Qed.

Lemma tmerge_bin l1 x1 r1 l2 x2 r2 :
  tmerge (Bin l1 x1 r1) (Bin l2 x2 r2) =
  if (prio x2 <? prio x1)%N then Bin l1 x1 (tmerge r1 (Bin l2 x2 r2))
  else Bin (tmerge (Bin l1 x1 r1) l2) x2 r2.
Proof. done. Qed.

Lemma tmerge_items t1 t2 : items (tmerge t1 t2) = items t1 ++ items t2.
Proof.
  revert t2. induction t1 as [|l1 IHl1 x1 r1 IHr1]; intros t2.
  { by rewrite tmerge_leaf_l. }
  induction t2 as [|l2 IHl2 x2 r2 IHr2].
  { rewrite tmerge_leaf_r. simpl. by rewrite app_nil_r. }
  rewrite tmerge_bin. destruct (prio x2 <? prio x1)%N.
  - change (items (Bin l1 x1 (tmerge r1 (Bin l2 x2 r2))))
      with (items l1 ++ x1 :: items (tmerge r1 (Bin l2 x2 r2))).
    rewrite IHr1. simpl. by rewrite <- app_assoc.
  - change (items (Bin (tmerge (Bin l1 x1 r1) l2) x2 r2))
      with (items (tmerge (Bin l1 x1 r1) l2) ++ x2 :: items r2).
    rewrite IHl2. simpl. by rewrite <- !app_assoc.
Qed.

Lemma tmerge_addrs t1 t2 : addrs (tmerge t1 t2) = addrs t1 ++ addrs t2.
Proof. unfold addrs. by rewrite tmerge_items, fmap_app. Qed.

Lemma tmerge_height t1 t2 : height (tmerge t1 t2) ≤ height t1 + height t2.
Proof.
  revert t2. induction t1 as [|l1 IHl1 x1 r1 IHr1]; intros t2.
  { rewrite tmerge_leaf_l. lia. }
  induction t2 as [|l2 IHl2 x2 r2 IHr2].
  { rewrite tmerge_leaf_r. lia. }
  rewrite tmerge_bin. destruct (prio x2 <? prio x1)%N.
  - change (height (Bin l1 x1 (tmerge r1 (Bin l2 x2 r2))))
      with (S (height l1 `max` height (tmerge r1 (Bin l2 x2 r2)))).
    specialize (IHr1 (Bin l2 x2 r2)). simpl in *. lia.
  - change (height (Bin (tmerge (Bin l1 x1 r1) l2) x2 r2))
      with (S (height (tmerge (Bin l1 x1 r1) l2) `max` height r2)).
    simpl in *. lia.
Qed.

Lemma merge_spec t1 : ∀ t2 fuel m q1 q2,
  is_tree m q1 t1 → is_tree m q2 t2 → NoDup (addrs t1 ++ addrs t2) →
  height t1 + height t2 < fuel →
  ∃ m' q,
    merge fuel (root t1) (root t2) m = Ok (root (tmerge t1 t2), m')
    ∧ is_tree m' q (tmerge t1 t2)
    ∧ same_outside (addrs t1 ++ addrs t2) m m'.
Proof.
  induction t1 as [|l1 IHl1 x1 r1 IHr1].
  { intros t2 fuel m q1 q2 _ H2 Hnd Hfuel. rewrite tmerge_leaf_l.
    destruct fuel as [|fuel]; [lia|]. simpl in Hnd.
    destruct (reparent_spec m q2 None t2 H2 Hnd) as (m' & Hrun & Ht & Hf).
    exists m', None. cbn [merge root].
    erewrite bind_ok by exact Hrun. split_and!; [done..|].
    intros a Ha. apply Hf. intros Hr%root_in_addrs. done. }
  induction t2 as [|l2 IHl2 x2 r2 IHr2]; intros fuel m q1 q2 H1 H2 Hnd Hfuel.
  { rewrite tmerge_leaf_r.
    destruct fuel as [|fuel]; [lia|].
    apply NoDup_app in Hnd as (Hnd & _ & _).
    destruct (reparent_spec m q1 None _ H1 Hnd) as (m' & Hrun & Ht & Hf).
    exists m', None. cbn [merge root].
    erewrite bind_ok by exact Hrun. split_and!; [done..|].
    intros a Ha. apply Hf. intros Hr%root_in_addrs. set_solver. }
  clear IHr2.
  destruct fuel as [|fuel]; [lia|].
  pose proof Hnd as (Hd1 & Hd12 & Hd2)%NoDup_app.
  pose proof Hd1 as (Hdl1 & Hdr1 & Hx1l & Hx1r & Hl1r1)%NoDup_bin.
  pose proof Hd2 as (Hdl2 & Hdr2 & Hx2l & Hx2r & Hl2r2)%NoDup_bin.
  rewrite !addrs_bin in Hd12.
  pose proof H1 as (Hc1 & Hl1 & Hr1). pose proof H2 as (Hc2 & Hl2 & Hr2).
  rewrite tmerge_bin. cbn [merge root].
  erewrite bind_ok by (eapply get_random_key_ok; exact Hc1).
  erewrite bind_ok by (eapply get_random_key_ok; exact Hc2).
  cbn [random_key].
  destruct (prio x2 <? prio x1)%N.
  - destruct (IHr1 (Bin l2 x2 r2) fuel m _ _ Hr1 H2) as (m1 & q & Hrun & Ht & Hf1).
    { rewrite addrs_bin. apply NoDup_app. split_and!; [done| |by rewrite <- addrs_bin].
      intros a Ha. apply Hd12. set_solver. }
    { simpl in *. lia. }
    clear IHr1 IHl1 IHl2.
    erewrite bind_ok by (eapply get_right_ok; exact Hc1). cbn [right].
    erewrite bind_ok by exact Hrun.
    assert (m1 !! addr x1 = m !! addr x1) as Hx1.
    { apply Hf1. rewrite addrs_bin. specialize (Hd12 (addr x1)). set_solver. }
    rewrite Hc1 in Hx1.
    erewrite bind_ok by (eapply set_right_ok; exact Hx1).
    set (m2 := <[addr x1 := _]> m1).
    set (t := tmerge r1 (Bin l2 x2 r2)) in *.
    assert (addrs t = addrs r1 ++ addrs (Bin l2 x2 r2)) as Hat
      by apply tmerge_addrs.
    rewrite addrs_bin in Hat.
    assert (NoDup (addrs t)) as Hdt.
    { rewrite Hat. apply NoDup_app. split_and!; [done| |by rewrite <- addrs_bin].
      intros a Ha. apply Hd12. set_solver. }
    assert (addr x1 ∉ addrs t) as Hx1t.
    { rewrite Hat. specialize (Hd12 (addr x1)). set_solver. }
    assert (is_tree m2 q t) as Ht2.
    { eapply is_tree_frame; [|done]. intros a Ha. unfold m2.
      rewrite lookup_insert_ne; [done|]. intros <-. done. }
    destruct (reparent_spec m2 q (Some (addr x1)) t Ht2 Hdt)
      as (m3 & Hrun3 & Ht3 & Hf3).
    erewrite bind_ok by exact Hrun3.
    exists m3, q1. split; [done|]. split.
    + cbn [is_tree]. split_and!.
      * rewrite Hf3; [unfold m2; by rewrite lookup_insert_eq|].
        intros Hr%root_in_addrs. done.
      * eapply is_tree_frame; [|exact Hl1]. intros a Ha.
        assert (a ∉ addrs t).
        { rewrite Hat. specialize (Hd12 a). set_solver. }
        rewrite Hf3; [|by intros Hr%root_in_addrs].
        unfold m2. rewrite lookup_insert_ne; [|by intros <-].
        apply Hf1. rewrite addrs_bin. specialize (Hd12 a). set_solver.
      * done.
    + intros a Ha. rewrite !addrs_bin in Ha.
      rewrite Hf3; [|intros Hr%root_in_addrs; rewrite Hat in Hr; set_solver].
      unfold m2. rewrite lookup_insert_ne; [|set_solver].
      apply Hf1. rewrite addrs_bin. set_solver.
  - destruct (IHl2 fuel m _ _ H1 Hl2) as (m1 & q & Hrun & Ht & Hf1).
    { apply NoDup_app. split_and!; [done| |done].
      rewrite addrs_bin. intros a Ha. specialize (Hd12 a). set_solver. }
    { simpl in *. lia. }
    clear IHr1 IHl1 IHl2.
    erewrite bind_ok by (eapply get_left_ok; exact Hc2). cbn [left].
    erewrite bind_ok by exact Hrun.
    assert (m1 !! addr x2 = m !! addr x2) as Hx2.
    { apply Hf1. rewrite addrs_bin. specialize (Hd12 (addr x2)). set_solver. }
    rewrite Hc2 in Hx2.
    erewrite bind_ok by (eapply set_left_ok; exact Hx2).
    set (m2 := <[addr x2 := _]> m1).
    set (t := tmerge (Bin l1 x1 r1) l2) in *.
    assert (addrs t = addrs (Bin l1 x1 r1) ++ addrs l2) as Hat
      by apply tmerge_addrs.
    rewrite addrs_bin in Hat.
    assert (NoDup (addrs t)) as Hdt.
    { rewrite Hat. apply NoDup_app. split_and!; [by rewrite <- addrs_bin| |done].
      intros a Ha. specialize (Hd12 a). set_solver. }
    assert (addr x2 ∉ addrs t) as Hx2t.
    { rewrite Hat. specialize (Hd12 (addr x2)). set_solver. }
    assert (is_tree m2 q t) as Ht2.
    { eapply is_tree_frame; [|done]. intros a Ha. unfold m2.
      rewrite lookup_insert_ne; [done|]. intros <-. done. }
    destruct (reparent_spec m2 q (Some (addr x2)) t Ht2 Hdt)
      as (m3 & Hrun3 & Ht3 & Hf3).
    erewrite bind_ok by exact Hrun3.
    exists m3, q2. split; [done|]. split.
    + cbn [is_tree]. split_and!.
      * rewrite Hf3; [unfold m2; by rewrite lookup_insert_eq|].
        intros Hr%root_in_addrs. done.
      * done.
      * eapply is_tree_frame; [|exact Hr2]. intros a Ha.
        assert (a ∉ addrs t).
        { rewrite Hat. specialize (Hd12 a). specialize (Hl2r2 a). set_solver. }
        rewrite Hf3; [|by intros Hr%root_in_addrs].
        unfold m2. rewrite lookup_insert_ne; [|by intros <-].
        apply Hf1. rewrite addrs_bin. specialize (Hd12 a).
        specialize (Hl2r2 a). set_solver.
    + intros a Ha. rewrite !addrs_bin in Ha.
      rewrite Hf3; [|intros Hr%root_in_addrs; rewrite Hat in Hr; set_solver].
      unfold m2. rewrite lookup_insert_ne; [|set_solver].
      apply Hf1. rewrite addrs_bin. set_solver.
Qed.

(** *** Treaps *)

Lemma is_tree_lookup m q t a :
  is_tree m q t → a ∈ addrs t →
  ∃ x n, x ∈ items t ∧ addr x = a ∧ m !! a = Some n
         ∧ random_key n = prio x ∧ key n = Some (ikey x).
Proof.
  revert q. induction t as [|l IHl x r IHr]; intros q.
  { intros _ Ha. by apply elem_of_nil in Ha. }
  intros (Hx & Hl & Hr). rewrite addrs_bin. simpl.
  intros [Ha|[->|Ha]%elem_of_cons]%elem_of_app.
  - destruct (IHl _ Hl Ha) as (y & n & ? & ? & ? & ? & ?).
    exists y, n. set_solver.
  - eexists x, _. split_and!; [set_solver|done|exact Hx|done..].
  - destruct (IHr _ Hr Ha) as (y & n & ? & ? & ? & ? & ?).
    exists y, n. set_solver.
Qed.

Lemma is_treap_head_not_in m c t : is_treap m c t → c ∉ addrs t.
Proof.
  intros ((p & Hc) & Ht & _) Hin.
  destruct (is_tree_lookup _ _ _ _ Ht Hin) as (x & n & _ & _ & Hn & _ & Hk).
  rewrite Hc in Hn. injection Hn as <-. done.
Qed.

Lemma height_le_length t : height t ≤ length (items t).
Proof.
  induction t as [|l IHl x r IHr]; [done|]. simpl.
  rewrite length_app. simpl. lia.
Qed.

Lemma tinsert_items t x :
  items (tinsert comparator t x) =
  items (tsplit comparator t (ikey x)).1 ++ x :: items (tsplit comparator t (ikey x)).2.
Proof.
  unfold tinsert. destruct (tsplit comparator t (ikey x)) as [l r].
  rewrite !tmerge_items. simpl. by rewrite <- app_assoc.
Qed.

Lemma tinsert_addrs_perm t x :
  addrs (tinsert comparator t x) ≡ₚ addr x :: addrs t.
Proof.
  unfold addrs. rewrite tinsert_items, <- (tsplit_items t (ikey x)).
  rewrite !fmap_app, fmap_cons. by rewrite Permutation_middle.
Qed.

Lemma insert_spec c t a p k qa fuel m :
  is_treap m c t →
  m !! a = Some (TreapNode p None None qa (Some k)) →
  a ∉ addrs t →
  2 * height t + 2 < fuel →
  ∃ m',
    insert comparator c fuel (Some a) m = Ok (Some a, m')
    ∧ is_treap m' c (tinsert comparator t (Item a p k))
    ∧ same_outside (c :: a :: addrs t) m m'.
Proof.
  intros Htreap Ha Hat Hfuel.
  pose proof (is_treap_head_not_in _ _ _ Htreap) as Hct.
  destruct Htreap as ((pc & Hc) & Ht & Hnd).
  assert (a ≠ c) as Hac by (intros ->; rewrite Hc in Ha; done).
  set (x := Item a p k).
  unfold insert.
  erewrite bind_ok by (eapply get_left_ok; exact Hc). cbn [left].
  erewrite bind_ok by (eapply get_key_ok; [exact Ha|done]).
  destruct (split_spec (ikey x) t fuel m _ Ht Hnd ltac:(lia))
    as (m1 & q1 & q2 & Hrun1 & Hl1 & Hr1 & Hf1).
  pose proof (tsplit_addrs t (ikey x)) as Hsa.
  pose proof (tsplit_height t (ikey x)) as [Hhl Hhr].
  pose proof (tinsert_items t x) as Hitems.
  unfold tinsert in *.
  destruct (tsplit comparator t (ikey x)) as [tl tr]. simpl in *.
  erewrite bind_ok by exact Hrun1. cbv beta iota.
  assert (NoDup (addrs tl ++ addrs tr)) as Hnd' by (by rewrite Hsa).
  apply NoDup_app in Hnd' as (Hdl & Hdlr & Hdr).
  assert (is_tree m1 qa (Bin Leaf x Leaf)) as Hx1.
  { simpl. split; [|done]. rewrite Hf1; done. }
  destruct (merge_spec tl (Bin Leaf x Leaf) fuel m1 _ _ Hl1 Hx1)
    as (m2 & q3 & Hrun2 & Ht2 & Hf2).
  { rewrite addrs_bin. simpl. apply NoDup_app. split_and!; [done| |].
    - intros b Hb [->|[]%elem_of_nil]%elem_of_cons. apply Hat.
      rewrite <- Hsa. set_solver.
    - apply NoDup_singleton. }
  { simpl. lia. }
  change (Some a) with (root (Bin Leaf x Leaf)) at 1.
  erewrite bind_ok by exact Hrun2.
  set (t2 := tmerge tl (Bin Leaf x Leaf)) in *.
  assert (addrs t2 = addrs tl ++ [a]) as Hat2.
  { unfold t2. rewrite tmerge_addrs. done. }
  assert (is_tree m2 q2 tr) as Hr2.
  { eapply is_tree_frame; [|exact Hr1]. intros b Hb. apply Hf2.
    rewrite addrs_bin. simpl. specialize (Hdlr b).
    assert (b ≠ a) by (intros ->; apply Hat; rewrite <- Hsa; set_solver).
    set_solver. }
  destruct (merge_spec t2 tr fuel m2 _ _ Ht2 Hr2) as (m3 & q4 & Hrun3 & Ht3 & Hf3).
  { rewrite Hat2. rewrite <- app_assoc. simpl. apply NoDup_app.
    split_and!; [done| |].
    - intros b Hb [->|Hb']%elem_of_cons; [|by eapply Hdlr].
      apply Hat. rewrite <- Hsa. set_solver.
    - apply NoDup_cons. split; [|done]. intros ?. apply Hat.
      rewrite <- Hsa. set_solver. }
  { pose proof (tmerge_height tl (Bin Leaf x Leaf)). fold t2 in H. simpl in *. lia. }
  erewrite bind_ok by exact Hrun3.
  set (t3 := tmerge t2 tr) in *.
  assert (addrs t3 = addrs tl ++ a :: addrs tr) as Hat3.
  { unfold t3. rewrite tmerge_addrs, Hat2, <- app_assoc. done. }
  assert (∀ b, b ∉ addrs t → b ≠ a → m3 !! b = m !! b) as Hout.
  { intros b Hb Hba. rewrite <- Hsa in Hb.
    rewrite Hf3, Hf2, Hf1; [done|by rewrite <- Hsa|..].
    - rewrite addrs_bin. simpl. set_solver.
    - rewrite Hat2. set_solver. }
  assert (m3 !! c = Some (TreapNode pc (root t) None None None)) as Hc3.
  { rewrite Hout; done. }
  erewrite bind_ok by (eapply set_left_ok; exact Hc3).
  set (m4 := <[c := _]> m3).
  assert (NoDup (addrs t3)) as Hd3.
  { rewrite Hat3. apply NoDup_app. split_and!; [done| |].
    - intros b Hb [->|Hb']%elem_of_cons; [|by eapply Hdlr].
      apply Hat. rewrite <- Hsa. set_solver.
    - apply NoDup_cons. split; [|done]. intros ?. apply Hat.
      rewrite <- Hsa. set_solver. }
  assert (c ∉ addrs t3) as Hc3t.
  { rewrite Hat3. rewrite <- Hsa in Hct. set_solver. }
  assert (is_tree m4 q4 t3) as Ht4.
  { eapply is_tree_frame; [|exact Ht3]. intros b Hb. unfold m4.
    rewrite lookup_insert_ne; [done|]. intros <-. done. }
  destruct (reparent_spec m4 q4 (Some c) t3 Ht4 Hd3) as (m5 & Hrun5 & Ht5 & Hf5).
  assert (∃ b, root t3 = Some b) as [b Hb].
  { destruct t3 as [|? y ?]; [|by eexists].
    apply (f_equal length) in Hat3. rewrite length_app in Hat3.
    simpl in Hat3. lia. }
  rewrite Hb in Hrun5. simpl in Hrun5. rewrite Hb.
  erewrite bind_ok by exact Hrun5.
  exists m5. split; [done|]. split.
  - split_and!; [|done..]. exists pc. rewrite Hf5.
    + unfold m4. rewrite lookup_insert_eq. done.
    + intros Hr%root_in_addrs. done.
  - intros d Hd. rewrite Hf5.
    + unfold m4. rewrite lookup_insert_ne by set_solver. apply Hout; set_solver.
    + intros Hr%root_in_addrs. rewrite Hat3, <- Hsa in *. set_solver.
Qed.

End treap_facts.
End treap_facts.

Module treap_remove.
Import treap shape treap_facts.
Section treap_remove.
Context {K : Type}.
Variable comparator : K → K → bool.

Implicit Types (m : gmap nat (treap_node K)) (t l r : tree (K:=K)) (q : ptr).

(** *** The leftmost node *)

Lemma tmin_items t x : tmin t = Some x → items t = x :: items (tdrop_min t).
Proof.
  induction t as [|l IHl y r IHr]; [done|]. simpl.
  destruct l as [|l' z r']; [by intros [= ->]|].
  intros Hx. rewrite (IHl Hx). done.
Qed.

Lemma tmin_is_Some t : t ≠ Leaf → is_Some (tmin t).
Proof.
  induction t as [|l IHl y r IHr]; [done|]. intros _. simpl.
  destruct l as [|l' z r']; [by eexists|]. by apply IHl.
Qed.

Lemma tdrop_min_height t : height (tdrop_min t) ≤ height t.
Proof.
  induction t as [|l IHl y r IHr]; [done|].
  destruct l as [|l' z r']; [simpl; lia|].
  change (tdrop_min (Bin (Bin l' z r') y r))
    with (Bin (tdrop_min (Bin l' z r')) y r).
  simpl in *. lia.
Qed.

Lemma leftmost_spec t : ∀ fuel m q x,
  is_tree m q t → tmin t = Some x → height t ≤ fuel →
  leftmost fuel (root t) m = Ok (Some (addr x), m).
Proof.
  induction t as [|l IHl y r IHr]; intros fuel m q x Ht Hmin Hfuel; [done|].
  destruct fuel as [|fuel]; [simpl in Hfuel; lia|].
  destruct Ht as (Hy & Hl & Hr). cbn [leftmost root].
  erewrite bind_ok by (eapply get_left_ok; exact Hy). cbn [left].
  destruct l as [|l' z r'].
  - simpl in *. by injection Hmin as ->.
  - change (root (Bin l' z r')) with (Some (addr z)) at 1.
    cbv beta iota. change (Some (addr z)) with (root (Bin l' z r')).
    eapply IHl; [done..|]. simpl in *. lia.
Qed.

Lemma leftmost_checked_spec t : ∀ fuel m q,
  is_tree m q t → height t < fuel →
  leftmost_checked fuel (root t) m = Ok (addr <$> tmin t, m).
Proof.
  induction t as [|l IHl y r IHr]; intros fuel m q Ht Hfuel;
    (destruct fuel as [|fuel]; [simpl in Hfuel; lia|]); [done|].
  destruct Ht as (Hy & Hl & Hr). cbn [leftmost_checked root].
  erewrite bind_ok by (eapply get_left_ok; exact Hy). cbn [left].
  destruct l as [|l' z r']; [done|].
  change (root (Bin l' z r')) with (Some (addr z)) at 1.
  cbv beta iota. change (Some (addr z)) with (root (Bin l' z r')).
  change (tmin (Bin (Bin l' z r') y r)) with (tmin (Bin l' z r')).
  eapply IHl; [done|]. simpl in *. lia.
Qed.

(** The memory cell of the leftmost node when it is the root. *)
Lemma tmin_root m q t x :
  is_tree m q t → NoDup (addrs t) → tmin t = Some x →
  root t = Some (addr x) → ∃ xr, t = Bin Leaf x xr.
Proof.
  destruct t as [|l y r]; [done|]. simpl.
  intros (Hy & Hl & Hr) Hnd Hmin [= Hxy].
  destruct l as [|l' z r']; [injection Hmin as ->; by eexists|].
  exfalso. apply NoDup_bin in Hnd as (_ & _ & Hyl & _).
  apply Hyl. rewrite Hxy. apply tmin_items in Hmin. unfold addrs.
  rewrite Hmin. set_solver.
Qed.

(** The leftmost node below the root, its parent and its right
    subtree: splicing the node out yields [tdrop_min t]. *)
Lemma tmin_below m q t x :
  is_tree m q t → NoDup (addrs t) → tmin t = Some x →
  root t ≠ Some (addr x) →
  ∃ xp np xr,
    m !! addr x = Some (TreapNode (prio x) None (root xr) (Some xp) (Some (ikey x)))
    ∧ m !! xp = Some np
    ∧ xp ≠ addr x ∧ xp ∈ addrs t ∧ xp ∉ addrs xr ∧ addr x ∉ addrs xr
    ∧ (∀ a, a ∈ addrs xr → a ∈ addrs t)
    ∧ is_tree m (Some (addr x)) xr ∧ NoDup (addrs xr)
    ∧ root (tdrop_min t) = root t
    ∧ ∀ m2, is_tree m2 (Some xp) xr →
            (∀ a, a ∉ addrs xr →
                  m2 !! a = (<[xp := with_left (root xr) np]> m) !! a) →
            is_tree m2 q (tdrop_min t).
Proof.
  revert q. induction t as [|l IHl y r IHr]; intros q; [done|].
  intros (Hy & Hl & Hr) Hnd Hmin Hroot. clear IHr.
  pose proof Hnd as (Hdl & Hdr & Hyl & Hyr & Hlr)%NoDup_bin.
  destruct l as [|l' z r']; [simpl in *; congruence|].
  change (tmin (Bin l' z r')= Some x) in Hmin.
  change (tdrop_min (Bin (Bin l' z r') y r))
    with (Bin (tdrop_min (Bin l' z r')) y r).
  destruct (decide (root (Bin l' z r') = Some (addr x))) as [Hzx|Hzx].
  - clear IHl.
    destruct (tmin_root _ _ _ _ Hl Hdl Hmin Hzx) as (xr & [= -> -> ->]).
    destruct Hl as (Hx & _ & Hxr).
    pose proof Hdl as (_ & Hdxr & _ & Hxxr & _)%NoDup_bin.
    eexists (addr y), _, xr. split_and!; try done.
    + intros Heq. apply Hyl. rewrite Heq, addrs_bin. set_solver.
    + rewrite addrs_bin. set_solver.
    + intros Hin. apply Hyl. rewrite addrs_bin. set_solver.
    + intros a Ha. rewrite !addrs_bin. set_solver.
    + intros m2 Hxr2 Hf2. simpl. split_and!.
      * rewrite Hf2, lookup_insert_eq; [done|].
        intros Hin. apply Hyl. rewrite addrs_bin. set_solver.
      * done.
      * eapply is_tree_frame; [|exact Hr]. intros a Ha.
        rewrite Hf2, lookup_insert_ne; [done|by intros <-|].
        intros Hin. apply (Hlr a); [|done]. rewrite addrs_bin. set_solver.
  - destruct (IHl _ Hl Hdl Hmin Hzx)
      as (xp & np & xr & Hx & Hxp & Hne & Hin & Hnin & Hxxr & Hsub & Hxr & Hdxr
          & Hroot' & Hfin).
    clear IHl.
    exists xp, np, xr. split_and!; try done.
    + rewrite addrs_bin. set_solver.
    + intros a Ha. rewrite addrs_bin. apply Hsub in Ha. set_solver.
    + intros m2 Hxr2 Hf2. cbn [is_tree]. split_and!.
      * rewrite Hroot'. rewrite Hf2, lookup_insert_ne; [done|by intros ->|].
        intros Ha%Hsub. done.
      * by apply Hfin.
      * eapply is_tree_frame; [|exact Hr]. intros a Ha.
        rewrite Hf2, lookup_insert_ne; [done| |].
        -- intros ->. by apply (Hlr a).
        -- intros Hin'%Hsub. by apply (Hlr a).
Qed.

Lemma tdrop_min_addrs t x :
  tmin t = Some x → addrs t = addr x :: addrs (tdrop_min t).
Proof. intros H%tmin_items. unfold addrs. by rewrite H. Qed.

(** *** Re-attaching the merged halves to the head node *)

Lemma remerge_spec c pc p0 t1 t2 fuel m q1 q2 :
  m !! c = Some (TreapNode pc p0 None None None) →
  is_tree m q1 t1 → is_tree m q2 t2 →
  NoDup (addrs t1 ++ addrs t2) →
  height t1 + height t2 < fuel →
  ∃ m',
    (∀ (B : Type) (k : M (gmap nat (treap_node K)) B),
       (let* p := merge fuel (root t1) (root t2) in
        set_left (Some c) p ;;
        when_ptr p (set_parent p (Some c)) ;; k) m = k m')
    ∧ is_treap m' c (tmerge t1 t2)
    ∧ same_outside (c :: addrs t1 ++ addrs t2) m m'.
Proof.
  intros Hc H1 H2 Hnd Hfuel.
  assert (c ∉ addrs t1 ++ addrs t2) as Hcn.
  { intros [Hin|Hin]%elem_of_app.
    - destruct (is_tree_lookup _ _ _ _ H1 Hin) as (x & n & _ & _ & Hn & _ & Hk).
      rewrite Hc in Hn. injection Hn as <-. done.
    - destruct (is_tree_lookup _ _ _ _ H2 Hin) as (x & n & _ & _ & Hn & _ & Hk).
      rewrite Hc in Hn. injection Hn as <-. done. }
  destruct (merge_spec t1 t2 fuel m _ _ H1 H2 Hnd Hfuel)
    as (m1 & q & Hrun1 & Ht1 & Hf1).
  assert (m1 !! c = Some (TreapNode pc p0 None None None)) as Hc1.
  { rewrite Hf1; done. }
  set (t := tmerge t1 t2) in *.
  assert (addrs t = addrs t1 ++ addrs t2) as Hat by apply tmerge_addrs.
  set (m2 := <[c := with_left (root t) (TreapNode pc p0 None None None)]> m1).
  assert (is_tree m2 q t) as Ht2.
  { eapply is_tree_frame; [|exact Ht1]. intros a Ha. unfold m2.
    rewrite lookup_insert_ne; [done|]. intros <-. by rewrite Hat in Ha. }
  rewrite <- Hat in Hnd, Hcn.
  destruct (reparent_spec m2 q (Some c) t Ht2 Hnd) as (m3 & Hrun3 & Ht3 & Hf3).
  exists m3. split_and!.
  - intros B k.
    erewrite bind_ok by exact Hrun1.
    erewrite bind_ok by (eapply set_left_ok; exact Hc1).
    erewrite bind_ok by exact Hrun3. done.
  - split_and!; [|done..]. exists pc. rewrite Hf3.
    + unfold m2. by rewrite lookup_insert_eq.
    + by intros Hr%root_in_addrs.
  - intros a Ha. rewrite <- Hat in Ha. rewrite Hf3.
    + unfold m2. rewrite lookup_insert_ne by set_solver.
      apply Hf1. rewrite <- Hat. set_solver.
    + intros Hr%root_in_addrs. set_solver.
Qed.

Lemma is_tree_cell m q t x :
  is_tree m q t → x ∈ items t →
  ∃ n, m !! addr x = Some n ∧ random_key n = prio x ∧ key n = Some (ikey x).
Proof.
  revert q. induction t as [|l IHl y r IHr]; intros q.
  { intros _ Hx. by apply elem_of_nil in Hx. }
  intros (Hy & Hl & Hr). simpl.
  intros [Hx|[->|Hx]%elem_of_cons]%elem_of_app; [by eapply IHl| |by eapply IHr].
  eexists. split; [exact Hy|done].
Qed.

(** *** [remove] *)

(** The statements of [remove] between the search of the leftmost node
    of the right half and the final merge. *)
Lemma detach_spec m q tr x :
  is_tree m q tr → NoDup (addrs tr) → tmin tr = Some x →
  ∃ m' nx,
    (∀ (B : Type) (k : ptr → ptr → M (gmap nat (treap_node K)) B),
       (let* (t2, next) :=
          if decide (Some (addr x) = root tr) then
            let* rr := get_right (Some (addr x)) in
            ret (rr, rr)
          else
            let* rp := get_parent (Some (addr x)) in
            let* rr := get_right (Some (addr x)) in
            set_left rp rr ;;
            let* rp := get_parent (Some (addr x)) in
            ret (root tr, rp) in
        let* rr := get_right (Some (addr x)) in
        let* next :=
          match rr with
          | Some _ =>
            let* rp := get_parent (Some (addr x)) in
            set_parent rr rp ;;
            get_right (Some (addr x))
          | None => ret next
          end in
        k t2 next) m = k (root (tdrop_min tr)) nx m')
    ∧ is_tree m' q (tdrop_min tr)
    ∧ same_outside (addrs tr) m m'.
Proof.
  intros Ht Hnd Hmin.
  destruct (decide (Some (addr x) = root tr)) as [Heq|Hne].
  - symmetry in Heq.
    destruct (tmin_root _ _ _ _ Ht Hnd Hmin Heq) as (xr & ->).
    destruct Ht as (Hx & _ & Hxr). simpl root in *. simpl tdrop_min.
    pose proof Hnd as (_ & Hdxr & _ & Hxxr & _)%NoDup_bin.
    destruct (reparent_spec m _ q xr Hxr Hdxr) as (m' & Hrun & Hxr' & Hf).
    exists m', (root xr). split_and!.
    + intros B k. rewrite bind_assoc.
      rewrite ?bind_assoc; erewrite bind_ok by (eapply get_right_ok; exact Hx). cbn [right].
      rewrite ?bind_assoc; erewrite bind_ok by done. cbv beta iota.
      rewrite ?bind_assoc; erewrite bind_ok by (eapply get_right_ok; exact Hx). cbn [right].
      destruct xr as [|xl y xr'].
      * simpl in *. injection Hrun as <-. done.
      * simpl root in *. cbv beta iota.
        rewrite ?bind_assoc; erewrite bind_ok by (eapply get_parent_ok; exact Hx). cbn [parent].
        simpl in Hrun. rewrite ?bind_assoc. erewrite bind_ok by exact Hrun.
        assert (m' !! addr x = m !! addr x) as Hx'.
        { apply Hf. intros [= Hyx]. apply Hxxr. rewrite <- Hyx, addrs_bin.
          set_solver. }
        rewrite Hx in Hx'.
        rewrite ?bind_assoc; erewrite bind_ok by (eapply get_right_ok; exact Hx'). done.
    + done.
    + intros a Ha. apply Hf. intros Hr%root_in_addrs. apply Ha.
      rewrite addrs_bin. set_solver.
  - assert (root tr ≠ Some (addr x)) as Hne' by congruence.
    destruct (tmin_below _ _ _ _ Ht Hnd Hmin Hne')
      as (xp & np & xr & Hx & Hxp & Hxpx & Hin & Hnin & Hxxr & Hsub & Hxr & Hdxr
          & Hroot & Hfin).
    set (m1 := <[xp := with_left (root xr) np]> m).
    assert (m1 !! addr x = m !! addr x) as Hx1.
    { unfold m1. by rewrite lookup_insert_ne. }
    rewrite Hx in Hx1.
    assert (is_tree m1 (Some (addr x)) xr) as Hxr1.
    { eapply is_tree_frame; [|exact Hxr]. intros a Ha. unfold m1.
      rewrite lookup_insert_ne; [done|]. by intros <-. }
    destruct (reparent_spec m1 _ (Some xp) xr Hxr1 Hdxr) as (m' & Hrun & Hxr' & Hf).
    assert (m' !! addr x = m1 !! addr x) as Hx'.
    { apply Hf. by intros Hr%root_in_addrs. }
    rewrite Hx1 in Hx'.
    exists m', (if root xr then root xr else Some xp). split_and!.
    + intros B k. rewrite !bind_assoc.
      rewrite ?bind_assoc; erewrite bind_ok by (eapply get_parent_ok; exact Hx). cbn [parent].
      rewrite !bind_assoc.
      rewrite ?bind_assoc; erewrite bind_ok by (eapply get_right_ok; exact Hx). cbn [right].
      rewrite !bind_assoc.
      rewrite ?bind_assoc; erewrite bind_ok by (eapply set_left_ok; exact Hxp). fold m1.
      rewrite !bind_assoc.
      rewrite ?bind_assoc; erewrite bind_ok by (eapply get_parent_ok; exact Hx1). cbn [parent].
      rewrite ?bind_assoc; erewrite bind_ok by done. cbv beta iota.
      rewrite ?bind_assoc; erewrite bind_ok by (eapply get_right_ok; exact Hx1). cbn [right].
      rewrite Hroot.
      destruct xr as [|xl y xr'].
      * simpl in *. injection Hrun as <-. done.
      * simpl root in *. cbv beta iota.
        rewrite ?bind_assoc; erewrite bind_ok by (eapply get_parent_ok; exact Hx1). cbn [parent].
        simpl in Hrun. rewrite ?bind_assoc. erewrite bind_ok by exact Hrun.
        rewrite ?bind_assoc; erewrite bind_ok by (eapply get_right_ok; exact Hx'). done.
    + apply Hfin; [done|]. intros a Ha. apply Hf.
      by intros Hr%root_in_addrs.
    + intros a Ha. rewrite Hf.
      * unfold m1. rewrite lookup_insert_ne; [done|]. by intros <-.
      * intros Hr%root_in_addrs. by apply Ha, Hsub.
Qed.

Lemma tremove_items t k x :
  tmin (tsplit comparator t k).2 = Some x →
  items t = items (tsplit comparator t k).1 ++ x :: items (tdrop_min (tsplit comparator t k).2)
  ∧ items (tremove comparator t k) =
    items (tsplit comparator t k).1 ++ items (tdrop_min (tsplit comparator t k).2).
Proof.
  intros Hmin. unfold tremove. rewrite <- (tsplit_items comparator t k) at 1.
  destruct (tsplit comparator t k) as [tl tr]. simpl in *.
  by rewrite tmerge_items, (tmin_items _ _ Hmin).
Qed.

Lemma remove_spec c t k x fuel m :
  is_treap m c t →
  tmin (tsplit comparator t k).2 = Some x →
  comparator (ikey x) k = false → comparator k (ikey x) = false →
  2 * height t + 2 < fuel →
  ∃ m' it,
    remove comparator c fuel k m = Ok (it, m')
    ∧ is_treap m' c (tremove comparator t k)
    ∧ same_outside (c :: addrs t) m m'.
Proof.
  intros Htreap Hmin Hc1 Hc2 Hfuel.
  pose proof (is_treap_head_not_in _ _ _ Htreap) as Hct.
  destruct Htreap as ((pc & Hc) & Ht & Hnd).
  unfold remove, tremove.
  erewrite bind_ok by (eapply get_left_ok; exact Hc). cbn [left].
  destruct (split_spec comparator k t fuel m _ Ht Hnd ltac:(lia))
    as (m1 & q1 & q2 & Hrun1 & Hl1 & Hr1 & Hf1).
  pose proof (tsplit_elem comparator t k) as Hsa.
  pose proof (tsplit_height comparator t k) as [Hhl Hhr].
  pose proof (tsplit_NoDup comparator t k Hnd) as (Hdl & Hdr & Hdlr).
  destruct (tsplit comparator t k) as [tl tr]. simpl in *.
  erewrite bind_ok by exact Hrun1. cbv beta iota.
  erewrite bind_ok by (eapply leftmost_spec; [exact Hr1|exact Hmin|lia]).
  assert (x ∈ items tr) as Hxin.
  { rewrite (tmin_items _ _ Hmin). set_solver. }
  destruct (is_tree_cell _ _ _ _ Hr1 Hxin) as (nx & Hx & _ & Hkx).
  erewrite bind_ok by (eapply get_key_ok; [exact Hx|exact Hkx]).
  rewrite Hc1, Hc2. cbn [orb].
  destruct (detach_spec m1 q2 tr x Hr1 Hdr Hmin) as (m2 & nxt & Hrun2 & Hr2 & Hf2).
  rewrite Hrun2. clear Hrun2.
  pose proof (tdrop_min_addrs _ _ Hmin) as Hda.
  assert (m2 !! c = Some (TreapNode pc (root t) None None None)) as Hc2'.
  { rewrite Hf2, Hf1; [done..|]. intros Hin. apply Hct, Hsa. by right. }
  assert (is_tree m2 q1 tl) as Hl2.
  { eapply is_tree_frame; [|exact Hl1]. intros a Ha. apply Hf2.
    by apply Hdlr. }
  assert (NoDup (addrs tl ++ addrs (tdrop_min tr))) as Hnd2.
  { rewrite Hda in Hdr. apply NoDup_cons in Hdr as [_ Hdr].
    apply NoDup_app. split_and!; [done| |done].
    intros a Ha Hin. apply (Hdlr a Ha). rewrite Hda. set_solver. }
  destruct (remerge_spec c pc _ tl (tdrop_min tr) fuel m2 _ _ Hc2' Hl2 Hr2 Hnd2)
    as (m3 & Hrun3 & Htreap3 & Hf3).
  { pose proof (tdrop_min_height tr). lia. }
  rewrite Hrun3.
  exists m3, (if nxt then nxt else Some c). split_and!.
  - by destruct nxt.
  - done.
  - intros a Ha. rewrite Hf3, Hf2, Hf1; [done|set_solver|..].
    + intros Hin. apply Ha. right. apply Hsa. by right.
    + intros [->|[Hin|Hin]%elem_of_app]%elem_of_cons; apply Ha.
      * set_solver.
      * right. apply Hsa. by left.
      * right. apply Hsa. right. rewrite Hda. set_solver.
Qed.

(** *** [lower_bound] *)

Lemma tmerge_tsplit_items t k :
  items (tmerge (tsplit comparator t k).1 (tsplit comparator t k).2) = items t.
Proof. by rewrite tmerge_items, tsplit_items. Qed.

Lemma lower_bound_spec c t k fuel m :
  is_treap m c t →
  2 * height t + 2 < fuel →
  ∃ m',
    lower_bound comparator c fuel k m
    = Ok (match tmin (tsplit comparator t k).2 with
          | Some x => Some (addr x)
          | None => Some c
          end, m')
    ∧ is_treap m' c (tmerge (tsplit comparator t k).1 (tsplit comparator t k).2)
    ∧ same_outside (c :: addrs t) m m'.
Proof.
  intros Htreap Hfuel.
  pose proof (is_treap_head_not_in _ _ _ Htreap) as Hct.
  destruct Htreap as ((pc & Hc) & Ht & Hnd).
  unfold lower_bound.
  erewrite bind_ok by (eapply get_left_ok; exact Hc). cbn [left].
  destruct (split_spec comparator k t fuel m _ Ht Hnd ltac:(lia))
    as (m1 & q1 & q2 & Hrun1 & Hl1 & Hr1 & Hf1).
  pose proof (tsplit_addrs comparator t k) as Hsa.
  pose proof (tsplit_height comparator t k) as [Hhl Hhr].
  destruct (tsplit comparator t k) as [tl tr]. simpl in *.
  erewrite bind_ok by exact Hrun1. cbv beta iota.
  erewrite bind_ok by (eapply leftmost_checked_spec; [exact Hr1|lia]).
  assert (m1 !! c = Some (TreapNode pc (root t) None None None)) as Hc1.
  { rewrite Hf1; done. }
  rewrite <- Hsa in Hnd.
  destruct (remerge_spec c pc _ tl tr fuel m1 _ _ Hc1 Hl1 Hr1 Hnd)
    as (m3 & Hrun3 & Htreap3 & Hf3); [lia|].
  rewrite Hrun3. exists m3. split_and!.
  - by destruct (tmin tr).
  - done.
  - intros a Ha. rewrite Hf3, Hf1; [done|set_solver|].
    rewrite Hsa. set_solver.
Qed.

End treap_remove.
End treap_remove.

Module treap_order.
Import treap shape treap_facts treap_remove.
Section treap_order.
Context {K : Type}.
Variable comparator : K → K → bool.

Implicit Types (m : gmap nat (treap_node K)) (t l r : tree (K:=K)) (q : ptr).

Abbreviation bst := (bst comparator).
Abbreviation item_lt := (item_lt comparator).
Abbreviation equiv_key := (equiv_key comparator).

(** *** [exist] *)

Lemma exist_loop_spec c k t : ∀ fuel m q,
  is_tree m q t → height t < fuel →
  exist_loop comparator c fuel (root t) k m
  = Ok (match tfind comparator t k with
        | Some x => Some (addr x)
        | None => Some c
        end, m).
Proof.
  induction t as [|l IHl x r IHr]; intros fuel m q Ht Hfuel;
    (destruct fuel as [|fuel]; [simpl in Hfuel; lia|]); [done|].
  destruct Ht as (Hx & Hl & Hr). simpl in Hfuel. cbn [exist_loop root tfind].
  erewrite bind_ok by (eapply get_key_ok; [exact Hx|done]).
  destruct (comparator (ikey x) k).
  - erewrite bind_ok by (eapply get_right_ok; exact Hx).
    eapply IHr; [done|lia].
  - destruct (comparator k (ikey x)); [|done].
    erewrite bind_ok by (eapply get_left_ok; exact Hx).
    eapply IHl; [done|lia].
Qed.

Lemma exist_spec c k t fuel m :
  is_treap m c t → height t < fuel →
  exist comparator c fuel k m
  = Ok (match tfind comparator t k with
        | Some x => Some (addr x)
        | None => Some c
        end, m).
Proof.
  intros ((pc & Hc) & Ht & _) Hfuel. unfold exist.
  erewrite bind_ok by (eapply get_left_ok; exact Hc).
  by eapply exist_loop_spec.
Qed.

Lemma tfind_Some t k x :
  tfind comparator t k = Some x → x ∈ items t ∧ equiv_key (ikey x) k.
Proof.
  induction t as [|l IHl y r IHr]; [done|]. simpl.
  destruct (comparator (ikey y) k) eqn:H1.
  { intros [??]%IHr. split; [set_solver|done]. }
  destruct (comparator k (ikey y)) eqn:H2.
  { intros [??]%IHl. split; [set_solver|done]. }
  intros [= ->]. split; [set_solver|done].
Qed.

(** *** Order *)

Hypothesis comparator_irrefl : ∀ x, comparator x x = false.
Hypothesis comparator_trans : ∀ x y z,
  comparator x y = true → comparator y z = true → comparator x z = true.

Lemma bst_bin l x r :
  bst (Bin l x r) →
  bst l ∧ bst r
  ∧ (∀ y, y ∈ items l → item_lt y x)
  ∧ (∀ y, y ∈ items r → item_lt x y).
Proof using comparator_irrefl comparator_trans.
  unfold bst. simpl.
  intros (H1 & Hl & (Hx & Hr)%StronglySorted_cons)%StronglySorted_app.
  split_and!; [done..| |].
  - intros y Hy. apply H1; [done|]. set_solver.
  - intros y Hy. by eapply Forall_forall in Hx.
Qed.

Lemma tfind_None t k x :
  bst t → tfind comparator t k = None → x ∈ items t →
  ¬ equiv_key (ikey x) k.
Proof using comparator_irrefl comparator_trans.
  induction t as [|l IHl y r IHr]; intros Hbst Hfind Hx [He1 He2].
  { by apply elem_of_nil in Hx. }
  apply bst_bin in Hbst as (Hbl & Hbr & Hly & Hyr). simpl in *.
  destruct (comparator (ikey y) k) eqn:H1.
  - apply elem_of_app in Hx as [Hx|[->|Hx]%elem_of_cons].
    + specialize (Hly _ Hx). unfold shape.item_lt, lt in Hly.
      rewrite (comparator_trans _ _ _ Hly H1) in He1. done.
    + congruence.
    + by eapply IHr.
  - destruct (comparator k (ikey y)) eqn:H2; [|done].
    apply elem_of_app in Hx as [Hx|[->|Hx]%elem_of_cons].
    + by eapply IHl.
    + congruence.
    + specialize (Hyr _ Hx). unfold shape.item_lt, lt in Hyr.
      rewrite (comparator_trans _ _ _ H2 Hyr) in He2. done.
Qed.

(** Two keys of a search tree that are equivalent are the same node. *)
Lemma bst_equiv_eq t x y :
  bst t → x ∈ items t → y ∈ items t →
  equiv_key (ikey x) (ikey y) → x = y.
Proof using comparator_irrefl comparator_trans.
  unfold bst. intros Hs Hx Hy [He1 He2].
  apply list_elem_of_split in Hx as (l1 & l2 & Heq). rewrite Heq in Hs, Hy.
  apply StronglySorted_app in Hs as (H12 & _ & (Hxl2 & _)%StronglySorted_cons).
  apply elem_of_app in Hy as [Hy|[->|Hy]%elem_of_cons]; [|done|].
  - assert (item_lt y x) as Hlt by (apply H12; set_solver).
    unfold shape.item_lt, lt in Hlt. congruence.
  - eapply Forall_forall in Hxl2; [|done].
    unfold shape.item_lt, lt in Hxl2. congruence.
Qed.

Lemma tfind_stored t x :
  bst t → x ∈ items t → tfind comparator t (ikey x) = Some x.
Proof using comparator_irrefl comparator_trans.
  intros Hbst Hx.
  destruct (tfind comparator t (ikey x)) as [y|] eqn:Hfind.
  - apply tfind_Some in Hfind as [Hy He]. f_equal.
    by eapply bst_equiv_eq.
  - exfalso. eapply tfind_None; [done..|]. split; apply comparator_irrefl.
Qed.

(** *** [split] on a search tree *)

Lemma tsplit_keys t k :
  bst t →
  (∀ y, y ∈ items (tsplit comparator t k).1 → comparator (ikey y) k = true)
  ∧ (∀ y, y ∈ items (tsplit comparator t k).2 → comparator (ikey y) k = false).
Proof using comparator_irrefl comparator_trans.
  induction t as [|l IHl x r IHr]; intros Hbst.
  { split; intros y Hy; by apply elem_of_nil in Hy. }
  apply bst_bin in Hbst as (Hbl & Hbr & Hlx & Hxr). simpl.
  destruct (comparator (ikey x) k) eqn:Hc.
  - destruct (IHr Hbr) as [IH1 IH2].
    destruct (tsplit comparator r k) as [rl rr]. simpl in *. split; [|done].
    intros y [Hy|[->|Hy]%elem_of_cons]%elem_of_app; [|done|by apply IH1].
    eapply comparator_trans; [|exact Hc]. by apply Hlx.
  - destruct (IHl Hbl) as [IH1 IH2].
    destruct (tsplit comparator l k) as [ll lr]. simpl in *. split; [done|].
    intros y [Hy|[->|Hy]%elem_of_cons]%elem_of_app; [by apply IH2|done|].
    destruct (comparator (ikey y) k) eqn:Hyk; [|done].
    specialize (Hxr _ Hy). unfold shape.item_lt, lt in Hxr.
    rewrite (comparator_trans _ _ _ Hxr Hyk) in Hc. done.
Qed.

(** Splitting at the key of a stored node puts this node first in the
    right half. *)
Lemma tsplit_min_stored t x :
  bst t → x ∈ items t → tmin (tsplit comparator t (ikey x)).2 = Some x.
Proof using comparator_irrefl comparator_trans.
  intros Hbst Hx.
  destruct (tsplit_keys t (ikey x) Hbst) as [H1 H2].
  pose proof (tsplit_items comparator t (ikey x)) as Hit.
  destruct (tsplit comparator t (ikey x)) as [tl tr]. simpl in *.
  assert (x ∈ items tr) as Hxr.
  { rewrite <- Hit in Hx. apply elem_of_app in Hx as [Hx|Hx]; [|done].
    apply H1 in Hx. by rewrite comparator_irrefl in Hx. }
  destruct (tmin_is_Some tr) as [y Hy].
  { intros ->. by apply elem_of_nil in Hxr. }
  rewrite Hy. f_equal.
  pose proof (tmin_items _ _ Hy) as Hity. rewrite Hity in Hxr, H2.
  apply elem_of_cons in Hxr as [->|Hxr]; [done|].
  unfold shape.bst in Hbst. rewrite <- Hit, Hity in Hbst.
  apply StronglySorted_app_1_r, StronglySorted_cons in Hbst as [Hlt _].
  eapply Forall_forall in Hlt; [|done].
  unfold shape.item_lt, lt in Hlt.
  rewrite (H2 y) in Hlt; [done|set_solver].
Qed.

Lemma tremove_bst t k x :
  bst t → tmin (tsplit comparator t k).2 = Some x → bst (tremove comparator t k).
Proof using comparator_irrefl comparator_trans.
  intros Hbst Hmin. destruct (tremove_items comparator t k x Hmin) as [H1 H2].
  unfold shape.bst in *. rewrite H2. rewrite H1 in Hbst.
  apply StronglySorted_app in Hbst as (H12 & Hl & (_ & Hr)%StronglySorted_cons).
  apply StronglySorted_app. split_and!; [|done..].
  intros y z Hy Hz. apply H12; set_solver.
Qed.

Lemma tinsert_bst t x :
  bst t → (∀ y, y ∈ items t → ¬ equiv_key (ikey y) (ikey x)) →
  bst (tinsert comparator t x).
Proof using comparator_irrefl comparator_trans.
  intros Hbst Hne.
  destruct (tsplit_keys t (ikey x) Hbst) as [H1 H2].
  pose proof (tsplit_items comparator t (ikey x)) as Hit.
  unfold shape.bst in *. rewrite tinsert_items.
  destruct (tsplit comparator t (ikey x)) as [tl tr]. simpl in *.
  rewrite <- Hit in Hbst, Hne.
  apply StronglySorted_app in Hbst as (H12 & Hl & Hr).
  assert (∀ z, z ∈ items tr → item_lt x z) as Hxr.
  { intros z Hz. unfold shape.item_lt, lt.
    destruct (comparator (ikey x) (ikey z)) eqn:Hc; [done|].
    exfalso. apply (Hne z); [set_solver|]. split; [by apply H2|done]. }
  apply StronglySorted_app. split_and!; [|done|].
  - intros y z Hy [->|Hz]%elem_of_cons; [by apply H1|].
    eapply comparator_trans; [by apply H1|]. by apply Hxr.
  - apply StronglySorted_cons. split; [|done]. by apply Forall_forall.
Qed.

(** *** [exist] on a search tree *)

Lemma exist_stored c t x fuel m :
  is_treap m c t → bst t → height t < fuel → x ∈ items t →
  exist comparator c fuel (ikey x) m = Ok (Some (addr x), m).
Proof using comparator_irrefl comparator_trans.
  intros Ht Hbst Hfuel Hx.
  rewrite (exist_spec c (ikey x) t fuel m Ht Hfuel).
  by rewrite (tfind_stored t x Hbst Hx).
Qed.

Lemma exist_cases c t k fuel m :
  is_treap m c t → bst t → height t < fuel →
  (∃ x, x ∈ items t ∧ equiv_key (ikey x) k
        ∧ exist comparator c fuel k m = Ok (Some (addr x), m))
  ∨ ((∀ x, x ∈ items t → ¬ equiv_key (ikey x) k)
     ∧ exist comparator c fuel k m = Ok (Some c, m)).
Proof using comparator_irrefl comparator_trans.
  intros Ht Hbst Hfuel.
  rewrite (exist_spec c k t fuel m Ht Hfuel).
  destruct (tfind comparator t k) as [x|] eqn:Hfind.
  - left. exists x. apply tfind_Some in Hfind as [??]. done.
  - right. split; [|done]. intros x Hx. by eapply tfind_None.
Qed.

End treap_order.
End treap_order.

Module treap_iter.
Import treap shape treap_facts treap_remove.
Section treap_iter.
Context {K : Type}.

Implicit Types (m : gmap nat (treap_node K)) (t l r : tree (K:=K)) (q : ptr).

Lemma begin_spec c t fuel m :
  is_treap m c t → height t ≤ fuel →
  begin c fuel m = Ok (first_ptr c (items t), m).
Proof.
  intros ((pc & Hc) & Ht & _) Hfuel. unfold begin.
  erewrite bind_ok by (eapply get_left_ok; exact Hc). cbn [left].
  destruct t as [|l x r]; [done|].
  destruct (tmin_is_Some (Bin l x r)) as [y Hy]; [done|].
  rewrite (tmin_items _ _ Hy). cbn [first_ptr root].
  change (Some (addr x)) with (root (Bin l x r)).
  by eapply leftmost_spec.
Qed.

Lemma climb_mono f : ∀ f' a b m res,
  climb f a b m = Ok res → f ≤ f' → climb f' a b m = Ok res.
Proof.
  induction f as [|f IH]; intros f' a b m res; [done|].
  intros Hrun Hle. destruct f' as [|f']; [lia|].
  simpl in *. destruct b as [b|]; [|done].
  destruct (get_right (Some b) m) as [[tr m']| |] eqn:Hr;
    unfold bind in *; rewrite Hr in *; [|done..].
  destruct (decide (a = tr)); [|done].
  destruct (get_parent (Some b) m') as [[tp m'']| |] eqn:Hp; [|done..].
  apply IH; [done|lia].
Qed.

(** One step of [climb] from the root of a right subtree. *)
Lemma climb_from_right m x l r q f res :
  m !! addr x = Some (TreapNode (prio x) (root l) (root r) q (Some (ikey x))) →
  climb f (Some (addr x)) q m = Ok res →
  climb (S f) (root r) (Some (addr x)) m = Ok res.
Proof.
  intros Hx Hrun. cbn [climb].
  erewrite bind_ok by (eapply get_right_ok; exact Hx). cbn [right].
  rewrite decide_True by done.
  erewrite bind_ok by (eapply get_parent_ok; exact Hx). done.
Qed.

(** [climb] stops at the root of a left subtree. *)
Lemma climb_from_left m x l r q f :
  m !! addr x = Some (TreapNode (prio x) (root l) (root r) q (Some (ikey x))) →
  root l ≠ root r →
  climb (S f) (root l) (Some (addr x)) m = Ok ((root l, Some (addr x)), m).
Proof.
  intros Hx Hne. cbn [climb].
  erewrite bind_ok by (eapply get_right_ok; exact Hx). cbn [right].
  by rewrite decide_False.
Qed.

Lemma incr_in_tree t : ∀ m p fuel pre x post,
  is_tree m (Some p) t → NoDup (addrs t) → height t ≤ fuel →
  items t = pre ++ x :: post →
  match post with
  | y :: _ => incr fuel (Some (addr x)) m = Ok (Some (addr y), m)
  | [] =>
    ∃ lx px,
      m !! addr x = Some (TreapNode (prio x) lx None (Some px) (Some (ikey x)))
      ∧ ∀ f res, climb f (root t) (Some p) m = Ok res →
                 climb (height t + f) (Some (addr x)) (Some px) m = Ok res
  end.
Proof.
  induction t as [|l IHl z r IHr]; intros m p fuel pre x post Ht Hnd Hfuel Hit.
  { by destruct pre. }
  destruct Ht as (Hz & Hl & Hr). simpl in Hfuel, Hit.
  pose proof Hnd as (Hdl & Hdr & Hzl & Hzr & Hlr)%NoDup_bin.
  apply app_eq_inv in Hit as [(k & Hitl & Hk)|(k & Hpre & Hk)].
  - destruct k as [|x' k'].
    + (* the node is the root *)
      simpl in Hk. injection Hk as -> ->. clear IHl IHr.
      destruct r as [|rl y rr].
      * cbn [items]. eexists _, _. split; [exact Hz|].
        intros f res Hrun. eapply climb_mono; [exact Hrun|lia].
      * destruct (tmin_is_Some (Bin rl y rr)) as [y' Hy']; [done|].
        rewrite (tmin_items _ _ Hy'). unfold incr.
        erewrite bind_ok by (eapply get_parent_ok; exact Hz). cbn [parent].
        erewrite bind_ok by (eapply get_right_ok; exact Hz). cbn [right root].
        change (Some (addr y)) with (root (Bin rl y rr)).
        eapply leftmost_spec; [exact Hr|done|]. lia.
    + (* the node is in the left subtree *)
      simpl in Hk. injection Hk as <- ->.
      specialize (IHl m (addr z) fuel pre x k' Hl Hdl ltac:(lia) Hitl).
      clear IHr. destruct k' as [|y k'']; [|exact IHl].
      cbn [app]. destruct IHl as (lx & px & Hx & Hclimb).
      assert (x ∈ items l) as Hxl by (rewrite Hitl; set_solver).
      assert (∃ a, root l = Some a ∧ a ∈ addrs l) as (a & Hroot & Ha).
      { destruct l as [|ll y lr]; [by apply elem_of_nil in Hxl|].
        eexists. split; [done|]. rewrite addrs_bin. set_solver. }
      assert (root l ≠ root r) as Hne.
      { rewrite Hroot. intros Heq. symmetry in Heq.
        apply root_in_addrs in Heq. by apply (Hlr a). }
      specialize (Hclimb 1 _ (climb_from_left _ _ _ _ _ 0 Hz Hne)).
      unfold incr.
      erewrite bind_ok by (eapply get_parent_ok; exact Hx). cbn [parent].
      erewrite bind_ok by (eapply get_right_ok; exact Hx). cbn [right].
      erewrite bind_ok by (eapply climb_mono; [exact Hclimb|lia]).
      cbv beta iota.
      destruct (is_tree_lookup _ _ _ _ Hl Ha) as (y & n & _ & _ & Hn & _).
      rewrite Hroot.
      erewrite bind_ok by (eapply get_right_ok; exact Hn).
      rewrite decide_True; [done|].
      destruct l as [|ll y' lr]; [done|]. destruct Hl as (Hy' & _ & _).
      injection Hroot as <-. rewrite Hy' in Hn. injection Hn as <-. simpl.
      intros Heq. apply root_in_addrs in Heq.
      apply Hzl. rewrite addrs_bin. set_solver.
  - destruct k as [|z' k'].
    + (* the node is the root *)
      simpl in Hk. injection Hk as -> Hitr. clear IHl IHr.
      destruct post as [|y post'].
      * destruct r as [|rl y rr]; [|simpl in Hitr; by destruct (items rl)].
        eexists _, _. split; [exact Hz|].
        intros f res Hrun. eapply climb_mono; [exact Hrun|lia].
      * destruct (tmin_is_Some r) as [y' Hy']; [by destruct r|].
        pose proof (tmin_items _ _ Hy') as Hity. rewrite Hitr in Hity.
        injection Hity as -> _. unfold incr.
        erewrite bind_ok by (eapply get_parent_ok; exact Hz). cbn [parent].
        erewrite bind_ok by (eapply get_right_ok; exact Hz). cbn [right].
        destruct r as [|rl y'' rr]; [done|]. cbn [root].
        change (Some (addr y'')) with (root (Bin rl y'' rr)).
        eapply leftmost_spec; [exact Hr|done|]. lia.
    + (* the node is in the right subtree *)
      simpl in Hk. injection Hk as <- Hitr.
      specialize (IHr m (addr z) fuel k' x post Hr Hdr ltac:(lia) Hitr).
      clear IHl. destruct post as [|y post']; [|exact IHr].
      destruct IHr as (lx & px & Hx & Hclimb).
      exists lx, px. split; [done|]. intros f res Hrun.
      eapply climb_mono; [apply Hclimb, (climb_from_right _ _ _ _ _ _ _ Hz Hrun)|].
      cbn [height]. lia.
Qed.

Lemma incr_spec c t fuel m pre x post :
  is_treap m c t → height t < fuel →
  items t = pre ++ x :: post →
  incr fuel (Some (addr x)) m = Ok (first_ptr c post, m).
Proof.
  intros Htreap Hfuel Hit.
  pose proof (is_treap_head_not_in _ _ _ Htreap) as Hct.
  destruct Htreap as ((pc & Hc) & Ht & Hnd).
  pose proof (incr_in_tree t m c fuel pre x post Ht Hnd ltac:(lia) Hit) as Hin.
  destruct post as [|y post']; [|exact Hin].
  destruct Hin as (lx & px & Hx & Hclimb). cbn [first_ptr].
  destruct t as [|l z r]; [by destruct pre|].
  assert (climb 1 (root (Bin l z r)) (Some c) m
          = Ok ((root (Bin l z r), Some c), m)) as Hrun.
  { cbn [climb].
    erewrite bind_ok by (eapply get_right_ok; exact Hc). done. }
  apply Hclimb in Hrun. unfold incr.
  erewrite bind_ok by (eapply get_parent_ok; exact Hx). cbn [parent].
  erewrite bind_ok by (eapply get_right_ok; exact Hx). cbn [right].
  erewrite bind_ok by (eapply climb_mono; [exact Hrun|lia]).
  cbv beta iota. destruct Ht as (Hz & _ & _). cbn [root].
  erewrite bind_ok by (eapply get_right_ok; exact Hz). cbn [right].
  rewrite decide_True; [done|].
  intros Heq%root_in_addrs. apply Hct. rewrite addrs_bin. set_solver.
Qed.

(** Incrementing the end iterator leaves it where it is. *)
Lemma incr_end c t fuel m :
  is_treap m c t → incr fuel (Some c) m = Ok (Some c, m).
Proof.
  intros ((pc & Hc) & _). unfold incr.
  erewrite bind_ok by (eapply get_parent_ok; exact Hc). done.
Qed.

End treap_iter.
End treap_iter.

(** ** The priorities form a max-heap *)

Module treap_heap.
Import treap shape treap_facts treap_remove.
Section treap_heap.
Context {K : Type}.
Variable comparator : K → K → bool.

Implicit Types (t l r : tree (K:=K)) (x y : item (K:=K)) (k : K).

Abbreviation below p t := (Forall (λ y, (prio y <= p)%N) (items t)).

Lemma tsplit_below p t k :
  below p t →
  below p (tsplit comparator t k).1 ∧ below p (tsplit comparator t k).2.
Proof.
  intros H. rewrite <- (tsplit_items comparator t k) in H.
  by apply Forall_app in H.
Qed.

Lemma tsplit_heap_ordered t k :
  heap_ordered t →
  heap_ordered (tsplit comparator t k).1 ∧ heap_ordered (tsplit comparator t k).2.
Proof.
  induction t as [|l IHl x r IHr]; [done|].
  intros (Hl & Hr & Hhl & Hhr). simpl.
  destruct (comparator (ikey x) k).
  - destruct (tsplit_below (prio x) r k Hr) as [H1 H2].
    destruct (IHr Hhr) as [H3 H4].
    destruct (tsplit comparator r k) as [rl rr]. simpl in *. done.
  - destruct (tsplit_below (prio x) l k Hl) as [H1 H2].
    destruct (IHl Hhl) as [H3 H4].
    destruct (tsplit comparator l k) as [ll lr]. simpl in *. done.
Qed.

Lemma tmerge_heap_ordered t1 t2 :
  heap_ordered t1 → heap_ordered t2 → heap_ordered (tmerge t1 t2).
Proof.
  revert t2. induction t1 as [|l1 IHl1 x1 r1 IHr1]; intros t2.
  { by rewrite tmerge_leaf_l. }
  induction t2 as [|l2 IHl2 x2 r2 IHr2].
  { by rewrite tmerge_leaf_r. }
  intros H1 H2. rewrite tmerge_bin.
  pose proof H1 as (Hl1 & Hr1 & Hhl1 & Hhr1).
  pose proof H2 as (Hl2 & Hr2 & Hhl2 & Hhr2).
  destruct (prio x2 <? prio x1)%N eqn:Hp.
  - apply N.ltb_lt in Hp. cbn [heap_ordered]. split_and!; [done| |done|by apply IHr1].
    rewrite tmerge_items. apply Forall_app. split; [done|]. cbn [items].
    apply Forall_app. split; [|apply Forall_cons; split; [lia|]].
    + eapply Forall_impl; [exact Hl2|]. simpl. lia.
    + eapply Forall_impl; [exact Hr2|]. simpl. lia.
  - apply N.ltb_ge in Hp. cbn [heap_ordered]. split_and!; [|done|by apply IHl2|done].
    rewrite tmerge_items. apply Forall_app. split; [|done]. cbn [items].
    apply Forall_app. split; [|apply Forall_cons; split; [lia|]].
    + eapply Forall_impl; [exact Hl1|]. simpl. lia.
    + eapply Forall_impl; [exact Hr1|]. simpl. lia.
Qed.

Lemma tdrop_min_below p t : below p t → below p (tdrop_min t).
Proof.
  induction t as [|l IHl x r IHr]; [done|]. cbn [items]. intros H.
  apply Forall_app in H as [Hl [Hx Hr]%Forall_cons].
  destruct l as [|l' z r']; [done|].
  change (tdrop_min (Bin (Bin l' z r') x r)) with (Bin (tdrop_min (Bin l' z r')) x r).
  cbn [items]. apply Forall_app. split; [by apply IHl|by apply Forall_cons].
Qed.

Lemma tdrop_min_heap_ordered t : heap_ordered t → heap_ordered (tdrop_min t).
Proof.
  induction t as [|l IHl x r IHr]; [done|].
  intros (Hl & Hr & Hhl & Hhr).
  destruct l as [|l' z r']; [done|].
  change (tdrop_min (Bin (Bin l' z r') x r)) with (Bin (tdrop_min (Bin l' z r')) x r).
  split_and!; [by apply tdrop_min_below|done|by apply IHl|done].
Qed.

(** The shapes that [insert] and [remove] leave are max-heaps when the
    shape they start from is one. *)
Lemma tinsert_heap_ordered t x :
  heap_ordered t → heap_ordered (tinsert comparator t x).
Proof.
  intros H. unfold tinsert.
  destruct (tsplit_heap_ordered t (ikey x) H) as [H1 H2].
  destruct (tsplit comparator t (ikey x)) as [l r].
  apply tmerge_heap_ordered; [|done].
  apply tmerge_heap_ordered; [done|]. simpl. split_and!; done.
Qed.

Lemma tremove_heap_ordered t k :
  heap_ordered t → heap_ordered (tremove comparator t k).
Proof.
  intros H. unfold tremove.
  destruct (tsplit_heap_ordered t k H) as [H1 H2].
  destruct (tsplit comparator t k) as [l r].
  apply tmerge_heap_ordered; [done|]. by apply tdrop_min_heap_ordered.
Qed.

End treap_heap.
End treap_heap.

Module bimap_facts.
Import shape bimap contents treap_facts treap_remove treap_order treap_iter.
Section bimap_facts.
Context {L R : Type}.
Variable compare_left : L → L → bool.
Variable compare_right : R → R → bool.
Variable rand : nat → N.

Hypothesis left_irrefl : ∀ x, compare_left x x = false.
Hypothesis left_trans : ∀ x y z,
  compare_left x y = true → compare_left y z = true → compare_left x z = true.
Hypothesis right_irrefl : ∀ x, compare_right x x = false.
Hypothesis right_trans : ∀ x y z,
  compare_right x y = true → compare_right y z = true → compare_right x z = true.

Implicit Types (s : store (L:=L) (R:=R)) (c : nat) (e : entry (L:=L) (R:=R)).
Implicit Types (es : list (entry (L:=L) (R:=R))).

Abbreviation holds := (holds compare_left compare_right).
Abbreviation equiv_left := (equiv_left compare_left).
Abbreviation equiv_right := (equiv_right compare_right).
Abbreviation find_left := (find_left compare_left).
Abbreviation find_right := (find_right compare_right).
Abbreviation insert := (insert compare_left compare_right rand).

(** *** Lifting the treap operations to the memory *)

Lemma on_left_ok {A : Type} (f : M (gmap nat (treap_node L)) A) s x m :
  f (left_nodes s) = Ok (x, m) →
  on_left f s
  = Ok (x, Store m (right_nodes s) (sizes s) (next_addr s) (rand_calls s)).
Proof. intros H. unfold on_left. by rewrite H. Qed.

Lemma on_right_ok {A : Type} (f : M (gmap nat (treap_node R)) A) s x m :
  f (right_nodes s) = Ok (x, m) →
  on_right f s
  = Ok (x, Store (left_nodes s) m (sizes s) (next_addr s) (rand_calls s)).
Proof. intros H. unfold on_right. by rewrite H. Qed.

Lemma on_left_read {A : Type} (f : M (gmap nat (treap_node L)) A) s x :
  f (left_nodes s) = Ok (x, left_nodes s) → on_left f s = Ok (x, s).
Proof. intros H. unfold on_left. rewrite H. by destruct s. Qed.

Lemma on_right_read {A : Type} (f : M (gmap nat (treap_node R)) A) s x :
  f (right_nodes s) = Ok (x, right_nodes s) → on_right f s = Ok (x, s).
Proof. intros H. unfold on_right. rewrite H. by destruct s. Qed.

(** *** Contents *)

Lemma holds_height s c es tl tr :
  items tl = left_item <$> es → items tr ≡ₚ right_item <$> es →
  height tl ≤ length es ∧ height tr ≤ length es.
Proof.
  intros Hl Hr. pose proof (height_le_length tl). pose proof (height_le_length tr).
  rewrite Hl, length_fmap in *. rewrite Hr, length_fmap in *. done.
Qed.

Lemma size_spec s c es : holds s c es → size c s = Ok (Z.of_nat (length es), s).
Proof.
  intros (tl & tr & _ & _ & _ & _ & _ & _ & Hsz & _).
  unfold size. by rewrite Hsz.
Qed.

Lemma empty_spec s c es :
  holds s c es → empty c s = Ok (bool_decide (es = []), s).
Proof.
  intros H. unfold empty. erewrite bind_ok by (by eapply size_spec).
  unfold ret. do 2 f_equal. destruct es; [done|]. simpl length.
  rewrite bool_decide_false by done. apply Z.eqb_neq. lia.
Qed.

(** *** [find_left] and [find_right] *)

Lemma find_left_stored s c es e fuel :
  holds s c es → e ∈ es → length es < fuel →
  find_left c fuel (e_left e) s = Ok (LeftIt (Some (e_addr e)), s).
Proof using left_irrefl left_trans.
  intros (tl & tr & Hl & Hr & Hil & Hir & Hbl & Hbr & _) He Hfuel.
  destruct (holds_height s c es tl tr Hil Hir) as [Hhl Hhr].
  unfold bimap.find_left.
  erewrite bind_ok; [done|]. apply on_left_read.
  apply (exist_stored compare_left left_irrefl left_trans c tl (left_item e));
    [done..|lia|].
  rewrite Hil. by apply list_elem_of_fmap_2.
Qed.

Lemma find_right_stored s c es e fuel :
  holds s c es → e ∈ es → length es < fuel →
  find_right c fuel (e_right e) s = Ok (RightIt (Some (e_addr e)), s).
Proof using right_irrefl right_trans.
  intros (tl & tr & Hl & Hr & Hil & Hir & Hbl & Hbr & _) He Hfuel.
  destruct (holds_height s c es tl tr Hil Hir) as [Hhl Hhr].
  unfold bimap.find_right.
  erewrite bind_ok; [done|]. apply on_right_read.
  apply (exist_stored compare_right right_irrefl right_trans c tr (right_item e));
    [done..|lia|].
  rewrite Hir. by apply list_elem_of_fmap_2.
Qed.

Lemma find_left_cases s c es l fuel :
  holds s c es → length es < fuel →
  (∃ e, e ∈ es ∧ equiv_left (e_left e) l
        ∧ find_left c fuel l s = Ok (LeftIt (Some (e_addr e)), s))
  ∨ ((∀ e, e ∈ es → ¬ equiv_left (e_left e) l)
     ∧ find_left c fuel l s = Ok (end_left c, s)).
Proof using left_irrefl left_trans.
  intros (tl & tr & Hl & Hr & Hil & Hir & Hbl & Hbr & _) Hfuel.
  destruct (holds_height s c es tl tr Hil Hir) as [Hhl Hhr].
  unfold bimap.find_left.
  destruct (exist_cases compare_left left_irrefl left_trans c tl l fuel _ Hl Hbl)
    as [(x & Hx & He & Hrun)|[Hno Hrun]]; [lia|..].
  - left. rewrite Hil in Hx. apply list_elem_of_fmap in Hx as (e & -> & Hin).
    exists e. split_and!; [done..|].
    erewrite bind_ok; [done|]. by apply on_left_read.
  - right. split.
    + intros e He. apply (Hno (left_item e)). rewrite Hil.
      by apply list_elem_of_fmap_2.
    + erewrite bind_ok; [done|]. by apply on_left_read.
Qed.

Lemma find_right_cases s c es r fuel :
  holds s c es → length es < fuel →
  (∃ e, e ∈ es ∧ equiv_right (e_right e) r
        ∧ find_right c fuel r s = Ok (RightIt (Some (e_addr e)), s))
  ∨ ((∀ e, e ∈ es → ¬ equiv_right (e_right e) r)
     ∧ find_right c fuel r s = Ok (end_right c, s)).
Proof using right_irrefl right_trans.
  intros (tl & tr & Hl & Hr & Hil & Hir & Hbl & Hbr & _) Hfuel.
  destruct (holds_height s c es tl tr Hil Hir) as [Hhl Hhr].
  unfold bimap.find_right.
  destruct (exist_cases compare_right right_irrefl right_trans c tr r fuel _ Hr Hbr)
    as [(x & Hx & He & Hrun)|[Hno Hrun]]; [lia|..].
  - left. rewrite Hir in Hx. apply list_elem_of_fmap in Hx as (e & -> & Hin).
    exists e. split_and!; [done..|].
    erewrite bind_ok; [done|]. by apply on_right_read.
  - right. split.
    + intros e He. apply (Hno (right_item e)). rewrite Hir.
      by apply list_elem_of_fmap_2.
    + erewrite bind_ok; [done|]. by apply on_right_read.
Qed.

(** A node of the bimap is not its head node. *)
Lemma holds_addr_ne s c es e : holds s c es → e ∈ es → e_addr e ≠ c.
Proof.
  intros (tl & tr & Hl & _ & Hil & _) He Heq.
  apply (is_treap_head_not_in _ _ _ Hl). unfold addrs. rewrite Hil, <- Heq.
  rewrite <- list_fmap_compose. by apply (list_elem_of_fmap_2 (addr ∘ left_item)).
Qed.

(** *** [insert] with a key that is taken *)

Lemma insert_taken s c es l r fuel :
  holds s c es → length es < fuel →
  (∃ e, e ∈ es ∧ (equiv_left (e_left e) l ∨ equiv_right (e_right e) r)) →
  insert c fuel l r s = Ok (end_left c, s).
Proof using left_irrefl left_trans right_irrefl right_trans.
  intros Hh Hfuel (e & He & Heq). unfold bimap.insert.
  erewrite bind_ok by (by eapply empty_spec).
  rewrite bool_decide_false by (intros ->; by apply elem_of_nil in He).
  cbn [negb]. rewrite bind_assoc.
  destruct (find_left_cases s c es l fuel Hh Hfuel)
    as [(e1 & He1 & Hq1 & Hrun1)|[Hno1 Hrun1]].
  - erewrite bind_ok by exact Hrun1.
    rewrite decide_True.
    + by erewrite bind_ok by done.
    + unfold end_left, treap.end_. intros [= Heq1].
      by eapply holds_addr_ne.
  - erewrite bind_ok by exact Hrun1.
    rewrite decide_False by (by intros []).
    destruct Heq as [Heq|Heq]; [by destruct (Hno1 e He)|].
    destruct (find_right_cases s c es r fuel Hh Hfuel)
      as [(e2 & He2 & Hq2 & Hrun2)|[Hno2 Hrun2]]; [|by destruct (Hno2 e He)].
    rewrite bind_assoc. erewrite bind_ok by exact Hrun2.
    erewrite bind_ok by done.
    rewrite bool_decide_true; [done|].
    unfold end_right, treap.end_. intros [= Heq2].
    by eapply holds_addr_ne.
Qed.

End bimap_facts.
End bimap_facts.

Lemma NoDup_split_unique {A : Type} (a1 : list A) : ∀ l x a2 b1 b2,
  NoDup l → l = a1 ++ x :: a2 → l = b1 ++ x :: b2 → a1 = b1 ∧ a2 = b2.
Proof.
  induction a1 as [|y a1 IH]; intros l x a2 b1 b2 Hnd -> Heq.
  - destruct b1 as [|z b1]; simpl in *; [by injection Heq as ->|].
    injection Heq as <- ->. apply NoDup_cons in Hnd as [Hx _].
    destruct Hx. set_solver.
  - destruct b1 as [|z b1]; simpl in *.
    + injection Heq as -> <-. apply NoDup_cons in Hnd as [Hx _].
      destruct Hx. set_solver.
    + injection Heq as <- Heq. apply NoDup_cons in Hnd as [_ Hnd].
      destruct (IH _ _ _ _ _ Hnd eq_refl Heq) as [-> ->]. done.
Qed.

Module treap_ops.
Import treap shape treap_facts treap_remove treap_order treap_iter.
Section treap_ops.
Context {K : Type}.
Implicit Types (m : gmap nat (treap_node K)) (t : tree (K:=K)).

Lemma is_treap_frame m m' c t :
  is_treap m c t → (∀ a, a ∈ c :: addrs t → m' !! a = m !! a) →
  is_treap m' c t.
Proof.
  intros ((pc & Hc) & Ht & Hnd) Hf. split_and!; [|by eapply is_tree_frame; [|done]; intros; apply Hf; set_solver|done].
  exists pc. rewrite Hf; [done|set_solver].
Qed.

Lemma is_treap_allocated m c t a :
  is_treap m c t → a ∈ c :: addrs t → is_Some (m !! a).
Proof.
  intros ((pc & Hc) & Ht & Hnd) [->|Ha]%elem_of_cons; [by eexists|].
  destruct (is_tree_lookup _ _ _ _ Ht Ha) as (x & n & _ & _ & Hn & _).
  by eexists.
Qed.

Lemma items_NoDup m c t : is_treap m c t → NoDup (items t).
Proof. intros (_ & _ & Hnd). by eapply NoDup_fmap_1. Qed.

Variable comparator : K → K → bool.
Hypothesis comparator_irrefl : ∀ x, comparator x x = false.
Hypothesis comparator_trans : ∀ x y z,
  comparator x y = true → comparator y z = true → comparator x z = true.

Lemma remove_stored c t x fuel m :
  is_treap m c t → bst comparator t → x ∈ items t →
  2 * height t + 2 < fuel →
  ∃ m' it t',
    remove comparator c fuel (ikey x) m = Ok (it, m')
    ∧ is_treap m' c t' ∧ bst comparator t'
    ∧ (∀ pre post, items t = pre ++ x :: post → items t' = pre ++ post)
    ∧ same_outside (c :: addrs t) m m'.
Proof using comparator_irrefl comparator_trans.
  intros Ht Hbst Hx Hfuel.
  pose proof (tsplit_min_stored comparator comparator_irrefl comparator_trans
                t x Hbst Hx) as Hmin.
  destruct (remove_spec comparator c t (ikey x) x fuel m Ht Hmin)
    as (m' & it & Hrun & Ht' & Hf); [by apply comparator_irrefl..|done|].
  exists m', it, (tremove comparator t (ikey x)). split_and!; [done..| | |done].
  - by eapply (tremove_bst comparator comparator_irrefl comparator_trans).
  - intros pre post Hit.
    destruct (tremove_items comparator t (ikey x) x Hmin) as [H1 H2].
    destruct (NoDup_split_unique _ _ _ _ _ _ (items_NoDup _ _ _ Ht) Hit H1)
      as [-> ->].
    done.
Qed.

Lemma insert_fresh c t a p k qa fuel m :
  is_treap m c t → bst comparator t →
  m !! a = Some (TreapNode p None None qa (Some k)) →
  a ∉ addrs t →
  (∀ y, y ∈ items t → ¬ equiv_key comparator (ikey y) k) →
  2 * height t + 2 < fuel →
  ∃ m' t' i1 i2,
    insert comparator c fuel (Some a) m = Ok (Some a, m')
    ∧ is_treap m' c t' ∧ bst comparator t'
    ∧ items t = i1 ++ i2 ∧ items t' = i1 ++ Item a p k :: i2
    ∧ same_outside (c :: a :: addrs t) m m'.
Proof using comparator_irrefl comparator_trans.
  intros Ht Hbst Ha Hat Hne Hfuel.
  destruct (insert_spec comparator c t a p k qa fuel m Ht Ha Hat Hfuel)
    as (m' & Hrun & Ht' & Hf).
  eexists m', _, _, _. split_and!; [done..| | | |done].
  - by apply (tinsert_bst comparator comparator_irrefl comparator_trans).
  - symmetry. apply (tsplit_items comparator t k).
  - apply (tinsert_items comparator t (Item a p k)).
Qed.

End treap_ops.
End treap_ops.

Module bimap_update.
Import shape bimap contents treap_facts treap_remove treap_order treap_iter.
Import treap_ops bimap_facts.
Section bimap_update.
Context {L R : Type}.
Variable compare_left : L → L → bool.
Variable compare_right : R → R → bool.
Variable rand : nat → N.

Hypothesis left_irrefl : ∀ x, compare_left x x = false.
Hypothesis left_trans : ∀ x y z,
  compare_left x y = true → compare_left y z = true → compare_left x z = true.
Hypothesis right_irrefl : ∀ x, compare_right x x = false.
Hypothesis right_trans : ∀ x y z,
  compare_right x y = true → compare_right y z = true → compare_right x z = true.

Implicit Types (s : store (L:=L) (R:=R)) (c : nat) (e : entry (L:=L) (R:=R)).
Implicit Types (es : list (entry (L:=L) (R:=R))).

Abbreviation holds := (holds compare_left compare_right).
Abbreviation equiv_left := (equiv_left compare_left).
Abbreviation equiv_right := (equiv_right compare_right).
Abbreviation find_left := (find_left compare_left).
Abbreviation find_right := (find_right compare_right).
Abbreviation insert := (insert compare_left compare_right rand).
Abbreviation erase_left := (erase_left compare_left compare_right).
Abbreviation erase_right := (erase_right compare_left compare_right).

Local Abbreviation find_left_cases :=
  (find_left_cases compare_left compare_right left_irrefl left_trans).
Local Abbreviation find_right_cases :=
  (find_right_cases compare_left compare_right right_irrefl right_trans).
Local Abbreviation find_left_stored :=
  (find_left_stored compare_left compare_right left_irrefl left_trans).
Local Abbreviation find_right_stored :=
  (find_right_stored compare_left compare_right right_irrefl right_trans).
Local Abbreviation insert_taken :=
  (insert_taken compare_left compare_right rand left_irrefl left_trans
     right_irrefl right_trans).

Lemma new_node_ok l r s :
  new_node rand l r s
  = Ok (next_addr s,
        Store (<[next_addr s := TreapNode (rand (rand_calls s)) None None None (Some l)]>
                 (left_nodes s))
              (<[next_addr s := TreapNode (rand (S (rand_calls s))) None None None (Some r)]>
                 (right_nodes s))
              (sizes s) (S (next_addr s)) (S (S (rand_calls s)))).
Proof. done. Qed.

Lemma holds_addrs_left s c es tl :
  items tl = left_item <$> es → addrs tl = e_addr <$> es.
Proof. unfold addrs. intros ->. by rewrite <- list_fmap_compose. Qed.

Lemma holds_addrs_right s c es tr a :
  items tr ≡ₚ right_item <$> es → a ∈ addrs tr ↔ a ∈ e_addr <$> es.
Proof.
  unfold addrs. intros ->. by rewrite <- list_fmap_compose.
Qed.

(** When neither key is taken, [insert] goes on to the allocation. *)
Lemma insert_not_taken s c es l r fuel :
  holds s c es →
  (∀ e, e ∈ es → ¬ equiv_left (e_left e) l) →
  (∀ e, e ∈ es → ¬ equiv_right (e_right e) r) →
  length es < fuel →
  insert c fuel l r s
  = (let* p := new_node rand l r in
     let* l_it := on_left (treap.insert compare_left c fuel (Some p)) in
     on_right (treap.insert compare_right c fuel (Some p)) ;;
     let* n := size c in
     set_size c ((n + 1) mod size_t_max) ;;
     ret (LeftIt l_it)) s.
Proof using left_irrefl left_trans right_irrefl right_trans.
  intros Hh Hnl Hnr Hfuel. unfold bimap.insert.
  erewrite bind_ok by (by eapply empty_spec).
  destruct es as [|e0 es']; [done|]. rewrite bool_decide_false by done.
  cbn [negb]. rewrite !bind_assoc.
  destruct (find_left_cases s c _ l fuel Hh)
    as [(e1 & He1 & Hq1 & _)|[_ Hrun1]]; [done|by destruct (Hnl e1)|].
  erewrite bind_ok by exact Hrun1. rewrite decide_False by (by intros []).
  destruct (find_right_cases s c _ r fuel Hh)
    as [(e2 & He2 & Hq2 & _)|[_ Hrun2]]; [done|by destruct (Hnr e2)|].
  rewrite !bind_assoc. erewrite bind_ok by exact Hrun2.
  erewrite bind_ok by done. rewrite bool_decide_false by (by intros []). done.
Qed.

Lemma insert_new s c es l r fuel :
  holds s c es → allocated_below s →
  (∀ e, e ∈ es → ¬ equiv_left (e_left e) l) →
  (∀ e, e ∈ es → ¬ equiv_right (e_right e) r) →
  (Z.of_nat (length es) + 1 < size_t_max)%Z →
  2 * length es + 2 < fuel →
  ∃ s' es1 es2,
    insert c fuel l r s = Ok (LeftIt (Some (next_addr s)), s')
    ∧ es = es1 ++ es2
    ∧ holds s' c (es1 ++ Entry (next_addr s) (rand (rand_calls s))
                           (rand (S (rand_calls s))) l r :: es2)
    ∧ allocated_below s'
    ∧ next_addr s' = S (next_addr s)
    ∧ frame c (next_addr s :: (e_addr <$> es)) s s'.
Proof using left_irrefl left_trans right_irrefl right_trans.
  intros Hh Halloc Hnl Hnr Hsize Hfuel.
  rewrite (insert_not_taken s c es l r fuel Hh Hnl Hnr ltac:(lia)).
  destruct Hh as (tl & tr & Hl & Hr & Hil & Hir & Hbl & Hbr & Hsz & Hbound).
  destruct (holds_height s c es tl tr Hil Hir) as [Hhl Hhr].
  set (a := next_addr s).
  assert (left_nodes s !! a = None ∧ right_nodes s !! a = None) as [Hal Har].
  { split; apply eq_None_not_Some; intros Hs.
    - specialize (Halloc a (or_introl Hs)). unfold a in *. lia.
    - specialize (Halloc a (or_intror (or_introl Hs))). unfold a in *. lia. }
  assert (a ∉ c :: addrs tl) as Hatl.
  { intros Hin. eapply is_treap_allocated in Hin; [|exact Hl].
    rewrite Hal in Hin. by destruct Hin. }
  assert (a ∉ c :: addrs tr) as Hatr.
  { intros Hin. eapply is_treap_allocated in Hin; [|exact Hr].
    rewrite Har in Hin. by destruct Hin. }
  erewrite bind_ok by apply new_node_ok. fold a.
  set (s1 := Store _ _ _ _ _).
  assert (is_treap (left_nodes s1) c tl) as Hl1.
  { eapply is_treap_frame; [exact Hl|]. intros b Hb. simpl.
    rewrite lookup_insert_ne; [done|]. by intros <-. }
  assert (is_treap (right_nodes s1) c tr) as Hr1.
  { eapply is_treap_frame; [exact Hr|]. intros b Hb. simpl.
    rewrite lookup_insert_ne; [done|]. by intros <-. }
  destruct (insert_fresh compare_left left_irrefl left_trans c tl a
              (rand (rand_calls s)) l None fuel (left_nodes s1) Hl1 Hbl)
    as (ml & tl' & i1 & i2 & Hrunl & Hl' & Hbl' & Hi & Hi' & Hfl).
  { simpl. by rewrite lookup_insert_eq. }
  { set_solver. }
  { intros y Hy. rewrite Hil in Hy. apply list_elem_of_fmap in Hy as (e & -> & He).
    by apply Hnl. }
  { lia. }
  erewrite bind_ok by (apply on_left_ok; exact Hrunl).
  set (s2 := Store _ _ _ _ _).
  destruct (insert_fresh compare_right right_irrefl right_trans c tr a
              (rand (S (rand_calls s))) r None fuel (right_nodes s2) Hr1 Hbr)
    as (mr & tr' & j1 & j2 & Hrunr & Hr' & Hbr' & Hj & Hj' & Hfr).
  { simpl. by rewrite lookup_insert_eq. }
  { set_solver. }
  { intros y Hy. rewrite Hir in Hy. apply list_elem_of_fmap in Hy as (e & -> & He).
    by apply Hnr. }
  { lia. }
  erewrite bind_ok by (apply on_right_ok; exact Hrunr).
  set (s3 := Store _ _ _ _ _).
  assert (size c s3 = Ok (Z.of_nat (length es), s3)) as Hsize3.
  { unfold size. simpl. by rewrite Hsz. }
  erewrite bind_ok by exact Hsize3.
  assert (sizes s3 !! c = Some (Z.of_nat (length es))) as Hsz3 by done.
  unfold set_size at 1. unfold bind at 1. rewrite Hsz3. unfold ret.
  rewrite Hil in Hi.
  apply fmap_app_inv in Hi as (es1 & es2 & -> & -> & ->).
  eexists _, es1, es2. split; [done|]. split; [done|]. split_and!.
  - exists tl', tr'. simpl. split_and!; [done..| | |done|done| |].
    + rewrite Hi'. by rewrite fmap_app.
    + rewrite Hj', <- Permutation_middle, <- Hj, Hir.
      by rewrite !fmap_app, fmap_cons, <- Permutation_middle.
    + rewrite lookup_insert_eq. f_equal. rewrite Z.mod_small.
      * rewrite !length_app. simpl. lia.
      * rewrite !length_app in *. simpl in *. unfold size_t_max in *. lia.
    + rewrite !length_app in *. simpl in *. lia.
  - intros b Hb. simpl in *.
    destruct (decide (b = a)) as [->|Hba]; [unfold a; lia|].
    enough (b < next_addr s) by lia. apply Halloc.
    destruct Hb as [Hb|[Hb|Hb]].
    + left. destruct (decide (b ∈ c :: a :: addrs tl)) as [Hin|Hout].
      * eapply is_treap_allocated; [exact Hl|]. set_solver.
      * rewrite (Hfl b Hout) in Hb. by rewrite lookup_insert_ne in Hb.
    + right; left. destruct (decide (b ∈ c :: a :: addrs tr)) as [Hin|Hout].
      * eapply is_treap_allocated; [exact Hr|]. set_solver.
      * rewrite (Hfr b Hout) in Hb. by rewrite lookup_insert_ne in Hb.
    + right; right.
      destruct (decide (b = c)) as [->|Hbc]; [by rewrite Hsz|].
      by rewrite lookup_insert_ne in Hb.
  - done.
  - split_and!; simpl.
    + intros b Hb. rewrite Hfl.
      * unfold s1. simpl. rewrite lookup_insert_ne; [done|]. set_solver.
      * rewrite (holds_addrs_left s c _ tl Hil). done.
    + intros b Hb. rewrite Hfr.
      * unfold s2, s1. simpl. rewrite lookup_insert_ne; [done|]. set_solver.
      * intros Hin. apply Hb. rewrite !elem_of_cons in Hin.
        rewrite (holds_addrs_right s c _ tr b Hir) in Hin.
        rewrite !elem_of_cons. done.
    + intros c' Hc'. by rewrite lookup_insert_ne.
Qed.

End bimap_update.
End bimap_update.

(** ** The treap operations never free a cell *)

Module treap_cells.
Import treap shape.
Section treap_cells.
Context {K : Type}.
Variable comparator : K → K → bool.

Abbreviation heap := (gmap nat (treap_node K)).
Local Abbreviation keeps := (shape.keeps (K:=K)).

Lemma keeps_ret {A : Type} (x : A) : keeps (ret x).
Proof. intros m y m' [= <- <-]. done. Qed.

Lemma keeps_bind {A B : Type} (e : M heap A) (k : A → M heap B) :
  keeps e → (∀ x, keeps (k x)) → keeps (bind e k).
Proof.
  intros He Hk m y m'' (x & m' & H1 & H2)%bind_inv b Hb.
  eapply Hk; [done|]. by eapply He.
Qed.

Lemma keeps_load p : keeps (load p).
Proof.
  intros m x m'. unfold load. destruct p as [a|]; [|done].
  destruct (m !! a); [|done]. by intros [= <- <-].
Qed.

Lemma keeps_update p f : keeps (update p f).
Proof.
  intros m x m'. unfold update. destruct p as [a|]; [|done].
  destruct (m !! a) eqn:Ha; [|done]. intros [= <- <-] b Hb.
  destruct (decide (a = b)) as [->|Hne].
  - rewrite lookup_insert_eq. by eexists.
  - by rewrite lookup_insert_ne.
Qed.

Lemma keeps_undefined {A : Type} : keeps (undefined : M heap A).
Proof. by intros m x m'. Qed.

Lemma keeps_timeout {A : Type} : keeps (timeout : M heap A).
Proof. by intros m x m'. Qed.

Lemma keeps_when_ptr p e : keeps e → keeps (when_ptr p e).
Proof. intros He. destruct p; [done|apply keeps_ret]. Qed.

Ltac keeps_step :=
  first
    [ apply keeps_ret | apply keeps_undefined | apply keeps_timeout
    | apply keeps_load | apply keeps_update
    | apply keeps_when_ptr
    | apply keeps_bind; [|intros ?]
    | assumption ].

Ltac keeps_prim :=
  unfold get_left, get_right, get_parent, get_random_key, get_key,
    set_left, set_right, set_parent;
  repeat first [ keeps_step
               | match goal with
                 | |- keeps (match ?x with _ => _ end) => destruct x
                 | |- keeps (if ?x then _ else _) => destruct x
                 | |- keeps (let (_, _) := ?x in _) => destruct x
                 end ].

Lemma keeps_split fuel : ∀ root k, keeps (split comparator fuel root k).
Proof.
  induction fuel as [|fuel IH]; intros root k; simpl; [apply keeps_timeout|].
  destruct root as [a|]; [|apply keeps_ret].
  keeps_prim; apply IH.
Qed.

Lemma keeps_merge fuel : ∀ t1 t2, keeps (merge fuel t1 t2).
Proof.
  induction fuel as [|fuel IH]; intros t1 t2; simpl; [apply keeps_timeout|].
  destruct t1 as [a|], t2 as [b|]; keeps_prim; apply IH.
Qed.

Lemma keeps_leftmost fuel : ∀ p, keeps (leftmost fuel p).
Proof.
  induction fuel as [|fuel IH]; intros p; simpl; [apply keeps_timeout|].
  keeps_prim; apply IH.
Qed.

Lemma keeps_remove c fuel k : keeps (remove comparator c fuel k).
Proof.
  unfold remove.
  keeps_prim; first [apply keeps_split | apply keeps_merge | apply keeps_leftmost].
Qed.

Lemma keeps_insert c fuel p : keeps (insert comparator c fuel p).
Proof.
  unfold insert.
  keeps_prim; first [apply keeps_split | apply keeps_merge | apply keeps_leftmost].
Qed.

End treap_cells.
End treap_cells.

Module bimap_erase.
Import shape bimap contents treap_facts treap_remove treap_order treap_iter.
Import treap_ops treap_cells bimap_facts bimap_update.
Section bimap_erase.
Context {L R : Type}.
Variable compare_left : L → L → bool.
Variable compare_right : R → R → bool.

Implicit Types (s : store (L:=L) (R:=R)) (c : nat) (e : entry (L:=L) (R:=R)).
Implicit Types (es : list (entry (L:=L) (R:=R))).

Abbreviation holds := (holds compare_left compare_right).
Abbreviation erase_left := (erase_left compare_left compare_right).
Abbreviation erase_right := (erase_right compare_left compare_right).

Lemma elem_of_middle (es1 es2 : list (entry (L:=L) (R:=R))) e :
  e ∈ es1 ++ e :: es2.
Proof. set_solver. Qed.

Lemma elem_of_around (es1 es2 : list (entry (L:=L) (R:=R))) e e' :
  e' ∈ es1 ++ es2 → e' ∈ es1 ++ e :: es2.
Proof. set_solver. Qed.

(** The state after the node [e] has been taken out of both treaps,
    freed and counted off. *)
Lemma unlinked_holds s c es1 e es2 tl tr ml mr tl' tr' :
  is_treap (left_nodes s) c tl → is_treap (right_nodes s) c tr →
  items tl = left_item <$> (es1 ++ e :: es2) →
  items tr ≡ₚ right_item <$> (es1 ++ e :: es2) →
  sizes s !! c = Some (Z.of_nat (length (es1 ++ e :: es2))) →
  (Z.of_nat (length (es1 ++ e :: es2)) < size_t_max)%Z →
  is_treap ml c tl' → is_treap mr c tr' →
  bst compare_left tl' → bst compare_right tr' →
  (∀ pre post, items tl = pre ++ left_item e :: post → items tl' = pre ++ post) →
  (∀ pre post, items tr = pre ++ right_item e :: post → items tr' = pre ++ post) →
  holds (Store (delete (e_addr e) ml) (delete (e_addr e) mr)
               (<[c := ((Z.of_nat (length (es1 ++ e :: es2)) - 1) mod size_t_max)%Z]>
                  (sizes s))
               (next_addr s) (rand_calls s)) c (es1 ++ es2).
Proof.
  intros Hl Hr Hil Hir Hsz Hbound Hl' Hr' Hbl' Hbr' Hitl Hitr.
  assert (items tl' = left_item <$> (es1 ++ es2)) as Hil'.
  { rewrite fmap_app. apply Hitl. by rewrite Hil, fmap_app. }
  assert (right_item e ∈ items tr) as Hin.
  { rewrite Hir. apply list_elem_of_fmap_2, elem_of_middle. }
  apply list_elem_of_split in Hin as (j1 & j2 & Hj).
  assert (items tr' ≡ₚ right_item <$> (es1 ++ es2)) as Hir'.
  { rewrite (Hitr _ _ Hj). apply (Permutation_cons_inv (a:=right_item e)).
    rewrite Permutation_middle, <- Hj, Hir, !fmap_app, fmap_cons.
    by rewrite Permutation_middle. }
  assert (e_addr e ∉ c :: addrs tl') as Hal.
  { pose proof Hl as (_ & _ & Hnd). unfold addrs in *.
    rewrite Hil, Hil' in *. rewrite !fmap_app, fmap_cons in *. simpl in Hnd.
    apply NoDup_app in Hnd as (_ & H1 & (H2 & _)%NoDup_cons).
    intros [Heq|[Hin|Hin]%elem_of_app]%elem_of_cons.
    - apply (is_treap_head_not_in _ _ _ Hl). unfold addrs.
      rewrite Hil, !fmap_app, fmap_cons, <- Heq. set_solver.
    - apply (H1 _ Hin). set_solver.
    - done. }
  assert (e_addr e ∉ c :: addrs tr') as Har.
  { rewrite not_elem_of_cons. split.
    - intros Heq. apply (is_treap_head_not_in _ _ _ Hl). unfold addrs.
      rewrite Hil, !fmap_app, fmap_cons, <- Heq. set_solver.
    - pose proof Hr as (_ & _ & Hnd). unfold addrs in *.
      rewrite Hj in Hnd. rewrite (Hitr _ _ Hj).
      rewrite !fmap_app, fmap_cons in *. simpl in Hnd.
      apply NoDup_app in Hnd as (_ & H1 & (H2 & _)%NoDup_cons).
      intros [Hin|Hin]%elem_of_app; [|done].
      apply (H1 _ Hin). set_solver. }
  exists tl', tr'. simpl. split_and!; [| |done..| |].
  - eapply is_treap_frame; [exact Hl'|]. intros b Hb.
    rewrite lookup_delete_ne; [done|]. by intros <-.
  - eapply is_treap_frame; [exact Hr'|]. intros b Hb.
    rewrite lookup_delete_ne; [done|]. by intros <-.
  - rewrite lookup_insert_eq. f_equal. rewrite !length_app in *. simpl in *.
    rewrite Z.mod_small; unfold size_t_max in *; lia.
  - rewrite !length_app in *. simpl in *. lia.
Qed.

Lemma holds_allocated s c es a :
  holds s c es → a ∈ c :: (e_addr <$> es) →
  is_Some (left_nodes s !! a) ∧ is_Some (right_nodes s !! a).
Proof.
  intros (tl & tr & Hl & Hr & Hil & Hir & _) Ha. split.
  - eapply is_treap_allocated; [exact Hl|].
    by rewrite (holds_addrs_left s c es tl Hil).
  - eapply is_treap_allocated; [exact Hr|].
    rewrite elem_of_cons in *.
    by rewrite (holds_addrs_right s c es tr a Hir).
Qed.

(** The nodes of a bimap have pairwise distinct addresses. *)
Lemma holds_NoDup s c es : holds s c es → NoDup (e_addr <$> es).
Proof.
  intros (tl & tr & (_ & _ & Hnd) & _ & Hil & _).
  by rewrite (holds_addrs_left s c es tl Hil) in Hnd.
Qed.

Lemma middle_addr_fresh (es1 es2 : list (entry (L:=L) (R:=R))) e e' :
  NoDup (e_addr <$> (es1 ++ e :: es2)) → e' ∈ es1 ++ es2 →
  e_addr e' ≠ e_addr e.
Proof.
  rewrite fmap_app, fmap_cons.
  intros (_ & H1 & (H2 & _)%NoDup_cons)%NoDup_app Hin Heq.
  apply elem_of_app in Hin as [Hin|Hin].
  - apply (H1 (e_addr e')); [by apply list_elem_of_fmap_2|]. rewrite Heq. set_solver.
  - apply H2. rewrite <- Heq. by apply list_elem_of_fmap_2.
Qed.

Hypothesis left_irrefl : ∀ x, compare_left x x = false.
Hypothesis left_trans : ∀ x y z,
  compare_left x y = true → compare_left y z = true → compare_left x z = true.
Hypothesis right_irrefl : ∀ x, compare_right x x = false.
Hypothesis right_trans : ∀ x y z,
  compare_right x y = true → compare_right y z = true → compare_right x z = true.

Lemma unlink_left_spec s c tl x fuel :
  is_treap (left_nodes s) c tl → bst compare_left tl → x ∈ items tl →
  2 * height tl + 2 < fuel →
  ∃ m' tl',
    (∀ (B : Type) (k : M store B),
       (let* l := deref_left (LeftIt (Some (addr x))) in
        on_left (treap.remove compare_left c fuel l) ;; k) s
       = k (Store m' (right_nodes s) (sizes s) (next_addr s) (rand_calls s)))
    ∧ is_treap m' c tl' ∧ bst compare_left tl'
    ∧ (∀ pre post, items tl = pre ++ x :: post → items tl' = pre ++ post)
    ∧ same_outside (c :: addrs tl) (left_nodes s) m'
    ∧ is_Some (m' !! addr x).
Proof using left_irrefl left_trans.
  intros Ht Hbst Hx Hfuel.
  destruct Ht as (Hc & Htree & Hnd).
  destruct (is_tree_cell _ _ _ _ Htree Hx) as (n & Hn & _ & Hk).
  destruct (remove_stored compare_left left_irrefl left_trans c tl x fuel
              (left_nodes s) (conj Hc (conj Htree Hnd)) Hbst Hx Hfuel)
    as (m' & it & tl' & Hrun & Ht' & Hbst' & Hit & Hf).
  exists m', tl'. split_and!; [|done..|].
  - intros B k. unfold deref_left, treap.deref. cbn [left_ptr].
    erewrite bind_ok by (apply on_left_read; eapply get_key_ok; [exact Hn|exact Hk]).
    erewrite bind_ok by (apply on_left_ok; exact Hrun). done.
  - eapply (keeps_remove compare_left); [exact Hrun|]. by eexists.
Qed.

Lemma unlink_right_spec s c tr x fuel :
  is_treap (right_nodes s) c tr → bst compare_right tr → x ∈ items tr →
  2 * height tr + 2 < fuel →
  ∃ m' tr',
    (∀ (B : Type) (k : M store B),
       (let* r := deref_right (RightIt (Some (addr x))) in
        on_right (treap.remove compare_right c fuel r) ;; k) s
       = k (Store (left_nodes s) m' (sizes s) (next_addr s) (rand_calls s)))
    ∧ is_treap m' c tr' ∧ bst compare_right tr'
    ∧ (∀ pre post, items tr = pre ++ x :: post → items tr' = pre ++ post)
    ∧ same_outside (c :: addrs tr) (right_nodes s) m'
    ∧ is_Some (m' !! addr x).
Proof using right_irrefl right_trans.
  intros Ht Hbst Hx Hfuel.
  destruct Ht as (Hc & Htree & Hnd).
  destruct (is_tree_cell _ _ _ _ Htree Hx) as (n & Hn & _ & Hk).
  destruct (remove_stored compare_right right_irrefl right_trans c tr x fuel
              (right_nodes s) (conj Hc (conj Htree Hnd)) Hbst Hx Hfuel)
    as (m' & it & tr' & Hrun & Ht' & Hbst' & Hit & Hf).
  exists m', tr'. split_and!; [|done..|].
  - intros B k. unfold deref_right, treap.deref. cbn [right_ptr].
    erewrite bind_ok by (apply on_right_read; eapply get_key_ok; [exact Hn|exact Hk]).
    erewrite bind_ok by (apply on_right_ok; exact Hrun). done.
  - eapply (keeps_remove compare_right); [exact Hrun|]. by eexists.
Qed.

Lemma erase_left_spec s c es1 e es2 fuel :
  holds s c (es1 ++ e :: es2) →
  2 * length (es1 ++ e :: es2) + 2 < fuel →
  ∃ s',
    erase_left c fuel (LeftIt (Some (e_addr e))) s
    = Ok (LeftIt (first_ptr c (left_item <$> es2)), s')
    ∧ holds s' c (es1 ++ es2)
    ∧ (allocated_below s → allocated_below s')
    ∧ next_addr s' = next_addr s
    ∧ rand_calls s' = rand_calls s
    ∧ frame c (e_addr <$> (es1 ++ e :: es2)) s s'.
Proof using left_irrefl left_trans right_irrefl right_trans.
  intros Hh Hfuel.
  destruct Hh as (tl & tr & Hl & Hr & Hil & Hir & Hbl & Hbr & Hsz & Hbound).
  destruct (holds_height s c _ tl tr Hil Hir) as [Hhl Hhr].
  assert (left_item e ∈ items tl) as Hxl.
  { rewrite Hil. apply list_elem_of_fmap_2, elem_of_middle. }
  assert (right_item e ∈ items tr) as Hxr.
  { rewrite Hir. apply list_elem_of_fmap_2, elem_of_middle. }
  unfold bimap.erase_left, incr_left. cbn [left_ptr flip_left].
  rewrite bind_assoc.
  erewrite bind_ok.
  2:{ apply on_left_read.
      apply (incr_spec c tl fuel _ (left_item <$> es1) (left_item e)
               (left_item <$> es2) Hl ltac:(lia)).
      by rewrite Hil, fmap_app. }
  erewrite bind_ok by done.
  destruct (unlink_left_spec s c tl (left_item e) fuel Hl Hbl Hxl ltac:(lia))
    as (ml & tl' & Hrunl & Hl' & Hbl' & Hitl & Hfl & Hal).
  rewrite (Hrunl _ _). clear Hrunl. set (s1 := Store ml _ _ _ _).
  destruct (unlink_right_spec s1 c tr (right_item e) fuel Hr Hbr Hxr ltac:(lia))
    as (mr & tr' & Hrunr & Hr' & Hbr' & Hitr & Hfr & Har).
  rewrite (Hrunr _ _). clear Hrunr. set (s2 := Store _ mr _ _ _).
  unfold delete_node at 1. unfold bind at 1. cbn [left_nodes right_nodes s2 s1].
  destruct Hal as [nl Hnl], Har as [nr Hnr]. simpl in Hnl, Hnr.
  rewrite Hnl, Hnr. unfold s2, s1. cbn [sizes next_addr rand_calls].
  unfold size at 1. unfold bind at 1. cbn [sizes]. rewrite Hsz.
  unfold set_size at 1. unfold bind at 1. cbn [sizes]. rewrite Hsz.
  unfold ret. eexists. split; [done|].
  cbn [left_nodes right_nodes sizes next_addr rand_calls].
  split_and!.
  - by eapply (unlinked_holds s c es1 e es2 tl tr ml mr tl' tr').
  - intros Halloc b Hb. simpl in *. apply Halloc.
    destruct Hb as [Hb|[Hb|Hb]].
    + left. destruct (decide (b = e_addr e)) as [->|Hne].
      * rewrite lookup_delete_eq in Hb. by destruct Hb.
      * rewrite lookup_delete_ne in Hb by done.
        destruct (decide (b ∈ c :: addrs tl)) as [Hin|Hout].
        -- by eapply is_treap_allocated.
        -- by rewrite (Hfl b Hout) in Hb.
    + right; left. destruct (decide (b = e_addr e)) as [->|Hne].
      * rewrite lookup_delete_eq in Hb. by destruct Hb.
      * rewrite lookup_delete_ne in Hb by done.
        destruct (decide (b ∈ c :: addrs tr)) as [Hin|Hout].
        -- by eapply is_treap_allocated.
        -- by rewrite (Hfr b Hout) in Hb.
    + right; right. destruct (decide (b = c)) as [->|Hne]; [by rewrite Hsz|].
      by rewrite lookup_insert_ne in Hb.
  - done.
  - done.
  - split_and!; simpl.
    + intros b Hb. rewrite lookup_delete_ne by set_solver.
      apply Hfl. by rewrite (holds_addrs_left s c _ tl Hil).
    + intros b Hb. rewrite lookup_delete_ne by set_solver.
      apply Hfr. rewrite !elem_of_cons in *.
      by rewrite (holds_addrs_right s c _ tr b Hir).
    + intros c' Hc'. by rewrite lookup_insert_ne.
Qed.

Lemma erase_right_spec s c es1 e es2 fuel :
  holds s c (es1 ++ e :: es2) →
  2 * length (es1 ++ e :: es2) + 2 < fuel →
  ∃ s' it,
    erase_right c fuel (RightIt (Some (e_addr e))) s = Ok (it, s')
    ∧ holds s' c (es1 ++ es2)
    ∧ (allocated_below s → allocated_below s')
    ∧ next_addr s' = next_addr s
    ∧ rand_calls s' = rand_calls s
    ∧ frame c (e_addr <$> (es1 ++ e :: es2)) s s'.
Proof using left_irrefl left_trans right_irrefl right_trans.
  intros Hh Hfuel.
  destruct Hh as (tl & tr & Hl & Hr & Hil & Hir & Hbl & Hbr & Hsz & Hbound).
  destruct (holds_height s c _ tl tr Hil Hir) as [Hhl Hhr].
  assert (left_item e ∈ items tl) as Hxl.
  { rewrite Hil. apply list_elem_of_fmap_2, elem_of_middle. }
  assert (right_item e ∈ items tr) as Hxr.
  { rewrite Hir. apply list_elem_of_fmap_2, elem_of_middle. }
  pose proof Hxr as (j1 & j2 & Hj)%list_elem_of_split.
  unfold bimap.erase_right, incr_right. cbn [right_ptr flip_right].
  rewrite bind_assoc.
  erewrite bind_ok.
  2:{ apply on_right_read.
      apply (incr_spec c tr fuel _ j1 (right_item e) j2 Hr ltac:(lia) Hj). }
  erewrite bind_ok by done.
  destruct (unlink_right_spec s c tr (right_item e) fuel Hr Hbr Hxr ltac:(lia))
    as (mr & tr' & Hrunr & Hr' & Hbr' & Hitr & Hfr & Har).
  rewrite (Hrunr _ _). clear Hrunr. set (s1 := Store _ mr _ _ _).
  destruct (unlink_left_spec s1 c tl (left_item e) fuel Hl Hbl Hxl ltac:(lia))
    as (ml & tl' & Hrunl & Hl' & Hbl' & Hitl & Hfl & Hal).
  rewrite (Hrunl _ _). clear Hrunl. set (s2 := Store ml _ _ _ _).
  unfold delete_node at 1. unfold bind at 1. cbn [left_nodes right_nodes s2 s1].
  destruct Hal as [nl Hnl], Har as [nr Hnr]. simpl in Hnl, Hnr.
  rewrite Hnl, Hnr. unfold s2, s1. cbn [sizes next_addr rand_calls].
  unfold size at 1. unfold bind at 1. cbn [sizes]. rewrite Hsz.
  unfold set_size at 1. unfold bind at 1. cbn [sizes]. rewrite Hsz.
  unfold ret. eexists _, _. split; [done|].
  cbn [left_nodes right_nodes sizes next_addr rand_calls].
  split_and!.
  - by eapply (unlinked_holds s c es1 e es2 tl tr ml mr tl' tr').
  - intros Halloc b Hb. simpl in *. apply Halloc.
    destruct Hb as [Hb|[Hb|Hb]].
    + left. destruct (decide (b = e_addr e)) as [->|Hne].
      * rewrite lookup_delete_eq in Hb. by destruct Hb.
      * rewrite lookup_delete_ne in Hb by done.
        destruct (decide (b ∈ c :: addrs tl)) as [Hin|Hout].
        -- by eapply is_treap_allocated.
        -- by rewrite (Hfl b Hout) in Hb.
    + right; left. destruct (decide (b = e_addr e)) as [->|Hne].
      * rewrite lookup_delete_eq in Hb. by destruct Hb.
      * rewrite lookup_delete_ne in Hb by done.
        destruct (decide (b ∈ c :: addrs tr)) as [Hin|Hout].
        -- by eapply is_treap_allocated.
        -- by rewrite (Hfr b Hout) in Hb.
    + right; right. destruct (decide (b = c)) as [->|Hne]; [by rewrite Hsz|].
      by rewrite lookup_insert_ne in Hb.
  - done.
  - done.
  - split_and!; simpl.
    + intros b Hb. rewrite lookup_delete_ne by set_solver.
      apply Hfl. by rewrite (holds_addrs_left s c _ tl Hil).
    + intros b Hb. rewrite lookup_delete_ne by set_solver.
      apply Hfr. rewrite !elem_of_cons in *.
      by rewrite (holds_addrs_right s c _ tr b Hir).
    + intros c' Hc'. by rewrite lookup_insert_ne.
Qed.

(** No two nodes of a bimap have equivalent left keys, nor equivalent
    right keys. *)
Lemma holds_left_unique s c es e1 e2 :
  holds s c es → e1 ∈ es → e2 ∈ es →
  equiv_left compare_left (e_left e1) (e_left e2) → e_addr e1 = e_addr e2.
Proof using left_irrefl left_trans.
  intros (tl & tr & _ & _ & Hil & _ & Hbl & _) H1 H2 Heq.
  assert (left_item e1 = left_item e2) as Hitem; [|by injection Hitem].
  apply (bst_equiv_eq compare_left left_irrefl left_trans tl); [done| | |done].
  - rewrite Hil. by apply list_elem_of_fmap_2.
  - rewrite Hil. by apply list_elem_of_fmap_2.
Qed.

Lemma holds_right_unique s c es e1 e2 :
  holds s c es → e1 ∈ es → e2 ∈ es →
  equiv_right compare_right (e_right e1) (e_right e2) → e_addr e1 = e_addr e2.
Proof using right_irrefl right_trans.
  intros (tl & tr & _ & _ & _ & Hir & _ & Hbr & _) H1 H2 Heq.
  assert (right_item e1 = right_item e2) as Hitem; [|by injection Hitem].
  apply (bst_equiv_eq compare_right right_irrefl right_trans tr); [done| | |done].
  - rewrite Hir. by apply list_elem_of_fmap_2.
  - rewrite Hir. by apply list_elem_of_fmap_2.
Qed.

End bimap_erase.
End bimap_erase.

Module bimap_lookup.
Import shape bimap contents treap_facts treap_remove treap_order treap_iter.
Import treap_ops treap_cells bimap_facts bimap_update bimap_erase.
Section bimap_lookup.
Context {L R : Type}.
Variable compare_left : L → L → bool.
Variable compare_right : R → R → bool.
Variable default_left : L.
Variable default_right : R.
Variable rand : nat → N.

Hypothesis left_irrefl : ∀ x, compare_left x x = false.
Hypothesis left_trans : ∀ x y z,
  compare_left x y = true → compare_left y z = true → compare_left x z = true.
Hypothesis right_irrefl : ∀ x, compare_right x x = false.
Hypothesis right_trans : ∀ x y z,
  compare_right x y = true → compare_right y z = true → compare_right x z = true.

Implicit Types (s : store (L:=L) (R:=R)) (c : nat) (e : entry (L:=L) (R:=R)).
Implicit Types (es : list (entry (L:=L) (R:=R))).

Abbreviation holds := (holds compare_left compare_right).
Abbreviation equiv_left := (equiv_left compare_left).
Abbreviation equiv_right := (equiv_right compare_right).
Abbreviation find_left := (find_left compare_left).
Abbreviation find_right := (find_right compare_right).
Abbreviation insert := (insert compare_left compare_right rand).
Abbreviation erase_left := (erase_left compare_left compare_right).
Abbreviation erase_right := (erase_right compare_left compare_right).
Abbreviation erase_left_key := (erase_left_key compare_left compare_right).
Abbreviation erase_right_key := (erase_right_key compare_left compare_right).
Abbreviation at_left_or_default :=
  (at_left_or_default compare_left compare_right default_right rand).
Abbreviation at_right_or_default :=
  (at_right_or_default compare_left compare_right default_left rand).

Local Abbreviation find_left_cases :=
  (find_left_cases compare_left compare_right left_irrefl left_trans).
Local Abbreviation find_right_cases :=
  (find_right_cases compare_left compare_right right_irrefl right_trans).
Local Abbreviation find_left_stored :=
  (find_left_stored compare_left compare_right left_irrefl left_trans).
Local Abbreviation find_right_stored :=
  (find_right_stored compare_left compare_right right_irrefl right_trans).
Local Abbreviation insert_new :=
  (insert_new compare_left compare_right rand left_irrefl left_trans
     right_irrefl right_trans).
Local Abbreviation erase_left_spec :=
  (erase_left_spec compare_left compare_right left_irrefl left_trans
     right_irrefl right_trans).
Local Abbreviation erase_right_spec :=
  (erase_right_spec compare_left compare_right left_irrefl left_trans
     right_irrefl right_trans).
Local Abbreviation holds_left_unique :=
  (holds_left_unique compare_left compare_right left_irrefl left_trans).
Local Abbreviation holds_right_unique :=
  (holds_right_unique compare_left compare_right right_irrefl right_trans).

(** *** Dereferencing *)

Lemma deref_left_stored s c es e :
  holds s c es → e ∈ es →
  deref_left (LeftIt (Some (e_addr e))) s = Ok (e_left e, s).
Proof.
  intros (tl & tr & (_ & Hl & _) & _ & Hil & _) He.
  assert (left_item e ∈ items tl) as Hx.
  { rewrite Hil. by apply list_elem_of_fmap_2. }
  destruct (is_tree_cell _ _ _ _ Hl Hx) as (n & Hn & _ & Hk).
  apply on_left_read. by eapply get_key_ok.
Qed.

Lemma deref_right_stored s c es e :
  holds s c es → e ∈ es →
  deref_right (RightIt (Some (e_addr e))) s = Ok (e_right e, s).
Proof.
  intros (tl & tr & _ & (_ & Hr & _) & _ & Hir & _) He.
  assert (right_item e ∈ items tr) as Hx.
  { rewrite Hir. by apply list_elem_of_fmap_2. }
  destruct (is_tree_cell _ _ _ _ Hr Hx) as (n & Hn & _ & Hk).
  apply on_right_read. by eapply get_key_ok.
Qed.

(** *** What is left once a node is gone *)

Lemma gone_left s c es1 e es2 e' :
  holds s c (es1 ++ e :: es2) → e' ∈ es1 ++ es2 →
  ¬ equiv_left (e_left e') (e_left e).
Proof using left_irrefl left_trans.
  intros Hh Hin Heq.
  apply (middle_addr_fresh es1 es2 e e'); [by eapply holds_NoDup|done|].
  eapply holds_left_unique; [exact Hh| |apply elem_of_middle|done].
  by apply elem_of_around.
Qed.

Lemma gone_right s c es1 e es2 e' :
  holds s c (es1 ++ e :: es2) → e' ∈ es1 ++ es2 →
  ¬ equiv_right (e_right e') (e_right e).
Proof using right_irrefl right_trans.
  intros Hh Hin Heq.
  apply (middle_addr_fresh es1 es2 e e'); [by eapply holds_NoDup|done|].
  eapply holds_right_unique; [exact Hh| |apply elem_of_middle|done].
  by apply elem_of_around.
Qed.

(** *** [erase_left(key)] and [erase_right(key)] *)

Lemma erase_left_key_spec s c es1 e es2 fuel :
  holds s c (es1 ++ e :: es2) →
  2 * length (es1 ++ e :: es2) + 2 < fuel →
  ∃ s',
    erase_left_key c fuel (e_left e) s = Ok (true, s')
    ∧ holds s' c (es1 ++ es2)
    ∧ find_left c fuel (e_left e) s' = Ok (end_left c, s')
    ∧ find_right c fuel (e_right e) s' = Ok (end_right c, s').
Proof using left_irrefl left_trans right_irrefl right_trans.
  intros Hh Hfuel.
  destruct (erase_left_spec s c es1 e es2 fuel Hh Hfuel)
    as (s' & Hrun & Hh' & _).
  exists s'. unfold bimap.erase_left_key.
  erewrite bind_ok
    by (eapply find_left_stored; [exact Hh|apply elem_of_middle|lia]).
  rewrite decide_False.
  2:{ intros [= Heq]. eapply holds_addr_ne; [exact Hh|apply elem_of_middle|done]. }
  erewrite bind_ok by exact Hrun.
  assert (length (es1 ++ es2) < fuel) as Hfuel'.
  { rewrite !length_app in *. simpl in *. lia. }
  split_and!; [done..| |].
  - destruct (find_left_cases s' c _ (e_left e) fuel Hh' Hfuel')
      as [(e1 & He1 & Hq1 & _)|[_ Hrun1]]; [|done].
    by destruct (gone_left s c es1 e es2 e1 Hh He1).
  - destruct (find_right_cases s' c _ (e_right e) fuel Hh' Hfuel')
      as [(e1 & He1 & Hq1 & _)|[_ Hrun1]]; [|done].
    by destruct (gone_right s c es1 e es2 e1 Hh He1).
Qed.

Lemma erase_right_key_spec s c es1 e es2 fuel :
  holds s c (es1 ++ e :: es2) →
  2 * length (es1 ++ e :: es2) + 2 < fuel →
  ∃ s',
    erase_right_key c fuel (e_right e) s = Ok (true, s')
    ∧ holds s' c (es1 ++ es2)
    ∧ find_left c fuel (e_left e) s' = Ok (end_left c, s')
    ∧ find_right c fuel (e_right e) s' = Ok (end_right c, s').
Proof using left_irrefl left_trans right_irrefl right_trans.
  intros Hh Hfuel.
  destruct (erase_right_spec s c es1 e es2 fuel Hh Hfuel)
    as (s' & it & Hrun & Hh' & _).
  exists s'. unfold bimap.erase_right_key.
  erewrite bind_ok
    by (eapply find_right_stored; [exact Hh|apply elem_of_middle|lia]).
  rewrite decide_False.
  2:{ intros [= Heq]. eapply holds_addr_ne; [exact Hh|apply elem_of_middle|done]. }
  erewrite bind_ok by exact Hrun.
  assert (length (es1 ++ es2) < fuel) as Hfuel'.
  { rewrite !length_app in *. simpl in *. lia. }
  split_and!; [done..| |].
  - destruct (find_left_cases s' c _ (e_left e) fuel Hh' Hfuel')
      as [(e1 & He1 & Hq1 & _)|[_ Hrun1]]; [|done].
    by destruct (gone_left s c es1 e es2 e1 Hh He1).
  - destruct (find_right_cases s' c _ (e_right e) fuel Hh' Hfuel')
      as [(e1 & He1 & Hq1 & _)|[_ Hrun1]]; [|done].
    by destruct (gone_right s c es1 e es2 e1 Hh He1).
Qed.

(** *** [at_left_or_default] and [at_right_or_default] *)

Lemma holds_bound s c es : holds s c es → (Z.of_nat (length es) < size_t_max)%Z.
Proof. by intros (tl & tr & _ & _ & _ & _ & _ & _ & _ & H). Qed.

Lemma at_left_or_default_evicts s c es1 e es2 k fuel :
  holds s c (es1 ++ e :: es2) → allocated_below s →
  e_right e = default_right →
  (∀ e', e' ∈ es1 ++ e :: es2 → ¬ equiv_left (e_left e') k) →
  2 * length (es1 ++ e :: es2) + 2 < fuel →
  ∃ s' es1' es2',
    at_left_or_default c fuel k s = Ok (default_right, s')
    ∧ es1 ++ es2 = es1' ++ es2'
    ∧ holds s' c (es1' ++ Entry (next_addr s) (rand (rand_calls s))
                            (rand (S (rand_calls s))) k default_right :: es2').
Proof using left_irrefl left_trans right_irrefl right_trans.
  intros Hh Halloc Hd Hk Hfuel.
  pose proof (holds_bound _ _ _ Hh) as Hbound.
  unfold bimap.at_left_or_default.
  destruct (find_left_cases s c _ k fuel Hh ltac:(lia))
    as [(e1 & He1 & Hq1 & _)|[_ Hrun1]]; [by destruct (Hk e1)|].
  erewrite bind_ok by exact Hrun1. rewrite decide_False by (by intros []).
  rewrite <- Hd.
  erewrite bind_ok
    by (eapply find_right_stored; [exact Hh|apply elem_of_middle|lia]).
  rewrite decide_True.
  2:{ intros [= Heq]. eapply holds_addr_ne; [exact Hh|apply elem_of_middle|done]. }
  destruct (erase_right_spec s c es1 e es2 fuel Hh Hfuel)
    as (s1 & it & Hrun & Hh1 & Halloc1 & Hnext & Hcalls & _).
  rewrite !bind_assoc. erewrite bind_ok by exact Hrun.
  erewrite bind_ok by done.
  destruct (insert_new s1 c (es1 ++ es2) k (e_right e) fuel Hh1 (Halloc1 Halloc))
    as (s2 & es1' & es2' & Hrun2 & Hes & Hh2 & _).
  { intros e' He'. by apply Hk, elem_of_around. }
  { intros e' He'. by eapply gone_right. }
  { rewrite !length_app in *. simpl in *. lia. }
  { rewrite !length_app in *. simpl in *. lia. }
  erewrite bind_ok by exact Hrun2. rewrite Hnext, Hcalls in *.
  exists s2, es1', es2'. split_and!; [|done..].
  cbn [flip_left left_ptr].
  set (new := Entry _ _ _ _ _) in *.
  apply (deref_right_stored s2 c _ new Hh2). apply elem_of_middle.
Qed.

Lemma at_right_or_default_evicts s c es1 e es2 k fuel :
  holds s c (es1 ++ e :: es2) → allocated_below s →
  e_left e = default_left →
  (∀ e', e' ∈ es1 ++ e :: es2 → ¬ equiv_right (e_right e') k) →
  2 * length (es1 ++ e :: es2) + 2 < fuel →
  ∃ s' es1' es2',
    at_right_or_default c fuel k s = Ok (default_left, s')
    ∧ es1 ++ es2 = es1' ++ es2'
    ∧ holds s' c (es1' ++ Entry (next_addr s) (rand (rand_calls s))
                            (rand (S (rand_calls s))) default_left k :: es2').
Proof using left_irrefl left_trans right_irrefl right_trans.
  intros Hh Halloc Hd Hk Hfuel.
  pose proof (holds_bound _ _ _ Hh) as Hbound.
  unfold bimap.at_right_or_default.
  destruct (find_right_cases s c _ k fuel Hh ltac:(lia))
    as [(e1 & He1 & Hq1 & _)|[_ Hrun1]]; [by destruct (Hk e1)|].
  erewrite bind_ok by exact Hrun1. rewrite decide_False by (by intros []).
  rewrite <- Hd.
  erewrite bind_ok
    by (eapply find_left_stored; [exact Hh|apply elem_of_middle|lia]).
  rewrite decide_True.
  2:{ intros [= Heq]. eapply holds_addr_ne; [exact Hh|apply elem_of_middle|done]. }
  destruct (erase_left_spec s c es1 e es2 fuel Hh Hfuel)
    as (s1 & Hrun & Hh1 & Halloc1 & Hnext & Hcalls & _).
  rewrite !bind_assoc. erewrite bind_ok by exact Hrun.
  erewrite bind_ok by done.
  destruct (insert_new s1 c (es1 ++ es2) (e_left e) k fuel Hh1 (Halloc1 Halloc))
    as (s2 & es1' & es2' & Hrun2 & Hes & Hh2 & _).
  { intros e' He'. by eapply gone_left. }
  { intros e' He'. by apply Hk, elem_of_around. }
  { rewrite !length_app in *. simpl in *. lia. }
  { rewrite !length_app in *. simpl in *. lia. }
  erewrite bind_ok by exact Hrun2. rewrite Hnext, Hcalls in *.
  exists s2, es1', es2'. split_and!; [|done..].
  set (new := Entry _ _ _ _ _) in *.
  apply (deref_left_stored s2 c _ new Hh2). apply elem_of_middle.
Qed.

End bimap_lookup.
End bimap_lookup.

Module bimap_build.
Import shape bimap contents building treap_facts treap_remove treap_order treap_iter.
Import treap_ops treap_cells bimap_facts bimap_update bimap_erase bimap_lookup.
Section bimap_build.
Context {L R : Type}.
Variable compare_left : L → L → bool.
Variable compare_right : R → R → bool.
Variable rand : nat → N.

Implicit Types (s : store (L:=L) (R:=R)) (c : nat) (e : entry (L:=L) (R:=R)).
Implicit Types (es : list (entry (L:=L) (R:=R))) (ps : list (L * R)).

Abbreviation holds := (holds compare_left compare_right).
Abbreviation clash := (clash compare_left compare_right).
Abbreviation distinct_keys := (distinct_keys compare_left compare_right).
Abbreviation insert_all := (insert_all compare_left compare_right rand).

Lemma holds_frame s s' c es :
  holds s c es →
  (∀ a, a ∈ c :: (e_addr <$> es) →
        left_nodes s' !! a = left_nodes s !! a
        ∧ right_nodes s' !! a = right_nodes s !! a) →
  sizes s' !! c = sizes s !! c →
  holds s' c es.
Proof.
  intros (tl & tr & Hl & Hr & Hil & Hir & Hbl & Hbr & Hsz & Hbound) Hf Hs.
  exists tl, tr. split_and!; [| |done..|by rewrite Hs|done].
  - eapply is_treap_frame; [exact Hl|]. intros a Ha. apply Hf.
    by rewrite <- (holds_addrs_left s c es tl Hil).
  - eapply is_treap_frame; [exact Hr|]. intros a Ha. apply Hf.
    rewrite elem_of_cons in *.
    by rewrite <- (holds_addrs_right s c es tr a Hir).
Qed.

Lemma construct_spec s :
  allocated_below s →
  ∃ s',
    construct rand s = Ok (next_addr s, s')
    ∧ holds s' (next_addr s) []
    ∧ allocated_below s'
    ∧ next_addr s' = S (next_addr s)
    ∧ (∀ a, a ≠ next_addr s →
            left_nodes s' !! a = left_nodes s !! a
            ∧ right_nodes s' !! a = right_nodes s !! a
            ∧ sizes s' !! a = sizes s !! a).
Proof.
  intros Halloc. eexists. split; [done|]. simpl. split_and!.
  - exists Leaf, Leaf. simpl. split_and!.
    + split_and!; [|done|apply NoDup_nil_2].
      eexists. by rewrite lookup_insert_eq.
    + split_and!; [|done|apply NoDup_nil_2].
      eexists. by rewrite lookup_insert_eq.
    + done.
    + done.
    + apply SSorted_nil.
    + apply SSorted_nil.
    + by rewrite lookup_insert_eq.
    + done.
  - intros a Ha. simpl in *.
    destruct (decide (a = next_addr s)) as [->|Hne]; [lia|].
    rewrite !lookup_insert_ne in Ha by done.
    specialize (Halloc a Ha). lia.
  - done.
  - intros a Ha. by rewrite !lookup_insert_ne.
Qed.

(** *** Distinct keys *)

Lemma clash_sym p q : clash p q → clash q p.
Proof.
  unfold building.clash, equiv_left, equiv_right, equiv_key.
  intros [[??]|[??]]; [left|right]; done.
Qed.

Lemma distinct_keys_perm ps ps' :
  ps ≡ₚ ps' → distinct_keys ps → distinct_keys ps'.
Proof.
  induction 1 as [|p ps ps' Hp IH|p q ps|ps1 ps2 ps3 H1 IH1 H2 IH2]; simpl.
  - done.
  - intros [Hf Hd]. split; [by rewrite <- Hp|by apply IH].
  - intros [[Hpq Hf1]%Forall_cons [Hf2 Hd]]. split_and!; [|done..].
    apply Forall_cons. split; [|done]. intros Hc. by apply Hpq, clash_sym.
  - intros Hd. by apply IH2, IH1.
Qed.

Lemma distinct_keys_app_r ps1 ps2 : distinct_keys (ps1 ++ ps2) → distinct_keys ps2.
Proof. induction ps1 as [|p ps1 IH]; [done|]. intros [_ Hd]. by apply IH. Qed.

Hypothesis left_irrefl : ∀ x, compare_left x x = false.
Hypothesis left_trans : ∀ x y z,
  compare_left x y = true → compare_left y z = true → compare_left x z = true.
Hypothesis right_irrefl : ∀ x, compare_right x x = false.
Hypothesis right_trans : ∀ x y z,
  compare_right x y = true → compare_right y z = true → compare_right x z = true.

Local Abbreviation insert_new :=
  (insert_new compare_left compare_right rand left_irrefl left_trans
     right_irrefl right_trans).

(** *** The loop of insertions *)

Lemma insert_all_spec ps : ∀ s c es fuel,
  holds s c es → allocated_below s →
  distinct_keys (ps ++ (pair_of <$> es)) →
  (Z.of_nat (length ps + length es) < size_t_max)%Z →
  2 * (length ps + length es) + 2 < fuel →
  ∃ s' es',
    insert_all c fuel ps s = Ok (tt, s')
    ∧ holds s' c es'
    ∧ pair_of <$> es' ≡ₚ ps ++ (pair_of <$> es)
    ∧ allocated_below s'
    ∧ next_addr s ≤ next_addr s'
    ∧ others_kept c es s s'.
Proof using left_irrefl left_trans right_irrefl right_trans.
  induction ps as [|[l r] ps IH]; intros s c es fuel Hh Halloc Hd Hbound Hfuel.
  { exists s, es. split_and!; [done..|]. by intros a _ _ _. }
  simpl in Hbound, Hfuel.
  assert (distinct_keys ((l, r) :: ps ++ (pair_of <$> es))) as Hd0 by done.
  destruct Hd as [Hf Hd]. apply Forall_app in Hf as [_ Hf].
  destruct (insert_new s c es l r fuel Hh Halloc)
    as (s1 & es1 & es2 & Hrun1 & -> & Hh1 & Halloc1 & Hnext1 & Hfl & Hfr & Hfs).
  { intros e He [Heq1 Heq2]. eapply Forall_forall in Hf.
    2:{ apply list_elem_of_fmap_2, He. }
    apply Hf. left. split; done. }
  { intros e He [Heq1 Heq2]. eapply Forall_forall in Hf.
    2:{ apply list_elem_of_fmap_2, He. }
    apply Hf. right. split; done. }
  { lia. }
  { lia. }
  set (new := Entry _ _ _ l r) in *.
  destruct (IH s1 c (es1 ++ new :: es2) fuel Hh1 Halloc1)
    as (s' & es' & Hrun & Hh' & Hperm & Halloc' & Hnext' & Hkept).
  { eapply distinct_keys_perm; [|exact Hd0].
    rewrite !fmap_app, fmap_cons. change (pair_of new) with (l, r).
    rewrite (Permutation_middle ps). apply Permutation_app_head.
    by rewrite <- Permutation_middle. }
  { rewrite !length_app in *. simpl in *. lia. }
  { rewrite !length_app in *. simpl in *. lia. }
  exists s', es'. split_and!.
  - simpl. erewrite bind_ok by exact Hrun1. done.
  - done.
  - rewrite Hperm, !fmap_app, fmap_cons. change (pair_of new) with (l, r).
    simpl. rewrite <- !Permutation_middle. done.
  - done.
  - lia.
  - intros a Hac Hae Ha.
    destruct (Hkept a Hac) as (H1 & H2 & H3).
    { rewrite fmap_app, fmap_cons. rewrite fmap_app in Hae.
      intros [Hin|[->|Hin]%elem_of_cons]%elem_of_app.
      - apply Hae. set_solver.
      - simpl in Ha. lia.
      - apply Hae. set_solver. }
    { lia. }
    rewrite H1, H2, H3. split_and!.
    + apply Hfl. rewrite !not_elem_of_cons. split_and!; [done| |done]. lia.
    + apply Hfr. rewrite !not_elem_of_cons. split_and!; [done| |done]. lia.
    + by apply Hfs.
Qed.

End bimap_build.
End bimap_build.

Lemma StronglySorted_fmap_transfer {A B C : Type} (f : A → B) (g : A → C)
    (R1 : relation B) (R2 : relation C) (l : list A) :
  (∀ x y, R1 (f x) (f y) → R2 (g x) (g y)) →
  StronglySorted R1 (f <$> l) → StronglySorted R2 (g <$> l).
Proof.
  intros H. induction l as [|x l IH]; [constructor|].
  rewrite !fmap_cons. intros [Hf Hs]%StronglySorted_cons.
  apply StronglySorted_cons. split; [|by apply IH].
  apply Forall_forall. intros z (y & -> & Hy)%list_elem_of_fmap. apply H.
  eapply Forall_forall in Hf; [exact Hf|]. by apply list_elem_of_fmap_2.
Qed.

Module bimap_equal.
Import shape bimap contents building treap_facts treap_remove treap_order treap_iter.
Import treap_ops treap_cells bimap_facts bimap_update bimap_erase bimap_lookup.
Import bimap_build.
Section bimap_equal.
Context {L R : Type}.
Variable compare_left : L → L → bool.
Variable compare_right : R → R → bool.
Variable eq_left : L → L → bool.
Variable eq_right : R → R → bool.

Implicit Types (s : store (L:=L) (R:=R)) (c : nat) (e : entry (L:=L) (R:=R)).
Implicit Types (es : list (entry (L:=L) (R:=R))) (ps : list (L * R)).

Abbreviation holds := (holds compare_left compare_right).
Abbreviation same_pairs := (same_pairs eq_left eq_right).
Abbreviation equal_loop := (equal_loop eq_left eq_right).
Abbreviation equal := (equal eq_left eq_right).

(** *** Walking the left treap *)

Lemma begin_left_spec s c es fuel :
  holds s c es → length es ≤ fuel →
  begin_left c fuel s = Ok (LeftIt (first_ptr c (left_item <$> es)), s).
Proof.
  intros (tl & tr & Hl & Hr & Hil & Hir & _) Hfuel.
  destruct (holds_height s c es tl tr Hil Hir) as [Hhl _].
  unfold begin_left. erewrite bind_ok; [done|]. apply on_left_read.
  rewrite <- Hil. apply begin_spec; [done|lia].
Qed.

Lemma incr_left_spec s c pre e post fuel :
  holds s c (pre ++ e :: post) → length (pre ++ e :: post) < fuel →
  incr_left fuel (LeftIt (Some (e_addr e))) s
  = Ok (LeftIt (first_ptr c (left_item <$> post)), s).
Proof.
  intros (tl & tr & Hl & Hr & Hil & Hir & _) Hfuel.
  destruct (holds_height s c _ tl tr Hil Hir) as [Hhl _].
  unfold incr_left. erewrite bind_ok; [done|]. apply on_left_read.
  apply (incr_spec c tl fuel _ (left_item <$> pre) (left_item e)); [done|lia|].
  by rewrite Hil, fmap_app.
Qed.

(** *** [operator==] *)

Lemma equal_loop_spec s c1 c2 fuel suf1 : ∀ pre1 pre2 suf2 count,
  holds s c1 (pre1 ++ suf1) → holds s c2 (pre2 ++ suf2) →
  length suf1 < count →
  length (pre1 ++ suf1) < fuel → length (pre2 ++ suf2) < fuel →
  equal_loop count fuel c1 c2
    (LeftIt (first_ptr c1 (left_item <$> suf1)))
    (LeftIt (first_ptr c2 (left_item <$> suf2))) s
  = Ok (same_pairs suf1 suf2, s).
Proof.
  induction suf1 as [|e1 suf1 IH]; intros pre1 pre2 suf2 count H1 H2 Hc Hf1 Hf2;
    (destruct count as [|count]; [simpl in Hc; lia|]).
  { simpl. by rewrite bool_decide_false by (by intros []). }
  cbn [bimap.equal_loop fmap list_fmap first_ptr].
  rewrite bool_decide_true.
  2:{ intros [= Heq]. eapply holds_addr_ne; [exact H1|apply elem_of_middle|done]. }
  destruct suf2 as [|e2 suf2].
  { simpl. by rewrite bool_decide_false by (by intros []). }
  cbn [fmap list_fmap first_ptr].
  rewrite bool_decide_true.
  2:{ intros [= Heq]. eapply holds_addr_ne; [exact H2|apply elem_of_middle|done]. }
  cbn [andb].
  erewrite bind_ok by (by eapply deref_left_stored; [exact H1|apply elem_of_middle]).
  erewrite bind_ok by (by eapply deref_left_stored; [exact H2|apply elem_of_middle]).
  cbn [building.same_pairs].
  destruct (eq_left (e_left e1) (e_left e2)).
  - rewrite bind_assoc. cbn [flip_left left_ptr].
    erewrite bind_ok
      by (by eapply deref_right_stored; [exact H1|apply elem_of_middle]).
    rewrite bind_assoc.
    erewrite bind_ok
      by (by eapply deref_right_stored; [exact H2|apply elem_of_middle]).
    erewrite bind_ok by done.
    destruct (eq_right (e_right e1) (e_right e2)); [|done].
    erewrite bind_ok by (by eapply incr_left_spec).
    erewrite bind_ok by (by eapply incr_left_spec).
    apply (IH (pre1 ++ [e1]) (pre2 ++ [e2])).
    + by rewrite <- app_assoc.
    + by rewrite <- app_assoc.
    + simpl in Hc. lia.
    + by rewrite <- app_assoc.
    + by rewrite <- app_assoc.
  - by erewrite bind_ok by done.
Qed.

Lemma equal_spec s c1 c2 es1 es2 count fuel :
  holds s c1 es1 → holds s c2 es2 →
  length es1 < count → length es1 < fuel → length es2 < fuel →
  equal count fuel c1 c2 s
  = Ok (bool_decide (length es1 = length es2) && same_pairs es1 es2, s).
Proof.
  intros H1 H2 Hc Hf1 Hf2. unfold bimap.equal.
  erewrite bind_ok by (by eapply size_spec).
  erewrite bind_ok by (by eapply size_spec).
  destruct (decide (length es1 = length es2)) as [Heq|Hne].
  - rewrite bool_decide_true by done. rewrite Heq, Z.eqb_refl. cbn [negb andb].
    erewrite bind_ok by (eapply begin_left_spec; [exact H1|lia]).
    erewrite bind_ok by (eapply begin_left_spec; [exact H2|lia]).
    by apply (equal_loop_spec s c1 c2 fuel es1 [] [] es2).
  - rewrite bool_decide_false by done.
    replace (Z.of_nat (length es1) =? Z.of_nat (length es2))%Z with false; [done|].
    symmetry. apply Z.eqb_neq. lia.
Qed.

(** The loop answers [true] on sequences of the same length exactly
    when the pairs match position by position. *)
Lemma same_pairs_Forall2 es1 : ∀ es2,
  length es1 = length es2 →
  same_pairs es1 es2 = true ↔
  Forall2 (λ e1 e2, eq_left (e_left e1) (e_left e2) = true
                    ∧ eq_right (e_right e1) (e_right e2) = true) es1 es2.
Proof.
  induction es1 as [|e1 es1 IH]; intros [|e2 es2] Hlen; try done.
  simpl in *. injection Hlen as Hlen. rewrite Forall2_cons.
    destruct (eq_left (e_left e1) (e_left e2)); [|by intuition].
    destruct (eq_right (e_right e1) (e_right e2)); [|by intuition].
    rewrite (IH es2 Hlen). by intuition.
Qed.

Lemma same_pairs_refl es1 es2 :
  (∀ x, eq_left x x = true) → (∀ y, eq_right y y = true) →
  pair_of <$> es1 = pair_of <$> es2 → same_pairs es1 es2 = true.
Proof.
  intros Hl Hr. revert es2.
  induction es1 as [|e1 es1 IH]; intros [|e2 es2]; try done.
  simpl. intros [= H1 H2 Hrest]. rewrite H1, H2, Hl, Hr. by apply IH.
Qed.

(** *** Two bimaps with the same pairs list them in the same order *)

Hypothesis left_irrefl : ∀ x, compare_left x x = false.
Hypothesis left_trans : ∀ x y z,
  compare_left x y = true → compare_left y z = true → compare_left x z = true.

Lemma holds_sorted s c es :
  holds s c es →
  StronglySorted (λ p q : L * R, compare_left p.1 q.1 = true) (pair_of <$> es).
Proof.
  intros (tl & tr & _ & _ & Hil & _ & Hbl & _).
  unfold bst in Hbl. rewrite Hil in Hbl.
  eapply StronglySorted_fmap_transfer; [|exact Hbl]. done.
Qed.

Lemma same_pairs_same_order s c1 c2 es1 es2 :
  holds s c1 es1 → holds s c2 es2 →
  pair_of <$> es1 ≡ₚ pair_of <$> es2 →
  pair_of <$> es1 = pair_of <$> es2.
Proof using left_irrefl left_trans.
  intros H1 H2 Hperm.
  eapply (StronglySorted_unique_strong
            (λ p q : L * R, compare_left p.1 q.1 = true));
    [|by eapply holds_sorted..|done].
  intros p q _ _ Hpq Hqp.
  pose proof (left_trans _ _ _ Hpq Hqp) as Hpp.
  by rewrite left_irrefl in Hpp.
Qed.

End bimap_equal.
End bimap_equal.

(** ** Properties of the facade *)

Module bimap_spec.
Import shape bimap contents building treap_facts treap_remove treap_order treap_iter.
Import treap_ops treap_cells bimap_facts bimap_update bimap_erase bimap_lookup.
Import bimap_build bimap_equal.
Section bimap_spec.
Context {L R : Type}.
Variable compare_left : L → L → bool.
Variable compare_right : R → R → bool.
Variable eq_left : L → L → bool.
Variable eq_right : R → R → bool.
Variable default_left : L.
Variable default_right : R.
Variable rand : nat → N.

(** The comparators are strict orders. *)
Hypothesis left_irrefl : ∀ x, compare_left x x = false.
Hypothesis left_trans : ∀ x y z,
  compare_left x y = true → compare_left y z = true → compare_left x z = true.
Hypothesis right_irrefl : ∀ x, compare_right x x = false.
Hypothesis right_trans : ∀ x y z,
  compare_right x y = true → compare_right y z = true → compare_right x z = true.

Implicit Types (s : store (L:=L) (R:=R)) (c : nat) (e : entry (L:=L) (R:=R)).
Implicit Types (es : list (entry (L:=L) (R:=R))) (ps : list (L * R)).

Abbreviation holds := (holds compare_left compare_right).
Abbreviation equiv_left := (equiv_left compare_left).
Abbreviation equiv_right := (equiv_right compare_right).
Abbreviation find_left := (find_left compare_left).
Abbreviation find_right := (find_right compare_right).
Abbreviation insert := (insert compare_left compare_right rand).
Abbreviation erase_left_key := (erase_left_key compare_left compare_right).
Abbreviation erase_right_key := (erase_right_key compare_left compare_right).
Abbreviation at_left_or_default :=
  (at_left_or_default compare_left compare_right default_right rand).
Abbreviation at_right_or_default :=
  (at_right_or_default compare_left compare_right default_left rand).
Abbreviation copy_assign := (copy_assign compare_left compare_right rand).
Abbreviation move_assign := (move_assign compare_left compare_right).
Abbreviation insert_all := (insert_all compare_left compare_right rand).
Abbreviation distinct_keys := (distinct_keys compare_left compare_right).
Abbreviation equal := (equal eq_left eq_right).

Local Abbreviation find_left_cases :=
  (find_left_cases compare_left compare_right left_irrefl left_trans).
Local Abbreviation find_right_cases :=
  (find_right_cases compare_left compare_right right_irrefl right_trans).
Local Abbreviation find_left_stored :=
  (find_left_stored compare_left compare_right left_irrefl left_trans).
Local Abbreviation find_right_stored :=
  (find_right_stored compare_left compare_right right_irrefl right_trans).
Local Abbreviation insert_taken :=
  (insert_taken compare_left compare_right rand left_irrefl left_trans
     right_irrefl right_trans).
Local Abbreviation insert_new :=
  (insert_new compare_left compare_right rand left_irrefl left_trans
     right_irrefl right_trans).
Local Abbreviation erase_left_key_spec :=
  (erase_left_key_spec compare_left compare_right left_irrefl left_trans
     right_irrefl right_trans).
Local Abbreviation erase_right_key_spec :=
  (erase_right_key_spec compare_left compare_right left_irrefl left_trans
     right_irrefl right_trans).
Local Abbreviation at_left_or_default_evicts :=
  (at_left_or_default_evicts compare_left compare_right default_right rand
     left_irrefl left_trans right_irrefl right_trans).
Local Abbreviation at_right_or_default_evicts :=
  (at_right_or_default_evicts compare_left compare_right default_left rand
     left_irrefl left_trans right_irrefl right_trans).
Local Abbreviation gone_left :=
  (gone_left compare_left compare_right left_irrefl left_trans).
Local Abbreviation gone_right :=
  (gone_right compare_left compare_right right_irrefl right_trans).
Local Abbreviation insert_all_spec :=
  (insert_all_spec compare_left compare_right rand left_irrefl left_trans
     right_irrefl right_trans).

(** C1. In a bimap that holds the nodes [es], a pair [(l, r)] one of
    whose keys is equivalent to a stored key of its side finds the
    bimap not empty and is rejected: [insert] returns [end_left()] and
    the memory, therefore the size and every stored pair, is unchanged.
    In particular, from any bimap, the empty one included, [insert(a, x)]
    returns, and when it has stored the pair (it did not return
    [end_left()]) the size is one more, [a] is found in the new node,
    whose right key is [x], and a following [insert(a, y)] returns
    [end_left()] and leaves the memory, hence the size and the pair
    [(a, x)], as it was. *)
Theorem insert_rejects_taken_keys s c es l r fuel :
  holds s c es → 2 * length es + 2 < fuel →
  ((∃ e, e ∈ es ∧ (equiv_left (e_left e) l ∨ equiv_right (e_right e) r)) →
   empty c s = Ok (false, s)
   ∧ insert c fuel l r s = Ok (end_left c, s))
  ∧ ∀ a x,
      allocated_below s →
      (Z.of_nat (length es) + 1 < size_t_max)%Z →
      ∃ it s1,
        insert c fuel a x s = Ok (it, s1)
        ∧ (it ≠ end_left c →
           size c s1 = Ok (Z.of_nat (length es) + 1, s1)%Z
           ∧ find_left c fuel a s1 = Ok (it, s1)
           ∧ deref_right (flip_left it) s1 = Ok (x, s1)
           ∧ ∀ y, insert c fuel a y s1 = Ok (end_left c, s1)).
Proof using left_irrefl left_trans right_irrefl right_trans.
  intros Hh Hfuel. split.
  - intros (e & He & Heq). split.
    + rewrite (empty_spec _ _ s c es Hh). rewrite bool_decide_false; [done|].
      intros ->. by apply elem_of_nil in He.
    + apply (insert_taken s c es); [done|lia|]. by exists e.
  - intros a x Halloc Hbound.
    destruct (find_left_cases s c es a fuel Hh ltac:(lia))
      as [(e1 & He1 & Hq1 & _)|[Hno1 _]].
    { exists (end_left c), s. split; [|done].
      apply (insert_taken s c es a x fuel Hh ltac:(lia)). exists e1. auto. }
    destruct (find_right_cases s c es x fuel Hh ltac:(lia))
      as [(e2 & He2 & Hq2 & _)|[Hno2 _]].
    { exists (end_left c), s. split; [|done].
      apply (insert_taken s c es a x fuel Hh ltac:(lia)). exists e2. auto. }
    destruct (insert_new s c es a x fuel Hh Halloc Hno1 Hno2 ltac:(lia) Hfuel)
      as (s' & es1 & es2 & Hrun' & -> & Hh' & _).
    eexists _, s'. split; [exact Hrun'|]. intros _.
    set (new := Entry _ _ _ a x) in *.
    assert (new ∈ es1 ++ new :: es2) as Hnew by apply elem_of_middle.
    assert (length (es1 ++ new :: es2) = S (length (es1 ++ es2))) as Hlen.
    { rewrite !length_app. simpl. lia. }
    assert (size c s' = Ok (Z.of_nat (length (es1 ++ es2)) + 1, s')%Z) as Hsize.
    { rewrite (size_spec _ _ s' c _ Hh'). do 2 f_equal. lia. }
    assert (find_left c fuel a s' = Ok (LeftIt (Some (next_addr s)), s')) as Hfind.
    { apply (find_left_stored s' c _ new fuel Hh' Hnew). lia. }
    assert (deref_right (flip_left (LeftIt (Some (next_addr s)))) s' = Ok (x, s'))
      as Hderef.
    { apply (deref_right_stored _ _ s' c _ new Hh' Hnew). }
    split_and!; [done..|]. intros y.
    apply (insert_taken s' c _ a y fuel Hh'); [lia|].
    exists new. split; [done|]. left. split; apply left_irrefl.
Qed.

(** C2. When the bimap holds a node with the pair [(k, r)] = [(e_left e,
    e_right e)], [erase_left(k)] returns [true]; afterwards
    [find_left(k)] is [end_left()], [find_right(r)] is [end_right()] and
    [size()] is one less.  The same holds for [erase_right(r)]. *)
Theorem erase_key_removes_pair s c es e fuel :
  holds s c es → e ∈ es → 2 * length es + 2 < fuel →
  size c s = Ok (Z.of_nat (length es), s)
  ∧ (∃ s', erase_left_key c fuel (e_left e) s = Ok (true, s')
           ∧ find_left c fuel (e_left e) s' = Ok (end_left c, s')
           ∧ find_right c fuel (e_right e) s' = Ok (end_right c, s')
           ∧ size c s' = Ok (Z.of_nat (length es) - 1, s')%Z)
  ∧ (∃ s', erase_right_key c fuel (e_right e) s = Ok (true, s')
           ∧ find_right c fuel (e_right e) s' = Ok (end_right c, s')
           ∧ find_left c fuel (e_left e) s' = Ok (end_left c, s')
           ∧ size c s' = Ok (Z.of_nat (length es) - 1, s')%Z).
Proof using left_irrefl left_trans right_irrefl right_trans.
  intros Hh He Hfuel.
  pose proof He as (es1 & es2 & ->)%list_elem_of_split.
  assert (Z.of_nat (length (es1 ++ es2))
          = Z.of_nat (length (es1 ++ e :: es2)) - 1)%Z as Hlen.
  { rewrite !length_app. simpl. lia. }
  split_and!.
  - by apply (size_spec compare_left compare_right).
  - destruct (erase_left_key_spec s c es1 e es2 fuel Hh Hfuel)
      as (s' & Hrun & Hh' & Hfl & Hfr).
    exists s'. split_and!; [done..|].
    rewrite (size_spec _ _ s' c _ Hh'). by rewrite Hlen.
  - destruct (erase_right_key_spec s c es1 e es2 fuel Hh Hfuel)
      as (s' & Hrun & Hh' & Hfl & Hfr).
    exists s'. split_and!; [done..|].
    rewrite (size_spec _ _ s' c _ Hh'). by rewrite Hlen.
Qed.


(** C5. [flip] composed with [flip] is the identity on the iterators of
    either side, and for the node [e] of a bimap the left iterator on
    [e] dereferences to its left key while its flip dereferences to its
    right key, and conversely.  [flip] does not read the memory: it is a
    function of the iterator alone. *)
Theorem flip_flip s c es e :
  holds s c es → e ∈ es →
  let it := LeftIt (Some (e_addr e)) in
  let it' := RightIt (Some (e_addr e)) in
  it ≠ end_left c ∧ it' ≠ end_right c
  ∧ flip_right (flip_left it) = it
  ∧ flip_left (flip_right it') = it'
  ∧ deref_left it s = Ok (e_left e, s)
  ∧ deref_right (flip_left it) s = Ok (e_right e, s)
  ∧ deref_right it' s = Ok (e_right e, s)
  ∧ deref_left (flip_right it') s = Ok (e_left e, s).
Proof.
  intros Hh He it it'.
  pose proof (holds_addr_ne _ _ s c es e Hh He) as Hne.
  split_and!; try done.
  - intros [= Heq]. done.
  - intros [= Heq]. done.
  - by eapply deref_left_stored.
  - by eapply deref_right_stored.
  - by eapply deref_right_stored.
  - by eapply deref_left_stored.
Qed.

(** C10. When the bimap [this] is not empty and the bimap [other] is
    empty, the copy assignment and the move assignment of [other] to
    [this] return at once: the memory, hence the pairs and the size of
    [this], is unchanged. *)
Theorem assign_from_empty_is_noop bad_alloc s this other count fuel :
  empty this s = Ok (false, s) → empty other s = Ok (true, s) →
  copy_assign bad_alloc count fuel this other s = Ok (tt, s)
  ∧ move_assign count fuel this other s = Ok (tt, s).
Proof.
  intros Hthis Hother.
  unfold bimap.copy_assign, bimap.move_assign.
  destruct (decide (this = other)) as [->|Hne].
  - by erewrite !bind_ok by done.
  - by erewrite !bind_ok by exact Hother.
Qed.

(** C9. Two bimaps built by inserting the same pairs, no two of which
    have equivalent left keys or equivalent right keys, in two orders
    [ps1] and [ps2] compare equal with [operator==] (the [operator==] of
    the keys being reflexive); and [operator==] of two bimaps answers
    [true] exactly when they have the same number of nodes and, walking
    both in the order of the left treap, the left keys and the right
    keys match position by position. *)
Theorem insertion_order_is_irrelevant s ps1 ps2 count fuel :
  (∀ x, eq_left x x = true) → (∀ y, eq_right y y = true) →
  allocated_below s →
  ps1 ≡ₚ ps2 → distinct_keys ps1 →
  (Z.of_nat (length ps1) < size_t_max)%Z →
  length ps1 < count → 2 * length ps1 + 2 < fuel →
  (∃ s',
     (let* c1 := construct rand in
      insert_all c1 fuel ps1 ;;
      let* c2 := construct rand in
      insert_all c2 fuel ps2 ;;
      equal count fuel c1 c2) s = Ok (true, s'))
  ∧ (∀ s0 c1 c2 es1 es2,
       holds s0 c1 es1 → holds s0 c2 es2 →
       length es1 < count → length es1 < fuel → length es2 < fuel →
       ∃ b, equal count fuel c1 c2 s0 = Ok (b, s0)
            ∧ (b = true ↔
               length es1 = length es2
               ∧ Forall2 (λ e1 e2, eq_left (e_left e1) (e_left e2) = true
                                   ∧ eq_right (e_right e1) (e_right e2) = true)
                         es1 es2)).
Proof using left_irrefl left_trans right_irrefl right_trans.
  intros Heql Heqr Halloc Hperm Hd Hbound Hcount Hfuel. split.
  - pose proof (Permutation_length Hperm) as Hlen.
    destruct (construct_spec compare_left compare_right rand s Halloc)
      as (s1 & Hrun1 & Hh1 & Halloc1 & Hnext1 & _).
    destruct (insert_all_spec ps1 s1 (next_addr s) [] fuel Hh1 Halloc1)
      as (s2 & es1 & Hrun2 & Hh2 & Hp1 & Halloc2 & Hnext2 & _).
    { by rewrite app_nil_r. }
    { simpl. lia. }
    { simpl. lia. }
    destruct (construct_spec compare_left compare_right rand s2 Halloc2)
      as (s3 & Hrun3 & Hh3 & Halloc3 & Hnext3 & Hkept3).
    destruct (insert_all_spec ps2 s3 (next_addr s2) [] fuel Hh3 Halloc3)
      as (s4 & es2 & Hrun4 & Hh4 & Hp2 & Halloc4 & Hnext4 & Hkept4).
    { rewrite app_nil_r. by eapply distinct_keys_perm. }
    { simpl. lia. }
    { simpl. lia. }
    simpl in Hp1, Hp2. rewrite app_nil_r in Hp1, Hp2.
    assert (∀ a, a ∈ next_addr s :: (e_addr <$> es1) → a < next_addr s2) as Hlow.
    { intros a Ha. apply Halloc2. left.
      by apply (holds_allocated compare_left compare_right s2 _ es1 a Hh2). }
    assert (holds s4 (next_addr s) es1) as Hh2'.
    { assert (next_addr s < next_addr s2) as Hc1 by (apply Hlow; set_solver).
      apply (holds_frame compare_left compare_right s2); [done| |].
      - intros a Ha. specialize (Hlow a Ha).
        destruct (Hkept4 a) as (H1 & H2 & _); [lia|by apply not_elem_of_nil|lia|].
        destruct (Hkept3 a) as (H3 & H4 & _); [lia|].
        by rewrite H1, H2, H3, H4.
      - destruct (Hkept4 (next_addr s)) as (_ & _ & H1);
          [lia|by apply not_elem_of_nil|lia|].
        destruct (Hkept3 (next_addr s)) as (_ & _ & H2); [lia|].
        by rewrite H1, H2. }
    assert (pair_of <$> es1 = pair_of <$> es2) as Hsame.
    { apply (same_pairs_same_order compare_left compare_right left_irrefl
               left_trans s4 _ _ es1 es2 Hh2' Hh4).
      by rewrite Hp1, Hp2. }
    assert (length es1 = length ps1) as Hl1.
    { rewrite <- (length_fmap pair_of es1). by rewrite Hp1. }
    assert (length es2 = length ps1) as Hl2.
    { rewrite <- (length_fmap pair_of es2). by rewrite <- Hsame, Hp1. }
    exists s4.
    erewrite bind_ok by exact Hrun1. erewrite bind_ok by exact Hrun2.
    erewrite bind_ok by exact Hrun3. erewrite bind_ok by exact Hrun4.
    rewrite (equal_spec compare_left compare_right eq_left eq_right s4 _ _
               es1 es2 count fuel Hh2' Hh4); [|lia..].
    rewrite bool_decide_true by lia.
    by rewrite (same_pairs_refl eq_left eq_right es1 es2 Heql Heqr Hsame).
  - intros s0 c1 c2 es1 es2 H1 H2 Hc Hf1 Hf2. eexists. split.
    + by apply (equal_spec compare_left compare_right eq_left eq_right s0 c1 c2
                  es1 es2).
    + destruct (decide (length es1 = length es2)) as [Hlen|Hlen].
      * rewrite bool_decide_true by done. cbn [andb].
        rewrite (same_pairs_Forall2 eq_left eq_right es1 es2 Hlen). tauto.
      * rewrite bool_decide_false by done. cbn [andb]. split; [done|tauto].
Qed.

End bimap_spec.
End bimap_spec.

Module example_facts.
Import shape bimap contents building example.

Lemma ltb_irrefl x : (x <? x) = false.
Proof. apply Nat.ltb_irrefl. Qed.

Lemma ltb_trans x y z : (x <? y) = true → (y <? z) = true → (x <? z) = true.
Proof. rewrite !Nat.ltb_lt. lia. Qed.

Lemma empty_store_allocated : allocated_below empty_store.
Proof.
  intros a Ha. unfold empty_store in Ha. simpl in Ha.
  rewrite !lookup_empty in Ha. by destruct Ha as [[? ?]|[[? ?]|[? ?]]].
Qed.

Lemma no_pair_holds : holds Nat.ltb Nat.ltb no_pair 0 [].
Proof.
  exists Leaf, Leaf.
  split_and!.
  - split_and!; [by eexists|done|apply NoDup_nil_2].
  - split_and!; [by eexists|done|apply NoDup_nil_2].
  - done.
  - done.
  - constructor.
  - constructor.
  - done.
  - done.
Qed.

Lemma one_pair_holds : holds Nat.ltb Nat.ltb one_pair 0 [Entry 1 98 97 1 10].
Proof.
  exists (Bin Leaf (Item 1 98 1) Leaf), (Bin Leaf (Item 1 97 10) Leaf).
  split_and!.
  - split_and!; [by eexists|done|apply NoDup_singleton].
  - split_and!; [by eexists|done|apply NoDup_singleton].
  - done.
  - done.
  - repeat constructor.
  - repeat constructor.
  - done.
  - done.
Qed.

Lemma default_pair_holds : holds Nat.ltb Nat.ltb default_pair 0 [Entry 1 98 97 5 0].
Proof.
  exists (Bin Leaf (Item 1 98 5) Leaf), (Bin Leaf (Item 1 97 0) Leaf).
  split_and!.
  - split_and!; [by eexists|done|apply NoDup_singleton].
  - split_and!; [by eexists|done|apply NoDup_singleton].
  - done.
  - done.
  - repeat constructor.
  - repeat constructor.
  - done.
  - done.
Qed.

(** A check of [allocated_below] that can be computed. *)
Lemma allocated_below_check (s : store (L:=nat) (R:=nat)) :
  map_Forall (λ a _, a < next_addr s) (left_nodes s) →
  map_Forall (λ a _, a < next_addr s) (right_nodes s) →
  map_Forall (λ a _, a < next_addr s) (sizes s) →
  allocated_below s.
Proof.
  intros H1 H2 H3 a [[x Hx]|[[x Hx]|[x Hx]]].
  - by apply (H1 a x).
  - by apply (H2 a x).
  - by apply (H3 a x).
Qed.

Lemma default_pair_allocated : allocated_below default_pair.
Proof.
  apply allocated_below_check;
    apply (bool_decide_unpack _); vm_compute; reflexivity.
Qed.

Lemma no_pair_allocated : allocated_below no_pair.
Proof.
  apply allocated_below_check;
    apply (bool_decide_unpack _); vm_compute; reflexivity.
Qed.

End example_facts.

Module example_runs.
Import shape bimap contents building example example_facts bimap_spec.

Lemma insert_rejects_taken_keys_witness :
  (holds Nat.ltb Nat.ltb one_pair 0 [Entry 1 98 97 1 10]
   ∧ 2 * length [Entry (L:=nat) (R:=nat) 1 98 97 1 10] + 2 < 10
   ∧ (∃ e, e ∈ [Entry 1 98 97 1 10]
           ∧ (equiv_left Nat.ltb (e_left e) 1 ∨ equiv_right Nat.ltb (e_right e) 77))
   ∧ bimap.insert Nat.ltb Nat.ltb rnd 0 10 1 77 one_pair = Ok (end_left 0, one_pair))
  ∧ (holds Nat.ltb Nat.ltb no_pair 0 []
     ∧ 2 * length ([] : list (entry (L:=nat) (R:=nat))) + 2 < 10
     ∧ allocated_below no_pair
     ∧ ∃ it s1,
         bimap.insert Nat.ltb Nat.ltb rnd 0 10 1 10 no_pair = Ok (it, s1)
         ∧ it ≠ end_left 0
         ∧ size 0 s1 = Ok (1%Z, s1)
         ∧ deref_right (flip_left it) s1 = Ok (10, s1)
         ∧ bimap.insert Nat.ltb Nat.ltb rnd 0 10 1 77 s1 = Ok (end_left 0, s1)).
Proof.
  assert (2 * length [Entry (L:=nat) (R:=nat) 1 98 97 1 10] + 2 < 10) as Hfuel
    by (simpl; lia).
  assert (∃ e, e ∈ [Entry 1 98 97 1 10]
               ∧ (equiv_left Nat.ltb (e_left e) 1
                  ∨ equiv_right Nat.ltb (e_right e) 77)) as Htaken.
  { exists (Entry 1 98 97 1 10). split; [apply list_elem_of_here|].
    left. split; reflexivity. }
  assert (2 * length ([] : list (entry (L:=nat) (R:=nat))) + 2 < 10) as Hfuel0
    by (simpl; lia).
  split.
  - split_and!; [exact one_pair_holds|exact Hfuel|exact Htaken|].
    exact (proj2 (proj1 (insert_rejects_taken_keys Nat.ltb Nat.ltb rnd
             ltb_irrefl ltb_trans ltb_irrefl ltb_trans one_pair 0 _ 1 77 10
             one_pair_holds Hfuel) Htaken)).
  - split_and!; [exact no_pair_holds|exact Hfuel0|exact no_pair_allocated|].
    destruct (proj2 (insert_rejects_taken_keys Nat.ltb Nat.ltb rnd
                ltb_irrefl ltb_trans ltb_irrefl ltb_trans no_pair 0 _ 1 77 10
                no_pair_holds Hfuel0) 1 10 no_pair_allocated
                ltac:(vm_compute; reflexivity))
      as (it & s1 & Hrun & Hrest).
    assert (it ≠ end_left 0) as Hne.
    { assert (bimap.insert Nat.ltb Nat.ltb rnd 0 10 1 10 no_pair
              = Ok (LeftIt (Some 1), one_pair)) as Hc by (vm_compute; reflexivity).
      rewrite Hc in Hrun. injection Hrun as <- _. discriminate. }
    destruct (Hrest Hne) as (Hsize & _ & Hderef & Hagain).
    exists it, s1.
    split_and!; [exact Hrun|exact Hne|exact Hsize|exact Hderef|exact (Hagain 77)].
Defined.

Lemma erase_key_removes_pair_witness :
  holds Nat.ltb Nat.ltb one_pair 0 [Entry 1 98 97 1 10]
  ∧ Entry 1 98 97 1 10 ∈ [Entry 1 98 97 1 10]
  ∧ 2 * length [Entry (L:=nat) (R:=nat) 1 98 97 1 10] + 2 < 10
  ∧ ∃ s', erase_left_key Nat.ltb Nat.ltb 0 10 1 one_pair = Ok (true, s')
          ∧ find_left Nat.ltb 0 10 1 s' = Ok (end_left 0, s')
          ∧ find_right Nat.ltb 0 10 10 s' = Ok (end_right 0, s')
          ∧ size 0 s' = Ok (0%Z, s').
Proof.
  assert (2 * length [Entry (L:=nat) (R:=nat) 1 98 97 1 10] + 2 < 10) as Hfuel
    by (simpl; lia).
  assert (Entry (L:=nat) (R:=nat) 1 98 97 1 10 ∈ [Entry 1 98 97 1 10]) as Hin
    by apply list_elem_of_here.
  split_and!; [exact one_pair_holds|exact Hin|exact Hfuel|].
  exact (proj1 (proj2 (erase_key_removes_pair Nat.ltb Nat.ltb
           ltb_irrefl ltb_trans ltb_irrefl ltb_trans one_pair 0 _ _ 10
           one_pair_holds Hin Hfuel))).
Defined.


Lemma flip_flip_witness :
  holds Nat.ltb Nat.ltb one_pair 0 [Entry 1 98 97 1 10]
  ∧ Entry 1 98 97 1 10 ∈ [Entry 1 98 97 1 10]
  ∧ flip_right (flip_left (LeftIt (Some 1))) = LeftIt (Some 1)
  ∧ deref_left (LeftIt (Some 1)) one_pair = Ok (1, one_pair)
  ∧ deref_right (flip_left (LeftIt (Some 1))) one_pair = Ok (10, one_pair).
Proof.
  assert (Entry (L:=nat) (R:=nat) 1 98 97 1 10 ∈ [Entry 1 98 97 1 10]) as Hin
    by apply list_elem_of_here.
  pose proof (flip_flip Nat.ltb Nat.ltb one_pair 0 _ _ one_pair_holds Hin) as H.
  simpl in H. destruct H as (_ & _ & H1 & _ & H2 & H3 & _).
  split_and!; [exact one_pair_holds|exact Hin|exact H1|exact H2|exact H3].
Defined.

Lemma insertion_order_is_irrelevant_witness :
  allocated_below empty_store
  ∧ [(1, 10); (2, 20)] ≡ₚ [(2, 20); (1, 10)]
  ∧ distinct_keys Nat.ltb Nat.ltb [(1, 10); (2, 20)]
  ∧ ∃ s',
      (let* c1 := construct rnd in
       insert_all Nat.ltb Nat.ltb rnd c1 10 [(1, 10); (2, 20)] ;;
       let* c2 := construct rnd in
       insert_all Nat.ltb Nat.ltb rnd c2 10 [(2, 20); (1, 10)] ;;
       equal Nat.eqb Nat.eqb 3 10 c1 c2) empty_store = Ok (true, s').
Proof.
  assert ([(1, 10); (2, 20)] ≡ₚ [(2, 20); (1, 10)]) as Hperm by apply perm_swap.
  assert (distinct_keys Nat.ltb Nat.ltb [(1, 10); (2, 20)]) as Hd.
  { simpl. split_and!; [|done..]. repeat constructor.
    intros [[H _]|[H _]]; discriminate H. }
  split_and!; [exact empty_store_allocated|exact Hperm|exact Hd|].
  apply (proj1 (insertion_order_is_irrelevant Nat.ltb Nat.ltb Nat.eqb Nat.eqb rnd
           ltb_irrefl ltb_trans ltb_irrefl ltb_trans empty_store _ _ 3 10
           Nat.eqb_refl Nat.eqb_refl empty_store_allocated Hperm Hd
           ltac:(vm_compute; reflexivity) ltac:(simpl; lia) ltac:(simpl; lia))).
Defined.

Lemma assign_from_empty_is_noop_witness :
  empty 0 two_objects = Ok (false, two_objects)
  ∧ empty 2 two_objects = Ok (true, two_objects)
  ∧ copy_assign Nat.ltb Nat.ltb rnd (λ _, false) 5 10 0 2 two_objects
    = Ok (tt, two_objects)
  ∧ move_assign Nat.ltb Nat.ltb 5 10 0 2 two_objects = Ok (tt, two_objects).
Proof.
  assert (empty 0 two_objects = Ok (false, two_objects)) as H1 by reflexivity.
  assert (empty 2 two_objects = Ok (true, two_objects)) as H2 by reflexivity.
  split_and!; [exact H1|exact H2|..];
    apply (assign_from_empty_is_noop Nat.ltb Nat.ltb rnd (λ _, false)
             two_objects 0 2 5 10 H1 H2).
Defined.

(** *** Runs on which the code departs from its specification *)

(** C4. After [a.insert(1, 1); a.swap(b); b.insert(1, 2);] the bimap
    [b], whose [_size] was left at [0] by [swap], holds the left key [1]
    twice: walking it from [begin_left()] yields [1], [1] and then
    [end_left()]. *)
Example swap_then_insert_duplicates_key :
  outcome
    ((let* a := construct rnd in
      let* b := construct rnd in
      insert a 10 1 1 ;;
      swap a b ;;
      insert b 10 1 2 ;;
      let* i0 := begin_left b 10 in
      let* k0 := deref_left i0 in
      let* i1 := incr_left 10 i0 in
      let* k1 := deref_left i1 in
      let* i2 := incr_left 10 i1 in
      let* n := size b in
      ret (k0, k1, bool_decide (i2 = end_left b), n)) empty_store)
  = Ok (1, 1, true, 1%Z).
Proof. vm_compute. reflexivity. Qed.

(** C6. On the treap with the keys [1] and [3], [remove(2)] returns the
    end iterator but leaves the tree split: the key [3], found before,
    is no longer found; and [remove(5)] dereferences a null pointer. *)
Example remove_absent_key_changes_tree :
  outcome (treap.exist Nat.ltb 0 10 3 treap_1_3) = Ok (Some 2)
  ∧ outcome
      ((let* it := treap.remove Nat.ltb 0 10 2 in
        let* found := treap.exist Nat.ltb 0 10 3 in
        ret (it, found)) treap_1_3)
    = Ok (treap.end_ 0, treap.end_ 0)
  ∧ treap.remove Nat.ltb 0 10 5 treap_1_3 = Undefined.
Proof. vm_compute. done. Qed.

(** C7. After [bimap a; a.insert(1, 10); bimap b(std::move(a));] the
    source [a] still has [size() == 1] and is not [empty()]; the same
    holds after the move assignment [b = std::move(a)].  In both cases
    the root of the moved trees keeps the head node of [a] as its
    parent, so that walking [b], [++b.begin_left()] is [a.end_left()]
    and not [b.end_left()]. *)
Example moved_from_bimap_keeps_size :
  outcome
    ((let* a := construct rnd in
      insert a 10 1 10 ;;
      let* b := move_construct a in
      let* n := size a in
      let* e := empty a in
      let* nb := size b in
      let* i0 := begin_left b 10 in
      let* i1 := incr_left 10 i0 in
      ret (n, e, nb, bool_decide (i1 = end_left b),
           bool_decide (i1 = end_left a))) empty_store)
  = Ok (1%Z, false, 1%Z, false, true)
  ∧ outcome
      ((let* a := construct rnd in
        insert a 10 1 10 ;;
        let* b := construct rnd in
        move_assign Nat.ltb Nat.ltb 5 10 b a ;;
        let* n := size a in
        let* e := empty a in
        let* nb := size b in
        let* i0 := begin_left b 10 in
        let* i1 := incr_left 10 i0 in
        ret (n, e, nb, bool_decide (i1 = end_left b),
             bool_decide (i1 = end_left a))) empty_store)
    = Ok (1%Z, false, 1%Z, false, true).
Proof. vm_compute. done. Qed.

(** C8. In the bimap with the pairs [(2, 20)] and [(3, 30)], where the
    node of the left key [2] is the root of the left treap,
    [upper_bound_left(2)] returns [end_left()] although the left key
    [3] is stored, and [upper_bound_left(3)] returns the iterator on [3]
    itself. *)
Example upper_bound_misses_successor :
  outcome
    ((let* a := construct rnd in
      insert a 10 2 20 ;;
      insert a 10 3 30 ;;
      let* three := find_left Nat.ltb a 10 3 in
      let* u2 := upper_bound_left Nat.ltb a 10 2 in
      let* u3 := upper_bound_left Nat.ltb a 10 3 in
      ret (bool_decide (three = end_left a),
           bool_decide (u2 = end_left a),
           bool_decide (u3 = three))) empty_store)
  = Ok (false, true, true).
Proof. vm_compute. reflexivity. Qed.

End example_runs.

(** ** The right side of a bimap, in the order of the right keys *)

Module bimap_right.
Import shape bimap contents building treap_facts treap_remove treap_order treap_iter.
Import treap_ops treap_cells bimap_facts bimap_update bimap_erase bimap_lookup.
Import bimap_build bimap_equal.
Section bimap_right.
Context {L R : Type}.
Variable compare_left : L → L → bool.
Variable compare_right : R → R → bool.

Implicit Types (s : store (L:=L) (R:=R)) (c : nat) (e : entry (L:=L) (R:=R)).
Implicit Types (es : list (entry (L:=L) (R:=R))).

Abbreviation holds := (holds compare_left compare_right).

(** The nodes in the order of their right keys. *)
Abbreviation right_sorted es :=
  (StronglySorted (λ e1 e2, compare_right (e_right e1) (e_right e2) = true) es).
Abbreviation left_sorted es :=
  (StronglySorted (λ e1 e2, compare_left (e_left e1) (e_left e2) = true) es).

Lemma holds_left_sorted s c es : holds s c es → left_sorted es.
Proof.
  intros (tl & tr & _ & _ & Hil & _ & Hbl & _).
  unfold bst in Hbl. rewrite Hil in Hbl.
  eapply (StronglySorted_fmap_transfer left_item id) in Hbl;
    [by rewrite list_fmap_id in Hbl|done].
Qed.

Lemma holds_right_sorted_exists s c es :
  holds s c es → ∃ es', es' ≡ₚ es ∧ right_sorted es'.
Proof.
  intros (tl & tr & _ & _ & _ & Hir & _ & Hbr & _).
  apply Permutation_map_inv in Hir as (es' & Hit & Hperm).
  exists es'. split; [done|].
  unfold bst in Hbr. rewrite Hit in Hbr.
  eapply (StronglySorted_fmap_transfer right_item id) in Hbr;
    [by rewrite list_fmap_id in Hbr|done].
Qed.

Hypothesis right_irrefl : ∀ x, compare_right x x = false.
Hypothesis right_trans : ∀ x y z,
  compare_right x y = true → compare_right y z = true → compare_right x z = true.

Lemma holds_right_order s c es es' :
  holds s c es → es' ≡ₚ es → right_sorted es' →
  ∃ tr, is_treap (right_nodes s) c tr
        ∧ items tr = right_item <$> es'
        ∧ bst compare_right tr.
Proof using right_irrefl right_trans.
  intros (tl & tr & _ & Hr & _ & Hir & _ & Hbr & _) Hperm Hs.
  exists tr. split_and!; [done| |done].
  apply (StronglySorted_unique_strong (item_lt compare_right)); [|done| |].
  - intros x1 x2 _ _ H12 H21.
    pose proof (right_trans _ _ _ H12 H21) as Hxx.
    by rewrite right_irrefl in Hxx.
  - eapply (StronglySorted_fmap_transfer id right_item); [|by rewrite list_fmap_id].
    done.
  - by rewrite Hir, Hperm.
Qed.

Lemma begin_right_spec s c es es' fuel :
  holds s c es → es' ≡ₚ es → right_sorted es' → length es ≤ fuel →
  begin_right c fuel s = Ok (RightIt (first_ptr c (right_item <$> es')), s).
Proof using right_irrefl right_trans.
  intros Hh Hperm Hs Hfuel.
  destruct (holds_right_order s c es es' Hh Hperm Hs) as (tr & Hr & Hit & _).
  unfold bimap.begin_right. erewrite bind_ok; [done|]. apply on_right_read.
  rewrite <- Hit. apply begin_spec; [done|].
  pose proof (height_le_length tr) as Hle.
  rewrite Hit, length_fmap, Hperm in Hle. lia.
Qed.

Lemma incr_right_spec s c es pre e post fuel :
  holds s c es → pre ++ e :: post ≡ₚ es → right_sorted (pre ++ e :: post) →
  length es < fuel →
  incr_right fuel (RightIt (Some (e_addr e))) s
  = Ok (RightIt (first_ptr c (right_item <$> post)), s).
Proof using right_irrefl right_trans.
  intros Hh Hperm Hs Hfuel.
  destruct (holds_right_order s c es _ Hh Hperm Hs) as (tr & Hr & Hit & _).
  unfold bimap.incr_right. erewrite bind_ok; [done|]. apply on_right_read.
  apply (incr_spec c tr fuel _ (right_item <$> pre) (right_item e)
           (right_item <$> post) Hr).
  - pose proof (height_le_length tr) as Hle.
    rewrite Hit, length_fmap, Hperm in Hle. lia.
  - by rewrite Hit, fmap_app.
Qed.

Lemma incr_right_end s c es fuel :
  holds s c es → incr_right fuel (end_right c) s = Ok (end_right c, s).
Proof.
  intros (tl & tr & _ & Hr & _). unfold bimap.incr_right.
  erewrite bind_ok; [done|]. apply on_right_read. by eapply incr_end.
Qed.

(** The iterator that [erase_right(it)] returns is [it] incremented
    before the node is unlinked. *)
Lemma erase_right_result c fuel it s x s' :
  erase_right compare_left compare_right c fuel it s = Ok (x, s') →
  ∃ s1, incr_right fuel it s = Ok (x, s1).
Proof.
  unfold bimap.erase_right. intros Hrun.
  apply bind_inv in Hrun as (it1 & s1 & Hincr & Hrun).
  exists s1. rewrite Hincr. do 2 f_equal.
  repeat (apply bind_inv in Hrun as (? & ? & _ & Hrun)).
  by injection Hrun as <- _.
Qed.

Lemma erase_left_result c fuel it s x s' :
  erase_left compare_left compare_right c fuel it s = Ok (x, s') →
  ∃ s1, incr_left fuel it s = Ok (x, s1).
Proof.
  unfold bimap.erase_left. intros Hrun.
  apply bind_inv in Hrun as (it1 & s1 & Hincr & Hrun).
  exists s1. rewrite Hincr. do 2 f_equal.
  repeat (apply bind_inv in Hrun as (? & ? & _ & Hrun)).
  by injection Hrun as <- _.
Qed.

End bimap_right.
End bimap_right.

(** ** [lower_bound] and [upper_bound] of a treap *)

Module treap_bounds.
Import treap shape treap_facts treap_remove treap_order treap_iter treap_ops.
Section treap_bounds.
Context {K : Type}.
Variable comparator : K → K → bool.

Implicit Types (m : gmap nat (treap_node K)) (t l r : tree (K:=K)) (q : ptr).

Abbreviation bst := (bst comparator).
Abbreviation equiv_key := (equiv_key comparator).

Lemma first_ptr_tmin c t :
  first_ptr c (items t)
  = match tmin t with Some x => Some (addr x) | None => Some c end.
Proof.
  destruct (tmin t) as [x|] eqn:Hmin.
  - by rewrite (tmin_items _ _ Hmin).
  - destruct t as [|l y r]; [done|].
    by destruct (tmin_is_Some (Bin l y r)) as [? ?]; [|congruence].
Qed.

(** When no key of the tree is equivalent to [key], [upper_bound(key)]
    does what [lower_bound(key)] does. *)
Lemma upper_bound_absent c t k fuel m :
  is_treap m c t →
  (∀ y, y ∈ items t → ¬ equiv_key (ikey y) k) →
  2 * height t + 2 < fuel →
  upper_bound comparator c fuel k m = lower_bound comparator c fuel k m.
Proof.
  intros Htreap Hno Hfuel.
  destruct Htreap as ((pc & Hc) & Ht & Hnd).
  unfold upper_bound, lower_bound.
  pose proof (get_left_ok m c _ Hc) as Hget. cbn [left] in Hget.
  rewrite !(bind_ok (get_left (Some c)) _ m _ _ Hget).
  destruct (split_spec comparator k t fuel m _ Ht Hnd ltac:(lia))
    as (m1 & q1 & q2 & Hrun1 & Hl1 & Hr1 & Hf1).
  pose proof (tsplit_items comparator t k) as Hsi.
  pose proof (tsplit_height comparator t k) as [Hhl Hhr].
  destruct (tsplit comparator t k) as [tl tr]. simpl in *.
  rewrite !(bind_ok (split comparator fuel (root t) k) _ m _ _ Hrun1).
  cbv beta iota.
  pose proof (leftmost_checked_spec tr fuel m1 _ Hr1 ltac:(lia)) as Hlm.
  rewrite !(bind_ok (leftmost_checked fuel (root tr)) _ m1 _ _ Hlm).
  destruct tr as [|rl y rr].
  { destruct fuel; [lia|]. done. }
  cbn [root].
  change (Some (addr y)) with (root (Bin rl y rr)) at 1.
  rewrite (bind_ok (leftmost_checked fuel (root (Bin rl y rr))) _ m1 _ _ Hlm).
  destruct (tmin_is_Some (Bin rl y rr)) as [x Hx]; [done|].
  rewrite Hx. cbn [fmap option_fmap option_map].
  assert (x ∈ items (Bin rl y rr)) as Hxin.
  { rewrite (tmin_items _ _ Hx). left. }
  destruct (is_tree_cell _ _ _ _ Hr1 Hxin) as (n & Hn & _ & Hkey).
  erewrite bind_ok by (eapply get_key_ok; [exact Hn|exact Hkey]).
  assert (negb (comparator (ikey x) k) && negb (comparator k (ikey x)) = false)
    as ->.
  { destruct (comparator (ikey x) k) eqn:H1; [done|].
    destruct (comparator k (ikey x)) eqn:H2; [done|].
    destruct (Hno x); [|done]. rewrite <- Hsi. apply elem_of_app. by right. }
  by erewrite bind_ok by reflexivity.
Qed.

Hypothesis comparator_irrefl : ∀ x, comparator x x = false.
Hypothesis comparator_trans : ∀ x y z,
  comparator x y = true → comparator y z = true → comparator x z = true.

(** [lower_bound(key)] returns the first node whose key is not less
    than [key] and leaves the nodes in their order. *)
Lemma lower_bound_items c t k fuel m :
  is_treap m c t → bst t → 2 * height t + 2 < fuel →
  ∃ m' t' i1 i2,
    lower_bound comparator c fuel k m = Ok (first_ptr c i2, m')
    ∧ is_treap m' c t' ∧ bst t'
    ∧ items t' = items t
    ∧ items t = i1 ++ i2
    ∧ (∀ y, y ∈ i1 → comparator (ikey y) k = true)
    ∧ (∀ y, y ∈ i2 → comparator (ikey y) k = false)
    ∧ same_outside (c :: addrs t) m m'.
Proof using comparator_irrefl comparator_trans.
  intros Htreap Hbst Hfuel.
  destruct (lower_bound_spec comparator c t k fuel m Htreap Hfuel)
    as (m' & Hrun & Ht' & Hout).
  destruct (tsplit_keys comparator comparator_irrefl comparator_trans t k Hbst)
    as [Hk1 Hk2].
  exists m', (tmerge (tsplit comparator t k).1 (tsplit comparator t k).2),
    (items (tsplit comparator t k).1), (items (tsplit comparator t k).2).
  split_and!; [|done| | | |done|done|done].
  - by rewrite Hrun, first_ptr_tmin.
  - unfold bst, shape.bst. by rewrite tmerge_tsplit_items.
  - apply tmerge_tsplit_items.
  - symmetry. apply tsplit_items.
Qed.

End treap_bounds.
End treap_bounds.

(** ** Properties of the treap engine *)

Module treap_props.
Import treap shape treap_facts treap_remove treap_order treap_iter treap_heap treap_ops.
Section treap_props.
Context {K : Type}.
Variable comparator : K → K → bool.

Hypothesis comparator_irrefl : ∀ x, comparator x x = false.
Hypothesis comparator_trans : ∀ x y z,
  comparator x y = true → comparator y z = true → comparator x z = true.

Implicit Types (m : gmap nat (treap_node K)) (t l r : tree (K:=K)) (q : ptr).

Abbreviation bst := (bst comparator).
Abbreviation equiv_key := (equiv_key comparator).

(** [split(root, key)] cuts a search tree in two trees: the nodes of
    the first, in order, followed by the nodes of the second are the
    nodes of the tree in order; every key of the first is less than
    [key] and no key of the second is; a max-heap is cut in max-heaps;
    cells outside the tree are not written. *)
Theorem split_partitions_by_key k t fuel m q :
  is_tree m q t → NoDup (addrs t) → bst t → height t < fuel →
  ∃ m' t1 t2 q1 q2,
    split comparator fuel (root t) k m = Ok ((root t1, root t2), m')
    ∧ is_tree m' q1 t1 ∧ is_tree m' q2 t2
    ∧ items t1 ++ items t2 = items t
    ∧ (∀ y, y ∈ items t1 → comparator (ikey y) k = true)
    ∧ (∀ y, y ∈ items t2 → comparator (ikey y) k = false)
    ∧ (heap_ordered t → heap_ordered t1 ∧ heap_ordered t2)
    ∧ same_outside (addrs t) m m'.
Proof using comparator_irrefl comparator_trans.
  intros Ht Hnd Hbst Hfuel.
  destruct (split_spec comparator k t fuel m q Ht Hnd Hfuel)
    as (m' & q1 & q2 & Hrun & H1 & H2 & Hout).
  destruct (tsplit_keys comparator comparator_irrefl comparator_trans t k Hbst)
    as [Hk1 Hk2].
  exists m', (tsplit comparator t k).1, (tsplit comparator t k).2, q1, q2.
  split_and!; [done|done|done| |done|done| |done].
  - apply tsplit_items.
  - apply tsplit_heap_ordered.
Qed.

(** [merge(t1, t2)] joins two trees with disjoint nodes in one: its
    nodes in order are those of [t1] followed by those of [t2]; the
    result is a max-heap when both are; cells outside the two trees are
    not written.  With a null pointer on either side it returns the
    other tree. *)
Theorem merge_concatenates t1 t2 fuel m q1 q2 :
  is_tree m q1 t1 → is_tree m q2 t2 → NoDup (addrs t1 ++ addrs t2) →
  height t1 + height t2 < fuel →
  ∃ m' t q,
    merge fuel (root t1) (root t2) m = Ok (root t, m')
    ∧ is_tree m' q t
    ∧ items t = items t1 ++ items t2
    ∧ (heap_ordered t1 → heap_ordered t2 → heap_ordered t)
    ∧ (t1 = Leaf → t = t2) ∧ (t2 = Leaf → t = t1)
    ∧ same_outside (addrs t1 ++ addrs t2) m m'.
Proof.
  intros H1 H2 Hnd Hfuel.
  destruct (merge_spec t1 t2 fuel m q1 q2 H1 H2 Hnd Hfuel)
    as (m' & q & Hrun & Ht & Hout).
  exists m', (tmerge t1 t2), q. split_and!; [done|done| | | | |done].
  - apply tmerge_items.
  - apply tmerge_heap_ordered.
  - intros ->. apply tmerge_leaf_l.
  - intros ->. apply tmerge_leaf_r.
Qed.

(** [insert(node)] of a fresh node whose key is equivalent to no key of
    a search tree returns the iterator on the node and puts the node at
    its place in the order of the keys: the tree is a search tree
    again, and a max-heap when it was one. *)
Theorem insert_keeps_search_tree_and_heap c t a p k qa fuel m :
  is_treap m c t → bst t →
  m !! a = Some (TreapNode p None None qa (Some k)) →
  a ∉ addrs t →
  (∀ y, y ∈ items t → ¬ equiv_key (ikey y) k) →
  2 * height t + 2 < fuel →
  ∃ m' t' i1 i2,
    insert comparator c fuel (Some a) m = Ok (Some a, m')
    ∧ is_treap m' c t' ∧ bst t'
    ∧ (heap_ordered t → heap_ordered t')
    ∧ items t = i1 ++ i2 ∧ items t' = i1 ++ Item a p k :: i2
    ∧ same_outside (c :: a :: addrs t) m m'.
Proof using comparator_irrefl comparator_trans.
  intros Ht Hbst Ha Hfresh Hno Hfuel.
  destruct (insert_spec comparator c t a p k qa fuel m Ht Ha Hfresh Hfuel)
    as (m' & Hrun & Ht' & Hout).
  exists m', (tinsert comparator t (Item a p k)),
    (items (tsplit comparator t k).1), (items (tsplit comparator t k).2).
  split_and!; [done|done| | | | |done].
  - by apply (tinsert_bst comparator comparator_irrefl comparator_trans).
  - apply tinsert_heap_ordered.
  - symmetry. apply tsplit_items.
  - apply (tinsert_items comparator t (Item a p k)).
Qed.

(** [remove(key)] of the key of a stored node takes that node, and no
    other, out of the tree: the remaining nodes keep their order, the
    tree is a search tree again, and a max-heap when it was one. *)
Theorem remove_of_stored_key_unlinks_node c t x pre post fuel m :
  is_treap m c t → bst t → items t = pre ++ x :: post →
  2 * height t + 2 < fuel →
  ∃ m' it t',
    remove comparator c fuel (ikey x) m = Ok (it, m')
    ∧ is_treap m' c t' ∧ bst t'
    ∧ (heap_ordered t → heap_ordered t')
    ∧ items t' = pre ++ post
    ∧ same_outside (c :: addrs t) m m'.
Proof using comparator_irrefl comparator_trans.
  intros Ht Hbst Hit Hfuel.
  assert (x ∈ items t) as Hx by (rewrite Hit; apply elem_of_app; right; left).
  pose proof (tsplit_min_stored comparator comparator_irrefl comparator_trans
                t x Hbst Hx) as Hmin.
  destruct (remove_spec comparator c t (ikey x) x fuel m Ht Hmin
              (comparator_irrefl _) (comparator_irrefl _) Hfuel)
    as (m' & it & Hrun & Ht' & Hout).
  exists m', it, (tremove comparator t (ikey x)).
  split_and!; [done|done| | | |done].
  - by eapply (tremove_bst comparator comparator_irrefl comparator_trans).
  - apply tremove_heap_ordered.
  - destruct (tremove_items comparator t (ikey x) x Hmin) as [H1 H2].
    rewrite H2. rewrite Hit in H1.
    pose proof (items_NoDup _ _ _ Ht) as Hnd.
    destruct (NoDup_split_unique pre (items t) x post _ _ Hnd Hit
                ltac:(by rewrite <- H1, Hit)) as [-> ->].
    done.
Qed.

End treap_props.
End treap_props.

(** ** Further properties of the facade: lookup, insertion and erasure *)

Module bimap_props.
Import shape bimap contents building treap_facts treap_remove treap_order treap_iter.
Import treap_ops treap_cells bimap_facts bimap_update bimap_erase bimap_lookup.
Import bimap_build bimap_equal.
Section bimap_props.
Context {L R : Type}.
Variable compare_left : L → L → bool.
Variable compare_right : R → R → bool.
Variable default_left : L.
Variable default_right : R.
Variable rand : nat → N.

Hypothesis left_irrefl : ∀ x, compare_left x x = false.
Hypothesis left_trans : ∀ x y z,
  compare_left x y = true → compare_left y z = true → compare_left x z = true.
Hypothesis right_irrefl : ∀ x, compare_right x x = false.
Hypothesis right_trans : ∀ x y z,
  compare_right x y = true → compare_right y z = true → compare_right x z = true.

Implicit Types (s : store (L:=L) (R:=R)) (c : nat) (e : entry (L:=L) (R:=R)).
Implicit Types (es : list (entry (L:=L) (R:=R))).

Abbreviation holds := (holds compare_left compare_right).
Abbreviation equiv_left := (equiv_left compare_left).
Abbreviation equiv_right := (equiv_right compare_right).
Abbreviation find_left := (find_left compare_left).
Abbreviation find_right := (find_right compare_right).
Abbreviation at_left := (at_left compare_left).
Abbreviation at_right := (at_right compare_right).
Abbreviation insert := (insert compare_left compare_right rand).
Abbreviation erase_left := (erase_left compare_left compare_right).
Abbreviation erase_left_key := (erase_left_key compare_left compare_right).
Abbreviation erase_right_key := (erase_right_key compare_left compare_right).
Abbreviation at_left_or_default :=
  (at_left_or_default compare_left compare_right default_right rand).
Abbreviation at_right_or_default :=
  (at_right_or_default compare_left compare_right default_left rand).

Local Abbreviation find_left_cases :=
  (find_left_cases compare_left compare_right left_irrefl left_trans).
Local Abbreviation find_right_cases :=
  (find_right_cases compare_left compare_right right_irrefl right_trans).
Local Abbreviation find_left_stored :=
  (find_left_stored compare_left compare_right left_irrefl left_trans).
Local Abbreviation find_right_stored :=
  (find_right_stored compare_left compare_right right_irrefl right_trans).
Local Abbreviation insert_new :=
  (insert_new compare_left compare_right rand left_irrefl left_trans
     right_irrefl right_trans).
Local Abbreviation erase_left_spec :=
  (erase_left_spec compare_left compare_right left_irrefl left_trans
     right_irrefl right_trans).
Local Abbreviation holds_left_unique :=
  (holds_left_unique compare_left compare_right left_irrefl left_trans).
Local Abbreviation holds_right_unique :=
  (holds_right_unique compare_left compare_right right_irrefl right_trans).

Lemma left_it_not_end s c es e :
  holds s c es → e ∈ es → LeftIt (Some (e_addr e)) ≠ end_left c.
Proof.
  intros Hh He [= Heq]. by apply (holds_addr_ne _ _ s c es e Hh He).
Qed.

Lemma right_it_not_end s c es e :
  holds s c es → e ∈ es → RightIt (Some (e_addr e)) ≠ end_right c.
Proof.
  intros Hh He [= Heq]. by apply (holds_addr_ne _ _ s c es e Hh He).
Qed.

(** [find_left(l)] returns the iterator on the node whose left key is
    equivalent to [l], which is not [end_left()], or [end_left()] when
    no stored left key is equivalent to [l]; likewise [find_right].
    Neither changes the memory. *)
Theorem find_returns_stored_node_or_end s c es fuel :
  holds s c es → length es < fuel →
  (∀ l,
     (∃ e, e ∈ es ∧ equiv_left (e_left e) l
           ∧ find_left c fuel l s = Ok (LeftIt (Some (e_addr e)), s)
           ∧ LeftIt (Some (e_addr e)) ≠ end_left c)
     ∨ ((∀ e, e ∈ es → ¬ equiv_left (e_left e) l)
        ∧ find_left c fuel l s = Ok (end_left c, s)))
  ∧ (∀ r,
     (∃ e, e ∈ es ∧ equiv_right (e_right e) r
           ∧ find_right c fuel r s = Ok (RightIt (Some (e_addr e)), s)
           ∧ RightIt (Some (e_addr e)) ≠ end_right c)
     ∨ ((∀ e, e ∈ es → ¬ equiv_right (e_right e) r)
        ∧ find_right c fuel r s = Ok (end_right c, s))).
Proof using left_irrefl left_trans right_irrefl right_trans.
  intros Hh Hfuel. split.
  - intros l. destruct (find_left_cases s c es l fuel Hh Hfuel)
      as [(e & He & Hq & Hrun)|[Hno Hrun]]; [left|right; done].
    exists e. split_and!; [done..|]. by eapply left_it_not_end.
  - intros r. destruct (find_right_cases s c es r fuel Hh Hfuel)
      as [(e & He & Hq & Hrun)|[Hno Hrun]]; [left|right; done].
    exists e. split_and!; [done..|]. by eapply right_it_not_end.
Qed.

Lemma at_left_cases s c es k fuel :
  holds s c es → length es < fuel →
  (∃ e, e ∈ es ∧ equiv_left (e_left e) k
        ∧ at_left c fuel k s = Ok (Some (e_right e), s))
  ∨ ((∀ e, e ∈ es → ¬ equiv_left (e_left e) k)
     ∧ at_left c fuel k s = Ok (None, s)).
Proof using left_irrefl left_trans.
  intros Hh Hfuel. unfold bimap.at_left.
  destruct (find_left_cases s c es k fuel Hh Hfuel)
    as [(e & He & Hq & Hrun)|[Hno Hrun]]; [left|right].
  - exists e. split_and!; [done..|].
    erewrite bind_ok by exact Hrun.
    rewrite decide_False by (by eapply left_it_not_end).
    by erewrite bind_ok by (by eapply deref_right_stored).
  - split; [done|]. erewrite bind_ok by exact Hrun.
    by rewrite decide_True.
Qed.

Lemma at_right_cases s c es k fuel :
  holds s c es → length es < fuel →
  (∃ e, e ∈ es ∧ equiv_right (e_right e) k
        ∧ at_right c fuel k s = Ok (Some (e_left e), s))
  ∨ ((∀ e, e ∈ es → ¬ equiv_right (e_right e) k)
     ∧ at_right c fuel k s = Ok (None, s)).
Proof using right_irrefl right_trans.
  intros Hh Hfuel. unfold bimap.at_right.
  destruct (find_right_cases s c es k fuel Hh Hfuel)
    as [(e & He & Hq & Hrun)|[Hno Hrun]]; [left|right].
  - exists e. split_and!; [done..|].
    erewrite bind_ok by exact Hrun.
    rewrite decide_False by (by eapply right_it_not_end).
    by erewrite bind_ok by (by eapply deref_left_stored).
  - split; [done|]. erewrite bind_ok by exact Hrun.
    by rewrite decide_True.
Qed.

(** [at_left(k)] returns the right key paired with the stored left key
    equivalent to [k] and throws [std::out_of_range] when there is
    none; likewise [at_right].  Neither changes the memory. *)
Theorem at_returns_partner_or_throws s c es fuel :
  holds s c es → length es < fuel →
  (∀ k,
     (∃ e, e ∈ es ∧ equiv_left (e_left e) k
           ∧ at_left c fuel k s = Ok (Some (e_right e), s))
     ∨ ((∀ e, e ∈ es → ¬ equiv_left (e_left e) k)
        ∧ at_left c fuel k s = Ok (None, s)))
  ∧ (∀ k,
     (∃ e, e ∈ es ∧ equiv_right (e_right e) k
           ∧ at_right c fuel k s = Ok (Some (e_left e), s))
     ∨ ((∀ e, e ∈ es → ¬ equiv_right (e_right e) k)
        ∧ at_right c fuel k s = Ok (None, s))).
Proof using left_irrefl left_trans right_irrefl right_trans.
  intros Hh Hfuel. split; intros k.
  - by apply at_left_cases.
  - by apply at_right_cases.
Qed.

Lemma equiv_left_refl l : equiv_left l l.
Proof using left_irrefl. split; apply left_irrefl. Qed.

Lemma equiv_right_refl r : equiv_right r r.
Proof using right_irrefl. split; apply right_irrefl. Qed.

Lemma holds_entry_eq_left s c es e1 e2 :
  holds s c es → e1 ∈ es → e2 ∈ es →
  equiv_left (e_left e1) (e_left e2) → e1 = e2.
Proof using left_irrefl left_trans.
  intros Hh H1 H2 Hq.
  pose proof (holds_left_unique s c es e1 e2 Hh H1 H2 Hq) as Ha.
  pose proof (holds_NoDup _ _ s c es Hh) as Hnd.
  apply list_elem_of_lookup in H1 as [i Hi], H2 as [j Hj].
  assert (i = j) as ->.
  { eapply NoDup_lookup; [exact Hnd| |].
    - rewrite list_lookup_fmap, Hi. done.
    - rewrite list_lookup_fmap, Hj. simpl. by rewrite Ha. }
  congruence.
Qed.

Lemma holds_entry_eq_right s c es e1 e2 :
  holds s c es → e1 ∈ es → e2 ∈ es →
  equiv_right (e_right e1) (e_right e2) → e1 = e2.
Proof using right_irrefl right_trans.
  intros Hh H1 H2 Hq.
  pose proof (holds_right_unique s c es e1 e2 Hh H1 H2 Hq) as Ha.
  pose proof (holds_NoDup _ _ s c es Hh) as Hnd.
  apply list_elem_of_lookup in H1 as [i Hi], H2 as [j Hj].
  assert (i = j) as ->.
  { eapply NoDup_lookup; [exact Hnd| |].
    - rewrite list_lookup_fmap, Hi. done.
    - rewrite list_lookup_fmap, Hj. simpl. by rewrite Ha. }
  congruence.
Qed.

(** The two lookups are inverse of each other: when [at_left(k)]
    returns [r], [at_right(r)] returns the stored left key, which is
    equivalent to [k], and [at_left] of that key returns [r] again; and
    the same from the right side. *)
Theorem at_right_inverts_at_left s c es fuel :
  holds s c es → length es < fuel →
  (∀ k r, at_left c fuel k s = Ok (Some r, s) →
          ∃ l, at_right c fuel r s = Ok (Some l, s)
               ∧ equiv_left l k
               ∧ at_left c fuel l s = Ok (Some r, s))
  ∧ (∀ k l, at_right c fuel k s = Ok (Some l, s) →
            ∃ r, at_left c fuel l s = Ok (Some r, s)
                 ∧ equiv_right r k
                 ∧ at_right c fuel r s = Ok (Some l, s)).
Proof using left_irrefl left_trans right_irrefl right_trans.
  intros Hh Hfuel. split.
  - intros k r Hrun.
    destruct (at_left_cases s c es k fuel Hh Hfuel)
      as [(e & He & Hq & Hrun')|[_ Hrun']];
      rewrite Hrun' in Hrun; [|done]. injection Hrun as <-.
    exists (e_left e). split_and!; [|done|].
    + destruct (at_right_cases s c es (e_right e) fuel Hh Hfuel)
        as [(e' & He' & Hq' & Hrun'')|[Hno _]].
      * by rewrite (holds_entry_eq_right s c es e' e Hh He' He Hq') in Hrun''.
      * destruct (Hno e He). apply equiv_right_refl.
    + destruct (at_left_cases s c es (e_left e) fuel Hh Hfuel)
        as [(e' & He' & Hq' & Hrun'')|[Hno _]].
      * by rewrite (holds_entry_eq_left s c es e' e Hh He' He Hq') in Hrun''.
      * destruct (Hno e He). apply equiv_left_refl.
  - intros k l Hrun.
    destruct (at_right_cases s c es k fuel Hh Hfuel)
      as [(e & He & Hq & Hrun')|[_ Hrun']];
      rewrite Hrun' in Hrun; [|done]. injection Hrun as <-.
    exists (e_right e). split_and!; [|done|].
    + destruct (at_left_cases s c es (e_left e) fuel Hh Hfuel)
        as [(e' & He' & Hq' & Hrun'')|[Hno _]].
      * by rewrite (holds_entry_eq_left s c es e' e Hh He' He Hq') in Hrun''.
      * destruct (Hno e He). apply equiv_left_refl.
    + destruct (at_right_cases s c es (e_right e) fuel Hh Hfuel)
        as [(e' & He' & Hq' & Hrun'')|[Hno _]].
      * by rewrite (holds_entry_eq_right s c es e' e Hh He' He Hq') in Hrun''.
      * destruct (Hno e He). apply equiv_right_refl.
Qed.

(** [insert(l, r)] of a pair neither key of which is equivalent to a
    stored key of its side allocates one node and returns the iterator
    on it, which is not [end_left()]: the bimap holds the former nodes,
    at their addresses, and the new one at its place in the left order,
    [size()] is one more, [find_left(l)] and [find_right(r)] return the
    new node and its two keys are [l] and [r]. *)
Theorem insert_of_new_keys_adds_pair s c es l r fuel :
  holds s c es → allocated_below s →
  (∀ e, e ∈ es → ¬ equiv_left (e_left e) l) →
  (∀ e, e ∈ es → ¬ equiv_right (e_right e) r) →
  (Z.of_nat (length es) + 1 < size_t_max)%Z →
  2 * length es + 2 < fuel →
  ∃ s' es1 es2 new,
    insert c fuel l r s = Ok (LeftIt (Some (e_addr new)), s')
    ∧ LeftIt (Some (e_addr new)) ≠ end_left c
    ∧ pair_of new = (l, r)
    ∧ es = es1 ++ es2
    ∧ holds s' c (es1 ++ new :: es2)
    ∧ size c s' = Ok ((Z.of_nat (length es) + 1)%Z, s')
    ∧ find_left c fuel l s' = Ok (LeftIt (Some (e_addr new)), s')
    ∧ find_right c fuel r s' = Ok (RightIt (Some (e_addr new)), s')
    ∧ deref_left (LeftIt (Some (e_addr new))) s' = Ok (l, s')
    ∧ deref_right (flip_left (LeftIt (Some (e_addr new)))) s' = Ok (r, s').
Proof using left_irrefl left_trans right_irrefl right_trans.
  intros Hh Halloc Hl Hr Hbound Hfuel.
  destruct (insert_new s c es l r fuel Hh Halloc Hl Hr Hbound Hfuel)
    as (s' & es1 & es2 & Hrun & -> & Hh' & _).
  set (new := Entry _ _ _ l r) in *.
  assert (new ∈ es1 ++ new :: es2) as Hnew by apply elem_of_middle.
  assert (length (es1 ++ new :: es2) = S (length (es1 ++ es2))) as Hlen.
  { rewrite !length_app. simpl. lia. }
  exists s', es1, es2, new. split_and!; [done| |done|done|done|..].
  - by eapply left_it_not_end.
  - rewrite (size_spec _ _ s' c _ Hh'). do 2 f_equal. lia.
  - apply (find_left_stored s' c _ new fuel Hh' Hnew). lia.
  - apply (find_right_stored s' c _ new fuel Hh' Hnew). lia.
  - apply (deref_left_stored _ _ s' c _ new Hh' Hnew).
  - apply (deref_right_stored _ _ s' c _ new Hh' Hnew).
Qed.

(** [erase_left(it)] for the iterator on a stored node returns the
    iterator on the next node in the left order, [end_left()] when the
    node was the last one; the other nodes stay where they are and
    [size()] is one less. *)
Theorem erase_left_returns_successor s c es1 e es2 fuel :
  holds s c (es1 ++ e :: es2) →
  2 * length (es1 ++ e :: es2) + 2 < fuel →
  ∃ s',
    erase_left c fuel (LeftIt (Some (e_addr e))) s
    = Ok (match es2 with
          | [] => end_left c
          | e' :: _ => LeftIt (Some (e_addr e'))
          end, s')
    ∧ holds s' c (es1 ++ es2)
    ∧ size c s' = Ok ((Z.of_nat (length (es1 ++ e :: es2)) - 1)%Z, s').
Proof using left_irrefl left_trans right_irrefl right_trans.
  intros Hh Hfuel.
  destruct (erase_left_spec s c es1 e es2 fuel Hh Hfuel)
    as (s' & Hrun & Hh' & _).
  exists s'. split_and!; [|done|].
  - rewrite Hrun. by destruct es2.
  - rewrite (size_spec _ _ s' c _ Hh'). do 2 f_equal.
    rewrite !length_app. simpl. lia.
Qed.

(** [erase_left(k)] and [erase_right(k)] of a key equivalent to no
    stored key of the side return [false] and change nothing. *)
Theorem erase_of_absent_key_returns_false s c es fuel :
  holds s c es → length es < fuel →
  (∀ k, (∀ e, e ∈ es → ¬ equiv_left (e_left e) k) →
        erase_left_key c fuel k s = Ok (false, s))
  ∧ (∀ k, (∀ e, e ∈ es → ¬ equiv_right (e_right e) k) →
          erase_right_key c fuel k s = Ok (false, s)).
Proof using left_irrefl left_trans right_irrefl right_trans.
  intros Hh Hfuel. split; intros k Hno.
  - unfold bimap.erase_left_key.
    destruct (find_left_cases s c es k fuel Hh Hfuel)
      as [(e & He & Hq & _)|[_ Hrun]]; [by destruct (Hno e He)|].
    erewrite bind_ok by exact Hrun. by rewrite decide_True.
  - unfold bimap.erase_right_key.
    destruct (find_right_cases s c es k fuel Hh Hfuel)
      as [(e & He & Hq & _)|[_ Hrun]]; [by destruct (Hno e He)|].
    erewrite bind_ok by exact Hrun. by rewrite decide_True.
Qed.

(** [at_left_or_default(k)] for a key equivalent to a stored left key
    returns the right key of the node that [find_left(k)] finds, the
    node of [k] itself when [k] is stored, and changes nothing, whether
    [right_t{}] is stored or not; likewise [at_right_or_default]. *)
Theorem or_default_of_stored_key_reads s c es fuel :
  holds s c es → length es < fuel →
  (∀ e k, e ∈ es → equiv_left (e_left e) k →
          ∃ e', e' ∈ es ∧ equiv_left (e_left e') k
                ∧ at_left_or_default c fuel k s = Ok (e_right e', s))
  ∧ (∀ e, e ∈ es → at_left_or_default c fuel (e_left e) s = Ok (e_right e, s))
  ∧ (∀ e k, e ∈ es → equiv_right (e_right e) k →
            ∃ e', e' ∈ es ∧ equiv_right (e_right e') k
                  ∧ at_right_or_default c fuel k s = Ok (e_left e', s))
  ∧ (∀ e, e ∈ es → at_right_or_default c fuel (e_right e) s = Ok (e_left e, s)).
Proof using left_irrefl left_trans right_irrefl right_trans.
  intros Hh Hfuel. split_and!.
  - intros e k He Hq. unfold bimap.at_left_or_default.
    destruct (find_left_cases s c es k fuel Hh Hfuel)
      as [(e' & He' & Hq' & Hrun)|[Hno _]]; [|by destruct (Hno e He)].
    exists e'. split_and!; [done..|].
    erewrite bind_ok by exact Hrun.
    rewrite decide_True by (by eapply left_it_not_end).
    by eapply deref_right_stored.
  - intros e He. unfold bimap.at_left_or_default.
    erewrite bind_ok by (by apply (find_left_stored s c es e fuel Hh He)).
    rewrite decide_True by (by eapply left_it_not_end).
    by eapply deref_right_stored.
  - intros e k He Hq. unfold bimap.at_right_or_default.
    destruct (find_right_cases s c es k fuel Hh Hfuel)
      as [(e' & He' & Hq' & Hrun)|[Hno _]]; [|by destruct (Hno e He)].
    exists e'. split_and!; [done..|].
    erewrite bind_ok by exact Hrun.
    rewrite decide_True by (by eapply right_it_not_end).
    by eapply deref_left_stored.
  - intros e He. unfold bimap.at_right_or_default.
    erewrite bind_ok by (by apply (find_right_stored s c es e fuel Hh He)).
    rewrite decide_True by (by eapply right_it_not_end).
    by eapply deref_left_stored.
Qed.

(** [at_left_or_default(k)] when no stored left key is equivalent to
    [k] and no stored right key is equivalent to [right_t{}] erases
    nothing: it inserts the pair [(k, right_t{})] in a new node and
    returns [right_t{}]; [size()] is one more.  Likewise
    [at_right_or_default] with [left_t{}]. *)
Theorem or_default_of_absent_key_inserts s c es fuel :
  holds s c es → allocated_below s →
  (Z.of_nat (length es) + 1 < size_t_max)%Z →
  2 * length es + 2 < fuel →
  (∀ k,
     (∀ e, e ∈ es → ¬ equiv_left (e_left e) k) →
     (∀ e, e ∈ es → ¬ equiv_right (e_right e) default_right) →
     ∃ s' es1 es2 new,
       at_left_or_default c fuel k s = Ok (default_right, s')
       ∧ pair_of new = (k, default_right)
       ∧ es = es1 ++ es2
       ∧ holds s' c (es1 ++ new :: es2)
       ∧ size c s' = Ok ((Z.of_nat (length es) + 1)%Z, s'))
  ∧ (∀ k,
     (∀ e, e ∈ es → ¬ equiv_right (e_right e) k) →
     (∀ e, e ∈ es → ¬ equiv_left (e_left e) default_left) →
     ∃ s' es1 es2 new,
       at_right_or_default c fuel k s = Ok (default_left, s')
       ∧ pair_of new = (default_left, k)
       ∧ es = es1 ++ es2
       ∧ holds s' c (es1 ++ new :: es2)
       ∧ size c s' = Ok ((Z.of_nat (length es) + 1)%Z, s')).
Proof using left_irrefl left_trans right_irrefl right_trans.
  intros Hh Halloc Hbound Hfuel. split; intros k Hk Hd.
  - destruct (insert_new s c es k default_right fuel Hh Halloc Hk Hd Hbound Hfuel)
      as (s' & es1 & es2 & Hrun & -> & Hh' & _).
    set (new := Entry _ _ _ k default_right) in *.
    exists s', es1, es2, new. split_and!; [|done|done|done|].
    + unfold bimap.at_left_or_default.
      destruct (find_left_cases s c _ k fuel Hh ltac:(lia))
        as [(e & He & Hq & _)|[_ Hrun1]]; [by destruct (Hk e He)|].
      erewrite bind_ok by exact Hrun1. rewrite decide_False by (by intros []).
      destruct (find_right_cases s c _ default_right fuel Hh ltac:(lia))
        as [(e & He & Hq & _)|[_ Hrun2]]; [by destruct (Hd e He)|].
      erewrite bind_ok by exact Hrun2. rewrite decide_False by (by intros []).
      erewrite bind_ok by done.
      erewrite bind_ok by exact Hrun.
      apply (deref_right_stored _ _ s' c _ new Hh'), elem_of_middle.
    + rewrite (size_spec _ _ s' c _ Hh'). do 2 f_equal.
      rewrite !length_app. simpl. lia.
  - destruct (insert_new s c es default_left k fuel Hh Halloc Hd Hk Hbound Hfuel)
      as (s' & es1 & es2 & Hrun & -> & Hh' & _).
    set (new := Entry _ _ _ default_left k) in *.
    exists s', es1, es2, new. split_and!; [|done|done|done|].
    + unfold bimap.at_right_or_default.
      destruct (find_right_cases s c _ k fuel Hh ltac:(lia))
        as [(e & He & Hq & _)|[_ Hrun1]]; [by destruct (Hk e He)|].
      erewrite bind_ok by exact Hrun1. rewrite decide_False by (by intros []).
      destruct (find_left_cases s c _ default_left fuel Hh ltac:(lia))
        as [(e & He & Hq & _)|[_ Hrun2]]; [by destruct (Hd e He)|].
      erewrite bind_ok by exact Hrun2. rewrite decide_False by (by intros []).
      erewrite bind_ok by done.
      erewrite bind_ok by exact Hrun.
      apply (deref_left_stored _ _ s' c _ new Hh'), elem_of_middle.
    + rewrite (size_spec _ _ s' c _ Hh'). do 2 f_equal.
      rewrite !length_app. simpl. lia.
Qed.

(** Walking the left side: [begin_left()] is the iterator on the first
    node of the left order, [end_left()] when the bimap holds no node;
    [++] on the iterator on a node gives the iterator on the next node,
    [end_left()] after the last one; [++] on [end_left()] gives
    [end_left()]; and the left keys met are strictly increasing. *)
Theorem left_walk_is_increasing s c es fuel :
  holds s c es → length es < fuel →
  begin_left c fuel s
  = Ok (match es with
        | [] => end_left c
        | e :: _ => LeftIt (Some (e_addr e))
        end, s)
  ∧ (∀ pre e post, es = pre ++ e :: post →
       deref_left (LeftIt (Some (e_addr e))) s = Ok (e_left e, s)
       ∧ incr_left fuel (LeftIt (Some (e_addr e))) s
         = Ok (match post with
               | [] => end_left c
               | e' :: _ => LeftIt (Some (e_addr e'))
               end, s)
       ∧ Forall (λ e', compare_left (e_left e) (e_left e') = true) post)
  ∧ incr_left fuel (end_left c) s = Ok (end_left c, s).
Proof.
  intros Hh Hfuel. split_and!.
  - rewrite (begin_left_spec _ _ s c es fuel Hh ltac:(lia)). by destruct es.
  - intros pre e post ->. split_and!.
    + eapply deref_left_stored; [exact Hh|apply elem_of_middle].
    + rewrite (incr_left_spec _ _ s c pre e post fuel Hh Hfuel). by destruct post.
    + pose proof (holds_sorted compare_left compare_right s c _ Hh) as Hs.
      rewrite fmap_app, fmap_cons in Hs.
      apply StronglySorted_app_1_r in Hs.
      apply StronglySorted_inv in Hs as [_ Hs].
      apply Forall_fmap in Hs. exact Hs.
  - destruct Hh as (tl & tr & Hl & _). unfold bimap.incr_left.
    erewrite bind_ok; [done|]. apply on_left_read.
    by eapply incr_end.
Qed.

(** A bimap that has just been constructed is empty: [size()] is [0],
    [begin_left()] is [end_left()] and [begin_right()] is
    [end_right()], no key is found and [at_left] and [at_right] throw.
    The construction leaves the other objects of the memory as they
    were. *)
Theorem constructed_bimap_is_empty s fuel :
  allocated_below s → 0 < fuel →
  ∃ c s',
    construct rand s = Ok (c, s')
    ∧ holds s' c []
    ∧ size c s' = Ok (0%Z, s')
    ∧ empty c s' = Ok (true, s')
    ∧ begin_left c fuel s' = Ok (end_left c, s')
    ∧ begin_right c fuel s' = Ok (end_right c, s')
    ∧ (∀ l, find_left c fuel l s' = Ok (end_left c, s')
            ∧ at_left c fuel l s' = Ok (None, s'))
    ∧ (∀ r, find_right c fuel r s' = Ok (end_right c, s')
            ∧ at_right c fuel r s' = Ok (None, s'))
    ∧ (∀ a, a ≠ c →
         left_nodes s' !! a = left_nodes s !! a
         ∧ right_nodes s' !! a = right_nodes s !! a
         ∧ sizes s' !! a = sizes s !! a).
Proof using left_irrefl left_trans right_irrefl right_trans.
  intros Halloc Hfuel.
  destruct (construct_spec compare_left compare_right rand s Halloc)
    as (s' & Hrun & Hh & _ & _ & Hkept).
  exists (next_addr s), s'. split_and!; [done|done|..|done].
  - by rewrite (size_spec _ _ s' _ _ Hh).
  - by rewrite (empty_spec _ _ s' _ _ Hh).
  - by rewrite (begin_left_spec _ _ s' _ _ fuel Hh ltac:(simpl; lia)).
  - destruct Hh as (tl & tr & _ & Hr & _ & Hitr & _).
    apply Permutation_nil_r in Hitr. unfold bimap.begin_right.
    erewrite bind_ok; [done|]. apply on_right_read.
    rewrite (begin_spec _ tr fuel _ Hr); [by rewrite Hitr|].
    pose proof (height_le_length tr) as Hle. rewrite Hitr in Hle.
    simpl in Hle. lia.
  - intros l.
    destruct (find_left_cases s' _ [] l fuel Hh ltac:(simpl; lia))
      as [(e & []%elem_of_nil & _)|[_ Hf]].
    destruct (at_left_cases s' _ [] l fuel Hh ltac:(simpl; lia))
      as [(e & []%elem_of_nil & _)|[_ Ha]]. done.
  - intros r.
    destruct (find_right_cases s' _ [] r fuel Hh ltac:(simpl; lia))
      as [(e & []%elem_of_nil & _)|[_ Hf]].
    destruct (at_right_cases s' _ [] r fuel Hh ltac:(simpl; lia))
      as [(e & []%elem_of_nil & _)|[_ Ha]]. done.
Qed.

(** Erasing undoes inserting: after [insert(l, r)] of a pair of new
    keys, [erase_left(l)], and likewise [erase_right(r)], returns
    [true] and the bimap holds the nodes it held before the insertion,
    at the same addresses. *)
Theorem erase_undoes_insert s c es l r fuel :
  holds s c es → allocated_below s →
  (∀ e, e ∈ es → ¬ equiv_left (e_left e) l) →
  (∀ e, e ∈ es → ¬ equiv_right (e_right e) r) →
  (Z.of_nat (length es) + 1 < size_t_max)%Z →
  2 * length es + 4 < fuel →
  ∃ it s1,
    insert c fuel l r s = Ok (it, s1)
    ∧ (∃ s2, erase_left_key c fuel l s1 = Ok (true, s2)
             ∧ holds s2 c es
             ∧ size c s2 = Ok (Z.of_nat (length es), s2))
    ∧ (∃ s2, erase_right_key c fuel r s1 = Ok (true, s2)
             ∧ holds s2 c es
             ∧ size c s2 = Ok (Z.of_nat (length es), s2)).
Proof using left_irrefl left_trans right_irrefl right_trans.
  intros Hh Halloc Hl Hr Hbound Hfuel.
  destruct (insert_new s c es l r fuel Hh Halloc Hl Hr Hbound ltac:(lia))
    as (s1 & es1 & es2 & Hrun & -> & Hh1 & _).
  set (new := Entry _ _ _ l r) in *.
  assert (2 * length (es1 ++ new :: es2) + 2 < fuel) as Hfuel1.
  { rewrite !length_app in *. simpl. lia. }
  eexists _, s1. split_and!; [exact Hrun| |].
  - destruct (erase_left_key_spec compare_left compare_right left_irrefl
                left_trans right_irrefl right_trans s1 c es1 new es2 fuel
                Hh1 Hfuel1) as (s2 & Hrun2 & Hh2 & _).
    exists s2. split_and!; [done|done|].
    by apply (size_spec compare_left compare_right).
  - destruct (erase_right_key_spec compare_left compare_right left_irrefl
                left_trans right_irrefl right_trans s1 c es1 new es2 fuel
                Hh1 Hfuel1) as (s2 & Hrun2 & Hh2 & _).
    exists s2. split_and!; [done|done|].
    by apply (size_spec compare_left compare_right).
Qed.

End bimap_props.
End bimap_props.

(** ** Further properties of the facade: the right order and the bounds *)

Module bimap_order.
Import shape bimap contents building treap_facts treap_remove treap_order treap_iter.
Import treap_ops treap_cells bimap_facts bimap_update bimap_erase bimap_lookup.
Import bimap_build bimap_equal bimap_right treap_bounds.
Section bimap_order.
Context {L R : Type}.
Variable compare_left : L → L → bool.
Variable compare_right : R → R → bool.

Hypothesis left_irrefl : ∀ x, compare_left x x = false.
Hypothesis left_trans : ∀ x y z,
  compare_left x y = true → compare_left y z = true → compare_left x z = true.
Hypothesis right_irrefl : ∀ x, compare_right x x = false.
Hypothesis right_trans : ∀ x y z,
  compare_right x y = true → compare_right y z = true → compare_right x z = true.

Implicit Types (s : store (L:=L) (R:=R)) (c : nat) (e : entry (L:=L) (R:=R)).
Implicit Types (es : list (entry (L:=L) (R:=R))).

Abbreviation holds := (holds compare_left compare_right).
Abbreviation equiv_left := (equiv_left compare_left).
Abbreviation equiv_right := (equiv_right compare_right).
Abbreviation erase_right := (erase_right compare_left compare_right).
Abbreviation lower_bound_left := (lower_bound_left compare_left).
Abbreviation lower_bound_right := (lower_bound_right compare_right).
Abbreviation upper_bound_left := (upper_bound_left compare_left).
Abbreviation upper_bound_right := (upper_bound_right compare_right).
Abbreviation right_sorted es :=
  (StronglySorted (λ e1 e2, compare_right (e_right e1) (e_right e2) = true) es).

Local Abbreviation holds_right_order :=
  (holds_right_order compare_left compare_right right_irrefl right_trans).
Local Abbreviation begin_right_spec :=
  (begin_right_spec compare_left compare_right right_irrefl right_trans).
Local Abbreviation incr_right_spec :=
  (incr_right_spec compare_left compare_right right_irrefl right_trans).
Local Abbreviation erase_right_spec :=
  (erase_right_spec compare_left compare_right left_irrefl left_trans
     right_irrefl right_trans).

(** Walking the right side visits the nodes in the order of their
    right keys: [begin_right()] is the iterator on the node with the
    least right key, [end_right()] when the bimap holds no node; [++]
    on the iterator on a node gives the iterator on the node with the
    next right key, [end_right()] after the last one; [++] on
    [end_right()] gives [end_right()]. *)
Theorem right_walk_is_increasing s c es es' fuel :
  holds s c es → es' ≡ₚ es → right_sorted es' → length es < fuel →
  begin_right c fuel s
  = Ok (match es' with
        | [] => end_right c
        | e :: _ => RightIt (Some (e_addr e))
        end, s)
  ∧ (∀ pre e post, es' = pre ++ e :: post →
       deref_right (RightIt (Some (e_addr e))) s = Ok (e_right e, s)
       ∧ deref_left (flip_right (RightIt (Some (e_addr e)))) s = Ok (e_left e, s)
       ∧ incr_right fuel (RightIt (Some (e_addr e))) s
         = Ok (match post with
               | [] => end_right c
               | e' :: _ => RightIt (Some (e_addr e'))
               end, s))
  ∧ incr_right fuel (end_right c) s = Ok (end_right c, s).
Proof using right_irrefl right_trans.
  intros Hh Hperm Hs Hfuel. split_and!.
  - rewrite (begin_right_spec s c es es' fuel Hh Hperm Hs ltac:(lia)).
    by destruct es'.
  - intros pre e post ->.
    assert (e ∈ es) as He by (rewrite <- Hperm; apply elem_of_middle).
    split_and!.
    + by eapply deref_right_stored.
    + by eapply deref_left_stored.
    + rewrite (incr_right_spec s c es pre e post fuel Hh Hperm Hs Hfuel).
      by destruct post.
  - by eapply incr_right_end.
Qed.

(** [erase_right(it)] for the iterator on a stored node returns the
    iterator on the node with the next right key, [end_right()] when
    there is none; the other nodes stay where they are and [size()] is
    one less. *)
Theorem erase_right_returns_successor s c es pre e post fuel :
  holds s c es → pre ++ e :: post ≡ₚ es → right_sorted (pre ++ e :: post) →
  2 * length es + 2 < fuel →
  ∃ s' es1 es2,
    erase_right c fuel (RightIt (Some (e_addr e))) s
    = Ok (match post with
          | [] => end_right c
          | e' :: _ => RightIt (Some (e_addr e'))
          end, s')
    ∧ es = es1 ++ e :: es2
    ∧ holds s' c (es1 ++ es2)
    ∧ size c s' = Ok ((Z.of_nat (length es) - 1)%Z, s').
Proof using left_irrefl left_trans right_irrefl right_trans.
  intros Hh Hperm Hs Hfuel.
  assert (e ∈ es) as He by (rewrite <- Hperm; apply elem_of_middle).
  apply list_elem_of_split in He as (es1 & es2 & ->).
  destruct (erase_right_spec s c es1 e es2 fuel Hh Hfuel)
    as (s' & it & Hrun & Hh' & _).
  exists s', es1, es2. split_and!; [|done|done|].
  - rewrite Hrun. do 2 f_equal.
    destruct (erase_right_result _ _ _ _ _ _ _ _ Hrun) as (s1 & Hincr).
    rewrite (incr_right_spec s c _ pre e post fuel Hh Hperm Hs ltac:(lia))
      in Hincr.
    injection Hincr as <- _. by destruct post.
  - rewrite (size_spec _ _ s' c _ Hh'). do 2 f_equal.
    rewrite !length_app. simpl. lia.
Qed.

(** [lower_bound_left(k)] returns the iterator on the first node, in
    the left order, whose left key is not less than [k], [end_left()]
    when every left key is less than [k]; the bimap holds the same
    nodes afterwards.  Likewise [lower_bound_right], in the order of
    the right keys. *)
Theorem lower_bound_is_first_not_less s c es fuel :
  holds s c es → 2 * length es + 2 < fuel →
  (∀ k, ∃ s' pre post,
     lower_bound_left c fuel k s
     = Ok (match post with
           | [] => end_left c
           | e :: _ => LeftIt (Some (e_addr e))
           end, s')
     ∧ es = pre ++ post
     ∧ Forall (λ e, compare_left (e_left e) k = true) pre
     ∧ Forall (λ e, compare_left (e_left e) k = false) post
     ∧ holds s' c es)
  ∧ (∀ k es', es' ≡ₚ es → right_sorted es' →
     ∃ s' pre post,
       lower_bound_right c fuel k s
       = Ok (match post with
             | [] => end_right c
             | e :: _ => RightIt (Some (e_addr e))
             end, s')
       ∧ es' = pre ++ post
       ∧ Forall (λ e, compare_right (e_right e) k = true) pre
       ∧ Forall (λ e, compare_right (e_right e) k = false) post
       ∧ holds s' c es).
Proof using left_irrefl left_trans right_irrefl right_trans.
  intros Hh Hfuel. split.
  - intros k.
    destruct Hh as (tl & tr & Hl & Hr & Hil & Hir & Hbl & Hbr & Hsz & Hbound).
    destruct (holds_height s c _ tl tr Hil Hir) as [Hhl Hhr].
    destruct (lower_bound_items compare_left left_irrefl left_trans c tl k fuel
                _ Hl Hbl ltac:(lia))
      as (m' & tl' & i1 & i2 & Hrun & Hl' & Hbl' & Hit' & Hit & Hk1 & Hk2 & _).
    rewrite Hil in Hit.
    apply fmap_app_inv in Hit as (pre & post & -> & -> & ->).
    eexists _, pre, post. split_and!.
    + unfold bimap.lower_bound_left.
      erewrite bind_ok by (apply on_left_ok; exact Hrun).
      unfold ret. do 2 f_equal. by destruct post.
    + done.
    + apply Forall_forall. intros e He. apply (Hk1 (left_item e)).
      by apply list_elem_of_fmap_2.
    + apply Forall_forall. intros e He. apply (Hk2 (left_item e)).
      by apply list_elem_of_fmap_2.
    + exists tl', tr. split_and!; try done. by rewrite Hit'.
  - intros k es' Hperm Hs.
    destruct (holds_right_order s c es es' Hh Hperm Hs) as (tr & Hr & Hir & Hbr).
    destruct Hh as (tl & tr0 & Hl & _ & Hil & _ & Hbl & _ & Hsz & Hbound).
    assert (height tr ≤ length es) as Hhr.
    { pose proof (height_le_length tr) as Hle.
      by rewrite Hir, length_fmap, Hperm in Hle. }
    destruct (lower_bound_items compare_right right_irrefl right_trans c tr k fuel
                _ Hr Hbr ltac:(lia))
      as (m' & tr' & i1 & i2 & Hrun & Hr' & Hbr' & Hit' & Hit & Hk1 & Hk2 & _).
    rewrite Hir in Hit.
    apply fmap_app_inv in Hit as (pre & post & -> & -> & ->).
    eexists _, pre, post. split_and!.
    + unfold bimap.lower_bound_right.
      erewrite bind_ok by (apply on_right_ok; exact Hrun).
      unfold ret. do 2 f_equal. by destruct post.
    + done.
    + apply Forall_forall. intros e He. apply (Hk1 (right_item e)).
      by apply list_elem_of_fmap_2.
    + apply Forall_forall. intros e He. apply (Hk2 (right_item e)).
      by apply list_elem_of_fmap_2.
    + exists tl, tr'. split_and!; try done. by rewrite Hit', Hir, Hperm.
Qed.

(** For a key equivalent to no stored key of the side,
    [upper_bound_left(k)] and [upper_bound_right(k)] return what
    [lower_bound_left(k)] and [lower_bound_right(k)] return, and leave
    the same memory. *)
Theorem upper_bound_of_absent_key_is_lower_bound s c es fuel :
  holds s c es → 2 * length es + 2 < fuel →
  (∀ k, (∀ e, e ∈ es → ¬ equiv_left (e_left e) k) →
        upper_bound_left c fuel k s = lower_bound_left c fuel k s)
  ∧ (∀ k, (∀ e, e ∈ es → ¬ equiv_right (e_right e) k) →
          upper_bound_right c fuel k s = lower_bound_right c fuel k s).
Proof.
  intros Hh Hfuel.
  destruct Hh as (tl & tr & Hl & Hr & Hil & Hir & _).
  destruct (holds_height s c _ tl tr Hil Hir) as [Hhl Hhr].
  split; intros k Hno.
  - unfold bimap.upper_bound_left, bimap.lower_bound_left, bind, on_left.
    rewrite (upper_bound_absent compare_left c tl k fuel _ Hl); [done| |lia].
    intros y Hy. rewrite Hil in Hy.
    apply list_elem_of_fmap in Hy as (e & -> & He). by apply Hno.
  - unfold bimap.upper_bound_right, bimap.lower_bound_right, bind, on_right.
    rewrite (upper_bound_absent compare_right c tr k fuel _ Hr); [done| |lia].
    intros y Hy. rewrite Hir in Hy.
    apply list_elem_of_fmap in Hy as (e & -> & He). by apply Hno.
Qed.

End bimap_order.
End bimap_order.

(** ** Further properties of the facade: ranges and [clear] *)

Module bimap_ranges.
Import shape bimap contents building treap_facts treap_remove treap_order treap_iter.
Import treap_ops treap_cells bimap_facts bimap_update bimap_erase bimap_lookup.
Import bimap_build bimap_equal bimap_right.
Section bimap_ranges.
Context {L R : Type}.
Variable compare_left : L → L → bool.
Variable compare_right : R → R → bool.

Implicit Types (s : store (L:=L) (R:=R)) (c : nat) (e : entry (L:=L) (R:=R)).
Implicit Types (es : list (entry (L:=L) (R:=R))).

Abbreviation holds := (holds compare_left compare_right).
Abbreviation erase_left := (erase_left compare_left compare_right).
Abbreviation erase_right := (erase_right compare_left compare_right).
Abbreviation erase_left_range := (erase_left_range compare_left compare_right).
Abbreviation erase_right_range := (erase_right_range compare_left compare_right).
Abbreviation clear := (clear compare_left compare_right).

(** The node that has been erased is deallocated. *)
Lemma erase_left_frees c fuel a s it s' :
  erase_left c fuel (LeftIt (Some a)) s = Ok (it, s') →
  left_nodes s' !! a = None ∧ right_nodes s' !! a = None.
Proof.
  unfold bimap.erase_left. intros Hrun.
  do 5 (apply bind_inv in Hrun as (? & ? & _ & Hrun)).
  apply bind_inv in Hrun as ([] & s1 & Hdel & Hrun).
  apply bind_inv in Hrun as (n & s2 & Hsz & Hrun).
  apply bind_inv in Hrun as ([] & s3 & Hset & Hrun).
  injection Hrun as _ <-.
  unfold delete_node in Hdel. cbn [left_ptr] in Hdel.
  destruct (left_nodes _ !! a), (right_nodes _ !! a); try done.
  injection Hdel as <-.
  unfold size in Hsz. destruct (sizes _ !! c) eqn:Hc; [|done].
  injection Hsz as _ <-.
  unfold set_size in Hset. rewrite Hc in Hset. injection Hset as <-.
  simpl. by rewrite !lookup_delete_eq.
Qed.

Lemma erase_right_frees c fuel a s it s' :
  erase_right c fuel (RightIt (Some a)) s = Ok (it, s') →
  left_nodes s' !! a = None ∧ right_nodes s' !! a = None.
Proof.
  unfold bimap.erase_right. intros Hrun.
  do 5 (apply bind_inv in Hrun as (? & ? & _ & Hrun)).
  apply bind_inv in Hrun as ([] & s1 & Hdel & Hrun).
  apply bind_inv in Hrun as (n & s2 & Hsz & Hrun).
  apply bind_inv in Hrun as ([] & s3 & Hset & Hrun).
  injection Hrun as _ <-.
  unfold delete_node in Hdel. cbn [right_ptr] in Hdel.
  destruct (left_nodes _ !! a), (right_nodes _ !! a); try done.
  injection Hdel as <-.
  unfold size in Hsz. destruct (sizes _ !! c) eqn:Hc; [|done].
  injection Hsz as _ <-.
  unfold set_size in Hset. rewrite Hc in Hset. injection Hset as <-.
  simpl. by rewrite !lookup_delete_eq.
Qed.

Hypothesis left_irrefl : ∀ x, compare_left x x = false.
Hypothesis left_trans : ∀ x y z,
  compare_left x y = true → compare_left y z = true → compare_left x z = true.
Hypothesis right_irrefl : ∀ x, compare_right x x = false.
Hypothesis right_trans : ∀ x y z,
  compare_right x y = true → compare_right y z = true → compare_right x z = true.

Local Abbreviation erase_left_spec :=
  (erase_left_spec compare_left compare_right left_irrefl left_trans
     right_irrefl right_trans).
Local Abbreviation erase_right_spec :=
  (erase_right_spec compare_left compare_right left_irrefl left_trans
     right_irrefl right_trans).

Lemma first_ptr_ne c e es1 es2 es3 :
  NoDup (e_addr <$> (es1 ++ (e :: es2) ++ es3)) → e_addr e ≠ c →
  LeftIt (Some (e_addr e)) ≠ LeftIt (first_ptr c (left_item <$> es3)).
Proof.
  intros Hnd Hc [= Heq]. destruct es3 as [|e3 es3]; simpl in Heq.
  - by injection Heq.
  - injection Heq as Heq.
    rewrite !fmap_app, fmap_cons in Hnd.
    apply NoDup_app in Hnd as (_ & _ & Hnd).
    apply NoDup_cons in Hnd as [Hnd _]. apply Hnd.
    change (e_addr e ∈ (e_addr <$> es2) ++ (e_addr <$> e3 :: es3)).
    rewrite fmap_cons, Heq. apply elem_of_app. right. left.
Qed.

Lemma erase_left_range_spec es2 : ∀ s c es1 es3 count fuel,
  holds s c (es1 ++ es2 ++ es3) →
  length es2 < count →
  2 * length (es1 ++ es2 ++ es3) + 2 < fuel →
  ∃ s',
    erase_left_range c count fuel
      (LeftIt (first_ptr c (left_item <$> (es2 ++ es3))))
      (LeftIt (first_ptr c (left_item <$> es3))) s
    = Ok (LeftIt (first_ptr c (left_item <$> es3)), s')
    ∧ holds s' c (es1 ++ es3)
    ∧ (∀ e, e ∈ es2 →
         left_nodes s' !! e_addr e = None ∧ right_nodes s' !! e_addr e = None)
    ∧ (allocated_below s → allocated_below s')
    ∧ next_addr s' = next_addr s
    ∧ rand_calls s' = rand_calls s
    ∧ frame c (e_addr <$> (es1 ++ es2 ++ es3)) s s'.
Proof using left_irrefl left_trans right_irrefl right_trans.
  induction es2 as [|e es2 IH]; intros s c es1 es3 count fuel Hh Hcount Hfuel.
  - destruct count; [simpl in Hcount; lia|]. simpl.
    rewrite decide_False by (by intros []).
    exists s. split_and!; try done.
    all: try (by intros e []%elem_of_nil).
    all: by split_and!.
  - destruct count; [simpl in Hcount; lia|].
    pose proof (holds_NoDup _ _ s c _ Hh) as Hnd.
    assert (e ∈ es1 ++ (e :: es2) ++ es3) as He.
    { apply elem_of_app. right. left. }
    pose proof (holds_addr_ne _ _ s c _ e Hh He) as Hec.
    cbn [erase_left_range bimap.erase_left_range app fmap list_fmap first_ptr].
    change (addr (left_item e)) with (e_addr e).
    rewrite decide_True by (by eapply first_ptr_ne).
    change (es1 ++ (e :: es2) ++ es3) with (es1 ++ e :: (es2 ++ es3)) in *.
    destruct (erase_left_spec s c es1 e (es2 ++ es3) fuel Hh Hfuel)
      as (s1 & Hrun1 & Hh1 & Halloc1 & Hnext1 & Hrand1 & Hframe1).
    pose proof (erase_left_frees _ _ _ _ _ _ Hrun1) as [Hfl Hfr].
    erewrite bind_ok by exact Hrun1.
    destruct (IH s1 c es1 es3 count fuel Hh1) as
      (s' & Hrun & Hh' & Hfreed & Halloc & Hnext & Hrand & Hframe).
    { simpl in Hcount. lia. }
    { rewrite !length_app, length_cons, !length_app in Hfuel.
      rewrite !length_app. lia. }
    exists s'. split_and!; [done|done| |by auto|congruence|congruence|].
    + intros e' [->|He']%elem_of_cons; [|by apply Hfreed].
      destruct Hframe as (Hf1 & Hf2 & _).
      assert (e_addr e ∉ c :: (e_addr <$> (es1 ++ es2 ++ es3))) as Hout.
      { intros [?|Hin]%elem_of_cons; [done|].
        rewrite fmap_app, fmap_cons in Hnd.
        apply NoDup_app in Hnd as (_ & Hd1 & Hd2).
        apply NoDup_cons in Hd2 as [Hd2 _].
        rewrite fmap_app in Hin. apply elem_of_app in Hin as [Hin|Hin].
        - apply (Hd1 _ Hin). left.
        - done. }
      rewrite (Hf1 _ Hout), (Hf2 _ Hout). done.
    + destruct Hframe as (Hf1 & Hf2 & Hf3), Hframe1 as (Hg1 & Hg2 & Hg3).
      assert (∀ a, a ∉ c :: (e_addr <$> (es1 ++ e :: es2 ++ es3)) →
                   a ∉ c :: (e_addr <$> (es1 ++ es2 ++ es3))) as Hsub.
      { intros a Ha Hin. apply Ha.
        apply elem_of_cons in Hin as [->|Hin]; [left|right].
        rewrite fmap_app in *. apply elem_of_app in Hin as [Hin|Hin].
        - apply elem_of_app. by left.
        - apply elem_of_app. right. by right. }
      split_and!.
      * intros a Ha. rewrite (Hf1 a (Hsub a Ha)). by apply Hg1.
      * intros a Ha. rewrite (Hf2 a (Hsub a Ha)). by apply Hg2.
      * intros c' Hc'. rewrite (Hf3 c' Hc'). by apply Hg3.
Qed.

(** [erase_left(first, last)] erases the nodes from [first] up to, and
    without, [last] in the left order, deallocates them and returns
    [last]; the nodes before [first] and from [last] on are kept.  With
    [first == last] nothing is erased. *)
Theorem erase_left_range_erases_interval s c es1 es2 es3 count fuel :
  holds s c (es1 ++ es2 ++ es3) →
  length es2 < count →
  2 * length (es1 ++ es2 ++ es3) + 2 < fuel →
  let it_of es := match es with
                  | [] => end_left c
                  | e :: _ => LeftIt (Some (e_addr e))
                  end in
  ∃ s',
    erase_left_range c count fuel (it_of (es2 ++ es3)) (it_of es3) s
    = Ok (it_of es3, s')
    ∧ holds s' c (es1 ++ es3)
    ∧ size c s' = Ok (Z.of_nat (length (es1 ++ es3)), s')
    ∧ (∀ e, e ∈ es2 →
         left_nodes s' !! e_addr e = None ∧ right_nodes s' !! e_addr e = None)
    ∧ (es2 = [] → s' = s).
Proof using left_irrefl left_trans right_irrefl right_trans.
  intros Hh Hcount Hfuel it_of.
  destruct (erase_left_range_spec es2 s c es1 es3 count fuel Hh Hcount Hfuel)
    as (s' & Hrun & Hh' & Hfreed & _).
  assert (∀ es, it_of es = LeftIt (first_ptr c (left_item <$> es))) as Hit.
  { by intros [|??]. }
  exists s'. split_and!; [by rewrite !Hit|done| |done|].
  - by apply (size_spec compare_left compare_right).
  - intros ->. simpl in Hrun.
    destruct count; [simpl in Hcount; lia|]. simpl in Hrun.
    rewrite decide_False in Hrun by (by intros []). by injection Hrun.
Qed.

Lemma clear_spec s c es count fuel :
  holds s c es → length es < count → 2 * length es + 2 < fuel →
  ∃ s',
    clear c count fuel s = Ok (tt, s')
    ∧ holds s' c []
    ∧ (∀ e, e ∈ es →
         left_nodes s' !! e_addr e = None ∧ right_nodes s' !! e_addr e = None)
    ∧ (allocated_below s → allocated_below s')
    ∧ next_addr s' = next_addr s
    ∧ rand_calls s' = rand_calls s
    ∧ frame c (e_addr <$> es) s s'.
Proof using left_irrefl left_trans right_irrefl right_trans.
  intros Hh Hcount Hfuel. unfold bimap.clear.
  erewrite bind_ok by (by apply (begin_left_spec _ _ s c es fuel Hh ltac:(lia))).
  destruct (erase_left_range_spec es s c [] [] count fuel)
    as (s' & Hrun & Hh' & Hfreed & Halloc & Hnext & Hrand & Hframe).
  { by rewrite app_nil_r. }
  { done. }
  { simpl. rewrite app_nil_r. lia. }
  rewrite app_nil_r in Hrun. simpl in Hrun, Hh', Hframe.
  rewrite app_nil_r in Hframe.
  erewrite bind_ok by exact Hrun.
  exists s'. by split_and!.
Qed.

(** [clear()] erases and deallocates every node: the bimap is empty
    afterwards and the cells of other objects are as they were. *)
Theorem clear_erases_every_node s c es count fuel :
  holds s c es → length es < count → 2 * length es + 2 < fuel →
  ∃ s',
    clear c count fuel s = Ok (tt, s')
    ∧ holds s' c []
    ∧ size c s' = Ok (0%Z, s')
    ∧ begin_left c fuel s' = Ok (end_left c, s')
    ∧ (∀ e, e ∈ es →
         left_nodes s' !! e_addr e = None ∧ right_nodes s' !! e_addr e = None)
    ∧ (∀ a, a ∉ c :: (e_addr <$> es) →
         left_nodes s' !! a = left_nodes s !! a
         ∧ right_nodes s' !! a = right_nodes s !! a
         ∧ sizes s' !! a = sizes s !! a).
Proof using left_irrefl left_trans right_irrefl right_trans.
  intros Hh Hcount Hfuel.
  destruct (clear_spec s c es count fuel Hh Hcount Hfuel)
    as (s' & Hrun & Hh' & Hfreed & _ & _ & _ & Hf1 & Hf2 & Hf3).
  exists s'. split_and!; [done|done| | |done|].
  - by rewrite (size_spec _ _ s' c _ Hh').
  - by rewrite (begin_left_spec _ _ s' c [] fuel Hh' ltac:(simpl; lia)).
  - intros a Ha. split_and!; [by apply Hf1|by apply Hf2|].
    apply Hf3. intros ->. apply Ha. left.
Qed.

Local Abbreviation incr_right_spec :=
  (incr_right_spec compare_left compare_right right_irrefl right_trans).
Abbreviation right_sorted es :=
  (StronglySorted (λ e1 e2, compare_right (e_right e1) (e_right e2) = true) es).

Lemma right_sorted_without pre e post :
  right_sorted (pre ++ e :: post) → right_sorted (pre ++ post).
Proof.
  rewrite !StronglySorted_app, StronglySorted_cons.
  intros (H1 & H2 & _ & H3). split_and!; [|done..].
  intros x1 x2 Hx1 Hx2. apply H1; [done|by right].
Qed.

Lemma erase_right_range_spec mid : ∀ s c es pre post count fuel,
  holds s c es → pre ++ mid ++ post ≡ₚ es → right_sorted (pre ++ mid ++ post) →
  length mid < count →
  2 * length es + 2 < fuel →
  ∃ s' rest,
    erase_right_range c count fuel
      (RightIt (first_ptr c (right_item <$> (mid ++ post))))
      (RightIt (first_ptr c (right_item <$> post))) s
    = Ok (RightIt (first_ptr c (right_item <$> post)), s')
    ∧ holds s' c rest
    ∧ rest ≡ₚ pre ++ post
    ∧ (∀ e, e ∈ mid →
         left_nodes s' !! e_addr e = None ∧ right_nodes s' !! e_addr e = None)
    ∧ frame c (e_addr <$> es) s s'.
Proof using left_irrefl left_trans right_irrefl right_trans.
  induction mid as [|e mid IH]; intros s c es pre post count fuel Hh Hperm Hs
    Hcount Hfuel.
  - destruct count; [simpl in Hcount; lia|]. simpl.
    rewrite decide_False by (by intros []).
    exists s, es. split_and!; [done|done|done| |by split_and!].
    by intros e []%elem_of_nil.
  - destruct count; [simpl in Hcount; lia|].
    change (pre ++ (e :: mid) ++ post) with (pre ++ e :: (mid ++ post)) in *.
    assert (e ∈ es) as He by (rewrite <- Hperm; apply elem_of_middle).
    pose proof (holds_addr_ne _ _ s c _ e Hh He) as Hec.
    pose proof (holds_NoDup _ _ s c _ Hh) as Hnd.
    pose proof Hnd as Hnd'. rewrite <- Hperm in Hnd'.
    pose proof He as (es1 & es2 & ->)%list_elem_of_split.
    destruct (erase_right_spec s c es1 e es2 fuel Hh Hfuel)
      as (s1 & it & Hrun1 & Hh1 & _ & _ & _ & Hg1 & Hg2 & Hg3).
    pose proof (erase_right_frees _ _ _ _ _ _ Hrun1) as [Hfl Hfr].
    destruct (erase_right_result _ _ _ _ _ _ _ _ Hrun1) as (s0 & Hincr).
    rewrite (incr_right_spec s c _ pre e (mid ++ post) fuel Hh Hperm Hs ltac:(lia))
      in Hincr.
    injection Hincr as <- _.
    apply Permutation_app_inv in Hperm.
    assert (length (es1 ++ es2) < length (es1 ++ e :: es2)) as Hlen.
    { rewrite !length_app. simpl. lia. }
    destruct (IH s1 c (es1 ++ es2) pre post count fuel Hh1 Hperm
                (right_sorted_without _ _ _ Hs))
      as (s' & rest & Hrun & Hh' & Hrest & Hfreed & Hf1 & Hf2 & Hf3).
    { simpl in Hcount. lia. }
    { lia. }
    cbn [erase_right_range bimap.erase_right_range app fmap list_fmap first_ptr].
    change (addr (right_item e)) with (e_addr e).
    rewrite decide_True.
    2:{ intros [= Heq]. destruct post as [|e3 post]; simpl in Heq.
        - by injection Heq.
        - injection Heq as Heq.
          rewrite fmap_app, fmap_cons in Hnd'.
          apply NoDup_app in Hnd' as (_ & _ & Hnd').
          apply NoDup_cons in Hnd' as [Hnd' _]. apply Hnd'.
          rewrite fmap_app, fmap_cons, Heq. apply elem_of_app. right. left. }
    erewrite bind_ok by exact Hrun1.
    assert (∀ a, a ∉ c :: (e_addr <$> (es1 ++ e :: es2)) →
                 a ∉ c :: (e_addr <$> (es1 ++ es2))) as Hsub.
    { intros a Ha Hin. apply Ha.
      apply elem_of_cons in Hin as [->|Hin]; [left|right].
      rewrite fmap_app in *. apply elem_of_app in Hin as [Hin|Hin].
      - apply elem_of_app. by left.
      - apply elem_of_app. right. by right. }
    exists s', rest. split_and!; [done|done|done| |].
    + intros e' [->|He']%elem_of_cons; [|by apply Hfreed].
      assert (e_addr e ∉ c :: (e_addr <$> (es1 ++ es2))) as Hout.
      { intros [?|Hin]%elem_of_cons; [done|].
        rewrite fmap_app, fmap_cons in Hnd.
        apply NoDup_app in Hnd as (_ & Hd1 & Hd2).
        apply NoDup_cons in Hd2 as [Hd2 _].
        rewrite fmap_app in Hin. apply elem_of_app in Hin as [Hin|Hin].
        - apply (Hd1 _ Hin). left.
        - done. }
      rewrite (Hf1 _ Hout), (Hf2 _ Hout). done.
    + split_and!.
      * intros a Ha. rewrite (Hf1 a (Hsub a Ha)). by apply Hg1.
      * intros a Ha. rewrite (Hf2 a (Hsub a Ha)). by apply Hg2.
      * intros c' Hc'. rewrite (Hf3 c' Hc'). by apply Hg3.
Qed.

(** [erase_right(first, last)] erases the nodes from [first] up to,
    and without, [last] in the order of the right keys, deallocates
    them and returns [last]; the other nodes are kept. *)
Theorem erase_right_range_erases_interval s c es pre mid post count fuel :
  holds s c es → pre ++ mid ++ post ≡ₚ es → right_sorted (pre ++ mid ++ post) →
  length mid < count →
  2 * length es + 2 < fuel →
  let it_of es := match es with
                  | [] => end_right c
                  | e :: _ => RightIt (Some (e_addr e))
                  end in
  ∃ s' rest,
    erase_right_range c count fuel (it_of (mid ++ post)) (it_of post) s
    = Ok (it_of post, s')
    ∧ holds s' c rest
    ∧ rest ≡ₚ pre ++ post
    ∧ size c s' = Ok (Z.of_nat (length (pre ++ post)), s')
    ∧ (∀ e, e ∈ mid →
         left_nodes s' !! e_addr e = None ∧ right_nodes s' !! e_addr e = None).
Proof using left_irrefl left_trans right_irrefl right_trans.
  intros Hh Hperm Hs Hcount Hfuel it_of.
  destruct (erase_right_range_spec mid s c es pre post count fuel Hh Hperm Hs
              Hcount Hfuel)
    as (s' & rest & Hrun & Hh' & Hrest & Hfreed & _).
  assert (∀ es, it_of es = RightIt (first_ptr c (right_item <$> es))) as Hit.
  { by intros [|??]. }
  exists s', rest. split_and!; [by rewrite !Hit|done|done| |done].
  rewrite (size_spec _ _ s' c _ Hh'). by rewrite Hrest.
Qed.

End bimap_ranges.
End bimap_ranges.

(** ** Further properties of the facade: two bimaps in one memory *)

Module bimap_copy.
Import shape bimap contents building treap_facts treap_remove treap_order treap_iter.
Import treap_ops treap_cells bimap_facts bimap_update bimap_erase bimap_lookup.
Import bimap_build bimap_equal bimap_right bimap_ranges.
Section bimap_copy.
Context {L R : Type}.
Variable compare_left : L → L → bool.
Variable compare_right : R → R → bool.
Variable eq_left : L → L → bool.
Variable eq_right : R → R → bool.
Variable rand : nat → N.
Variable bad_alloc : nat → bool.

Implicit Types (s : store (L:=L) (R:=R)) (c : nat) (e : entry (L:=L) (R:=R)).
Implicit Types (es : list (entry (L:=L) (R:=R))).

Abbreviation holds := (holds compare_left compare_right).
Abbreviation equiv_left := (equiv_left compare_left).
Abbreviation equiv_right := (equiv_right compare_right).
Abbreviation insert := (insert compare_left compare_right rand).
Abbreviation insert_or_throw :=
  (insert_or_throw compare_left compare_right rand bad_alloc).
Abbreviation copy_loop := (copy_loop compare_left compare_right rand bad_alloc).
Abbreviation copy_construct :=
  (copy_construct compare_left compare_right rand bad_alloc).
Abbreviation copy_assign := (copy_assign compare_left compare_right rand bad_alloc).
Abbreviation equal := (equal eq_left eq_right).

(** *** The nodes of two bimaps are disjoint *)

Lemma is_tree_parent {K : Type} (m : gmap nat (treap_node K)) q (t : tree) a :
  is_tree m q t → a ∈ addrs t →
  ∃ n, m !! a = Some n
       ∧ (parent n = q ∨ ∃ b, parent n = Some b ∧ b ∈ addrs t).
Proof.
  revert q. induction t as [|l IHl x r IHr]; intros q Ht Ha.
  { by apply elem_of_nil in Ha. }
  destruct Ht as (Hx & Hl & Hr). rewrite addrs_bin in Ha.
  apply elem_of_app in Ha as [Ha|[->|Ha]%elem_of_cons].
  - destruct (IHl _ Hl Ha) as (n & Hn & [Hp|(b & Hp & Hb)]); exists n;
      (split; [done|]); right.
    + exists (addr x). split; [done|]. rewrite addrs_bin.
      apply elem_of_app. right. left.
    + exists b. split; [done|]. rewrite addrs_bin. apply elem_of_app. by left.
  - eexists. split; [exact Hx|]. by left.
  - destruct (IHr _ Hr Ha) as (n & Hn & [Hp|(b & Hp & Hb)]); exists n;
      (split; [done|]); right.
    + exists (addr x). split; [done|]. rewrite addrs_bin.
      apply elem_of_app. right. left.
    + exists b. split; [done|]. rewrite addrs_bin. apply elem_of_app.
      right. by right.
Qed.

Lemma is_tree_overlap {K : Type} (m : gmap nat (treap_node K)) (t1 : tree) :
  ∀ q1 q2 (t2 : tree) a,
    is_tree m q1 t1 → is_tree m q2 t2 → a ∈ addrs t1 → a ∈ addrs t2 →
    q1 = q2 ∨ (∃ b, q1 = Some b ∧ b ∈ addrs t2) ∨ (∃ b, q2 = Some b ∧ b ∈ addrs t1).
Proof.
  induction t1 as [|l IHl x r IHr]; intros q1 q2 t2 a H1 H2 Ha1 Ha2.
  { by apply elem_of_nil in Ha1. }
  assert (addr x ∈ addrs t2 →
          q1 = q2 ∨ (∃ b, q1 = Some b ∧ b ∈ addrs t2)) as Hroot.
  { intros Hx2. destruct H1 as (Hx & _).
    destruct (is_tree_parent m q2 t2 _ H2 Hx2) as (n & Hn & Hp).
    rewrite Hx in Hn. injection Hn as <-. simpl in Hp.
    destruct Hp as [->|(b & -> & Hb)]; [by left|right; by exists b]. }
  assert (addr x ∈ addrs (Bin l x r)) as Hxin.
  { rewrite addrs_bin. apply elem_of_app. right. left. }
  assert (∀ (t : tree (K:=K)),
            (∀ b, b ∈ addrs t → b ∈ addrs (Bin l x r)) →
            Some (addr x) = q2
            ∨ (∃ b, Some (addr x) = Some b ∧ b ∈ addrs t2)
            ∨ (∃ b, q2 = Some b ∧ b ∈ addrs t) →
            q1 = q2 ∨ (∃ b, q1 = Some b ∧ b ∈ addrs t2)
            ∨ (∃ b, q2 = Some b ∧ b ∈ addrs (Bin l x r))) as Hsub.
  { intros t Hin [<-|[(b & [= <-] & Hb)|(b & -> & Hb)]].
    - right; right. by exists (addr x).
    - destruct (Hroot Hb) as [?|?]; [by left|right; by left].
    - right; right. exists b. split; [done|]. by apply Hin. }
  destruct H1 as (Hx & Hl & Hr). rewrite addrs_bin in Ha1.
  apply elem_of_app in Ha1 as [Ha1|[->|Ha1]%elem_of_cons].
  - apply (Hsub l).
    + intros b Hb. rewrite addrs_bin. apply elem_of_app. by left.
    + by apply (IHl _ _ _ a Hl H2).
  - destruct (Hroot Ha2) as [?|?]; [by left|right; by left].
  - apply (Hsub r).
    + intros b Hb. rewrite addrs_bin. apply elem_of_app. right. by right.
    + by apply (IHr _ _ _ a Hr H2).
Qed.

Lemma holds_head_not_node s c1 c2 es1 es2 :
  holds s c1 es1 → holds s c2 es2 → c1 ∉ e_addr <$> es2.
Proof.
  intros (tl1 & _ & ((p & Hc) & _) & _) (tl2 & _ & (_ & Ht2 & _) & _ & Hil2 & _) Hin.
  rewrite <- (holds_addrs_left s c2 es2 tl2 Hil2) in Hin.
  destruct (is_tree_lookup _ _ _ _ Ht2 Hin) as (x & n & _ & _ & Hn & _ & Hk).
  rewrite Hc in Hn. by injection Hn as <-.
Qed.

Lemma holds_disjoint s c1 c2 es1 es2 a :
  holds s c1 es1 → holds s c2 es2 → c1 ≠ c2 →
  a ∈ e_addr <$> es1 → a ∉ e_addr <$> es2.
Proof.
  intros H1 H2 Hne Ha1 Ha2.
  pose proof (holds_head_not_node s c1 c2 es1 es2 H1 H2) as Hc1.
  pose proof (holds_head_not_node s c2 c1 es2 es1 H2 H1) as Hc2.
  destruct H1 as (tl1 & _ & (_ & Ht1 & _) & _ & Hil1 & _).
  destruct H2 as (tl2 & _ & (_ & Ht2 & _) & _ & Hil2 & _).
  rewrite <- (holds_addrs_left s c1 es1 tl1 Hil1) in Ha1, Hc2.
  rewrite <- (holds_addrs_left s c2 es2 tl2 Hil2) in Ha2, Hc1.
  destruct (is_tree_overlap _ tl1 _ _ tl2 a Ht1 Ht2 Ha1 Ha2)
    as [[= ?]|[(b & [= <-] & Hb)|(b & [= <-] & Hb)]]; done.
Qed.

(** The cells of one bimap are outside those of another one. *)
Lemma holds_cells_disjoint s c1 c2 es1 es2 a :
  holds s c1 es1 → holds s c2 es2 → c1 ≠ c2 →
  a ∈ c1 :: (e_addr <$> es1) → a ∉ c2 :: (e_addr <$> es2).
Proof.
  intros H1 H2 Hne [->|Ha1]%elem_of_cons [->|Ha2]%elem_of_cons.
  - done.
  - by eapply (holds_head_not_node s c1 c2).
  - by eapply (holds_head_not_node s c2 c1).
  - by eapply (holds_disjoint s c1 c2).
Qed.

(** *** [insert] inside a [try] block *)

Lemma bind_ext {S A B : Type} (e : M S A) (k k' : A → M S B) (m : S) :
  (∀ x m', e m = Ok (x, m') → k x m' = k' x m') → bind e k m = bind e k' m.
Proof. intros H. unfold bind. destruct (e m) as [[x m']| |]; auto. Qed.

Lemma bind_run {S A B : Type} (e e' : M S A) (k : A → M S B) (m : S) :
  e m = e' m → bind e k m = bind e' k m.
Proof. intros H. unfold bind. by rewrite H. Qed.

Lemma on_left_next_addr {A : Type} (e : M (gmap nat (treap_node L)) A) s x s' :
  on_left e s = Ok (x, s') → next_addr s' = next_addr s.
Proof.
  unfold on_left. destruct (e _) as [[y m]| |]; [|done..]. by intros [= _ <-].
Qed.

Lemma on_right_next_addr {A : Type} (e : M (gmap nat (treap_node R)) A) s x s' :
  on_right e s = Ok (x, s') → next_addr s' = next_addr s.
Proof.
  unfold on_right. destruct (e _) as [[y m]| |]; [|done..]. by intros [= _ <-].
Qed.

(** Where [new] does not throw, [insert] inside a [try] block does
    what [insert] does. *)
Lemma insert_or_throw_no_throw s c l r fuel :
  bad_alloc (next_addr s) = false →
  insert_or_throw c fuel l r s = (let* i := insert c fuel l r in ret (Some i)) s.
Proof.
  intros Hb. unfold bimap.insert_or_throw, bimap.insert.
  rewrite bind_assoc. apply bind_ext. intros e s1 H1.
  assert (s1 = s) as ->.
  { unfold empty, size, bind in H1. destruct (sizes s !! c); [|done].
    by injection H1 as _ <-. }
  rewrite bind_assoc. apply bind_ext. intros taken s2 H2.
  assert (next_addr s2 = next_addr s) as Hs2.
  { destruct (negb e); [|by injection H2 as _ <-].
    apply bind_inv in H2 as (li & s3 & H3 & H2).
    apply bind_inv in H3 as (p & s4 & H3 & [= _ <-]).
    apply on_left_next_addr in H3.
    destruct (decide (li ≠ end_left c)); [by injection H2 as _ <-|].
    apply bind_inv in H2 as (ri & s5 & H5 & [= _ <-]).
    apply bind_inv in H5 as (q & s6 & H5 & [= _ <-]).
    apply on_right_next_addr in H5. congruence. }
  destruct taken; [done|].
  rewrite (bind_run (try_new_node rand bad_alloc l r)
             (let* p := new_node rand l r in ret (Some p))).
  2:{ unfold try_new_node. by rewrite Hs2, Hb. }
  rewrite !bind_assoc. apply bind_ext. intros p s3 _.
  rewrite (bind_ok (ret (Some p)) _ s3 (Some p) s3 eq_refl).
  rewrite !bind_assoc. apply bind_ext. intros l_it s4 _.
  rewrite !bind_assoc. apply bind_ext. intros ? s5 _.
  rewrite !bind_assoc. apply bind_ext. intros k s6 _.
  rewrite !bind_assoc. apply bind_ext. intros [] s7 _.
  done.
Qed.

Hypothesis left_irrefl : ∀ x, compare_left x x = false.
Hypothesis left_trans : ∀ x y z,
  compare_left x y = true → compare_left y z = true → compare_left x z = true.
Hypothesis right_irrefl : ∀ x, compare_right x x = false.
Hypothesis right_trans : ∀ x y z,
  compare_right x y = true → compare_right y z = true → compare_right x z = true.

Local Abbreviation insert_new :=
  (insert_new compare_left compare_right rand left_irrefl left_trans
     right_irrefl right_trans).
Local Abbreviation gone_left :=
  (gone_left compare_left compare_right left_irrefl left_trans).
Local Abbreviation gone_right :=
  (gone_right compare_left compare_right right_irrefl right_trans).
Local Abbreviation clear_spec :=
  (clear_spec compare_left compare_right left_irrefl left_trans
     right_irrefl right_trans).
Local Abbreviation find_left_cases :=
  (find_left_cases compare_left compare_right left_irrefl left_trans).
Local Abbreviation find_right_cases :=
  (find_right_cases compare_left compare_right right_irrefl right_trans).

(** Where [new] throws, [insert] of a pair of new keys leaves with the
    exception and the memory is as it was. *)
Lemma insert_or_throw_throws s c es l r fuel :
  holds s c es →
  (∀ e, e ∈ es → ¬ equiv_left (e_left e) l) →
  (∀ e, e ∈ es → ¬ equiv_right (e_right e) r) →
  length es < fuel →
  bad_alloc (next_addr s) = true →
  insert_or_throw c fuel l r s = Ok (None, s).
Proof using left_irrefl left_trans right_irrefl right_trans.
  intros Hh Hnl Hnr Hfuel Hb. unfold bimap.insert_or_throw.
  erewrite bind_ok by (by eapply empty_spec).
  assert (try_new_node rand bad_alloc l r s = Ok (None, s)) as Hnew.
  { unfold try_new_node. by rewrite Hb. }
  destruct es as [|e0 es'].
  { rewrite bool_decide_true by done. cbn [negb].
    erewrite bind_ok by done. cbv iota. by erewrite bind_ok by exact Hnew. }
  rewrite bool_decide_false by done.
  cbn [negb]. rewrite !bind_assoc.
  destruct (find_left_cases s c _ l fuel Hh)
    as [(e1 & He1 & Hq1 & _)|[_ Hrun1]]; [done|by destruct (Hnl e1)|].
  erewrite bind_ok by exact Hrun1. rewrite decide_False by (by intros []).
  destruct (find_right_cases s c _ r fuel Hh)
    as [(e2 & He2 & Hq2 & _)|[_ Hrun2]]; [done|by destruct (Hnr e2)|].
  rewrite !bind_assoc. erewrite bind_ok by exact Hrun2.
  erewrite bind_ok by done. rewrite bool_decide_false by (by intros []).
  by erewrite bind_ok by exact Hnew.
Qed.

(** *** The loop of the copy constructor and of the copy assignment *)

(** The loop ends with every pair of [other] copied when no [new]
    throws, and with an empty bimap when one does. *)
Lemma copy_loop_spec suf : ∀ s this other pre et steps count fuel,
  holds s other (pre ++ suf) → holds s this et → this ≠ other →
  allocated_below s →
  pair_of <$> et ≡ₚ pair_of <$> pre →
  length suf < steps → length (pre ++ suf) < count →
  2 * length (pre ++ suf) + 2 < fuel →
  ∃ s' et',
    copy_loop steps count fuel this other
      (LeftIt (first_ptr other (left_item <$> suf))) s = Ok (tt, s')
    ∧ holds s' this et' ∧ holds s' other (pre ++ suf)
    ∧ allocated_below s'
    ∧ next_addr s ≤ next_addr s'
    ∧ others_kept this et s s'
    ∧ ((∀ i, i < length suf → bad_alloc (next_addr s + i) = false) →
       pair_of <$> et' ≡ₚ pair_of <$> (pre ++ suf))
    ∧ ((∃ i, i < length suf ∧ bad_alloc (next_addr s + i) = true) → et' = []).
Proof using left_irrefl left_trans right_irrefl right_trans.
  induction suf as [|e suf IH];
    intros s this other pre et steps count fuel Ho Ht Hne Halloc Hpairs
      Hsteps Hcount Hfuel.
  - destruct steps; [simpl in Hsteps; lia|]. simpl.
    rewrite decide_False by (by intros []).
    exists s, et. rewrite app_nil_r in *. split_and!; try done.
    intros (i & Hi & _). simpl in Hi. lia.
  - destruct steps; [simpl in Hsteps; lia|].
    assert (e ∈ pre ++ e :: suf) as He by apply elem_of_middle.
    cbn [bimap.copy_loop fmap list_fmap first_ptr].
    change (addr (left_item e)) with (e_addr e).
    rewrite decide_True.
    2:{ intros [= Heq]. by apply (holds_addr_ne _ _ s other _ e Ho He). }
    erewrite bind_ok by (eapply deref_left_stored; [exact Ho|exact He]).
    erewrite bind_ok by (eapply deref_right_stored; [exact Ho|exact He]).
    assert (length et = length pre) as Hlen.
    { rewrite <- (length_fmap pair_of et), Hpairs. apply length_fmap. }
    pose proof (holds_bound _ _ s other _ Ho) as Hbound.
    rewrite length_app in Hbound, Hfuel, Hcount.
    cbn [length] in Hbound, Hfuel, Hcount.
    assert (∀ e'', e'' ∈ et → ∃ e', e' ∈ pre ∧ pair_of e' = pair_of e'') as Hfrom.
    { intros e'' He''.
      assert (pair_of e'' ∈ pair_of <$> pre) as Hin.
      { rewrite <- Hpairs. by apply list_elem_of_fmap_2. }
      apply list_elem_of_fmap in Hin as (e' & Heq & He'). by exists e'. }
    assert (∀ e'', e'' ∈ et → ¬ equiv_left (e_left e'') (e_left e)) as Hnl.
    { intros e'' He''. destruct (Hfrom e'' He'') as (e' & He' & [= Hl Hr]).
      rewrite <- Hl. apply (gone_left s other pre e suf e' Ho).
      apply elem_of_app. by left. }
    assert (∀ e'', e'' ∈ et → ¬ equiv_right (e_right e'') (e_right e)) as Hnr.
    { intros e'' He''. destruct (Hfrom e'' He'') as (e' & He' & [= Hl Hr]).
      rewrite <- Hr. apply (gone_right s other pre e suf e' Ho).
      apply elem_of_app. by left. }
    destruct (bad_alloc (next_addr s)) eqn:Hb.
    + (* [new] throws: [clear()] and [break] *)
      erewrite bind_ok
        by (apply (insert_or_throw_throws s this et); [done..|lia|done]).
      destruct (clear_spec s this et count fuel Ht ltac:(lia) ltac:(lia))
        as (s' & Hrun & Ht' & _ & Halloc' & Hnext' & _ & Hg1 & Hg2 & Hg3).
      exists s', []. split_and!; [done|done| |by apply Halloc'|lia| | |done].
      * apply (holds_frame _ _ s); [done| |by apply Hg3].
        intros a Ha.
        pose proof (holds_cells_disjoint s other this _ et a Ho Ht
                      ltac:(by intros ->) Ha) as Hout.
        split; [by apply Hg1|by apply Hg2].
      * intros a Ha1 Ha2 Ha3.
        assert (a ∉ this :: (e_addr <$> et)) as Hout.
        { by intros [->|Hin]%elem_of_cons. }
        split_and!; [by apply Hg1|by apply Hg2|by apply Hg3].
      * intros Hall. specialize (Hall 0 ltac:(simpl; lia)).
        rewrite Nat.add_0_r in Hall. congruence.
    + (* [insert] returns *)
      destruct (insert_new s this et (e_left e) (e_right e) fuel Ht Halloc
                  Hnl Hnr ltac:(lia) ltac:(lia))
        as (s1 & es1 & es2 & Hrun1 & -> & Ht1 & Halloc1 & Hnext1 & Hf1 & Hf2 & Hf3).
      set (new := Entry _ _ _ (e_left e) (e_right e)) in *.
      rewrite (bind_run _ _ _ _ (insert_or_throw_no_throw s this _ _ fuel Hb)).
      rewrite bind_assoc. erewrite bind_ok by exact Hrun1.
      erewrite bind_ok by done. cbv iota.
      assert (holds s1 other (pre ++ e :: suf)) as Ho1.
      { apply (holds_frame _ _ s); [done| |].
        - intros a Ha.
          assert (a ∉ this :: next_addr s :: (e_addr <$> es1 ++ es2)) as Hout.
          { intros [->|[->|Hin]%elem_of_cons]%elem_of_cons.
            - apply (holds_cells_disjoint s other this _ _ this Ho Ht);
                [by intros ->|exact Ha|left].
            - destruct (holds_allocated _ _ s other _ _ Ho Ha) as [Hal _].
              specialize (Halloc (next_addr s) (or_introl Hal)). lia.
            - apply (holds_cells_disjoint s other this _ _ a Ho Ht);
                [by intros ->|exact Ha|by right]. }
          split; [by apply Hf1|by apply Hf2].
        - apply Hf3. done. }
      erewrite bind_ok.
      2:{ apply (incr_left_spec _ _ s1 other pre e suf fuel Ho1).
          rewrite length_app. simpl. lia. }
      destruct (IH s1 this other (pre ++ [e]) (es1 ++ new :: es2) steps count fuel)
        as (s' & et' & Hrun & Ht' & Ho' & Halloc' & Hnext' & Hkept'
            & Hgood & Hbad).
      { by rewrite <- app_assoc. }
      { done. }
      { done. }
      { done. }
      { rewrite !fmap_app, !fmap_cons. simpl. rewrite <- Permutation_middle.
        rewrite <- Hpairs, fmap_app.
        change (pair_of new) with (pair_of e).
        by rewrite (Permutation_app_comm _ [pair_of e]). }
      { simpl in Hsteps. lia. }
      { rewrite <- app_assoc, length_app. simpl. lia. }
      { rewrite <- app_assoc, length_app. simpl. lia. }
      rewrite <- app_assoc in Ho', Hgood. simpl in Ho', Hgood.
      exists s', et'. split_and!; [done|done|done|done|lia| | |].
      * intros a Ha1 Ha2 Ha3.
        destruct (Hkept' a) as (H1 & H2 & H3); [done| |lia|].
        { rewrite fmap_app, fmap_cons. rewrite fmap_app in Ha2.
          intros [Hin|[->|Hin]%elem_of_cons]%elem_of_app.
          - apply Ha2, elem_of_app. by left.
          - simpl in Ha3. lia.
          - apply Ha2, elem_of_app. by right. }
        assert (a ∉ this :: next_addr s :: (e_addr <$> es1 ++ es2)) as Hout.
        { intros [->|[->|Hin]%elem_of_cons]%elem_of_cons; [done|lia|done]. }
        rewrite H1, H2, H3. split_and!; [by apply Hf1|by apply Hf2|by apply Hf3].
      * intros Hall. apply Hgood. intros i Hi.
        rewrite Hnext1. replace (S (next_addr s) + i) with (next_addr s + S i) by lia.
        apply Hall. simpl. lia.
      * intros (i & Hi & Hbi). apply Hbad.
        destruct i as [|j].
        { rewrite Nat.add_0_r in Hbi. congruence. }
        exists j. split; [simpl in Hi; lia|].
        rewrite Hnext1. by replace (S (next_addr s) + j) with (next_addr s + S j) by lia.
Qed.

Lemma holds_kept s s' c es :
  holds s c es → allocated_below s →
  (∀ a, a < next_addr s →
        left_nodes s' !! a = left_nodes s !! a
        ∧ right_nodes s' !! a = right_nodes s !! a
        ∧ sizes s' !! a = sizes s !! a) →
  holds s' c es.
Proof.
  intros Hh Halloc Hkept.
  assert (∀ a, a ∈ c :: (e_addr <$> es) → a < next_addr s) as Hlow.
  { intros a Ha. apply Halloc. left.
    by apply (holds_allocated _ _ s c es a Hh). }
  apply (holds_frame _ _ s); [done| |].
  - intros a Ha. destruct (Hkept a (Hlow a Ha)) as (H1 & H2 & _). done.
  - destruct (Hkept c) as (_ & _ & H3); [apply Hlow; left|done].
Qed.

(** The copy constructor builds a bimap at a new address and leaves
    [other] and every older cell as they were.  When no [new] of a node
    throws, the copy holds the pairs of [other] in the same order, in
    nodes that are not those of [other], and the two bimaps compare
    equal when [operator==] of the keys is reflexive.  When a [new]
    throws, the exception is caught and the copy is an empty bimap. *)
Theorem copy_holds_the_same_pairs_unless_new_throws s other eo count fuel :
  holds s other eo → allocated_below s →
  length eo < count → 2 * length eo + 2 < fuel →
  ∃ this s' et,
    copy_construct count fuel other s = Ok (this, s')
    ∧ this ≠ other
    ∧ holds s' this et
    ∧ (∀ e, e ∈ et → e_addr e ∉ e_addr <$> eo)
    ∧ holds s' other eo
    ∧ (∀ a, a < next_addr s →
            left_nodes s' !! a = left_nodes s !! a
            ∧ right_nodes s' !! a = right_nodes s !! a
            ∧ sizes s' !! a = sizes s !! a)
    ∧ ((∀ i, i < length eo → bad_alloc (S (next_addr s) + i) = false) →
       pair_of <$> et = pair_of <$> eo
       ∧ ((∀ x, eq_left x x = true) → (∀ y, eq_right y y = true) →
          equal count fuel this other s' = Ok (true, s')))
    ∧ ((∃ i, i < length eo ∧ bad_alloc (S (next_addr s) + i) = true) →
       et = [] ∧ empty this s' = Ok (true, s')).
Proof using left_irrefl left_trans right_irrefl right_trans.
  intros Ho Halloc Hcount Hfuel.
  destruct (construct_spec compare_left compare_right rand s Halloc)
    as (s0 & Hrun0 & Ht0 & Halloc0 & Hnext0 & Hkept0).
  set (this := next_addr s) in *.
  assert (∀ a, a < next_addr s →
               left_nodes s0 !! a = left_nodes s !! a
               ∧ right_nodes s0 !! a = right_nodes s !! a
               ∧ sizes s0 !! a = sizes s !! a) as Hlow0.
  { intros a Ha. apply Hkept0. unfold this. lia. }
  pose proof (holds_kept s s0 other eo Ho Halloc Hlow0) as Ho0.
  assert (this ≠ other) as Hne.
  { intros Heq.
    assert (other < next_addr s); [|unfold this in Heq; lia].
    apply Halloc. left.
    by apply (holds_allocated _ _ s other eo other Ho); left. }
  destruct (copy_loop_spec eo s0 this other [] [] count count fuel)
    as (s' & et & Hrun & Ht & Ho' & Halloc' & Hnext' & Hkept' & Hgood & Hbad);
    [done..|].
  simpl in Hgood, Ho'. rewrite Hnext0 in Hgood, Hbad.
  exists this, s', et. split_and!; [|done|done| |done| | |].
  - unfold bimap.copy_construct.
    erewrite bind_ok by exact Hrun0.
    erewrite bind_ok
      by (by apply (begin_left_spec _ _ s0 other eo fuel Ho0 ltac:(lia))).
    by erewrite bind_ok by exact Hrun.
  - intros e He. by apply (holds_disjoint s' this other et eo _ Ht Ho' Hne),
      list_elem_of_fmap_2.
  - intros a Ha. destruct (Hkept' a) as (H1 & H2 & H3).
    + unfold this. lia.
    + apply not_elem_of_nil.
    + lia.
    + destruct (Hlow0 a Ha) as (H4 & H5 & H6). by rewrite H1, H2, H3.
  - intros Hall. specialize (Hgood Hall).
    assert (pair_of <$> et = pair_of <$> eo) as Hsame.
    { by apply (same_pairs_same_order compare_left compare_right left_irrefl
                  left_trans s' this other et eo Ht Ho'). }
    assert (length et = length eo) as Hlen.
    { rewrite <- (length_fmap pair_of et), Hsame. apply length_fmap. }
    split; [done|]. intros Heql Heqr.
    rewrite (equal_spec compare_left compare_right eq_left eq_right s' this other
               et eo count fuel Ht Ho'); [|lia..].
    rewrite bool_decide_true by done.
    by rewrite (same_pairs_refl eq_left eq_right et eo Heql Heqr Hsame).
  - intros Hsome. rewrite (Hbad Hsome) in *. split; [done|].
    by rewrite (empty_spec _ _ s' this [] Ht).
Qed.

(** The copy assignment [this = other] of a bimap [other] that is not
    empty to another bimap erases the nodes of [this] and leaves
    [other] as it was.  When no [new] of a node throws, [this] holds
    afterwards the pairs of [other] in the same order, in nodes that
    are not those of [other].  When a [new] throws, the exception is
    caught and [this] is left empty: its former pairs are lost. *)
Theorem copy_assign_replaces_contents_unless_new_throws
    s this other et eo count fuel :
  holds s this et → holds s other eo → this ≠ other → eo ≠ [] →
  allocated_below s →
  length et < count → length eo < count →
  2 * length et + 2 < fuel → 2 * length eo + 2 < fuel →
  ∃ s' et',
    copy_assign count fuel this other s = Ok (tt, s')
    ∧ holds s' this et'
    ∧ (∀ e, e ∈ et' → e_addr e ∉ e_addr <$> eo)
    ∧ holds s' other eo
    ∧ ((∀ i, i < length eo → bad_alloc (next_addr s + i) = false) →
       pair_of <$> et' = pair_of <$> eo)
    ∧ ((∃ i, i < length eo ∧ bad_alloc (next_addr s + i) = true) →
       et' = [] ∧ empty this s' = Ok (true, s')).
Proof using left_irrefl left_trans right_irrefl right_trans.
  intros Ht Ho Hne Hnonempty Halloc Hc1 Hc2 Hf1 Hf2.
  destruct (clear_spec s this et count fuel Ht Hc1 Hf1)
    as (s1 & Hrun1 & Ht1 & Hfreed1 & Halloc1 & Hnext1 & _ & Hg1 & Hg2 & Hg3).
  specialize (Halloc1 Halloc).
  assert (holds s1 other eo) as Ho1.
  { apply (holds_frame _ _ s); [done| |by apply Hg3].
    intros a Ha.
    pose proof (holds_cells_disjoint s other this eo et a Ho Ht
                  ltac:(by intros ->) Ha) as Hout.
    split; [by apply Hg1|by apply Hg2]. }
  destruct (copy_loop_spec eo s1 this other [] [] count count fuel)
    as (s' & et' & Hrun & Ht' & Ho' & Halloc' & Hnext' & Hkept' & Hgood & Hbad);
    [done..|].
  simpl in Hgood, Ho'. rewrite Hnext1 in Hgood, Hbad.
  exists s', et'. split_and!; [| done | |done| |].
  - unfold bimap.copy_assign. rewrite decide_False by done.
    erewrite bind_ok by (by apply (empty_spec _ _ s other eo Ho)).
    rewrite bool_decide_false by done.
    erewrite bind_ok by exact Hrun1.
    erewrite bind_ok
      by (by apply (begin_left_spec _ _ s1 other eo fuel Ho1 ltac:(lia))).
    exact Hrun.
  - intros e He. by apply (holds_disjoint s' this other et' eo _ Ht' Ho' Hne),
      list_elem_of_fmap_2.
  - intros Hall.
    by apply (same_pairs_same_order compare_left compare_right left_irrefl
                left_trans s' this other et' eo Ht' Ho'), Hgood.
  - intros Hsome. rewrite (Hbad Hsome) in *. split; [done|].
    by rewrite (empty_spec _ _ s' this [] Ht').
Qed.

(** *** [operator==] and [operator!=] *)

Lemma same_pairs_sym es1 : ∀ es2,
  (∀ x y, eq_left x y = eq_left y x) → (∀ x y, eq_right x y = eq_right y x) →
  same_pairs eq_left eq_right es1 es2 = same_pairs eq_left eq_right es2 es1.
Proof.
  induction es1 as [|e1 es1 IH]; intros [|e2 es2] Hl Hr; try done.
  simpl. rewrite (Hl (e_left e1)), (Hr (e_right e1)), (IH es2 Hl Hr). done.
Qed.

(** [operator==] answers [false] for two bimaps with different numbers
    of nodes; it is reflexive when [operator==] of the keys is, and
    symmetric when [operator==] of the keys is; [operator!=] answers
    the contrary of [operator==].  Neither changes the memory. *)
Theorem equality_is_reflexive_and_symmetric s a b ea eb count fuel :
  holds s a ea → holds s b eb →
  length ea < count → length eb < count →
  length ea < fuel → length eb < fuel →
  (length ea ≠ length eb → equal count fuel a b s = Ok (false, s))
  ∧ ((∀ x, eq_left x x = true) → (∀ y, eq_right y y = true) →
     equal count fuel a a s = Ok (true, s))
  ∧ ((∀ x y, eq_left x y = eq_left y x) → (∀ x y, eq_right x y = eq_right y x) →
     equal count fuel a b s = equal count fuel b a s)
  ∧ ∃ r, equal count fuel a b s = Ok (r, s)
         ∧ not_equal eq_left eq_right count fuel a b s = Ok (negb r, s).
Proof.
  intros Ha Hb Hc1 Hc2 Hf1 Hf2.
  pose proof (equal_spec compare_left compare_right eq_left eq_right s a b ea eb
                count fuel Ha Hb Hc1 Hf1 Hf2) as Hab.
  split_and!.
  - intros Hne. rewrite Hab. by rewrite bool_decide_false.
  - intros Heql Heqr.
    rewrite (equal_spec compare_left compare_right eq_left eq_right s a a ea ea
               count fuel Ha Ha Hc1 Hf1 Hf1).
    rewrite bool_decide_true by done.
    by rewrite (same_pairs_refl eq_left eq_right ea ea Heql Heqr).
  - intros Hsl Hsr. rewrite Hab.
    rewrite (equal_spec compare_left compare_right eq_left eq_right s b a eb ea
               count fuel Hb Ha Hc2 Hf2 Hf1).
    rewrite (same_pairs_sym ea eb Hsl Hsr).
    do 3 f_equal. apply bool_decide_ext. split; by intros ->.
  - eexists. split; [exact Hab|]. unfold bimap.not_equal.
    by erewrite bind_ok by exact Hab.
Qed.

End bimap_copy.
End bimap_copy.

(** ** Further properties of the facade: [swap] *)

Module bimap_swap.
Import shape bimap contents building treap_facts treap_remove treap_order treap_iter.
Import treap_ops treap_cells bimap_facts bimap_update bimap_erase bimap_lookup.
Import bimap_build bimap_equal bimap_right bimap_ranges bimap_copy.
Section treap_swap.
Context {K : Type}.

Implicit Types (m : gmap nat (treap_node K)) (t : tree (K:=K)) (q : ptr).

Lemma is_treap_not_node m a b ta tb :
  is_treap m a ta → is_treap m b tb → a ∉ addrs tb.
Proof.
  intros ((pa & Hca) & _) (_ & Htb & _) Hin.
  destruct (is_tree_lookup _ _ _ _ Htb Hin) as (x & n & _ & _ & Hn & _ & Hk).
  rewrite Hca in Hn. by injection Hn as <-.
Qed.

Lemma is_treap_disjoint m a b ta tb x :
  is_treap m a ta → is_treap m b tb → a ≠ b →
  x ∈ addrs ta → x ∉ addrs tb.
Proof.
  intros Ha Hb Hne Hxa Hxb.
  pose proof (is_treap_not_node m a b ta tb Ha Hb) as Hab.
  pose proof (is_treap_not_node m b a tb ta Hb Ha) as Hba.
  destruct Ha as (_ & Hta & _), Hb as (_ & Htb & _).
  destruct (is_tree_overlap m ta _ _ tb x Hta Htb Hxa Hxb)
    as [[= ?]|[(c & [= <-] & Hc)|(c & [= <-] & Hc)]]; done.
Qed.

(** [treap::swap] exchanges the trees of two treaps. *)
Lemma treap_swap_spec m a b ta tb :
  is_treap m a ta → is_treap m b tb → a ≠ b →
  ∃ m',
    treap_swap a b m = Ok (tt, m')
    ∧ is_treap m' a tb ∧ is_treap m' b ta
    ∧ same_outside (a :: b :: addrs ta ++ addrs tb) m m'.
Proof.
  intros Ha Hb Hne.
  pose proof (is_treap_not_node m a b ta tb Ha Hb) as Hab.
  pose proof (is_treap_not_node m b a tb ta Hb Ha) as Hba.
  pose proof (is_treap_head_not_in _ _ _ Ha) as Haa.
  pose proof (is_treap_head_not_in _ _ _ Hb) as Hbb.
  pose proof (λ x, is_treap_disjoint m a b ta tb x Ha Hb Hne) as Hdis.
  destruct Ha as ((pa & Hca) & Hta & Hnda), Hb as ((pb & Hcb) & Htb & Hndb).
  unfold treap_swap.
  erewrite bind_ok by (eapply get_left_ok; exact Hca). cbn [left].
  erewrite bind_ok by (eapply get_left_ok; exact Hcb). cbn [left].
  erewrite bind_ok by (eapply set_left_ok; exact Hca).
  set (m1 := <[a := _]> m).
  assert (m1 !! a = Some (TreapNode pa (root tb) None None None)) as Hca1.
  { unfold m1. by rewrite lookup_insert_eq. }
  erewrite bind_ok by (eapply get_left_ok; exact Hca1). cbn [left].
  assert (is_tree m1 (Some b) tb) as Htb1.
  { eapply is_tree_frame; [|exact Htb]. intros x Hx. unfold m1.
    rewrite lookup_insert_ne; [done|]. by intros <-. }
  destruct (reparent_spec m1 (Some b) (Some a) tb Htb1 Hndb)
    as (m2 & Hrun2 & Htb2 & Hf2).
  erewrite bind_ok by exact Hrun2.
  assert (∀ x, x ∉ addrs tb → m2 !! x = m1 !! x) as Hf2'.
  { intros x Hx. apply Hf2. intros Hr. by apply root_in_addrs in Hr. }
  assert (m2 !! b = Some (TreapNode pb (root tb) None None None)) as Hcb2.
  { rewrite (Hf2' b Hbb). unfold m1. by rewrite lookup_insert_ne. }
  erewrite bind_ok by (eapply set_left_ok; exact Hcb2).
  set (m3 := <[b := _]> m2).
  assert (m3 !! b = Some (TreapNode pb (root ta) None None None)) as Hcb3.
  { unfold m3. by rewrite lookup_insert_eq. }
  erewrite bind_ok by (eapply get_left_ok; exact Hcb3). cbn [left].
  assert (is_tree m3 (Some a) ta) as Hta3.
  { eapply is_tree_frame; [|exact Hta]. intros x Hx. unfold m3.
    rewrite lookup_insert_ne by (by intros <-).
    rewrite (Hf2' x (Hdis x Hx)). unfold m1.
    rewrite lookup_insert_ne; [done|]. by intros <-. }
  destruct (reparent_spec m3 (Some a) (Some b) ta Hta3 Hnda)
    as (m4 & Hrun4 & Hta4 & Hf4).
  assert (∀ x, x ∉ addrs ta → m4 !! x = m3 !! x) as Hf4'.
  { intros x Hx. apply Hf4. intros Hr. by apply root_in_addrs in Hr. }
  exists m4. split_and!; [exact Hrun4| | |].
  - split_and!; [|  |done].
    + exists pa. rewrite (Hf4' a Haa). unfold m3.
      rewrite lookup_insert_ne by done. by rewrite (Hf2' a Hab).
    + eapply is_tree_frame; [|exact Htb2]. intros x Hx.
      rewrite Hf4'; [|intros Hxa; by apply (Hdis x)].
      unfold m3. rewrite lookup_insert_ne; [done|]. by intros <-.
  - split_and!; [| done |done].
    exists pb. by rewrite (Hf4' b Hba).
  - intros x Hx.
    rewrite Hf4' by (intros Hin; apply Hx; do 2 right; apply elem_of_app; by left).
    unfold m3. rewrite lookup_insert_ne by (intros <-; apply Hx; right; left).
    rewrite Hf2' by (intros Hin; apply Hx; do 2 right; apply elem_of_app; by right).
    unfold m1. rewrite lookup_insert_ne; [done|]. intros <-. apply Hx. left.
Qed.

End treap_swap.

Section bimap_swap.
Context {L R : Type}.
Variable compare_left : L → L → bool.
Variable compare_right : R → R → bool.

Implicit Types (s : store (L:=L) (R:=R)) (c : nat) (e : entry (L:=L) (R:=R)).
Implicit Types (es : list (entry (L:=L) (R:=R))).

Abbreviation holds := (holds compare_left compare_right).

(** [swap] exchanges the two treaps of two bimaps and leaves their
    [_size] members where they are: [size()] of each bimap is what it
    was, and the bimaps hold each other's nodes when the two [_size]
    are exchanged too; so two bimaps with the same number of nodes are
    exchanged. *)
Theorem swap_exchanges_trees_not_sizes s a b ea eb :
  holds s a ea → holds s b eb → a ≠ b →
  ∃ s',
    swap a b s = Ok (tt, s')
    ∧ size a s' = Ok (Z.of_nat (length ea), s')
    ∧ size b s' = Ok (Z.of_nat (length eb), s')
    ∧ (let s'' := Store (left_nodes s') (right_nodes s')
                        (<[a := Z.of_nat (length eb)]>
                           (<[b := Z.of_nat (length ea)]> (sizes s')))
                        (next_addr s') (rand_calls s') in
       holds s'' a eb ∧ holds s'' b ea)
    ∧ (length ea = length eb → holds s' a eb ∧ holds s' b ea).
Proof.
  intros Ha Hb Hne.
  destruct Ha as (tla & tra & Hla & Hra & Hila & Hira & Hbla & Hbra & Hsa & Hba).
  destruct Hb as (tlb & trb & Hlb & Hrb & Hilb & Hirb & Hblb & Hbrb & Hsb & Hbb).
  destruct (treap_swap_spec _ a b tla tlb Hla Hlb Hne)
    as (ml & Hrunl & Hla' & Hlb' & _).
  destruct (treap_swap_spec _ a b tra trb Hra Hrb Hne)
    as (mr & Hrunr & Hra' & Hrb' & _).
  eexists. split_and!.
  - unfold bimap.swap.
    erewrite bind_ok by (apply on_left_ok; exact Hrunl).
    apply on_right_ok. exact Hrunr.
  - unfold size. cbn [sizes]. by rewrite Hsa.
  - unfold size. cbn [sizes]. by rewrite Hsb.
  - cbn [left_nodes right_nodes sizes next_addr rand_calls]. split.
    + exists tlb, trb. cbn [left_nodes right_nodes sizes].
      split_and!; try done. by rewrite lookup_insert_eq.
    + exists tla, tra. cbn [left_nodes right_nodes sizes].
      split_and!; try done.
      rewrite lookup_insert_ne by done. by rewrite lookup_insert_eq.
  - intros Hlen. split.
    + exists tlb, trb. cbn [left_nodes right_nodes sizes].
      split_and!; try done. by rewrite Hsa, Hlen.
    + exists tla, tra. cbn [left_nodes right_nodes sizes].
      split_and!; try done. by rewrite Hsb, Hlen.
Qed.

End bimap_swap.
End bimap_swap.

(** ** [operator--] of the treap iterator *)

Module treap_decr.
Import treap shape treap_facts treap_remove treap_order treap_iter.
Section treap_decr.
Context {K : Type}.

Implicit Types (m : gmap nat (treap_node K)) (t l r : tree (K:=K)) (q : ptr).

Lemma items_bin_ne l (x : item (K:=K)) r : items (Bin l x r) ≠ [].
Proof. simpl. by destruct (items l). Qed.

Lemma rightmost_spec t : ∀ fuel m q x,
  is_tree m q t → last (items t) = Some x → height t ≤ fuel →
  rightmost fuel (root t) m = Ok (Some (addr x), m).
Proof.
  induction t as [|l IHl z r IHr]; intros fuel m q x Ht Hlast Hfuel; [done|].
  destruct Ht as (Hz & Hl & Hr). cbn [height] in Hfuel.
  destruct fuel as [|fuel]; [lia|]. cbn [rightmost root].
  erewrite bind_ok by (eapply get_right_ok; exact Hz). cbn [right].
  cbn [items] in Hlast. rewrite last_app, last_cons in Hlast.
  destruct r as [|rl y rr].
  - cbn [items last root] in *. by injection Hlast as <-.
  - cbn [root].
    change (Some (addr y)) with (root (Bin rl y rr)).
    eapply IHr; [exact Hr| |lia].
    destruct (last (items (Bin rl y rr))) eqn:Hl'; [done|].
    apply last_None in Hl'. by apply items_bin_ne in Hl'.
Qed.

Lemma climb_left_mono f : ∀ f' a b m res,
  climb_left f a b m = Ok res → f ≤ f' → climb_left f' a b m = Ok res.
Proof.
  induction f as [|f IH]; intros f' a b m res; [done|].
  intros Hrun Hle. destruct f' as [|f']; [lia|].
  simpl in *. destruct b as [b|]; [|done].
  destruct (get_left (Some b) m) as [[tl m']| |] eqn:Hl;
    unfold bind in *; rewrite Hl in *; [|done..].
  destruct (decide (a = tl)); [|done].
  destruct (get_parent (Some b) m') as [[tp m'']| |] eqn:Hp; [|done..].
  apply IH; [done|lia].
Qed.

(** One step of [climb_left] from the root of a left subtree. *)
Lemma climb_left_from_left m x l r q f res :
  m !! addr x = Some (TreapNode (prio x) (root l) (root r) q (Some (ikey x))) →
  climb_left f (Some (addr x)) q m = Ok res →
  climb_left (S f) (root l) (Some (addr x)) m = Ok res.
Proof.
  intros Hx Hrun. cbn [climb_left].
  erewrite bind_ok by (eapply get_left_ok; exact Hx). cbn [left].
  rewrite decide_True by done.
  erewrite bind_ok by (eapply get_parent_ok; exact Hx). done.
Qed.

(** [climb_left] stops at the root of a right subtree. *)
Lemma climb_left_from_right m x l r q f :
  m !! addr x = Some (TreapNode (prio x) (root l) (root r) q (Some (ikey x))) →
  root r ≠ root l →
  climb_left (S f) (root r) (Some (addr x)) m = Ok ((root r, Some (addr x)), m).
Proof.
  intros Hx Hne. cbn [climb_left].
  erewrite bind_ok by (eapply get_left_ok; exact Hx). cbn [left].
  by rewrite decide_False.
Qed.

(** The first node of a tree has no left child, and [climb_left] from
    it goes on as from the root of the tree. *)
Lemma decr_first t : ∀ m p x post,
  is_tree m (Some p) t → items t = x :: post →
  ∃ rx px,
    m !! addr x = Some (TreapNode (prio x) None rx (Some px) (Some (ikey x)))
    ∧ ∀ f res, climb_left f (root t) (Some p) m = Ok res →
               climb_left (height t + f) (Some (addr x)) (Some px) m = Ok res.
Proof.
  induction t as [|l IHl z r IHr]; intros m p x post Ht Hit; [done|].
  destruct Ht as (Hz & Hl & Hr). clear IHr. cbn [items] in Hit.
  destruct (items l) as [|x' k'] eqn:Hil.
  - assert (l = Leaf) as ->.
    { destruct l; [done|by apply items_bin_ne in Hil]. }
    cbn [app] in Hit. injection Hit as -> _.
    eexists _, _. split; [exact Hz|].
    intros f res Hrun. eapply climb_left_mono; [exact Hrun|lia].
  - cbn [app] in Hit. injection Hit as -> _.
    destruct (IHl m (addr z) x k' Hl eq_refl) as (rx & px & Hx & Hclimb).
    exists rx, px. split; [done|]. intros f res Hrun.
    eapply climb_left_mono;
      [apply Hclimb, (climb_left_from_left _ _ _ _ _ _ _ Hz Hrun)|].
    cbn [height]. lia.
Qed.

(** [--] from the least node of the right subtree of a node gives that
    node. *)
Lemma decr_to_root m l z r q x post fuel :
  m !! addr z = Some (TreapNode (prio z) (root l) (root r) q (Some (ikey z))) →
  is_tree m (Some (addr z)) r → NoDup (addrs (Bin l z r)) →
  items r = x :: post → height r < fuel →
  decr fuel (Some (addr x)) m = Ok (Some (addr z), m).
Proof.
  intros Hz Hr Hnd Hit Hfuel.
  apply NoDup_bin in Hnd as (Hdl & Hdr & Hzl & Hzr & Hlr).
  destruct (decr_first r m (addr z) x post Hr Hit) as (rx & px & Hx & Hclimb).
  destruct r as [|rl y rr]; [done|].
  assert (root (Bin rl y rr) ≠ root l) as Hne.
  { cbn [root]. intros Heq. symmetry in Heq. apply root_in_addrs in Heq.
    apply (Hlr _ Heq). rewrite addrs_bin. apply elem_of_app. right. left. }
  specialize (Hclimb 1 _ (climb_left_from_right _ _ _ _ _ 0 Hz Hne)).
  unfold decr.
  erewrite bind_ok by (eapply get_left_ok; exact Hx). cbn [left].
  erewrite bind_ok by (eapply get_parent_ok; exact Hx). cbn [parent].
  erewrite bind_ok by (eapply climb_left_mono; [exact Hclimb|lia]).
  cbv beta iota. destruct Hr as (Hy & _ & _). cbn [root].
  erewrite bind_ok by (eapply get_left_ok; exact Hy). cbn [left].
  rewrite decide_True; [done|].
  intros Heq. apply root_in_addrs in Heq.
  apply Hzr. rewrite addrs_bin. apply elem_of_app. by left.
Qed.

Lemma decr_next t : ∀ m p fuel pre y x post,
  is_tree m (Some p) t → NoDup (addrs t) → height t ≤ fuel →
  items t = pre ++ y :: x :: post →
  decr fuel (Some (addr x)) m = Ok (Some (addr y), m).
Proof.
  induction t as [|l IHl z r IHr]; intros m p fuel pre y x post Ht Hnd Hfuel Hit.
  { by destruct pre. }
  pose proof Ht as (Hz & Hl & Hr). cbn [height] in Hfuel. cbn [items] in Hit.
  pose proof Hnd as (Hdl & Hdr & _)%NoDup_bin.
  apply app_eq_inv in Hit as [(k & Hitl & Hk)|(k & Hpre & Hk)].
  - destruct k as [|y' [|x' k'']].
    + (* [y] is the root and [x] the first node of the right subtree *)
      simpl in Hk. injection Hk as -> Hitr.
      eapply decr_to_root; [exact Hz|exact Hr|exact Hnd|by symmetry|lia].
    + (* [x] is the root and [y] the last node of the left subtree *)
      simpl in Hk. injection Hk as -> -> _.
      unfold decr.
      erewrite bind_ok by (eapply get_left_ok; exact Hz). cbn [left].
      destruct l as [|ll w lr]; [by destruct pre|]. cbn [root].
      change (Some (addr w)) with (root (Bin ll w lr)).
      eapply rightmost_spec; [exact Hl| |lia].
      rewrite Hitl. apply last_snoc.
    + (* both are in the left subtree *)
      simpl in Hk. injection Hk as -> -> _.
      eapply (IHl m _ fuel pre y' x' k''); [exact Hl|done|lia|done].
  - destruct k as [|z' k'].
    + simpl in Hk. injection Hk as -> Hitr.
      eapply decr_to_root; [exact Hz|exact Hr|exact Hnd|by symmetry|lia].
    + (* both are in the right subtree *)
      simpl in Hk. injection Hk as <- Hitr.
      eapply (IHr m _ fuel k' y x post); [exact Hr|done|lia|done].
Qed.

(** [--] on the iterator on a node gives the iterator on the node
    before it, and the null iterator from the first node. *)
Lemma decr_spec c t fuel m pre x post :
  is_treap m c t → height t + 2 ≤ fuel →
  items t = pre ++ x :: post →
  decr fuel (Some (addr x)) m = Ok (addr <$> last pre, m).
Proof.
  intros Htreap Hfuel Hit.
  destruct Htreap as ((pc & Hc) & Ht & Hnd).
  destruct pre as [|y0 pre0] using rev_ind.
  - cbn [app last fmap option_fmap option_map] in *.
    destruct (decr_first t m c x post Ht Hit) as (rx & px & Hx & Hclimb).
    destruct t as [|l z r]; [done|].
    assert (climb_left 2 (root (Bin l z r)) (Some c) m = Ok ((Some c, None), m))
      as Hrun.
    { cbn [climb_left].
      erewrite bind_ok by (eapply get_left_ok; exact Hc). cbn [left].
      rewrite decide_True by done.
      by erewrite bind_ok by (eapply get_parent_ok; exact Hc). }
    apply Hclimb in Hrun. unfold decr.
    erewrite bind_ok by (eapply get_left_ok; exact Hx). cbn [left].
    erewrite bind_ok by (eapply get_parent_ok; exact Hx). cbn [parent].
    erewrite bind_ok by (eapply climb_left_mono; [exact Hrun|lia]).
    cbv beta iota.
    erewrite bind_ok by (eapply get_left_ok; exact Hc). cbn [left root].
    by rewrite decide_True.
  - clear IHpre0. rewrite last_snoc. cbn [fmap option_fmap option_map].
    rewrite <- app_assoc in Hit. cbn [app] in Hit.
    eapply (decr_next t m c fuel pre0 y0 x post); [exact Ht|done|lia|done].
Qed.

(** [--] on the end iterator gives the iterator on the last node, and
    the null iterator when the tree is empty. *)
Lemma decr_end c t fuel m :
  is_treap m c t → height t ≤ fuel →
  decr fuel (Some c) m = Ok (addr <$> last (items t), m).
Proof.
  intros ((pc & Hc) & Ht & _) Hfuel. unfold decr.
  erewrite bind_ok by (eapply get_left_ok; exact Hc). cbn [left].
  destruct t as [|l z r].
  - cbn [root]. by erewrite bind_ok by (eapply get_parent_ok; exact Hc).
  - destruct (last (items (Bin l z r))) as [x|] eqn:Hlast.
    + cbn [root fmap option_fmap option_map].
      change (Some (addr z)) with (root (Bin l z r)).
      by eapply rightmost_spec.
    + apply last_None in Hlast. by apply items_bin_ne in Hlast.
Qed.

End treap_decr.
End treap_decr.

(** ** Further properties of the facade: [operator--] *)

Module bimap_decrement.
Import shape bimap contents building treap_facts treap_remove treap_order treap_iter.
Import treap_ops treap_cells bimap_facts bimap_update bimap_erase bimap_lookup.
Import bimap_build bimap_equal bimap_right treap_decr.
Section bimap_decrement.
Context {L R : Type}.
Variable compare_left : L → L → bool.
Variable compare_right : R → R → bool.

Implicit Types (s : store (L:=L) (R:=R)) (c : nat) (e : entry (L:=L) (R:=R)).
Implicit Types (es : list (entry (L:=L) (R:=R))).

Abbreviation holds := (holds compare_left compare_right).
Abbreviation right_sorted es :=
  (StronglySorted (λ e1 e2, compare_right (e_right e1) (e_right e2) = true) es).

Lemma last_fmap_addr {K : Type} (f : entry (L:=L) (R:=R) → item (K:=K)) es :
  (∀ e, addr (f e) = e_addr e) →
  addr <$> last (f <$> es) = e_addr <$> last es.
Proof.
  intros Hf. rewrite fmap_last. destruct (last es); simpl; [|done].
  by rewrite Hf.
Qed.

Lemma decr_left_spec s c pre e post fuel :
  holds s c (pre ++ e :: post) → length (pre ++ e :: post) + 2 ≤ fuel →
  decr_left fuel (LeftIt (Some (e_addr e))) s
  = Ok (LeftIt (e_addr <$> last pre), s).
Proof.
  intros (tl & tr & Hl & _ & Hil & Hir & _) Hfuel.
  destruct (holds_height s c _ tl tr Hil Hir) as [Hhl _].
  unfold bimap.decr_left. erewrite bind_ok; [done|]. apply on_left_read.
  rewrite <- (last_fmap_addr left_item pre) by done.
  apply (decr_spec c tl fuel _ (left_item <$> pre) (left_item e)
           (left_item <$> post) Hl ltac:(lia)).
  by rewrite Hil, fmap_app.
Qed.

Lemma decr_left_end s c es fuel :
  holds s c es → length es ≤ fuel →
  decr_left fuel (end_left c) s = Ok (LeftIt (e_addr <$> last es), s).
Proof.
  intros (tl & tr & Hl & _ & Hil & Hir & _) Hfuel.
  destruct (holds_height s c _ tl tr Hil Hir) as [Hhl _].
  unfold bimap.decr_left. erewrite bind_ok; [done|]. apply on_left_read.
  rewrite <- (last_fmap_addr left_item es) by done. rewrite <- Hil.
  apply decr_end; [done|lia].
Qed.

Hypothesis right_irrefl : ∀ x, compare_right x x = false.
Hypothesis right_trans : ∀ x y z,
  compare_right x y = true → compare_right y z = true → compare_right x z = true.

Local Abbreviation holds_right_order :=
  (holds_right_order compare_left compare_right right_irrefl right_trans).
Local Abbreviation incr_right_spec :=
  (incr_right_spec compare_left compare_right right_irrefl right_trans).

Lemma decr_right_spec s c es pre e post fuel :
  holds s c es → pre ++ e :: post ≡ₚ es → right_sorted (pre ++ e :: post) →
  length es + 2 ≤ fuel →
  decr_right fuel (RightIt (Some (e_addr e))) s
  = Ok (RightIt (e_addr <$> last pre), s).
Proof using right_irrefl right_trans.
  intros Hh Hperm Hs Hfuel.
  destruct (holds_right_order s c es _ Hh Hperm Hs) as (tr & Hr & Hit & _).
  unfold bimap.decr_right. erewrite bind_ok; [done|]. apply on_right_read.
  rewrite <- (last_fmap_addr right_item pre) by done.
  apply (decr_spec c tr fuel _ (right_item <$> pre) (right_item e)
           (right_item <$> post) Hr).
  - pose proof (height_le_length tr) as Hle.
    rewrite Hit, length_fmap, Hperm in Hle. lia.
  - by rewrite Hit, fmap_app.
Qed.

Lemma decr_right_end s c es es' fuel :
  holds s c es → es' ≡ₚ es → right_sorted es' → length es ≤ fuel →
  decr_right fuel (end_right c) s = Ok (RightIt (e_addr <$> last es'), s).
Proof using right_irrefl right_trans.
  intros Hh Hperm Hs Hfuel.
  destruct (holds_right_order s c es _ Hh Hperm Hs) as (tr & Hr & Hit & _).
  unfold bimap.decr_right. erewrite bind_ok; [done|]. apply on_right_read.
  rewrite <- (last_fmap_addr right_item es') by done. rewrite <- Hit.
  apply decr_end; [done|].
  pose proof (height_le_length tr) as Hle.
  rewrite Hit, length_fmap, Hperm in Hle. lia.
Qed.

(** [--] steps back in the order of the side: on the iterator on a
    node it gives the iterator on the node before it, the null iterator
    from the first node; on the end iterator it gives the iterator on
    the last node.  It undoes [++]: [--(++it)] is [it] for the iterator
    [it] on any node, the last one included. *)
Theorem decrement_undoes_increment s c es es' fuel :
  holds s c es → es' ≡ₚ es → right_sorted es' → length es + 2 ≤ fuel →
  (∀ pre e post, es = pre ++ e :: post →
     decr_left fuel (LeftIt (Some (e_addr e))) s
     = Ok (LeftIt (e_addr <$> last pre), s)
     ∧ ∃ it, incr_left fuel (LeftIt (Some (e_addr e))) s = Ok (it, s)
             ∧ decr_left fuel it s = Ok (LeftIt (Some (e_addr e)), s))
  ∧ decr_left fuel (end_left c) s = Ok (LeftIt (e_addr <$> last es), s)
  ∧ (∀ pre e post, es' = pre ++ e :: post →
     decr_right fuel (RightIt (Some (e_addr e))) s
     = Ok (RightIt (e_addr <$> last pre), s)
     ∧ ∃ it, incr_right fuel (RightIt (Some (e_addr e))) s = Ok (it, s)
             ∧ decr_right fuel it s = Ok (RightIt (Some (e_addr e)), s))
  ∧ decr_right fuel (end_right c) s = Ok (RightIt (e_addr <$> last es'), s).
Proof using right_irrefl right_trans.
  intros Hh Hperm Hs Hfuel. split_and!.
  - intros pre e post ->. split; [by apply (decr_left_spec s c pre e post)|].
    eexists. split.
    { apply (incr_left_spec _ _ s c pre e post fuel Hh). lia. }
    destruct post as [|e' post]; cbn [fmap list_fmap first_ptr].
    + change (LeftIt (Some c)) with (end_left c).
      rewrite (decr_left_end s c _ fuel Hh ltac:(lia)). by rewrite last_snoc.
    + change (addr (left_item e')) with (e_addr e').
      assert (pre ++ e :: e' :: post = (pre ++ [e]) ++ e' :: post) as Heq.
      { by rewrite <- app_assoc. }
      rewrite Heq in Hh, Hfuel.
      rewrite (decr_left_spec s c _ e' post fuel Hh Hfuel).
      by rewrite last_snoc.
  - apply decr_left_end; [done|lia].
  - intros pre e post ->. split; [by apply (decr_right_spec s c es pre e post)|].
    eexists. split.
    { apply (incr_right_spec s c es pre e post fuel Hh Hperm Hs). lia. }
    destruct post as [|e' post]; cbn [fmap list_fmap first_ptr].
    + change (RightIt (Some c)) with (end_right c).
      rewrite (decr_right_end s c es _ fuel Hh Hperm Hs ltac:(lia)).
      by rewrite last_snoc.
    + change (addr (right_item e')) with (e_addr e').
      assert (pre ++ e :: e' :: post = (pre ++ [e]) ++ e' :: post) as Heq.
      { by rewrite <- app_assoc. }
      rewrite Heq in Hperm, Hs.
      rewrite (decr_right_spec s c es _ e' post fuel Hh Hperm Hs Hfuel).
      by rewrite last_snoc.
  - apply (decr_right_end s c es); [done..|lia].
Qed.

End bimap_decrement.
End bimap_decrement.

(** ** Facts on the examples *)

Module example_more.
Import shape bimap contents building example example_facts.

Lemma tree_1_3_is_treap : is_treap treap_1_3 0 tree_1_3.
Proof.
  split_and!; [by eexists|done|].
  apply (bool_decide_unpack _). vm_compute. reflexivity.
Qed.

Lemma tree_1_3_is_treap_and_nodes : is_treap treap_1_3_and_nodes 0 tree_1_3.
Proof.
  split_and!; [by eexists|done|].
  apply (bool_decide_unpack _). vm_compute. reflexivity.
Qed.

Lemma tree_1_3_bst : bst Nat.ltb tree_1_3.
Proof. repeat constructor. Qed.

Lemma tree_1_3_heap_ordered : heap_ordered tree_1_3.
Proof.
  simpl. split_and!; try done; repeat (apply Forall_cons; split; [simpl; lia|]);
    apply Forall_nil_2.
Qed.

Lemma one_pair_allocated : allocated_below one_pair.
Proof.
  apply allocated_below_check;
    apply (bool_decide_unpack _); vm_compute; reflexivity.
Qed.

Lemma two_pairs_allocated : allocated_below two_pairs.
Proof.
  apply allocated_below_check;
    apply (bool_decide_unpack _); vm_compute; reflexivity.
Qed.

Lemma two_objects_allocated : allocated_below two_objects.
Proof.
  apply allocated_below_check;
    apply (bool_decide_unpack _); vm_compute; reflexivity.
Qed.

Lemma two_pairs_holds : holds Nat.ltb Nat.ltb two_pairs 0 [node_1_20; node_2_10].
Proof.
  exists (Bin Leaf (Item 1 98 1) (Bin Leaf (Item 2 96 2) Leaf)),
    (Bin (Bin Leaf (Item 2 95 10) Leaf) (Item 1 97 20) Leaf).
  split_and!.
  - split_and!; [by eexists|done|].
    apply (bool_decide_unpack _). vm_compute. reflexivity.
  - split_and!; [by eexists|done|].
    apply (bool_decide_unpack _). vm_compute. reflexivity.
  - done.
  - apply perm_swap.
  - repeat constructor.
  - repeat constructor.
  - done.
  - done.
Qed.

Lemma two_pairs_right_order :
  [node_2_10; node_1_20] ≡ₚ [node_1_20; node_2_10]
  ∧ StronglySorted (λ e1 e2, Nat.ltb (e_right e1) (e_right e2) = true)
      [node_2_10; node_1_20].
Proof. split; [apply perm_swap|repeat constructor]. Qed.

Lemma two_objects_holds_0 : holds Nat.ltb Nat.ltb two_objects 0 [node_1_10].
Proof.
  exists (Bin Leaf (Item 1 98 1) Leaf), (Bin Leaf (Item 1 97 10) Leaf).
  split_and!.
  - split_and!; [by eexists|done|apply NoDup_singleton].
  - split_and!; [by eexists|done|apply NoDup_singleton].
  - done.
  - done.
  - repeat constructor.
  - repeat constructor.
  - done.
  - done.
Qed.

Lemma two_objects_holds_2 : holds Nat.ltb Nat.ltb two_objects 2 [].
Proof.
  exists Leaf, Leaf.
  split_and!.
  - split_and!; [by eexists|done|apply NoDup_nil_2].
  - split_and!; [by eexists|done|apply NoDup_nil_2].
  - done.
  - done.
  - constructor.
  - constructor.
  - done.
  - done.
Qed.

Lemma two_bimaps_allocated : allocated_below two_bimaps.
Proof.
  apply allocated_below_check;
    apply (bool_decide_unpack _); vm_compute; reflexivity.
Qed.

Lemma two_bimaps_holds_0 : holds Nat.ltb Nat.ltb two_bimaps 0 [node_1_10].
Proof.
  exists (Bin Leaf (Item 1 98 1) Leaf), (Bin Leaf (Item 1 97 10) Leaf).
  split_and!.
  - split_and!; [by eexists|done|apply NoDup_singleton].
  - split_and!; [by eexists|done|apply NoDup_singleton].
  - done.
  - done.
  - repeat constructor.
  - repeat constructor.
  - done.
  - done.
Qed.

Lemma two_bimaps_holds_2 : holds Nat.ltb Nat.ltb two_bimaps 2 [node_5_50].
Proof.
  exists (Bin Leaf (Item 3 94 5) Leaf), (Bin Leaf (Item 3 93 50) Leaf).
  split_and!.
  - split_and!; [by eexists|done|apply NoDup_singleton].
  - split_and!; [by eexists|done|apply NoDup_singleton].
  - done.
  - done.
  - repeat constructor.
  - repeat constructor.
  - done.
  - done.
Qed.

End example_more.

(** ** The further properties on the examples *)

Module example_props.
Import shape bimap contents building example example_facts example_more.
Import treap_props bimap_props bimap_order bimap_ranges bimap_copy bimap_swap.
Import bimap_decrement.

(** *** The treap engine *)

Lemma split_partitions_by_key_witness :
  is_tree treap_1_3 (Some 0) tree_1_3
  ∧ NoDup (addrs tree_1_3)
  ∧ bst Nat.ltb tree_1_3
  ∧ height tree_1_3 < 10
  ∧ ∃ m' t1 t2,
      treap.split Nat.ltb 10 (root tree_1_3) 2 treap_1_3
      = Ok ((root t1, root t2), m')
      ∧ items t1 ++ items t2 = items tree_1_3
      ∧ (∀ y, y ∈ items t1 → (ikey y <? 2) = true)
      ∧ (∀ y, y ∈ items t2 → (ikey y <? 2) = false).
Proof.
  destruct tree_1_3_is_treap as (_ & Ht & Hnd).
  assert (height tree_1_3 < 10) as Hfuel by (simpl; lia).
  split_and!; [exact Ht|exact Hnd|exact tree_1_3_bst|exact Hfuel|].
  destruct (split_partitions_by_key Nat.ltb ltb_irrefl ltb_trans 2 tree_1_3 10
              treap_1_3 (Some 0) Ht Hnd tree_1_3_bst Hfuel)
    as (m' & t1 & t2 & q1 & q2 & Hrun & _ & _ & Hit & Hk1 & Hk2 & _).
  exists m', t1, t2. split_and!; [exact Hrun|exact Hit|exact Hk1|exact Hk2].
Defined.

Lemma merge_concatenates_witness :
  is_tree treap_1_3_and_nodes None (Bin Leaf (Item 3 7 2) Leaf)
  ∧ is_tree treap_1_3_and_nodes None (Bin Leaf (Item 4 8 7) Leaf)
  ∧ NoDup (addrs (Bin Leaf (Item 3 7 2) Leaf) ++ addrs (Bin Leaf (Item 4 8 7) Leaf))
  ∧ height (Bin Leaf (Item 3 7 2) Leaf) + height (Bin Leaf (Item 4 8 7) Leaf) < 10
  ∧ ∃ m' t q,
      treap.merge 10 (Some 3) (Some 4) treap_1_3_and_nodes = Ok (root t, m')
      ∧ is_tree m' q t
      ∧ items t = [Item 3 7 2; Item 4 8 7].
Proof.
  assert (is_tree treap_1_3_and_nodes None (Bin Leaf (Item 3 7 2) Leaf)) as H1
    by done.
  assert (is_tree treap_1_3_and_nodes None (Bin Leaf (Item 4 8 7) Leaf)) as H2
    by done.
  assert (NoDup (addrs (Bin Leaf (Item 3 7 2) Leaf)
                 ++ addrs (Bin Leaf (Item 4 8 7) Leaf))) as Hnd.
  { apply (bool_decide_unpack _). vm_compute. reflexivity. }
  assert (height (Bin Leaf (Item 3 7 2) Leaf)
          + height (Bin Leaf (Item 4 8 7) Leaf) < 10) as Hfuel by (simpl; lia).
  split_and!; [exact H1|exact H2|exact Hnd|exact Hfuel|].
  destruct (merge_concatenates _ _ 10 treap_1_3_and_nodes None None H1 H2 Hnd Hfuel)
    as (m' & t & q & Hrun & Ht & Hit & _).
  exists m', t, q. split_and!; [exact Hrun|exact Ht|exact Hit].
Defined.

Lemma insert_keeps_search_tree_and_heap_witness :
  is_treap treap_1_3_and_nodes 0 tree_1_3
  ∧ bst Nat.ltb tree_1_3
  ∧ treap_1_3_and_nodes !! 3 = Some (TreapNode 7 None None None (Some 2))
  ∧ 3 ∉ addrs tree_1_3
  ∧ (∀ y, y ∈ items tree_1_3 → ¬ equiv_key Nat.ltb (ikey y) 2)
  ∧ 2 * height tree_1_3 + 2 < 10
  ∧ ∃ m' t' i1 i2,
      treap.insert Nat.ltb 0 10 (Some 3) treap_1_3_and_nodes = Ok (Some 3, m')
      ∧ is_treap m' 0 t' ∧ bst Nat.ltb t' ∧ heap_ordered t'
      ∧ items tree_1_3 = i1 ++ i2 ∧ items t' = i1 ++ Item 3 7 2 :: i2.
Proof.
  assert (treap_1_3_and_nodes !! 3 = Some (TreapNode 7 None None None (Some 2)))
    as Hcell by done.
  assert (3 ∉ addrs tree_1_3) as Hfresh.
  { apply (bool_decide_unpack _). vm_compute. reflexivity. }
  assert (∀ y, y ∈ items tree_1_3 → ¬ equiv_key Nat.ltb (ikey y) 2) as Hno.
  { intros y Hy [H1 H2]. simpl in Hy.
    apply elem_of_cons in Hy as [->|Hy]; [discriminate H1|].
    apply elem_of_cons in Hy as [->|Hy]; [discriminate H2|].
    by apply elem_of_nil in Hy. }
  assert (2 * height tree_1_3 + 2 < 10) as Hfuel by (simpl; lia).
  split_and!; [exact tree_1_3_is_treap_and_nodes|exact tree_1_3_bst|exact Hcell
              |exact Hfresh|exact Hno|exact Hfuel|].
  destruct (insert_keeps_search_tree_and_heap Nat.ltb ltb_irrefl ltb_trans 0
              tree_1_3 3 7%N 2 None 10 treap_1_3_and_nodes
              tree_1_3_is_treap_and_nodes tree_1_3_bst Hcell Hfresh Hno Hfuel)
    as (m' & t' & i1 & i2 & Hrun & Ht' & Hb' & Hh' & Hi & Hi' & _).
  exists m', t', i1, i2.
  split_and!; [exact Hrun|exact Ht'|exact Hb'|exact (Hh' tree_1_3_heap_ordered)
              |exact Hi|exact Hi'].
Defined.

Lemma remove_of_stored_key_unlinks_node_witness :
  is_treap treap_1_3 0 tree_1_3
  ∧ bst Nat.ltb tree_1_3
  ∧ items tree_1_3 = [Item 1 10 1] ++ Item 2 5 3 :: []
  ∧ 2 * height tree_1_3 + 2 < 10
  ∧ ∃ m' it t',
      treap.remove Nat.ltb 0 10 3 treap_1_3 = Ok (it, m')
      ∧ is_treap m' 0 t' ∧ bst Nat.ltb t'
      ∧ items t' = [Item 1 10 1] ++ [].
Proof.
  assert (items tree_1_3 = [Item 1 10 1] ++ Item 2 5 3 :: []) as Hit by done.
  assert (2 * height tree_1_3 + 2 < 10) as Hfuel by (simpl; lia).
  split_and!; [exact tree_1_3_is_treap|exact tree_1_3_bst|exact Hit|exact Hfuel|].
  destruct (remove_of_stored_key_unlinks_node Nat.ltb ltb_irrefl ltb_trans 0
              tree_1_3 (Item 2 5 3) [Item 1 10 1] [] 10 treap_1_3
              tree_1_3_is_treap tree_1_3_bst Hit Hfuel)
    as (m' & it & t' & Hrun & Ht' & Hb' & _ & Hi' & _).
  exists m', it, t'. split_and!; [exact Hrun|exact Ht'|exact Hb'|exact Hi'].
Defined.

(** *** The facade *)

Ltac absent :=
  let e := fresh "e" in
  let He := fresh "He" in
  let H1 := fresh "H1" in
  let H2 := fresh "H2" in
  intros e He [H1 H2];
  repeat (apply elem_of_cons in He as [->|He];
          [first [discriminate H1|discriminate H2]|]);
  by apply elem_of_nil in He.

Lemma find_returns_stored_node_or_end_witness :
  holds Nat.ltb Nat.ltb two_pairs 0 [node_1_20; node_2_10]
  ∧ length [node_1_20; node_2_10] < 10
  ∧ ((∃ e, e ∈ [node_1_20; node_2_10] ∧ equiv_left Nat.ltb (e_left e) 2
           ∧ find_left Nat.ltb 0 10 2 two_pairs
             = Ok (LeftIt (Some (e_addr e)), two_pairs)
           ∧ LeftIt (Some (e_addr e)) ≠ end_left 0)
     ∨ ((∀ e, e ∈ [node_1_20; node_2_10] → ¬ equiv_left Nat.ltb (e_left e) 2)
        ∧ find_left Nat.ltb 0 10 2 two_pairs = Ok (end_left 0, two_pairs))).
Proof.
  assert (length [node_1_20; node_2_10] < 10) as Hfuel by (simpl; lia).
  split_and!; [exact two_pairs_holds|exact Hfuel|].
  exact (proj1 (find_returns_stored_node_or_end Nat.ltb Nat.ltb ltb_irrefl
                  ltb_trans ltb_irrefl ltb_trans two_pairs 0 _ 10
                  two_pairs_holds Hfuel) 2).
Defined.

Lemma at_returns_partner_or_throws_witness :
  holds Nat.ltb Nat.ltb two_pairs 0 [node_1_20; node_2_10]
  ∧ length [node_1_20; node_2_10] < 10
  ∧ ((∃ e, e ∈ [node_1_20; node_2_10] ∧ equiv_left Nat.ltb (e_left e) 5
           ∧ at_left Nat.ltb 0 10 5 two_pairs = Ok (Some (e_right e), two_pairs))
     ∨ ((∀ e, e ∈ [node_1_20; node_2_10] → ¬ equiv_left Nat.ltb (e_left e) 5)
        ∧ at_left Nat.ltb 0 10 5 two_pairs = Ok (None, two_pairs))).
Proof.
  assert (length [node_1_20; node_2_10] < 10) as Hfuel by (simpl; lia).
  split_and!; [exact two_pairs_holds|exact Hfuel|].
  exact (proj1 (at_returns_partner_or_throws Nat.ltb Nat.ltb ltb_irrefl
                  ltb_trans ltb_irrefl ltb_trans two_pairs 0 _ 10
                  two_pairs_holds Hfuel) 5).
Defined.

Lemma at_right_inverts_at_left_witness :
  holds Nat.ltb Nat.ltb two_pairs 0 [node_1_20; node_2_10]
  ∧ length [node_1_20; node_2_10] < 10
  ∧ at_left Nat.ltb 0 10 1 two_pairs = Ok (Some 20, two_pairs)
  ∧ ∃ l, at_right Nat.ltb 0 10 20 two_pairs = Ok (Some l, two_pairs)
         ∧ equiv_left Nat.ltb l 1
         ∧ at_left Nat.ltb 0 10 l two_pairs = Ok (Some 20, two_pairs).
Proof.
  assert (length [node_1_20; node_2_10] < 10) as Hfuel by (simpl; lia).
  assert (at_left Nat.ltb 0 10 1 two_pairs = Ok (Some 20, two_pairs)) as Hat
    by reflexivity.
  split_and!; [exact two_pairs_holds|exact Hfuel|exact Hat|].
  exact (proj1 (at_right_inverts_at_left Nat.ltb Nat.ltb ltb_irrefl
                  ltb_trans ltb_irrefl ltb_trans two_pairs 0 _ 10
                  two_pairs_holds Hfuel) 1 20 Hat).
Defined.

Lemma insert_of_new_keys_adds_pair_witness :
  holds Nat.ltb Nat.ltb two_pairs 0 [node_1_20; node_2_10]
  ∧ allocated_below two_pairs
  ∧ (∀ e, e ∈ [node_1_20; node_2_10] → ¬ equiv_left Nat.ltb (e_left e) 3)
  ∧ (∀ e, e ∈ [node_1_20; node_2_10] → ¬ equiv_right Nat.ltb (e_right e) 30)
  ∧ (Z.of_nat (length [node_1_20; node_2_10]) + 1 < size_t_max)%Z
  ∧ 2 * length [node_1_20; node_2_10] + 2 < 10
  ∧ ∃ s' es1 es2 new,
      bimap.insert Nat.ltb Nat.ltb rnd 0 10 3 30 two_pairs
      = Ok (LeftIt (Some (e_addr new)), s')
      ∧ pair_of new = (3, 30)
      ∧ [node_1_20; node_2_10] = es1 ++ es2
      ∧ holds Nat.ltb Nat.ltb s' 0 (es1 ++ new :: es2)
      ∧ size 0 s' = Ok (3%Z, s').
Proof.
  assert (∀ e, e ∈ [node_1_20; node_2_10] → ¬ equiv_left Nat.ltb (e_left e) 3)
    as Hl by absent.
  assert (∀ e, e ∈ [node_1_20; node_2_10] → ¬ equiv_right Nat.ltb (e_right e) 30)
    as Hr by absent.
  assert (Z.of_nat (length [node_1_20; node_2_10]) + 1 < size_t_max)%Z as Hbound
    by (vm_compute; reflexivity).
  assert (2 * length [node_1_20; node_2_10] + 2 < 10) as Hfuel by (simpl; lia).
  split_and!; [exact two_pairs_holds|exact two_pairs_allocated|exact Hl|exact Hr
              |exact Hbound|exact Hfuel|].
  destruct (insert_of_new_keys_adds_pair Nat.ltb Nat.ltb rnd ltb_irrefl
              ltb_trans ltb_irrefl ltb_trans two_pairs 0 _ 3 30 10
              two_pairs_holds two_pairs_allocated Hl Hr Hbound Hfuel)
    as (s' & es1 & es2 & new & Hrun & _ & Hpair & Hes & Hh & Hsize & _).
  exists s', es1, es2, new.
  split_and!; [exact Hrun|exact Hpair|exact Hes|exact Hh|exact Hsize].
Defined.

Lemma erase_left_returns_successor_witness :
  holds Nat.ltb Nat.ltb two_pairs 0 ([] ++ node_1_20 :: [node_2_10])
  ∧ 2 * length ([] ++ node_1_20 :: [node_2_10]) + 2 < 10
  ∧ ∃ s',
      erase_left Nat.ltb Nat.ltb 0 10 (LeftIt (Some 1)) two_pairs
      = Ok (LeftIt (Some 2), s')
      ∧ holds Nat.ltb Nat.ltb s' 0 ([] ++ [node_2_10])
      ∧ size 0 s' = Ok (1%Z, s').
Proof.
  assert (2 * length ([] ++ node_1_20 :: [node_2_10]) + 2 < 10) as Hfuel
    by (simpl; lia).
  split_and!; [exact two_pairs_holds|exact Hfuel|].
  exact (erase_left_returns_successor Nat.ltb Nat.ltb ltb_irrefl ltb_trans
           ltb_irrefl ltb_trans two_pairs 0 [] node_1_20 [node_2_10] 10
           two_pairs_holds Hfuel).
Defined.

Lemma erase_of_absent_key_returns_false_witness :
  holds Nat.ltb Nat.ltb two_pairs 0 [node_1_20; node_2_10]
  ∧ length [node_1_20; node_2_10] < 10
  ∧ (∀ e, e ∈ [node_1_20; node_2_10] → ¬ equiv_left Nat.ltb (e_left e) 5)
  ∧ erase_left_key Nat.ltb Nat.ltb 0 10 5 two_pairs = Ok (false, two_pairs).
Proof.
  assert (length [node_1_20; node_2_10] < 10) as Hfuel by (simpl; lia).
  assert (∀ e, e ∈ [node_1_20; node_2_10] → ¬ equiv_left Nat.ltb (e_left e) 5)
    as Hno by absent.
  split_and!; [exact two_pairs_holds|exact Hfuel|exact Hno|].
  exact (proj1 (erase_of_absent_key_returns_false Nat.ltb Nat.ltb ltb_irrefl
                  ltb_trans ltb_irrefl ltb_trans two_pairs 0 _ 10
                  two_pairs_holds Hfuel) 5 Hno).
Defined.

Lemma or_default_of_stored_key_reads_witness :
  holds Nat.ltb Nat.ltb two_pairs 0 [node_1_20; node_2_10]
  ∧ length [node_1_20; node_2_10] < 10
  ∧ node_1_20 ∈ [node_1_20; node_2_10]
  ∧ at_left_or_default Nat.ltb Nat.ltb 0 rnd 0 10 1 two_pairs
    = Ok (20, two_pairs).
Proof.
  assert (length [node_1_20; node_2_10] < 10) as Hfuel by (simpl; lia).
  assert (node_1_20 ∈ [node_1_20; node_2_10]) as Hin by apply list_elem_of_here.
  split_and!; [exact two_pairs_holds|exact Hfuel|exact Hin|].
  exact (proj1 (proj2 (or_default_of_stored_key_reads Nat.ltb Nat.ltb 0 0 rnd
                         ltb_irrefl ltb_trans ltb_irrefl ltb_trans two_pairs 0 _
                         10 two_pairs_holds Hfuel)) node_1_20 Hin).
Defined.

Lemma or_default_of_absent_key_inserts_witness :
  holds Nat.ltb Nat.ltb two_pairs 0 [node_1_20; node_2_10]
  ∧ allocated_below two_pairs
  ∧ (Z.of_nat (length [node_1_20; node_2_10]) + 1 < size_t_max)%Z
  ∧ 2 * length [node_1_20; node_2_10] + 2 < 10
  ∧ (∀ e, e ∈ [node_1_20; node_2_10] → ¬ equiv_left Nat.ltb (e_left e) 3)
  ∧ (∀ e, e ∈ [node_1_20; node_2_10] → ¬ equiv_right Nat.ltb (e_right e) 0)
  ∧ ∃ s' es1 es2 new,
      at_left_or_default Nat.ltb Nat.ltb 0 rnd 0 10 3 two_pairs = Ok (0, s')
      ∧ pair_of new = (3, 0)
      ∧ [node_1_20; node_2_10] = es1 ++ es2
      ∧ holds Nat.ltb Nat.ltb s' 0 (es1 ++ new :: es2)
      ∧ size 0 s' = Ok (3%Z, s').
Proof.
  assert (Z.of_nat (length [node_1_20; node_2_10]) + 1 < size_t_max)%Z as Hbound
    by (vm_compute; reflexivity).
  assert (2 * length [node_1_20; node_2_10] + 2 < 10) as Hfuel by (simpl; lia).
  assert (∀ e, e ∈ [node_1_20; node_2_10] → ¬ equiv_left Nat.ltb (e_left e) 3)
    as Hk by absent.
  assert (∀ e, e ∈ [node_1_20; node_2_10] → ¬ equiv_right Nat.ltb (e_right e) 0)
    as Hd by absent.
  split_and!; [exact two_pairs_holds|exact two_pairs_allocated|exact Hbound
              |exact Hfuel|exact Hk|exact Hd|].
  exact (proj1 (or_default_of_absent_key_inserts Nat.ltb Nat.ltb 0 0 rnd
                  ltb_irrefl ltb_trans ltb_irrefl ltb_trans two_pairs 0 _ 10
                  two_pairs_holds two_pairs_allocated Hbound Hfuel) 3 Hk Hd).
Defined.

Lemma left_walk_is_increasing_witness :
  holds Nat.ltb Nat.ltb two_pairs 0 [node_1_20; node_2_10]
  ∧ length [node_1_20; node_2_10] < 10
  ∧ begin_left 0 10 two_pairs = Ok (LeftIt (Some 1), two_pairs)
  ∧ incr_left 10 (LeftIt (Some 1)) two_pairs = Ok (LeftIt (Some 2), two_pairs)
  ∧ incr_left 10 (LeftIt (Some 2)) two_pairs = Ok (end_left 0, two_pairs)
  ∧ incr_left 10 (end_left 0) two_pairs = Ok (end_left 0, two_pairs).
Proof.
  assert (length [node_1_20; node_2_10] < 10) as Hfuel by (simpl; lia).
  destruct (left_walk_is_increasing Nat.ltb Nat.ltb two_pairs 0 _ 10
              two_pairs_holds Hfuel) as (Hb & Hstep & Hend).
  split_and!; [exact two_pairs_holds|exact Hfuel|exact Hb| | |exact Hend].
  - exact (proj1 (proj2 (Hstep [] node_1_20 [node_2_10] eq_refl))).
  - exact (proj1 (proj2 (Hstep [node_1_20] node_2_10 [] eq_refl))).
Defined.

Lemma constructed_bimap_is_empty_witness :
  allocated_below two_pairs
  ∧ 0 < 10
  ∧ ∃ c s',
      construct rnd two_pairs = Ok (c, s')
      ∧ holds Nat.ltb Nat.ltb s' c []
      ∧ size c s' = Ok (0%Z, s')
      ∧ begin_left c 10 s' = Ok (end_left c, s')
      ∧ at_left Nat.ltb c 10 1 s' = Ok (None, s').
Proof.
  assert (0 < 10) as Hfuel by lia.
  split_and!; [exact two_pairs_allocated|exact Hfuel|].
  destruct (constructed_bimap_is_empty Nat.ltb Nat.ltb rnd ltb_irrefl ltb_trans
              ltb_irrefl ltb_trans two_pairs 10 two_pairs_allocated Hfuel)
    as (c & s' & Hrun & Hh & Hsize & _ & Hb & _ & Hl & _).
  exists c, s'.
  split_and!; [exact Hrun|exact Hh|exact Hsize|exact Hb|exact (proj2 (Hl 1))].
Defined.

Lemma erase_undoes_insert_witness :
  holds Nat.ltb Nat.ltb two_pairs 0 [node_1_20; node_2_10]
  ∧ allocated_below two_pairs
  ∧ (∀ e, e ∈ [node_1_20; node_2_10] → ¬ equiv_left Nat.ltb (e_left e) 3)
  ∧ (∀ e, e ∈ [node_1_20; node_2_10] → ¬ equiv_right Nat.ltb (e_right e) 30)
  ∧ (Z.of_nat (length [node_1_20; node_2_10]) + 1 < size_t_max)%Z
  ∧ 2 * length [node_1_20; node_2_10] + 4 < 10
  ∧ ∃ it s1,
      bimap.insert Nat.ltb Nat.ltb rnd 0 10 3 30 two_pairs = Ok (it, s1)
      ∧ ∃ s2, erase_left_key Nat.ltb Nat.ltb 0 10 3 s1 = Ok (true, s2)
              ∧ holds Nat.ltb Nat.ltb s2 0 [node_1_20; node_2_10]
              ∧ size 0 s2 = Ok (Z.of_nat (length [node_1_20; node_2_10]), s2).
Proof.
  assert (∀ e, e ∈ [node_1_20; node_2_10] → ¬ equiv_left Nat.ltb (e_left e) 3)
    as Hl by absent.
  assert (∀ e, e ∈ [node_1_20; node_2_10] → ¬ equiv_right Nat.ltb (e_right e) 30)
    as Hr by absent.
  assert (Z.of_nat (length [node_1_20; node_2_10]) + 1 < size_t_max)%Z as Hbound
    by (vm_compute; reflexivity).
  assert (2 * length [node_1_20; node_2_10] + 4 < 10) as Hfuel by (simpl; lia).
  split_and!; [exact two_pairs_holds|exact two_pairs_allocated|exact Hl|exact Hr
              |exact Hbound|exact Hfuel|].
  destruct (erase_undoes_insert Nat.ltb Nat.ltb rnd ltb_irrefl ltb_trans
              ltb_irrefl ltb_trans two_pairs 0 _ 3 30 10
              two_pairs_holds two_pairs_allocated Hl Hr Hbound Hfuel)
    as (it & s1 & Hrun & Herase & _).
  exists it, s1. split; [exact Hrun|exact Herase].
Defined.

(** *** The right order, the bounds and the ranges *)

Lemma right_walk_is_increasing_witness :
  holds Nat.ltb Nat.ltb two_pairs 0 [node_1_20; node_2_10]
  ∧ [node_2_10; node_1_20] ≡ₚ [node_1_20; node_2_10]
  ∧ StronglySorted (λ e1 e2, Nat.ltb (e_right e1) (e_right e2) = true)
      [node_2_10; node_1_20]
  ∧ length [node_1_20; node_2_10] < 10
  ∧ begin_right 0 10 two_pairs = Ok (RightIt (Some 2), two_pairs)
  ∧ incr_right 10 (RightIt (Some 2)) two_pairs = Ok (RightIt (Some 1), two_pairs)
  ∧ incr_right 10 (RightIt (Some 1)) two_pairs = Ok (end_right 0, two_pairs).
Proof.
  destruct two_pairs_right_order as [Hperm Hs].
  assert (length [node_1_20; node_2_10] < 10) as Hfuel by (simpl; lia).
  destruct (right_walk_is_increasing Nat.ltb Nat.ltb ltb_irrefl ltb_trans
              two_pairs 0 _ _ 10 two_pairs_holds Hperm Hs Hfuel)
    as (Hb & Hstep & _).
  split_and!; [exact two_pairs_holds|exact Hperm|exact Hs|exact Hfuel|exact Hb| |].
  - exact (proj2 (proj2 (Hstep [] node_2_10 [node_1_20] eq_refl))).
  - exact (proj2 (proj2 (Hstep [node_2_10] node_1_20 [] eq_refl))).
Defined.

Lemma erase_right_returns_successor_witness :
  holds Nat.ltb Nat.ltb two_pairs 0 [node_1_20; node_2_10]
  ∧ [] ++ node_2_10 :: [node_1_20] ≡ₚ [node_1_20; node_2_10]
  ∧ StronglySorted (λ e1 e2, Nat.ltb (e_right e1) (e_right e2) = true)
      ([] ++ node_2_10 :: [node_1_20])
  ∧ 2 * length [node_1_20; node_2_10] + 2 < 10
  ∧ ∃ s' es1 es2,
      erase_right Nat.ltb Nat.ltb 0 10 (RightIt (Some 2)) two_pairs
      = Ok (RightIt (Some 1), s')
      ∧ [node_1_20; node_2_10] = es1 ++ node_2_10 :: es2
      ∧ holds Nat.ltb Nat.ltb s' 0 (es1 ++ es2)
      ∧ size 0 s' = Ok (1%Z, s').
Proof.
  destruct two_pairs_right_order as [Hperm Hs].
  assert (2 * length [node_1_20; node_2_10] + 2 < 10) as Hfuel by (simpl; lia).
  split_and!; [exact two_pairs_holds|exact Hperm|exact Hs|exact Hfuel|].
  exact (erase_right_returns_successor Nat.ltb Nat.ltb ltb_irrefl ltb_trans
           ltb_irrefl ltb_trans two_pairs 0 _ [] node_2_10 [node_1_20] 10
           two_pairs_holds Hperm Hs Hfuel).
Defined.

Lemma lower_bound_is_first_not_less_witness :
  holds Nat.ltb Nat.ltb two_pairs 0 [node_1_20; node_2_10]
  ∧ 2 * length [node_1_20; node_2_10] + 2 < 10
  ∧ ∃ s' pre post,
      lower_bound_left Nat.ltb 0 10 2 two_pairs
      = Ok (match post with
            | [] => end_left 0
            | e :: _ => LeftIt (Some (e_addr e))
            end, s')
      ∧ [node_1_20; node_2_10] = pre ++ post
      ∧ Forall (λ e, Nat.ltb (e_left e) 2 = true) pre
      ∧ Forall (λ e, Nat.ltb (e_left e) 2 = false) post
      ∧ holds Nat.ltb Nat.ltb s' 0 [node_1_20; node_2_10].
Proof.
  assert (2 * length [node_1_20; node_2_10] + 2 < 10) as Hfuel by (simpl; lia).
  split_and!; [exact two_pairs_holds|exact Hfuel|].
  exact (proj1 (lower_bound_is_first_not_less Nat.ltb Nat.ltb ltb_irrefl
                  ltb_trans ltb_irrefl ltb_trans two_pairs 0 _ 10
                  two_pairs_holds Hfuel) 2).
Defined.

Lemma upper_bound_of_absent_key_is_lower_bound_witness :
  holds Nat.ltb Nat.ltb two_pairs 0 [node_1_20; node_2_10]
  ∧ 2 * length [node_1_20; node_2_10] + 2 < 10
  ∧ (∀ e, e ∈ [node_1_20; node_2_10] → ¬ equiv_left Nat.ltb (e_left e) 0)
  ∧ upper_bound_left Nat.ltb 0 10 0 two_pairs
    = lower_bound_left Nat.ltb 0 10 0 two_pairs.
Proof.
  assert (2 * length [node_1_20; node_2_10] + 2 < 10) as Hfuel by (simpl; lia).
  assert (∀ e, e ∈ [node_1_20; node_2_10] → ¬ equiv_left Nat.ltb (e_left e) 0)
    as Hno by absent.
  split_and!; [exact two_pairs_holds|exact Hfuel|exact Hno|].
  exact (proj1 (upper_bound_of_absent_key_is_lower_bound Nat.ltb Nat.ltb
                  two_pairs 0 _ 10 two_pairs_holds Hfuel) 0 Hno).
Defined.

Lemma erase_left_range_erases_interval_witness :
  holds Nat.ltb Nat.ltb two_pairs 0 ([] ++ [node_1_20] ++ [node_2_10])
  ∧ length [node_1_20] < 5
  ∧ 2 * length ([] ++ [node_1_20] ++ [node_2_10]) + 2 < 10
  ∧ ∃ s',
      erase_left_range Nat.ltb Nat.ltb 0 5 10 (LeftIt (Some 1)) (LeftIt (Some 2))
        two_pairs
      = Ok (LeftIt (Some 2), s')
      ∧ holds Nat.ltb Nat.ltb s' 0 ([] ++ [node_2_10])
      ∧ size 0 s' = Ok (1%Z, s')
      ∧ left_nodes s' !! 1 = None ∧ right_nodes s' !! 1 = None.
Proof.
  assert (length [node_1_20] < 5) as Hcount by (simpl; lia).
  assert (2 * length ([] ++ [node_1_20] ++ [node_2_10]) + 2 < 10) as Hfuel
    by (simpl; lia).
  split_and!; [exact two_pairs_holds|exact Hcount|exact Hfuel|].
  destruct (erase_left_range_erases_interval Nat.ltb Nat.ltb ltb_irrefl ltb_trans
              ltb_irrefl ltb_trans two_pairs 0 [] [node_1_20] [node_2_10] 5 10
              two_pairs_holds Hcount Hfuel)
    as (s' & Hrun & Hh & Hsize & Hfreed & _).
  exists s'. split_and!; [exact Hrun|exact Hh|exact Hsize|..].
  - exact (proj1 (Hfreed node_1_20 (list_elem_of_here _ _))).
  - exact (proj2 (Hfreed node_1_20 (list_elem_of_here _ _))).
Defined.

Lemma clear_erases_every_node_witness :
  holds Nat.ltb Nat.ltb two_pairs 0 [node_1_20; node_2_10]
  ∧ length [node_1_20; node_2_10] < 5
  ∧ 2 * length [node_1_20; node_2_10] + 2 < 10
  ∧ ∃ s',
      clear Nat.ltb Nat.ltb 0 5 10 two_pairs = Ok (tt, s')
      ∧ holds Nat.ltb Nat.ltb s' 0 []
      ∧ size 0 s' = Ok (0%Z, s')
      ∧ begin_left 0 10 s' = Ok (end_left 0, s')
      ∧ left_nodes s' !! 2 = None ∧ right_nodes s' !! 2 = None.
Proof.
  assert (length [node_1_20; node_2_10] < 5) as Hcount by (simpl; lia).
  assert (2 * length [node_1_20; node_2_10] + 2 < 10) as Hfuel by (simpl; lia).
  split_and!; [exact two_pairs_holds|exact Hcount|exact Hfuel|].
  destruct (clear_erases_every_node Nat.ltb Nat.ltb ltb_irrefl ltb_trans
              ltb_irrefl ltb_trans two_pairs 0 _ 5 10
              two_pairs_holds Hcount Hfuel)
    as (s' & Hrun & Hh & Hsize & Hb & Hfreed & _).
  assert (node_2_10 ∈ [node_1_20; node_2_10]) as Hin.
  { apply list_elem_of_further, list_elem_of_here. }
  exists s'. split_and!; [exact Hrun|exact Hh|exact Hsize|exact Hb|..].
  - exact (proj1 (Hfreed node_2_10 Hin)).
  - exact (proj2 (Hfreed node_2_10 Hin)).
Defined.

Lemma erase_right_range_erases_interval_witness :
  holds Nat.ltb Nat.ltb two_pairs 0 [node_1_20; node_2_10]
  ∧ [] ++ [node_2_10] ++ [node_1_20] ≡ₚ [node_1_20; node_2_10]
  ∧ StronglySorted (λ e1 e2, Nat.ltb (e_right e1) (e_right e2) = true)
      ([] ++ [node_2_10] ++ [node_1_20])
  ∧ length [node_2_10] < 5
  ∧ 2 * length [node_1_20; node_2_10] + 2 < 10
  ∧ ∃ s' rest,
      erase_right_range Nat.ltb Nat.ltb 0 5 10 (RightIt (Some 2)) (RightIt (Some 1))
        two_pairs
      = Ok (RightIt (Some 1), s')
      ∧ holds Nat.ltb Nat.ltb s' 0 rest
      ∧ rest ≡ₚ [] ++ [node_1_20]
      ∧ size 0 s' = Ok (1%Z, s').
Proof.
  destruct two_pairs_right_order as [Hperm Hs].
  assert (length [node_2_10] < 5) as Hcount by (simpl; lia).
  assert (2 * length [node_1_20; node_2_10] + 2 < 10) as Hfuel by (simpl; lia).
  split_and!; [exact two_pairs_holds|exact Hperm|exact Hs|exact Hcount|exact Hfuel|].
  destruct (erase_right_range_erases_interval Nat.ltb Nat.ltb ltb_irrefl ltb_trans
              ltb_irrefl ltb_trans two_pairs 0 _ [] [node_2_10] [node_1_20] 5 10
              two_pairs_holds Hperm Hs Hcount Hfuel)
    as (s' & rest & Hrun & Hh & Hrest & Hsize & _).
  exists s', rest. split_and!; [exact Hrun|exact Hh|exact Hrest|exact Hsize].
Defined.

(** *** Copies, [swap] and [operator--] *)

Lemma copy_holds_the_same_pairs_unless_new_throws_witness :
  holds Nat.ltb Nat.ltb two_pairs 0 [node_1_20; node_2_10]
  ∧ allocated_below two_pairs
  ∧ length [node_1_20; node_2_10] < 5
  ∧ 2 * length [node_1_20; node_2_10] + 2 < 10
  ∧ (∃ this s' et,
       copy_construct Nat.ltb Nat.ltb rnd enough_memory 5 10 0 two_pairs
       = Ok (this, s')
       ∧ this ≠ 0
       ∧ holds Nat.ltb Nat.ltb s' this et
       ∧ pair_of <$> et = [(1, 20); (2, 10)]
       ∧ holds Nat.ltb Nat.ltb s' 0 [node_1_20; node_2_10]
       ∧ equal Nat.eqb Nat.eqb 5 10 this 0 s' = Ok (true, s'))
  ∧ (∃ this s',
       copy_construct Nat.ltb Nat.ltb rnd (memory_for 5) 5 10 0 two_pairs
       = Ok (this, s')
       ∧ holds Nat.ltb Nat.ltb s' this []
       ∧ empty this s' = Ok (true, s')
       ∧ holds Nat.ltb Nat.ltb s' 0 [node_1_20; node_2_10]).
Proof.
  assert (length [node_1_20; node_2_10] < 5) as Hcount by (simpl; lia).
  assert (2 * length [node_1_20; node_2_10] + 2 < 10) as Hfuel by (simpl; lia).
  split_and!; [exact two_pairs_holds|exact two_pairs_allocated|exact Hcount
              |exact Hfuel| |].
  - destruct (copy_holds_the_same_pairs_unless_new_throws Nat.ltb Nat.ltb
                Nat.eqb Nat.eqb rnd enough_memory
                ltb_irrefl ltb_trans ltb_irrefl ltb_trans two_pairs 0 _ 5 10
                two_pairs_holds two_pairs_allocated Hcount Hfuel)
      as (this & s' & et & Hrun & Hne & Ht & _ & Ho & _ & Hgood & _).
    destruct (Hgood (λ i _, eq_refl)) as [Hpairs Heq].
    exists this, s', et.
    split_and!; [exact Hrun|exact Hne|exact Ht|exact Hpairs|exact Ho
                |exact (Heq Nat.eqb_refl Nat.eqb_refl)].
  - destruct (copy_holds_the_same_pairs_unless_new_throws Nat.ltb Nat.ltb
                Nat.eqb Nat.eqb rnd (memory_for 5)
                ltb_irrefl ltb_trans ltb_irrefl ltb_trans two_pairs 0 _ 5 10
                two_pairs_holds two_pairs_allocated Hcount Hfuel)
      as (this & s' & et & Hrun & _ & Ht & _ & Ho & _ & _ & Hbad).
    destruct Hbad as [-> Hempty].
    { exists 1. split; [simpl; lia|reflexivity]. }
    exists this, s'. split_and!; [exact Hrun|exact Ht|exact Hempty|exact Ho].
Defined.

Lemma copy_assign_replaces_contents_unless_new_throws_witness :
  holds Nat.ltb Nat.ltb two_bimaps 2 [node_5_50]
  ∧ holds Nat.ltb Nat.ltb two_bimaps 0 [node_1_10]
  ∧ 2 ≠ 0
  ∧ [node_1_10] ≠ []
  ∧ allocated_below two_bimaps
  ∧ length [node_5_50] < 5
  ∧ length [node_1_10] < 5
  ∧ 2 * length [node_5_50] + 2 < 10
  ∧ 2 * length [node_1_10] + 2 < 10
  ∧ (∃ s' et',
       copy_assign Nat.ltb Nat.ltb rnd enough_memory 5 10 2 0 two_bimaps
       = Ok (tt, s')
       ∧ holds Nat.ltb Nat.ltb s' 2 et'
       ∧ pair_of <$> et' = [(1, 10)]
       ∧ holds Nat.ltb Nat.ltb s' 0 [node_1_10])
  ∧ (∃ s',
       copy_assign Nat.ltb Nat.ltb rnd (memory_for 4) 5 10 2 0 two_bimaps
       = Ok (tt, s')
       ∧ holds Nat.ltb Nat.ltb s' 2 []
       ∧ empty 2 s' = Ok (true, s')
       ∧ holds Nat.ltb Nat.ltb s' 0 [node_1_10]).
Proof.
  assert (2 ≠ 0) as Hne by lia.
  assert ([node_1_10] ≠ []) as Hnonempty by discriminate.
  assert (length [node_5_50] < 5) as Hc1 by (simpl; lia).
  assert (length [node_1_10] < 5) as Hc2 by (simpl; lia).
  assert (2 * length [node_5_50] + 2 < 10) as Hf1 by (simpl; lia).
  assert (2 * length [node_1_10] + 2 < 10) as Hf2 by (simpl; lia).
  split_and!; [exact two_bimaps_holds_2|exact two_bimaps_holds_0|exact Hne
              |exact Hnonempty|exact two_bimaps_allocated|exact Hc1|exact Hc2
              |exact Hf1|exact Hf2| |].
  - destruct (copy_assign_replaces_contents_unless_new_throws Nat.ltb Nat.ltb
                rnd enough_memory ltb_irrefl ltb_trans
                ltb_irrefl ltb_trans two_bimaps 2 0 _ _ 5 10
                two_bimaps_holds_2 two_bimaps_holds_0 Hne Hnonempty
                two_bimaps_allocated Hc1 Hc2 Hf1 Hf2)
      as (s' & et' & Hrun & Ht & _ & Ho & Hgood & _).
    exists s', et'.
    split_and!; [exact Hrun|exact Ht|exact (Hgood (λ i _, eq_refl))|exact Ho].
  - destruct (copy_assign_replaces_contents_unless_new_throws Nat.ltb Nat.ltb
                rnd (memory_for 4) ltb_irrefl ltb_trans
                ltb_irrefl ltb_trans two_bimaps 2 0 _ _ 5 10
                two_bimaps_holds_2 two_bimaps_holds_0 Hne Hnonempty
                two_bimaps_allocated Hc1 Hc2 Hf1 Hf2)
      as (s' & et' & Hrun & Ht & _ & Ho & _ & Hbad).
    destruct Hbad as [-> Hempty].
    { exists 0. split; [simpl; lia|reflexivity]. }
    exists s'. split_and!; [exact Hrun|exact Ht|exact Hempty|exact Ho].
Defined.

Lemma swap_exchanges_trees_not_sizes_witness :
  holds Nat.ltb Nat.ltb two_objects 0 [node_1_10]
  ∧ holds Nat.ltb Nat.ltb two_objects 2 []
  ∧ 0 ≠ 2
  ∧ ∃ s',
      swap 0 2 two_objects = Ok (tt, s')
      ∧ size 0 s' = Ok (1%Z, s')
      ∧ size 2 s' = Ok (0%Z, s')
      ∧ holds Nat.ltb Nat.ltb
          (Store (left_nodes s') (right_nodes s')
                 (<[0 := 0%Z]> (<[2 := 1%Z]> (sizes s')))
                 (next_addr s') (rand_calls s')) 2 [node_1_10].
Proof.
  assert (0 ≠ 2) as Hne by lia.
  split_and!; [exact two_objects_holds_0|exact two_objects_holds_2|exact Hne|].
  destruct (swap_exchanges_trees_not_sizes Nat.ltb Nat.ltb two_objects 0 2 _ _
              two_objects_holds_0 two_objects_holds_2 Hne)
    as (s' & Hrun & Hs0 & Hs2 & [_ Hh] & _).
  exists s'. split_and!; [exact Hrun|exact Hs0|exact Hs2|exact Hh].
Defined.

Lemma decrement_undoes_increment_witness :
  holds Nat.ltb Nat.ltb two_pairs 0 [node_1_20; node_2_10]
  ∧ [node_2_10; node_1_20] ≡ₚ [node_1_20; node_2_10]
  ∧ StronglySorted (λ e1 e2, Nat.ltb (e_right e1) (e_right e2) = true)
      [node_2_10; node_1_20]
  ∧ length [node_1_20; node_2_10] + 2 ≤ 10
  ∧ decr_left 10 (LeftIt (Some 2)) two_pairs = Ok (LeftIt (Some 1), two_pairs)
  ∧ decr_left 10 (LeftIt (Some 1)) two_pairs = Ok (LeftIt None, two_pairs)
  ∧ decr_left 10 (end_left 0) two_pairs = Ok (LeftIt (Some 2), two_pairs)
  ∧ decr_right 10 (end_right 0) two_pairs = Ok (RightIt (Some 1), two_pairs).
Proof.
  destruct two_pairs_right_order as [Hperm Hs].
  assert (length [node_1_20; node_2_10] + 2 ≤ 10) as Hfuel by (simpl; lia).
  destruct (decrement_undoes_increment Nat.ltb Nat.ltb ltb_irrefl ltb_trans
              two_pairs 0 _ _ 10 two_pairs_holds Hperm Hs Hfuel)
    as (Hl & Hle & _ & Hre).
  split_and!; [exact two_pairs_holds|exact Hperm|exact Hs|exact Hfuel
              | | |exact Hle|exact Hre].
  - exact (proj1 (Hl [node_1_20] node_2_10 [] eq_refl)).
  - exact (proj1 (Hl [] node_1_20 [node_2_10] eq_refl)).
Defined.

Lemma equality_is_reflexive_and_symmetric_witness :
  holds Nat.ltb Nat.ltb two_objects 0 [node_1_10]
  ∧ holds Nat.ltb Nat.ltb two_objects 2 []
  ∧ length [node_1_10] < 5
  ∧ length ([] : list (entry (L:=nat) (R:=nat))) < 5
  ∧ length [node_1_10] < 10
  ∧ length ([] : list (entry (L:=nat) (R:=nat))) < 10
  ∧ equal Nat.eqb Nat.eqb 5 10 0 2 two_objects = Ok (false, two_objects)
  ∧ equal Nat.eqb Nat.eqb 5 10 0 0 two_objects = Ok (true, two_objects)
  ∧ equal Nat.eqb Nat.eqb 5 10 0 2 two_objects
    = equal Nat.eqb Nat.eqb 5 10 2 0 two_objects.
Proof.
  assert (length [node_1_10] < 5) as Hc1 by (simpl; lia).
  assert (length ([] : list (entry (L:=nat) (R:=nat))) < 5) as Hc2 by (simpl; lia).
  assert (length [node_1_10] < 10) as Hf1 by (simpl; lia).
  assert (length ([] : list (entry (L:=nat) (R:=nat))) < 10) as Hf2
    by (simpl; lia).
  destruct (equality_is_reflexive_and_symmetric Nat.ltb Nat.ltb Nat.eqb Nat.eqb
              two_objects 0 2 _ _ 5 10 two_objects_holds_0 two_objects_holds_2
              Hc1 Hc2 Hf1 Hf2) as (Hne & Hrefl & Hsym & _).
  split_and!; [exact two_objects_holds_0|exact two_objects_holds_2|exact Hc1
              |exact Hc2|exact Hf1|exact Hf2|..].
  - apply Hne. simpl. lia.
  - exact (Hrefl Nat.eqb_refl Nat.eqb_refl).
  - exact (Hsym Nat.eqb_sym Nat.eqb_sym).
Defined.

End example_props.
